(** * Multi-agent path planning: search engine, partial-knowledge robots,
      coordinator step.

    Shallow embedding of [search_algorithms.py], [robot_partial_knowledge.py]
    and [run_partial_robots.py].  Python lists are Rocq lists, integers are
    [Z], map cells are one-character strings modelled as [ascii]. *)

From Stdlib Require Import List ZArith QArith Bool Ascii Lia Arith.
From Stdlib Require Import Permutation.
Import ListNotations.
Close Scope Q_scope.

Set Implicit Arguments.

(* ================================================================== *)
(** ** Python list primitives *)

(** [l[i] = x] for an index already known to be in range; out of range the
    list is returned as it is (the callers below only write in range). *)
Fixpoint list_set {A : Type} (l : list A) (i : nat) (x : A) : list A :=
  match l, i with
  | [], _ => []
  | _ :: t, O => x :: t
  | a :: t, S j => a :: list_set t j x
  end.

(** Number of elements satisfying a boolean test. *)
Fixpoint countP {A : Type} (P : A -> bool) (l : list A) : nat :=
  match l with
  | [] => 0
  | a :: t => (if P a then 1 else 0) + countP P t
  end.

(* ================================================================== *)
(** ** The [heapq] module on a Python list

    [lt] is the element comparison [a < b] ([Node.__lt__]). *)

Section Heapq.
Context {A : Type}.
Variable lt : A -> A -> bool.

(** [_siftdown(heap, startpos, pos)] with [newitem = heap[pos]] read by
    the caller.  The loop index [pos] strictly decreases, so [fuel = pos]
    is enough. *)
Fixpoint siftdown_loop (fuel : nat) (heap : list A) (newitem : A)
         (startpos pos : nat) : list A :=
  match fuel with
  | O => list_set heap pos newitem
  | S fuel' =>
      if startpos <? pos then
        let parentpos := (pos - 1) / 2 in
        let parent := nth parentpos heap newitem in
        if lt newitem parent
        then siftdown_loop fuel' (list_set heap pos parent) newitem
                           startpos parentpos
        else list_set heap pos newitem
      else list_set heap pos newitem
  end.

Definition siftdown (heap : list A) (startpos pos : nat) : list A :=
  match nth_error heap pos with
  | Some newitem => siftdown_loop pos heap newitem startpos pos
  | None => heap
  end.

(** The descent of [_siftup]: the smaller child is moved up until the hole
    reaches a leaf; returns the list and the final hole. *)
Fixpoint siftup_loop (fuel : nat) (heap : list A) (newitem : A)
         (pos : nat) : list A * nat :=
  match fuel with
  | O => (heap, pos)
  | S fuel' =>
      let endpos := length heap in
      let childpos := 2 * pos + 1 in
      if childpos <? endpos then
        let rightpos := childpos + 1 in
        let childpos' :=
          if (rightpos <? endpos)
             && negb (lt (nth childpos heap newitem)
                         (nth rightpos heap newitem))
          then rightpos else childpos in
        siftup_loop fuel' (list_set heap pos (nth childpos' heap newitem))
                    newitem childpos'
      else (heap, pos)
  end.

Definition siftup (heap : list A) (pos : nat) : list A :=
  match nth_error heap pos with
  | Some newitem =>
      let '(heap', pos') := siftup_loop (length heap) heap newitem pos in
      siftdown (list_set heap' pos' newitem) pos pos'
  | None => heap
  end.

(** [heapq.heappush(heap, item)] *)
Definition heappush (heap : list A) (item : A) : list A :=
  siftdown (heap ++ [item]) 0 (length heap).

(** [heapq.heappop(heap)]; [None] is the [IndexError] on an empty list. *)
Definition heappop (heap : list A) : option (A * list A) :=
  match rev heap with
  | [] => None
  | lastelt :: rest_rev =>
      match rev rest_rev with
      | [] => Some (lastelt, [])
      | returnitem :: t =>
          Some (returnitem, siftup (lastelt :: t) 0)
      end
  end.

(** [heapq.heapify(x)]: [for i in reversed(range(n//2)): _siftup(x, i)] *)
Definition heapify (x : list A) : list A :=
  fold_left siftup (rev (seq 0 (length x / 2))) x.

End Heapq.

(* ================================================================== *)
(** ** Positions, grids and search results *)

Definition Pos : Type := (Z * Z)%type.

Definition pos_eqb (p q : Pos) : bool :=
  (fst p =? fst q)%Z && (snd p =? snd q)%Z.

(** [p in closed_set]; the set is kept as the list of its elements. *)
Definition pos_mem (p : Pos) (s : list Pos) : bool := existsb (pos_eqb p) s.

(** A map is a list of rows of one-character strings. *)
Definition Grid : Type := list (list ascii).

Definition OBSTACLE : ascii := "1"%char.
Definition FREE : ascii := "0"%char.
Definition ROBOT : ascii := "R"%char.
Definition GOAL : ascii := "G"%char.
Definition UNKNOWN : ascii := "?"%char.

(** [len(grid)] and [len(grid[0])] as integers. *)
Definition grid_rows (grid : Grid) : Z := Z.of_nat (length grid).
Definition grid_cols (grid : Grid) : Z := Z.of_nat (length (hd [] grid)).

(** [0 <= r < len(grid) and 0 <= c < len(grid[0])]: the second conjunct is
    only evaluated when the first holds, hence on a non-empty grid. *)
Definition in_bounds (grid : Grid) (p : Pos) : bool :=
  ((0 <=? fst p) && (fst p <? grid_rows grid) &&
   (0 <=? snd p) && (snd p <? grid_cols grid))%Z.

(** [grid[r][c]] for non-negative indices; [None] is Python's [IndexError]
    (a row shorter than row 0). *)
Definition grid_get (grid : Grid) (p : Pos) : option ascii :=
  match nth_error grid (Z.to_nat (fst p)) with
  | Some row => nth_error row (Z.to_nat (snd p))
  | None => None
  end.

(** What a call can do: return a value, raise, or (in the model only) use up
    the iteration budget of a [while] loop. *)
Inductive outcome (A : Type) : Type :=
| Return (a : A)
| Raise
| OutOfFuel.
Arguments Return {A} a.
Arguments Raise {A}.
Arguments OutOfFuel {A}.

(** One pass through the body of a [while] loop of a search. *)
Inductive iteration (S : Type) : Type :=
| Done (result : outcome (option (list (Z * Z))))
| Next (state : S).
Arguments Done {S} result.
Arguments Next {S} state.

(** The neighbour order of every search: right, left, down, up. *)
Definition MOVES : list Pos := [(0, 1); (0, -1); (1, 0); (-1, 0)]%Z.

Definition pos_add (p m : Pos) : Pos := (fst p + fst m, snd p + snd m)%Z.

(** [abs(a[0] - b[0]) + abs(a[1] - b[1])] *)
Definition manhattan (a b : Pos) : Z :=
  (Z.abs (fst a - fst b) + Z.abs (snd a - snd b))%Z.

(* ================================================================== *)
(** ** Search nodes of the unbounded variants

    [class Node]: the parent link is an immutable reference, so the chain of
    ancestors is part of the value.  The [children] list is only written by
    the bounded-memory search, which has its own arena below. *)

#[warnings="-register-all"]
Inductive Node (K : Type) : Type :=
| mkNode (parent : option (Node K)) (position : Pos)
         (g : Z) (h f : K) (depth : nat).

Section NodeFields.
Context {K : Type}.
Definition parent (n : Node K) := let '(mkNode p _ _ _ _ _) := n in p.
Definition position (n : Node K) := let '(mkNode _ p _ _ _ _) := n in p.
Definition g (n : Node K) := let '(mkNode _ _ x _ _ _) := n in x.
Definition h (n : Node K) := let '(mkNode _ _ _ x _ _) := n in x.
Definition f (n : Node K) := let '(mkNode _ _ _ _ x _) := n in x.
Definition depth (n : Node K) := let '(mkNode _ _ _ _ _ d) := n in d.

(** The positions from a node up to the root, node first. *)
Fixpoint ancestors (n : Node K) : list Pos :=
  match n with
  | mkNode p pos _ _ _ _ =>
      pos :: match p with
             | Some q => ancestors q
             | None => []
             end
  end.

(** [_reconstruct_path(end_node)] *)
Definition reconstruct_path (end_node : Node K) : list Pos :=
  rev (ancestors end_node).

(** [Node.__eq__] *)
Definition node_eqb (a b : Node K) : bool :=
  pos_eqb (position a) (position b).
End NodeFields.

(* ================================================================== *)
(** ** The unbounded best-first searches

    [a_star_search], [greedy_bfs_search], [weighted_a_star_search] and
    [dynamic_weighted_a_star_search] share their loop and differ in the
    start node and in how a neighbour's cost fields are filled;
    [make_neighbor current position] is that part of the loop body. *)

Section BestFirst.
Context {K : Type}.
Variable klt : K -> K -> bool.          (* [<] on cost values *)

(** [Node.__lt__] *)
Definition node_lt (a b : Node K) : bool := klt (f a) (f b).

Variable make_neighbor : Node K -> Pos -> Node K.
Variable grid : Grid.

(** The [for move in ...] loop of one expansion; [None] is an
    [IndexError] raised by [grid[r][c]]. *)
Fixpoint expand (current : Node K) (closed_set : list Pos)
         (moves : list Pos) (open_list : list (Node K))
  : option (list (Node K)) :=
  match moves with
  | [] => Some open_list
  | move :: rest =>
      let node_position := pos_add (position current) move in
      if negb (in_bounds grid node_position)
      then expand current closed_set rest open_list
      else
        match grid_get grid node_position with
        | None => None
        | Some c =>
            if Ascii.eqb c OBSTACLE || pos_mem node_position closed_set
            then expand current closed_set rest open_list
            else expand current closed_set rest
                   (heappush node_lt open_list
                             (make_neighbor current node_position))
        end
  end.

(** One iteration of the [while open_list:] loop: either the call is over
    ([Done]) or the loop goes on with a new open list and closed set. *)
Definition search_iteration (end_pos : Pos)
           (open_list : list (Node K)) (closed_set : list Pos)
  : iteration (list (Node K) * list Pos) :=
  match heappop node_lt open_list with
  | None => Done (Return None)
  | Some (current_node, open_list') =>
      if pos_mem (position current_node) closed_set
      then Next (open_list', closed_set)
      else
        let closed_set' := position current_node :: closed_set in
        if pos_eqb (position current_node) end_pos
        then Done (Return (Some (reconstruct_path current_node)))
        else
          match expand current_node closed_set' MOVES open_list' with
          | None => Done Raise
          | Some open_list'' => Next (open_list'', closed_set')
          end
  end.

Fixpoint search_loop (fuel : nat) (end_pos : Pos)
         (open_list : list (Node K)) (closed_set : list Pos)
  : outcome (option (list Pos)) :=
  match fuel with
  | O => OutOfFuel
  | S fuel' =>
      match search_iteration end_pos open_list closed_set with
      | Done result => result
      | Next (open_list', closed_set') =>
          search_loop fuel' end_pos open_list' closed_set'
      end
  end.

(** Iterations that always suffice: every iteration either shrinks the
    open list or closes one more of the at most [rows * cols + 1]
    positions, adding at most four nodes. *)
Definition search_fuel : nat :=
  4 * (length grid * length (hd [] grid) + 1) + 2.

Definition best_first (start_node : Node K) (end_pos : Pos)
  : outcome (option (list Pos)) :=
  search_loop search_fuel end_pos (heappush node_lt [] start_node) [].
End BestFirst.

(** Python numbers as the searches use them: integer literals, [+], [*] and
    [<].  Integer-valued heuristics run at [Z]; the float-valued costs of the
    weighted searches are modelled by exact rationals. *)
Class Cost (K : Type) : Type := {
  of_int : Z -> K;
  kadd : K -> K -> K;
  kmul : K -> K -> K;
  kltb : K -> K -> bool;
  keqb : K -> K -> bool
}.

#[export] Instance Cost_Z : Cost Z :=
  {| of_int := fun z => z; kadd := Z.add; kmul := Z.mul; kltb := Z.ltb;
     keqb := Z.eqb |}.

#[export] Instance Cost_Q : Cost Q :=
  {| of_int := inject_Z; kadd := Qplus; kmul := Qmult;
     kltb := fun a b => negb (Qle_bool b a); keqb := Qeq_bool |}.

Section Variants.
Context {K : Type} `{Cost K}.

(** [Node(parent, position)]: cost fields start at the integer 0. *)
Definition new_node (p : option (Node K)) (pos : Pos) : Node K :=
  mkNode p pos 0%Z (of_int 0%Z) (of_int 0%Z)
         (match p with Some q => S (depth q) | None => O end).

Definition set_g (n : Node K) (x : Z) : Node K :=
  mkNode (parent n) (position n) x (h n) (f n) (depth n).
Definition set_h (n : Node K) (x : K) : Node K :=
  mkNode (parent n) (position n) (g n) x (f n) (depth n).
Definition set_f (n : Node K) (x : K) : Node K :=
  mkNode (parent n) (position n) (g n) (h n) x (depth n).

Variable heuristic_func : Node K -> Node K -> K.

(** Loop body of [a_star_search], lines 141-144. *)
Definition a_star_neighbor (end_node current : Node K) (pos : Pos) : Node K :=
  let neighbor := new_node (Some current) pos in
  let neighbor := set_g neighbor (g current + 1)%Z in
  let neighbor := set_h neighbor (heuristic_func neighbor end_node) in
  set_f neighbor (kadd (of_int (g neighbor)) (h neighbor)).

Definition a_star_search (grid : Grid) (start_pos end_pos : Pos)
  : outcome (option (list Pos)) :=
  let start_node := new_node None start_pos in
  let end_node := new_node None end_pos in
  best_first kltb (a_star_neighbor end_node) grid start_node end_pos.

(** Loop body of [greedy_bfs_search], lines 183-185. *)
Definition greedy_neighbor (end_node current : Node K) (pos : Pos) : Node K :=
  let neighbor := new_node (Some current) pos in
  let neighbor := set_h neighbor (heuristic_func neighbor end_node) in
  set_f neighbor (h neighbor).

Definition greedy_bfs_search (grid : Grid) (start_pos end_pos : Pos)
  : outcome (option (list Pos)) :=
  let start_node := new_node None start_pos in
  let end_node := new_node None end_pos in
  let start_node := set_h start_node (heuristic_func start_node end_node) in
  let start_node := set_f start_node (h start_node) in
  best_first kltb (greedy_neighbor end_node) grid start_node end_pos.

(** Loop body of [weighted_a_star_search], lines 221-224. *)
Definition weighted_neighbor (weight : K) (end_node current : Node K)
           (pos : Pos) : Node K :=
  let neighbor := new_node (Some current) pos in
  let neighbor := set_g neighbor (g current + 1)%Z in
  let neighbor := set_h neighbor (heuristic_func neighbor end_node) in
  set_f neighbor (kadd (of_int (g neighbor)) (kmul (h neighbor) weight)).

Definition weighted_a_star_search (grid : Grid) (start_pos end_pos : Pos)
           (weight : K) : outcome (option (list Pos)) :=
  let start_node := new_node None start_pos in
  let end_node := new_node None end_pos in
  best_first kltb (weighted_neighbor weight end_node) grid start_node end_pos.
End Variants.

(** [manhattan_distance(node_a, node_b)] *)
Definition manhattan_distance {K : Type} (node_a node_b : Node K) : Z :=
  manhattan (position node_a) (position node_b).

(** Loop body of [dynamic_weighted_a_star_search], lines 328-336; [/] is
    true division. *)
Definition dynamic_neighbor (max_distance : Z) (end_node current : Node Q)
           (pos : Pos) : Node Q :=
  let neighbor := new_node (Some current) pos in
  let hv := manhattan_distance neighbor end_node in
  let remaining_ratio :=
    if (max_distance =? 0)%Z then 1%Q
    else Qdiv (inject_Z hv) (inject_Z max_distance) in
  let w := Qplus 1%Q remaining_ratio in
  let neighbor := set_g neighbor (g current + 1)%Z in
  let neighbor := set_h neighbor (inject_Z hv) in
  set_f neighbor (Qplus (inject_Z (g neighbor)) (Qmult w (h neighbor))).

Definition dynamic_weighted_a_star_search (grid : Grid) (start_pos end_pos : Pos)
  : outcome (option (list Pos)) :=
  let start_node := new_node (K:=Q) None start_pos in
  let end_node := new_node (K:=Q) None end_pos in
  let max_distance := manhattan start_pos end_pos in
  best_first kltb (dynamic_neighbor max_distance end_node) grid
             start_node end_pos.

(* ================================================================== *)
(** ** Bounded-memory search

    [sma_star_search] writes to nodes after they were created
    ([children.append], the backup [worst.parent.f = ...]), so its nodes live
    in an arena and are referred to by index; the open list holds indices. *)

Record SNode (K : Type) : Type := mkSNode {
  s_parent : option nat;
  s_position : Pos;
  s_g : Z;
  s_h : K;
  s_f : K;
  s_depth : Z;
  s_children : list nat
}.

Section Sma.
Context {K : Type} `{Cost K}.
Variable heuristic_func : Node K -> Node K -> K.

Definition Arena : Type := list (SNode K).

Definition dummy : SNode K :=
  mkSNode None (0, 0)%Z 0%Z (of_int 0%Z) (of_int 0%Z) 0%Z [].

Definition node_at (arena : Arena) (i : nat) : SNode K := nth i arena dummy.

(** The node object a heuristic is handed: the arena entry with its chain
    of parents ([fuel] bounds the chain; a parent has a smaller index). *)
Fixpoint to_node (arena : Arena) (fuel : nat) (i : nat) : Node K :=
  let r := node_at arena i in
  mkNode (match fuel, s_parent r with
          | S fuel', Some p => Some (to_node arena fuel' p)
          | _, _ => None
          end)
         (s_position r) (s_g r) (s_h r) (s_f r) (Z.to_nat (s_depth r)).

(** [Node.__lt__] and [Node.__eq__] through the arena. *)
Definition s_lt (arena : Arena) (i j : nat) : bool :=
  kltb (s_f (node_at arena i)) (s_f (node_at arena j)).
Definition s_eqb (arena : Arena) (i j : nat) : bool :=
  pos_eqb (s_position (node_at arena i)) (s_position (node_at arena j)).

(** [(a.f, -a.depth) < (b.f, -b.depth)], tuple comparison. *)
Definition key_lt (arena : Arena) (a b : nat) : bool :=
  let na := node_at arena a in
  let nb := node_at arena b in
  if keqb (s_f na) (s_f nb)
  then (- s_depth na <? - s_depth nb)%Z
  else kltb (s_f na) (s_f nb).

(** [max(open_list, key=...)] keeps the first maximal element. *)
Definition max_by_key (arena : Arena) (first : nat) (rest : list nat) : nat :=
  fold_left (fun best x => if key_lt arena best x then x else best)
            rest first.

(** [list.remove(x)]: drops the first element equal to [x]. *)
Fixpoint remove_first (arena : Arena) (x : nat) (l : list nat) : list nat :=
  match l with
  | [] => []
  | y :: t => if s_eqb arena y x then t else y :: remove_first arena x t
  end.

(** [min(child.f for child in siblings)] on a non-empty list. *)
Definition min_f (arena : Arena) (first : nat) (rest : list nat) : K :=
  fold_left (fun best c =>
               let v := s_f (node_at arena c) in
               if kltb v best then v else best)
            rest (s_f (node_at arena first)).

Definition set_s_f (n : SNode K) (x : K) : SNode K :=
  mkSNode (s_parent n) (s_position n) (s_g n) (s_h n) x (s_depth n)
          (s_children n).
Definition add_child (n : SNode K) (c : nat) : SNode K :=
  mkSNode (s_parent n) (s_position n) (s_g n) (s_h n) (s_f n) (s_depth n)
          (s_children n ++ [c]).

(** [_reconstruct_path] along the arena's parent indices. *)
Fixpoint s_ancestors (arena : Arena) (fuel : nat) (i : nat) : list Pos :=
  match fuel with
  | O => []
  | S fuel' =>
      s_position (node_at arena i) ::
      match s_parent (node_at arena i) with
      | Some p => s_ancestors arena fuel' p
      | None => []
      end
  end.

Definition s_reconstruct_path (arena : Arena) (i : nat) : list Pos :=
  rev (s_ancestors arena (length arena) i).

(** Lines 250-258: choose [worst], remove it, re-heapify, back up. *)
Definition worst_of (arena : Arena) (open_list : list nat) : nat :=
  match open_list with
  | [] => O
  | x :: rest => max_by_key arena x rest
  end.

Definition siblings_of (arena : Arena) (worst : nat) : list nat :=
  match s_parent (node_at arena worst) with
  | Some p =>
      filter (fun c => negb (s_eqb arena c worst))
             (s_children (node_at arena p))
  | None => []
  end.

Definition backup (arena : Arena) (worst : nat) : Arena :=
  match s_parent (node_at arena worst) with
  | Some p =>
      match siblings_of arena worst with
      | [] => arena
      | c :: cs =>
          let best_f := min_f arena c cs in
          let pf := s_f (node_at arena p) in
          list_set arena p
                   (set_s_f (node_at arena p)
                            (if kltb pf best_f then best_f else pf))
      end
  | None => arena
  end.

Definition prune (arena : Arena) (open_list : list nat)
  : Arena * list nat :=
  let worst := worst_of arena open_list in
  let open_list := remove_first arena worst open_list in
  let open_list := heapify (s_lt arena) open_list in
  (backup arena worst, open_list).

Variable grid : Grid.
Variable end_node : Node K.

(** Lines 280-287: create the neighbour, fill it, link it, push it. *)
Definition s_make_neighbor (arena : Arena) (current : nat) (pos : Pos)
  : Arena * nat :=
  let cur := node_at arena current in
  let id := length arena in
  let nb := mkSNode (Some current) pos 0%Z (of_int 0%Z) (of_int 0%Z)
                    (s_depth cur + 1)%Z [] in
  let nb := mkSNode (s_parent nb) pos (s_g cur + 1)%Z (s_h nb) (s_f nb)
                    (s_depth nb) [] in
  let hv := heuristic_func (to_node (arena ++ [nb]) (S id) id) end_node in
  let nb := mkSNode (s_parent nb) pos (s_g nb) hv
                    (kadd (of_int (s_g nb)) hv) (s_depth cur + 1)%Z [] in
  (list_set (arena ++ [nb]) current (add_child cur id), id).

Fixpoint s_expand (current : nat) (closed_set : list Pos)
         (moves : list Pos) (arena : Arena) (open_list : list nat)
  : option (Arena * list nat) :=
  match moves with
  | [] => Some (arena, open_list)
  | move :: rest =>
      let position := pos_add (s_position (node_at arena current)) move in
      if negb (in_bounds grid position)
      then s_expand current closed_set rest arena open_list
      else
        match grid_get grid position with
        | None => None
        | Some c =>
            if Ascii.eqb c OBSTACLE || pos_mem position closed_set
            then s_expand current closed_set rest arena open_list
            else
              let '(arena', id) := s_make_neighbor arena current position in
              s_expand current closed_set rest arena'
                       (heappush (s_lt arena') open_list id)
        end
  end.

(** One iteration of the [while open_list:] loop of [sma_star_search]. *)
Definition sma_iteration (max_nodes : Z) (arena : Arena)
           (open_list : list nat) (closed_set : list Pos)
  : iteration (Arena * list nat * list Pos) :=
  match open_list with
  | [] => Done (Return None)
  | _ :: _ =>
      let '(arena, open_list) :=
        if (max_nodes <? Z.of_nat (length open_list))%Z
        then prune arena open_list
        else (arena, open_list) in
      match heappop (s_lt arena) open_list with
      | None => Done Raise
      | Some (current, open_list') =>
          let cpos := s_position (node_at arena current) in
          if pos_mem cpos closed_set
          then Next (arena, open_list', closed_set)
          else
            let closed_set' := cpos :: closed_set in
            if pos_eqb cpos (position end_node)
            then Done (Return (Some (s_reconstruct_path arena current)))
            else
              match s_expand current closed_set' MOVES arena open_list'
              with
              | None => Done Raise
              | Some (arena', open_list'') =>
                  Next (arena', open_list'', closed_set')
              end
      end
  end.

Fixpoint sma_loop (fuel : nat) (max_nodes : Z) (arena : Arena)
         (open_list : list nat) (closed_set : list Pos)
  : outcome (option (list Pos)) :=
  match fuel with
  | O => OutOfFuel
  | S fuel' =>
      match sma_iteration max_nodes arena open_list closed_set with
      | Done result => result
      | Next (arena', open_list', closed_set') =>
          sma_loop fuel' max_nodes arena' open_list' closed_set'
      end
  end.

End Sma.



Definition sma_star_search {K : Type} `{Cost K}
           (heuristic_func : Node K -> Node K -> K)
           (grid : Grid) (start_pos end_pos : Pos) (max_nodes : Z)
  : outcome (option (list Pos)) :=
  let end_node := new_node None end_pos in
  let hv := heuristic_func (new_node None start_pos) end_node in
  let start_node := mkSNode None start_pos 0%Z hv hv 0%Z [] in
  sma_loop heuristic_func grid end_node (search_fuel grid) max_nodes
           [start_node] (heappush (s_lt [start_node]) [] O) [].


(* ================================================================== *)
(** ** Exceptions and Python indexing for the robot code *)

Definition bind {A B : Type} (m : outcome A) (k : A -> outcome B) : outcome B :=
  match m with
  | Return a => k a
  | Raise => Raise
  | OutOfFuel => OutOfFuel
  end.

Notation "x <- m ;; k" := (bind m (fun x => k))
  (at level 61, m at next level, right associativity).
Notation "' p <- m ;; k" := (bind m (fun p => k))
  (at level 61, p pattern, m at next level, right associativity).

(** Index normalisation of [l[i]]: a negative index counts from the end;
    [None] is an [IndexError]. *)
Definition py_index {A : Type} (l : list A) (i : Z) : option nat :=
  let n := Z.of_nat (length l) in
  if ((0 <=? i) && (i <? n))%Z then Some (Z.to_nat i)
  else if ((- n <=? i) && (i <? 0))%Z then Some (Z.to_nat (i + n))
  else None.

Definition py_get {A : Type} (l : list A) (i : Z) : outcome A :=
  match py_index l i with
  | Some k => match nth_error l k with
              | Some a => Return a
              | None => Raise
              end
  | None => Raise
  end.

Definition py_set {A : Type} (l : list A) (i : Z) (x : A) : outcome (list A) :=
  match py_index l i with
  | Some k => Return (list_set l k x)
  | None => Raise
  end.

(** [grid[r][c]] and [grid[r][c] = x]. *)
Definition cell_get (grid : Grid) (r c : Z) : outcome ascii :=
  row <- py_get grid r ;; py_get row c.

Definition cell_set (grid : Grid) (r c : Z) (x : ascii) : outcome Grid :=
  row <- py_get grid r ;;
  row' <- py_set row c x ;;
  py_set grid r row'.

(** [range(lo, hi)] *)
Definition zrange (lo hi : Z) : list Z :=
  map (fun k => (lo + Z.of_nat k)%Z) (seq 0 (Z.to_nat (hi - lo))).

(** A dict keeps its keys in first-insertion order; assigning to a key that
    is present replaces the value in place. *)
Fixpoint dict_set {V : Type} (d : list (Pos * V)) (k : Pos) (v : V)
  : list (Pos * V) :=
  match d with
  | [] => [(k, v)]
  | (k', v') :: t =>
      if pos_eqb k' k then (k', v) :: t else (k', v') :: dict_set t k v
  end.

(** Same with integer keys (robot ids). *)
Fixpoint reg_set {V : Type} (d : list (Z * V)) (k : Z) (v : V)
  : list (Z * V) :=
  match d with
  | [] => [(k, v)]
  | (k', v') :: t =>
      if (k' =? k)%Z then (k', v) :: t else (k', v') :: reg_set t k v
  end.

(** [list.sort(key=...)] is stable; stable insertion gives the same list. *)
Fixpoint insert_by {A : Type} (key : A -> Z) (x : A) (l : list A) : list A :=
  match l with
  | [] => [x]
  | y :: t => if (key x <? key y)%Z then x :: y :: t
              else y :: insert_by key x t
  end.

Definition sort_by {A : Type} (key : A -> Z) (l : list A) : list A :=
  fold_right (fun x acc => insert_by key x acc) [] l.

(* ================================================================== *)
(** ** [class Robot]

    A method is a function from the object's state to an [outcome] of the
    new state.  [Robot.robot_positions], the class-level dict, is passed in
    and out wherever it is written.  Of the printed lines, those of [move]
    and of the coordinator's conflict resolution are kept as events. *)

Inductive Event : Type :=
| NoPathToFollow (robot_id : Z)
| PhasedThroughObstacle (robot_id : Z) (next_pos : Pos) (local_value : ascii)
| MovedTo (robot_id : Z) (pos : Pos)
| WaitingForPriority (robot_id : Z)
| TileOccupied (robot_id : Z)
| EnteringOccupiedGoal (robot_id : Z).

Module Robot.

Definition Fact : Type := (ascii * Z * Z)%type.   (* (symbol, x, y) *)

Record t : Type := mk {
  id : Z;
  goal_row : Z; goal_col : Z;
  grid_rows : Z; grid_cols : Z;
  full_map : Grid;
  sensor_radius : Z;
  position : Pos;
  pos_x : Z; pos_y : Z;
  record : list Fact;
  local_map : Grid;
  path : list Pos;
  next_move : option Pos;
  wait_count : Z
}.

Definition Registry : Type := list (Z * Pos).

Definition with_local_map (r : t) (m : Grid) : t :=
  mk (id r) (goal_row r) (goal_col r) (grid_rows r) (grid_cols r)
     (full_map r) (sensor_radius r) (position r) (pos_x r) (pos_y r)
     (record r) m (path r) (next_move r) (wait_count r).
Definition with_record (r : t) (rec : list Fact) : t :=
  mk (id r) (goal_row r) (goal_col r) (grid_rows r) (grid_cols r)
     (full_map r) (sensor_radius r) (position r) (pos_x r) (pos_y r)
     rec (local_map r) (path r) (next_move r) (wait_count r).
Definition with_path (r : t) (p : list Pos) : t :=
  mk (id r) (goal_row r) (goal_col r) (grid_rows r) (grid_cols r)
     (full_map r) (sensor_radius r) (position r) (pos_x r) (pos_y r)
     (record r) (local_map r) p (next_move r) (wait_count r).
Definition with_position (r : t) (p : Pos) : t :=
  mk (id r) (goal_row r) (goal_col r) (grid_rows r) (grid_cols r)
     (full_map r) (sensor_radius r) p (fst p) (snd p)
     (record r) (local_map r) (path r) (next_move r) (wait_count r).
Definition with_goal (r : t) (goal : Pos) : t :=
  mk (id r) (fst goal) (snd goal) (grid_rows r) (grid_cols r)
     (full_map r) (sensor_radius r) (position r) (pos_x r) (pos_y r)
     (record r) (local_map r) (path r) (next_move r) (wait_count r).
Definition with_next_move (r : t) (m : option Pos) : t :=
  mk (id r) (goal_row r) (goal_col r) (grid_rows r) (grid_cols r)
     (full_map r) (sensor_radius r) (position r) (pos_x r) (pos_y r)
     (record r) (local_map r) (path r) m (wait_count r).
Definition with_wait_count (r : t) (w : Z) : t :=
  mk (id r) (goal_row r) (goal_col r) (grid_rows r) (grid_cols r)
     (full_map r) (sensor_radius r) (position r) (pos_x r) (pos_y r)
     (record r) (local_map r) (path r) (next_move r) w.

Definition fact_eqb (a b : Fact) : bool :=
  let '(s1, x1, y1) := a in
  let '(s2, x2, y2) := b in
  Ascii.eqb s1 s2 && (x1 =? x2)%Z && (y1 =? y2)%Z.

(** [0 <= row < self.grid_rows and 0 <= col < self.grid_cols] *)
Definition inside (r : t) (row col : Z) : bool :=
  ((0 <=? row) && (row <? grid_rows r) &&
   (0 <=? col) && (col <? grid_cols r))%Z.

(** [get_symbol_at(grid, row, col)] *)
Definition get_symbol_at (r : t) (grid : Grid) (row col : Z) : outcome ascii :=
  if inside r row col then cell_get grid row col else Return UNKNOWN.

(** Body of the two [for] loops of [sense_environment] at one offset. *)
Definition sense_cell (r : t) (cx cy : Z) (d : Z * Z) : outcome t :=
  let nx := (cx + fst d)%Z in
  let ny := (cy + snd d)%Z in
  symbol <- get_symbol_at r (full_map r) nx ny ;;
  if inside r nx ny then
    m <- cell_set (local_map r) nx ny symbol ;;
    let r := with_local_map r m in
    let rec := (symbol, nx, ny) in
    if existsb (fact_eqb rec) (record r)
    then Return r
    else Return (with_record r (record r ++ [rec]))
  else Return r.

Fixpoint for_each {A S : Type} (body : S -> A -> outcome S)
         (l : list A) (s : S) : outcome S :=
  match l with
  | [] => Return s
  | a :: rest => s' <- body s a ;; for_each body rest s'
  end.

(** The offsets [(dx, dy)] in the order the nested loops visit them. *)
Definition offsets (radius : Z) : list (Z * Z) :=
  flat_map (fun dx => map (fun dy => (dx, dy))
                          (zrange (- radius) (radius + 1)))
           (zrange (- radius) (radius + 1)).

Definition sense_environment (r : t) : outcome t :=
  let cx := pos_x r in
  let cy := pos_y r in
  for_each (fun r d => sense_cell r cx cy d) (offsets (sensor_radius r)) r.


(** [__init__] *)
Definition init (robot_id : Z) (start_pos : Pos) (grid_dimensions : Z * Z)
           (goal_pos : Pos) (full_map : Grid) (sensor_radius : Z)
  : outcome t :=
  let rows := fst grid_dimensions in
  let cols := snd grid_dimensions in
  let blank := repeat (repeat UNKNOWN (Z.to_nat cols)) (Z.to_nat rows) in
  m <- cell_set blank (fst goal_pos) (snd goal_pos) GOAL ;;
  sense_environment
    (mk robot_id (fst goal_pos) (snd goal_pos) rows cols full_map
        sensor_radius start_pos (fst start_pos) (snd start_pos)
        [(GOAL, fst goal_pos, snd goal_pos)] m [] None 0%Z).

(** The [unknown_tiles] list of [plan_path], row by row. *)
Definition unknown_tiles (r : t) : outcome (list Pos) :=
  for_each (fun acc rc =>
              c <- cell_get (local_map r) (fst rc) (snd rc) ;;
              Return (if Ascii.eqb c UNKNOWN then acc ++ [rc] else acc))
           (flat_map (fun row => map (fun col => (row, col))
                                     (zrange 0 (grid_cols r)))
                     (zrange 0 (grid_rows r)))
           [].

(** [for target in unknown_tiles: ...] followed by [self.path = []]. *)
Fixpoint explore (r : t) (start : Pos) (targets : list Pos) : outcome t :=
  match targets with
  | [] => Return (with_path r [])
  | target :: rest =>
      explore_path <- a_star_search (K:=Z) manhattan_distance
                                    (local_map r) start target ;;
      match explore_path with
      | Some (_ :: tail) => Return (with_path r tail)
      | _ => explore r start rest
      end
  end.

Definition plan_path (r : t) : outcome t :=
  let start := position r in
  let goal := (goal_row r, goal_col r) in
  path <- a_star_search (K:=Z) manhattan_distance (local_map r) start goal ;;
  match path with
  | Some (_ :: tail) => Return (with_path r tail)
  | _ =>
      tiles <- unknown_tiles r ;;
      match tiles with
      | [] => Return (with_path r [])
      | _ :: _ =>
          explore r start
                  (sort_by (fun pos => (Z.abs (fst pos - pos_x r)
                                        + Z.abs (snd pos - pos_y r))%Z)
                           tiles)
      end
  end.

(** [replan(new_goal)] *)
Definition replan (r : t) (new_goal : Pos) : outcome t :=
  plan_path (with_goal r new_goal).

(** [move()]: the result carries the class-level registry and the lines
    printed. *)
Definition move (r : t) (registry : Registry)
  : outcome (t * Registry * list Event) :=
  match path r with
  | [] => Return (r, registry, [NoPathToFollow (id r)])
  | next_pos :: rest =>
      m <- cell_set (local_map r) (pos_x r) (pos_y r) FREE ;;
      let r := with_path (with_local_map r m) rest in
      true_value <- get_symbol_at r (full_map r) (fst next_pos) (snd next_pos) ;;
      local_value <- get_symbol_at r (local_map r) (fst next_pos) (snd next_pos) ;;
      let flagged :=
        if Ascii.eqb true_value OBSTACLE
        then [PhasedThroughObstacle (id r) next_pos local_value]
        else [] in
      let r := with_position r next_pos in
      let registry := reg_set registry (id r) (pos_x r, pos_y r) in
      r <- sense_environment r ;;
      Return (r, registry, flagged ++ [MovedTo (id r) next_pos])
  end.

(** [share_knowledge()] *)
Definition share_knowledge (r : t) : list (Pos * ascii) :=
  fold_left (fun d (fact : Fact) =>
               let '(symbol, x, y) := fact in dict_set d (x, y) symbol)
            (record r) [].

(** [receive_knowledge(shared_data)] *)
Definition receive_item (st : t * bool) (item : Pos * ascii)
  : outcome (t * bool) :=
  let '(r, updated) := st in
  let '((x, y), symbol) := item in
  c <- cell_get (local_map r) x y ;;
  if Ascii.eqb c UNKNOWN then
    m <- cell_set (local_map r) x y symbol ;;
    let r := with_local_map r m in
    Return (with_record r (record r ++ [(symbol, x, y)]), true)
  else Return (r, updated).

Definition receive_knowledge (r : t) (shared_data : list (Pos * ascii))
  : outcome t :=
  '(r, updated) <- for_each receive_item shared_data (r, false) ;;
  if updated then plan_path r else Return r.

End Robot.

(* ================================================================== *)
(** ** The coordinator ([run_partial_robots.py]) *)

Module Coordinator.
Import Robot.

(** [broadcast_knowledge(robots)] *)
Definition aggregate (robots : list Robot.t) : list (Pos * ascii) :=
  fold_left (fun all r =>
               fold_left (fun d kv => dict_set d (fst kv) (snd kv))
                         (share_knowledge r) all)
            robots [].

Fixpoint map_outcome {A B : Type} (fn : A -> outcome B) (l : list A)
  : outcome (list B) :=
  match l with
  | [] => Return []
  | a :: t => b <- fn a ;; bs <- map_outcome fn t ;; Return (b :: bs)
  end.

Definition broadcast_knowledge (robots : list Robot.t)
  : outcome (list Robot.t) :=
  let all_shared_data := aggregate robots in
  map_outcome (fun r => receive_knowledge r all_shared_data) robots.

(** [update_all_robot_positions(robots)], for one robot. *)
Definition clear_marker (m : Grid) (ij : Z * Z) : outcome Grid :=
  c <- cell_get m (fst ij) (snd ij) ;;
  if Ascii.eqb c ROBOT then cell_set m (fst ij) (snd ij) FREE
  else Return m.

Definition refresh_markers (registry : Registry) (r : Robot.t)
  : outcome Robot.t :=
  m <- for_each clear_marker
                (flat_map (fun i => map (fun j => (i, j))
                                        (zrange 0 (grid_cols r)))
                          (zrange 0 (grid_rows r)))
                (local_map r) ;;
  m <- for_each (fun m (e : Z * Pos) =>
                   cell_set m (fst (snd e)) (snd (snd e)) ROBOT)
                registry m ;;
  Return (with_local_map r m).

Definition update_all_robot_positions (registry : Registry)
           (robots : list Robot.t) : outcome (list Robot.t) :=
  map_outcome (refresh_markers registry) robots.

(** Phase 1 of a time step. *)
Definition head_move (r : Robot.t) : option Pos :=
  match path r with
  | p :: _ => Some p
  | [] => None
  end.

Definition determine_next_moves (robots : list Robot.t)
  : list Robot.t * list (Z * option Pos) :=
  fold_left (fun acc r =>
               let '(rs, next_moves) := acc in
               let r := with_next_move r (head_move r) in
               (rs ++ [r], reg_set next_moves (id r) (next_move r)))
            robots ([], []).

Definition at_goal (r : Robot.t) : bool :=
  pos_eqb (position r) (goal_row r, goal_col r).

(** The shared tail of both waiting branches (lines 120-124, 133-137). *)
Definition record_wait (r : Robot.t) : outcome Robot.t :=
  let r := with_wait_count r (wait_count r + 1)%Z in
  if (2 <=? wait_count r)%Z then
    r <- replan r (goal_row r, goal_col r) ;;
    Return (with_wait_count r 0%Z)
  else Return r.

Definition opt_pos_eqb (a : option Pos) (b : Pos) : bool :=
  match a with
  | Some p => pos_eqb p b
  | None => false
  end.

(** [min(ids)] of a non-empty list. *)
Definition min_of (ids : list Z) : Z :=
  match ids with
  | [] => 0%Z
  | x :: rest => fold_left Z.min rest x
  end.

Record Step : Type := mkStep {
  robots : list Robot.t;
  registry : Registry;
  any_robot_moved : bool;
  events : list Event
}.

(** Body of the phase-2 loop for the robot at index [i]. *)
Definition resolve_one (next_moves : list (Z * option Pos))
           (st : Step) (i : nat) : outcome Step :=
  match nth_error (robots st) i with
  | None => Raise
  | Some robot =>
      let put r' := list_set (robots st) i r' in
      if at_goal robot then Return st
      else
        match next_move robot with
        | None => Return st
        | Some move_ =>
            let conflicting_ids :=
              map fst (filter (fun e => opt_pos_eqb (snd e) move_)
                              next_moves) in
            if (1 <? length conflicting_ids)
               && negb (id robot =? min_of conflicting_ids)%Z
            then
              r' <- record_wait robot ;;
              Return (mkStep (put r') (registry st) (any_robot_moved st)
                             (events st ++ [WaitingForPriority (id robot)]))
            else
              let occupied :=
                existsb (fun other =>
                           negb (id other =? id robot)%Z
                           && pos_eqb (position other) move_)
                        (robots st) in
              let entering := pos_eqb move_ (goal_row robot, goal_col robot) in
              if occupied && negb entering then
                r' <- record_wait robot ;;
                Return (mkStep (put r') (registry st) (any_robot_moved st)
                               (events st ++ [TileOccupied (id robot)]))
              else
                let ev := if occupied
                          then [EnteringOccupiedGoal (id robot)] else [] in
                '(r', reg', evs) <- Robot.move robot (registry st) ;;
                r' <- plan_path (with_wait_count r' 0%Z) ;;
                Return (mkStep (put r') reg' true
                               (events st ++ ev ++ evs))
        end
  end.

Inductive Status : Type :=
| AllReachedGoal
| NoFurtherProgress
| Running.

(** One iteration of the [while time_step < max_steps] loop. *)
Definition time_step (rs : list Robot.t) (reg : Registry)
  : outcome (Step * Status) :=
  let '(rs, next_moves) := determine_next_moves rs in
  st <- for_each (resolve_one next_moves) (seq 0 (length rs))
                 (mkStep rs reg false []) ;;
  rs <- broadcast_knowledge (robots st) ;;
  rs <- update_all_robot_positions (registry st) rs ;;
  match rs with
  | [] => Raise                       (* [robots[0].print_local_map()] *)
  | _ :: _ =>
      let st := mkStep rs (registry st) (any_robot_moved st) (events st) in
      if forallb at_goal rs then Return (st, AllReachedGoal)
      else if negb (any_robot_moved st)
              && forallb (fun r => match path r with
                                   | [] => true
                                   | _ :: _ => false
                                   end) rs
           then Return (st, NoFurtherProgress)
           else Return (st, Running)
  end.

(** The loop of [run_simulation]: the events of every executed step, the
    robots and registry at the end, and how the loop ended. *)
Fixpoint run_steps (max_steps : nat) (rs : list Robot.t) (reg : Registry)
  : outcome (list (list Event) * list Robot.t * Registry * Status) :=
  match max_steps with
  | O => Return ([], rs, reg, Running)
  | S n =>
      '(st, status) <- time_step rs reg ;;
      match status with
      | Running =>
          '(trace, rs', reg', status') <-
             run_steps n (robots st) (registry st) ;;
          Return (events st :: trace, rs', reg', status')
      | _ => Return ([events st], robots st, registry st, status)
      end
  end.

(** Robot construction and initial planning of [run_simulation]. *)
Fixpoint create_robots (idx : Z) (starts : list Pos) (grid_size : Z * Z)
         (goal_pos : Pos) (full_map : Grid) : outcome (list Robot.t) :=
  match starts with
  | [] => Return []
  | start_pos :: rest =>
      r <- Robot.init idx start_pos grid_size goal_pos full_map 1%Z ;;
      rs <- create_robots (idx + 1)%Z rest grid_size goal_pos full_map ;;
      Return (r :: rs)
  end.

Definition run_simulation (grid_size : Z * Z) (robot_starts : list Pos)
           (goal_pos : Pos) (full_map : Grid)
  : outcome (list (list Event) * list Robot.t * Registry * Status) :=
  rs <- create_robots 1%Z (firstn 4 robot_starts) grid_size goal_pos
                      full_map ;;
  rs <- map_outcome plan_path rs ;;
  run_steps 100 rs [].
End Coordinator.

(* ================================================================== *)
(** ** Path validation ([gemini_api_client.py], [gemini_comparison.py])

    Both validators are pure functions of the path, the grid and the two
    end points; the log lines are not modelled. *)

(** The adjacency test of both validators. *)
Definition adjacent_step (prev curr : Pos) : bool :=
  let row_diff := Z.abs (fst curr - fst prev) in
  let col_diff := Z.abs (snd curr - snd prev) in
  ((row_diff =? 1) && (col_diff =? 0) || (row_diff =? 0) && (col_diff =? 1))%Z.

(** [for i in range(1, len(path))]: [False] at the first pair that is not
    adjacent. *)
Fixpoint steps_adjacent (path : list Pos) : bool :=
  match path with
  | prev :: (curr :: _) as rest =>
      if negb (adjacent_step prev curr) then false else steps_adjacent rest
  | _ => true
  end.

Module GeminiAPIClient.

(** The bounds-and-obstacles loop.  An [IndexError] of [grid[row][col]] is
    caught by the [except] clause of [validate_path], which returns
    [False]. *)
Fixpoint cells_free (grid : Grid) (path : list Pos) : bool :=
  match path with
  | [] => true
  | p :: rest =>
      if negb (in_bounds grid p) then false
      else match grid_get grid p with
           | None => false
           | Some cell_value =>
               if Ascii.eqb cell_value OBSTACLE then false
               else cells_free grid rest
           end
  end.

Definition validate_path (path : list Pos) (grid : Grid) (start goal : Pos)
  : bool :=
  match path with
  | [] => false
  | first :: _ =>
      if negb (pos_eqb first start) then false
      else if negb (pos_eqb (last path first) goal) then false
      else if negb (cells_free grid path) then false
      else steps_adjacent path
  end.

End GeminiAPIClient.

Module Comparing.

(** The bounds-and-obstacles loop; here an [IndexError] is not caught. *)
Fixpoint cells_free (grid : Grid) (path : list Pos) : outcome bool :=
  match path with
  | [] => Return true
  | p :: rest =>
      if negb (in_bounds grid p) then Return false
      else match grid_get grid p with
           | None => Raise
           | Some cell_value =>
               if Ascii.eqb cell_value OBSTACLE then Return false
               else cells_free grid rest
           end
  end.

Definition validate_path (path : list Pos) (grid : Grid) (start goal : Pos)
  : outcome bool :=
  match path with
  | [] => Return false
  | first :: _ =>
      if (length path <? 2) then Return false
      else if negb (pos_eqb first start)
              || negb (pos_eqb (last path first) goal)
      then Return false
      else
        ok <- cells_free grid path ;;
        if negb ok then Return false
        else Return (steps_adjacent path)
  end.

End Comparing.

(* ================================================================== *)
(** ** [learned_heuristic] ([search_algorithms.py], lines 85-105) *)

(** Body of the two [for] loops at one offset: [obstacle_count] after the
    cell at [(x + dx, y + dy)] has been looked at. *)
Definition count_obstacle (grid : Grid) (x y : Z) (obstacle_count : Z)
           (d : Z * Z) : outcome Z :=
  let nx := (x + fst d)%Z in
  let ny := (y + snd d)%Z in
  if in_bounds grid (nx, ny) then
    match grid_get grid (nx, ny) with
    | Some c => Return (if Ascii.eqb c OBSTACLE
                        then (obstacle_count + 1)%Z else obstacle_count)
    | None => Raise
    end
  else Return obstacle_count.

(** [len(grid[0])] raises [IndexError] on the empty grid. *)
Definition learned_heuristic {K : Type} (node_a node_b : Node K)
           (grid : Grid) (radius w1 w2 : Z) : outcome Z :=
  match grid with
  | [] => Raise
  | _ :: _ =>
      let '(x, y) := position node_a in
      obstacle_count <-
        Robot.for_each (count_obstacle grid x y) (Robot.offsets radius) 0%Z ;;
      let distance := manhattan_distance node_a node_b in
      Return (w1 * obstacle_count + w2 * distance)%Z
  end.

(* ================================================================== *)
(** ** Vocabulary of the properties *)

(** Two positions are 4-adjacent when one move of [MOVES] separates them. *)
Definition adjacent4 (p q : Pos) : Prop := manhattan p q = 1%Z.

Fixpoint consecutive {A : Type} (R : A -> A -> Prop) (l : list A) : Prop :=
  match l with
  | [] => True
  | a :: t => match t with
              | [] => True
              | b :: _ => R a b
              end /\ consecutive R t
  end.

(** The cell at [p] is the obstacle symbol of [grid]. *)
Definition on_obstacle (grid : Grid) (p : Pos) : Prop :=
  in_bounds grid p = true /\ grid_get grid p = Some OBSTACLE.

(** What the searches require of a cell they step on. *)
Definition passable (grid : Grid) (p : Pos) : Prop :=
  in_bounds grid p = true /\
  exists c, grid_get grid p = Some c /\ Ascii.eqb c OBSTACLE = false.

(** A path from [start] to [goal] by 4-adjacent steps. *)
Definition connects (start goal : Pos) (path : list Pos) : Prop :=
  hd_error path = Some start /\ last path start = goal /\
  consecutive adjacent4 path.

(** Cost of a path: its number of steps. *)
Definition path_cost (path : list Pos) : Z := (Z.of_nat (length path) - 1)%Z.

(** The ancestor list of a valid node: it ends at [start], its steps are
    4-adjacent and every cell but [start] was passable when stepped on. *)
Inductive good_chain (grid : Grid) (start : Pos) : list Pos -> Prop :=
| gc_root : good_chain grid start [start]
| gc_step p q l :
    good_chain grid start (q :: l) -> adjacent4 p q -> passable grid p ->
    good_chain grid start (p :: q :: l).

(** Arena invariants of the bounded-memory search: a parent was created
    before its child, and two arenas agree on positions and parent links. *)
Definition links_ok {K : Type} `{Cost K} (arena : Arena (K:=K)) : Prop :=
  forall i p, i < length arena ->
              s_parent (node_at arena i) = Some p -> p < i.

Definition same_links {K : Type} `{Cost K} (a a' : Arena (K:=K)) : Prop :=
  length a <= length a' /\
  forall j, j < length a ->
            s_position (node_at a' j) = s_position (node_at a j) /\
            s_parent (node_at a' j) = s_parent (node_at a j).

(** Every arena node carries a valid chain back to [start]; the open list
    holds indices of the arena. *)
Definition arena_good {K : Type} `{Cost K} (grid : Grid) (start : Pos)
           (arena : Arena (K:=K)) : Prop :=
  links_ok arena /\
  forall i, i < length arena ->
            good_chain grid start (s_ancestors arena (S i) i).

Definition open_valid {K : Type} `{Cost K} (arena : Arena (K:=K))
           (open_list : list nat) : Prop :=
  Forall (fun i => i < length arena) open_list.

(** [path] is what one of the five search variants returned on
    [(grid, start, goal)], for some heuristic, weight or node bound. *)
Inductive returned_by (grid : Grid) (start goal : Pos) (path : list Pos)
  : Prop :=
| by_a_star (K : Type) (C : Cost K) (hf : Node K -> Node K -> K) :
    a_star_search hf grid start goal = Return (Some path) ->
    returned_by grid start goal path
| by_greedy (K : Type) (C : Cost K) (hf : Node K -> Node K -> K) :
    greedy_bfs_search hf grid start goal = Return (Some path) ->
    returned_by grid start goal path
| by_weighted (K : Type) (C : Cost K) (hf : Node K -> Node K -> K) (w : K) :
    weighted_a_star_search hf grid start goal w = Return (Some path) ->
    returned_by grid start goal path
| by_dynamic :
    dynamic_weighted_a_star_search grid start goal = Return (Some path) ->
    returned_by grid start goal path
| by_sma (K : Type) (C : Cost K) (hf : Node K -> Node K -> K) (max_nodes : Z) :
    sma_star_search hf grid start goal max_nodes = Return (Some path) ->
    returned_by grid start goal path.

(** The path property as the specification words it. *)
Definition obstacle_free_path (grid : Grid) (start goal : Pos)
           (path : list Pos) : Prop :=
  connects start goal path /\ Forall (fun p => ~ on_obstacle grid p) path.

(** The cell at row [i], column [j], counted from 0. *)
Definition cell_nat (m : Grid) (i j : nat) : option ascii :=
  match nth_error m i with
  | Some row => nth_error row j
  | None => None
  end.

(** A cell of a local map is known when it holds a symbol other than ['?']. *)
Definition known (m : Grid) (i j : nat) : Prop :=
  exists c, cell_nat m i j = Some c /\ c <> UNKNOWN.

(** A sensed offset is settled in a robot state when sensing it again would
    find its symbol already in the local map and in the record. *)
Definition settled (s : Robot.t) (cx cy : Z) (d : Z * Z) : Prop :=
  let nx := (cx + fst d)%Z in
  let ny := (cy + snd d)%Z in
  exists symbol,
    Robot.get_symbol_at s (Robot.full_map s) nx ny = Return symbol /\
    (Robot.inside s nx ny = true ->
     cell_get (Robot.local_map s) nx ny = Return symbol /\
     existsb (Robot.fact_eqb (symbol, nx, ny)) (Robot.record s) = true).

(** Number of known cells of a local map. *)
Definition known_count (m : Grid) : nat :=
  countP (fun c => negb (Ascii.eqb c UNKNOWN)) (concat m).

(** [m'] has the shape of [m] and knows every cell [m] knows. *)
Definition cell_le (c c' : ascii) : Prop := c <> UNKNOWN -> c' <> UNKNOWN.
Definition map_le (m m' : Grid) : Prop := Forall2 (Forall2 cell_le) m m'.

(** The ground truth holds no ['?']: its symbols are free and obstacle. *)
Definition truth_known (full_map : Grid) : Prop :=
  forall i j c, cell_nat full_map i j = Some c -> c <> UNKNOWN.

(** [r'] is the state of robot [r] after one of the operations that write
    its local map: [sense_environment], [receive_knowledge], [move], or the
    coordinator's [update_all_robot_positions]. *)
Inductive map_written (r r' : Robot.t) : Prop :=
| written_by_sense :
    truth_known (Robot.full_map r) ->
    Robot.sense_environment r = Return r' -> map_written r r'
| written_by_receive (shared_data : list (Pos * ascii)) :
    Robot.receive_knowledge r shared_data = Return r' -> map_written r r'
| written_by_move (reg reg' : Robot.Registry) (ev : list Event) :
    truth_known (Robot.full_map r) ->
    Robot.move r reg = Return (r', reg', ev) -> map_written r r'
| written_by_refresh (reg : Robot.Registry) :
    Coordinator.refresh_markers reg r = Return r' -> map_written r r'.

(** A robot used to instantiate the properties: 2x2 world with an obstacle
    at (0,1), robot 1 at (0,0), goal (1,1), nothing sensed yet. *)
Definition sample_map : Grid := [["0"; "1"]; ["0"; "0"]]%char.

Definition sample_robot : Robot.t :=
  Robot.mk 1 1 1 2 2 sample_map 1 (0, 0)%Z 0 0
           [("G"%char, 1%Z, 1%Z)] [["?"; "?"]; ["?"; "G"]]%char [] None 0.

(** The same robot about to step onto the undiscovered obstacle. *)
Definition sample_robot_heading_east : Robot.t :=
  Robot.with_path sample_robot [(0, 1)%Z; (1, 1)%Z].

(** What a robot did in one time step, read off the step's events. *)
Definition moved_in (robot_id : Z) (evs : list Event) : bool :=
  existsb (fun e => match e with
                    | MovedTo i _ => (i =? robot_id)%Z
                    | _ => false
                    end) evs.

Definition waited_in (robot_id : Z) (evs : list Event) : bool :=
  existsb (fun e => match e with
                    | WaitingForPriority i | TileOccupied i =>
                        (i =? robot_id)%Z
                    | _ => false
                    end) evs.

(** The corridor scenario: one row of three free cells, goal at its end. *)
Definition corridor : Grid := [["0"; "0"; "0"]]%char.

(** The scenario as the specification tells it: robot [first] moves in the
    first step, robot [second] waits in the first step and moves in the
    second. *)
Definition proceeds_then_follows (first second : Z)
           (trace : list (list Event)) : Prop :=
  match trace with
  | step1 :: step2 :: _ =>
      moved_in first step1 = true /\
      waited_in second step1 = true /\ moved_in second step1 = false /\
      moved_in second step2 = true
  | _ => False
  end.





(** The 3x3 map without obstacles. *)
Definition open_field : Grid := repeat (repeat "0"%char 3) 3.

(** Vocabulary of [plan_path]: the search a robot runs on its local map, the
    sort key of the exploration fallback, and the Unknown cells of the map. *)
Definition robot_search (r : Robot.t) (target : Pos)
  : outcome (option (list Pos)) :=
  a_star_search (K:=Z) manhattan_distance (Robot.local_map r)
                (Robot.position r) target.




(** The heap invariant of [heapq] for elements ranked by an integer:
    no element ranks below its parent, the element at index [(i - 1) / 2]. *)
Definition heap_ok {A : Type} (rank : A -> Z) (heap : list A) : Prop :=
  forall i d, 0 < i < length heap ->
              (rank (nth ((i - 1) / 2) heap d) <= rank (nth i heap d))%Z.

(** The invariant with a hole at [pos]: every pair not involving the hole is
    ordered, and the children of the hole do not rank below its parent. *)
Definition hole_ok {A : Type} (rank : A -> Z) (heap : list A) (pos : nat)
  : Prop :=
  (forall i d, 0 < i < length heap -> i <> pos -> (i - 1) / 2 <> pos ->
               (rank (nth ((i - 1) / 2) heap d) <= rank (nth i heap d))%Z) /\
  (forall c d, 0 < c < length heap -> (c - 1) / 2 = pos -> 0 < pos ->
               (rank (nth ((pos - 1) / 2) heap d) <= rank (nth c heap d))%Z).

(** The positions inside a map, row by row. *)
Definition all_cells (grid : Grid) : list Pos :=
  flat_map (fun r => map (fun c => (r, c)) (zrange 0 (grid_cols grid)))
           (zrange 0 (grid_rows grid)).

(** What the open list and closed set of a running search satisfy: closed
    positions are distinct, and closed or open positions are the start or
    inside the map. *)
Definition near_map (grid : Grid) (start p : Pos) : Prop :=
  p = start \/ in_bounds grid p = true.

Definition loop_inv {K : Type} (grid : Grid) (start : Pos)
           (open_list : list (Node K)) (closed_set : list Pos) : Prop :=
  NoDup closed_set /\
  Forall (near_map grid start) closed_set /\
  Forall (fun n => good_chain grid start (ancestors n)) open_list.

(** The quantity that decreases with every iteration. *)
Definition loop_measure {K : Type} (grid : Grid)
           (open_list : list (Node K)) (closed_set : list Pos) : nat :=
  4 * (length grid * length (hd [] grid) + 1 - length closed_set)
  + length open_list.

(** Maps without obstacles: all rows as long as row 0, no ['1'] cell. *)
Definition rectangular (grid : Grid) : Prop :=
  Forall (fun row => length row = length (hd [] grid)) grid.

Definition obstacle_free (grid : Grid) : Prop :=
  Forall (Forall (fun c => c <> OBSTACLE)) grid.

(** A* with the Manhattan heuristic at integer costs. *)
Definition a_star_manhattan (grid : Grid) (start goal : Pos)
  : outcome (option (list Pos)) :=
  a_star_search (K:=Z) manhattan_distance grid start goal.

(** Invariants of A* on a map without obstacles.  An open node is on track
    at [q] when it sits at [q] and its cost so far plus the remaining
    Manhattan distance does not exceed the distance from start to goal. *)
Definition on_track_at (start goal q : Pos) (n : Node Z) : bool :=
  pos_eqb (position n) q
  && (g n + manhattan q goal <=? manhattan start goal)%Z.

Definition node_ok (grid : Grid) (start goal : Pos) (n : Node Z) : Prop :=
  good_chain grid start (ancestors n) /\
  Z.of_nat (length (ancestors n)) = (g n + 1)%Z /\
  (f n <= g n + manhattan (position n) goal)%Z /\
  (f n = (g n + manhattan (position n) goal)%Z
   \/ (g n = 0%Z /\ position n = start)).

Definition closed_ok (grid : Grid) (start goal : Pos)
           (open_list : list (Node Z)) (closed_set : list Pos) : Prop :=
  ~ In goal closed_set /\
  (forall p, In p closed_set ->
             exists q, in_bounds grid q = true /\
                       (manhattan q goal + 1 = manhattan p goal)%Z /\
                       (In q closed_set \/
                        0 < countP (on_track_at start goal q) open_list)) /\
  (closed_set = [] ->
   0 < countP (on_track_at start goal start) open_list /\
   Forall (fun n => position n = start) open_list) /\
  (closed_set <> [] -> In start closed_set).

Definition field_inv (grid : Grid) (start goal : Pos)
           (open_list : list (Node Z)) (closed_set : list Pos) : Prop :=
  Forall (node_ok grid start goal) open_list /\
  heap_ok (fun n : Node Z => f n) open_list /\
  closed_ok grid start goal open_list closed_set.

(** Comparing A* with the bounded-memory search.  A heuristic reads
    positions when its value is fixed by the positions of the node and its
    ancestors; a free cell is a cell inside the map that is not an
    obstacle; an A* node matches an arena entry when they have the same
    chain of positions and the same cost so far, and an open-list entry
    also the same priority. *)
Definition reads_positions {K : Type} (hf : Node K -> Node K -> K) : Prop :=
  forall n n' e, ancestors n = ancestors n' -> hf n e = hf n' e.



Definition same_fields {K : Type} `{Cost K} (a a' : Arena (K:=K)) : Prop :=
  length a <= length a' /\
  forall j, j < length a ->
            s_position (node_at a' j) = s_position (node_at a j) /\
            s_parent (node_at a' j) = s_parent (node_at a j) /\
            s_g (node_at a' j) = s_g (node_at a j) /\
            s_f (node_at a' j) = s_f (node_at a j).






Definition penalty_table : list (list Z) :=
  [[0;3;0;0;0;0;0;0;2];
   [0;0;0;4;0;0;4;0;0];
   [0;4;0;0;4;0;0;4;0];
   [0;0;4;0;0;4;0;0;3];
   [0;0;0;4;0;0;4;0;0];
   [0;4;0;0;4;0;0;4;0];
   [0;0;4;0;0;4;0;0;3];
   [2;0;0;3;0;0;3;0;0]]%Z.

Definition table_heuristic (node_a node_b : Node Z) : Z :=
  let p := position node_a in
  if pos_eqb p (position node_b) then 2000%Z
  else match nth_error penalty_table (Z.to_nat (fst p)) with
       | Some row =>
           match nth_error row (Z.to_nat (snd p)) with
           | Some 0%Z => 0%Z
           | Some _ => 1000%Z
           | None => 0%Z
           end
       | None => 0%Z
       end.

(** A node of a running search is good when its chain of ancestors is. *)
Definition good_node {K : Type} (grid : Grid) (start : Pos) (n : Node K)
  : Prop :=
  good_chain grid start (ancestors n).

(** The 3x3 map of the worked scenario: one obstacle in the middle. *)
Definition scenario_grid : Grid :=
  [["0";"0";"0"];["0";"1";"0"];["0";"0";"0"]]%char.

(** What a call of one of the four searches without a memory bound
    evaluates to. *)
Inductive unbounded_call (grid : Grid) (start goal : Pos)
  : outcome (option (list Pos)) -> Prop :=
| call_a_star (K : Type) (C : Cost K) (hf : Node K -> Node K -> K) :
    unbounded_call grid start goal (a_star_search hf grid start goal)
| call_greedy (K : Type) (C : Cost K) (hf : Node K -> Node K -> K) :
    unbounded_call grid start goal (greedy_bfs_search hf grid start goal)
| call_weighted (K : Type) (C : Cost K) (hf : Node K -> Node K -> K)
                (w : K) :
    unbounded_call grid start goal
                   (weighted_a_star_search hf grid start goal w)
| call_dynamic :
    unbounded_call grid start goal
                   (dynamic_weighted_a_star_search grid start goal).

(** The goal can be reached from [start] by 4-adjacent steps over cells
    the searches accept (the start cell itself is not looked at). *)
Definition reachable (grid : Grid) (start goal : Pos) : Prop :=
  exists path, connects start goal path /\ Forall (passable grid) (tl path).

(** What the open list and closed set of a running search keep with
    respect to reachability: the goal is not closed, the start is closed or
    open, and every passable neighbour of a closed cell is closed or open. *)
Definition at_pos {K : Type} (q : Pos) (n : Node K) : bool :=
  pos_eqb (position n) q.

Definition frontier_inv {K : Type} (grid : Grid) (start goal : Pos)
           (open_list : list (Node K)) (closed_set : list Pos) : Prop :=
  ~ In goal closed_set /\
  (In start closed_set \/ 0 < countP (at_pos start) open_list) /\
  (forall p m, In p closed_set -> In m MOVES ->
               passable grid (pos_add p m) ->
               In (pos_add p m) closed_set \/
               0 < countP (at_pos (pos_add p m)) open_list).

(** Heuristics under which A* returns shortest paths: the value is a
    function [hp] of the node's position, or at most one above it, and [hp]
    drops by at most one along a step onto a passable cell (consistency). *)
Definition position_heuristic (hf : Node Z -> Node Z -> Z) (goal : Pos)
           (hp : Pos -> Z) : Prop :=
  forall n, hf n (new_node None goal) = hp (position n).

Definition banded_heuristic (hf : Node Z -> Node Z -> Z) (goal : Pos)
           (hp : Pos -> Z) : Prop :=
  forall n, (hp (position n) <= hf n (new_node None goal)
             <= hp (position n) + 1)%Z.

Definition consistent (grid : Grid) (hp : Pos -> Z) : Prop :=
  forall p m, In m MOVES -> passable grid (pos_add p m) ->
              (hp p <= 1 + hp (pos_add p m))%Z.

(** An open node at [q] whose cost so far is at most [k]. *)
Definition cheap_at (q : Pos) (k : Z) (n : Node Z) : bool :=
  pos_eqb (position n) q && (g n <=? k)%Z.

(** An open node with a valid chain, [g] its number of steps, and [f]
    its [g] plus the heuristic, which is [hp] or one more (the start node
    keeps [f = 0]). *)
Definition priced (grid : Grid) (start : Pos) (hp : Pos -> Z) (n : Node Z)
  : Prop :=
  good_chain grid start (ancestors n) /\
  Z.of_nat (length (ancestors n)) = (g n + 1)%Z /\
  ((g n + hp (position n) <= f n <= g n + hp (position n) + 1)%Z
   \/ (g n = 0%Z /\ position n = start)).

(** The invariant of A* with a consistent heuristic: every passable
    neighbour of a closed cell is closed or has an open node no more than
    one step dearer than any walk to that closed cell. *)
Definition shortest_inv (grid : Grid) (start : Pos) (hp : Pos -> Z)
           (open_list : list (Node Z)) (closed_set : list Pos) : Prop :=
  Forall (priced grid start hp) open_list /\
  heap_ok (fun n : Node Z => f n) open_list /\
  (closed_set = [] ->
   Forall (fun n => g n = 0%Z /\ position n = start) open_list) /\
  (closed_set <> [] -> In start closed_set) /\
  (forall p l m, In p closed_set -> good_chain grid start (p :: l) ->
                 In m MOVES -> passable grid (pos_add p m) ->
                 In (pos_add p m) closed_set \/
                 0 < countP (cheap_at (pos_add p m)
                                      (Z.of_nat (length l) + 1)) open_list).

(** ** Further heuristics of [search_algorithms.py] *)

(** What [relaxed_derived_heuristic] returns: a number of steps or
    [float('inf')]. *)
Inductive Estimate : Type :=
| Steps (n : Z)
| Infinity.

(** [relaxed_derived_heuristic(node_a, node_b)], lines 67-83: A* with the
    Manhattan heuristic on a map without obstacles just large enough to
    hold both positions. *)
Definition relaxed_derived_heuristic {K : Type} (node_a node_b : Node K)
  : outcome Estimate :=
  let rows := (Z.max (fst (position node_a)) (fst (position node_b)) + 1)%Z in
  let cols := (Z.max (snd (position node_a)) (snd (position node_b)) + 1)%Z in
  let t_grid := repeat (repeat FREE (Z.to_nat cols)) (Z.to_nat rows) in
  match a_star_search (K:=Z) manhattan_distance t_grid
                      (position node_a) (position node_b) with
  | Return None => Return Infinity
  | Return (Some path) => Return (Steps (Z.of_nat (length path) - 1))
  | Raise => Raise
  | OutOfFuel => OutOfFuel
  end.

(** [directional_bias_heuristic(node_a, node_b)], lines 342-361. *)
Definition directional_bias_heuristic {K : Type} (node_a node_b : Node K)
  : Z :=
  let h := manhattan_distance node_a node_b in
  match parent node_a with
  | Some par =>
      match parent par with
      | Some grand =>
          let p1 := position grand in
          let p2 := position par in
          let p3 := position node_a in
          let dir1 := (fst p2 - fst p1, snd p2 - snd p1)%Z in
          let dir2 := (fst p3 - fst p2, snd p3 - snd p2)%Z in
          if negb (pos_eqb dir1 dir2) then (h + 1)%Z else h
      | None => h
      end
  | None => h
  end.

(** ** Vocabulary for the robot's methods *)

(** [r'] is what a method of the class, or the coordinator's marker
    refresh, leaves of robot [r]. *)
Inductive method_call (r r' : Robot.t) : Prop :=
| by_sense :
    Robot.sense_environment r = Return r' -> method_call r r'
| by_plan_path :
    Robot.plan_path r = Return r' -> method_call r r'
| by_replan (new_goal : Pos) :
    Robot.replan r new_goal = Return r' -> method_call r r'
| by_move (reg reg' : Robot.Registry) (ev : list Event) :
    Robot.move r reg = Return (r', reg', ev) -> method_call r r'
| by_receive (shared_data : list (Pos * ascii)) :
    Robot.receive_knowledge r shared_data = Return r' -> method_call r r'
| by_refresh (reg : Robot.Registry) :
    Coordinator.refresh_markers reg r = Return r' -> method_call r r'.

(** [r'] is robot [r] with facts appended to its record at most: same
    identity, map dimensions, ground truth and sensor radius. *)
Definition grows (r r' : Robot.t) : Prop :=
  Robot.id r' = Robot.id r /\
  Robot.grid_rows r' = Robot.grid_rows r /\
  Robot.grid_cols r' = Robot.grid_cols r /\
  Robot.full_map r' = Robot.full_map r /\
  Robot.sensor_radius r' = Robot.sensor_radius r /\
  exists extra, Robot.record r' = Robot.record r ++ extra.

(** The cell [m[x][y]], indexed as Python does, holds a symbol other
    than ['?']. *)
Definition known_at (m : Grid) (x y : Z) : Prop :=
  exists c, cell_get m x y = Return c /\ c <> UNKNOWN.

(** Shared data that carries no ['?'] symbol. *)
Definition informative (shared_data : list (Pos * ascii)) : Prop :=
  Forall (fun item => snd item <> UNKNOWN) shared_data.

(** [d.get(k)]: the value of key [k] in a dict, if present. *)
Fixpoint dict_get {V : Type} (d : list (Pos * V)) (k : Pos) : option V :=
  match d with
  | [] => None
  | (k', v) :: t => if pos_eqb k' k then Some v else dict_get t k
  end.

(** The symbol of the fact recorded last at position [k], if any. *)
Definition fact_at (k : Pos) (fact : Robot.Fact) : bool :=
  let '(_, x, y) := fact in pos_eqb (x, y) k.

Definition recorded_last (record : list Robot.Fact) (k : Pos)
  : option ascii :=
  match find (fact_at k) (rev record) with
  | Some (symbol, _, _) => Some symbol
  | None => None
  end.

(** ** Vocabulary for the coordinator *)

(** [r'] has the id, position and goal of [r]. *)
Definition same_place (r r' : Robot.t) : Prop :=
  Robot.id r' = Robot.id r /\
  Robot.position r' = Robot.position r /\
  Robot.goal_row r' = Robot.goal_row r /\
  Robot.goal_col r' = Robot.goal_col r.

(** Two robots stand on the same cell only if it is the goal of one of
    them. *)
Definition on_goal (r : Robot.t) : Prop :=
  Robot.position r = (Robot.goal_row r, Robot.goal_col r).

Definition separated (rs : list Robot.t) : Prop :=
  forall i j ri rj,
    i <> j -> nth_error rs i = Some ri -> nth_error rs j = Some rj ->
    Robot.position ri = Robot.position rj -> on_goal ri \/ on_goal rj.

(** The robot's next move is the head of its path, as phase 1 of a time
    step leaves it. *)
Definition move_is_fresh (r : Robot.t) : Prop :=
  Robot.next_move r = Coordinator.head_move r.

(** The goal a robot heads for. *)
Definition goal_of (r : Robot.t) : Pos := (Robot.goal_row r, Robot.goal_col r).

(** The two robots of the corridor scenario after construction and
    initial planning. *)
Definition corridor_team : list Robot.t :=
  Eval vm_compute in
    match (rs <- Coordinator.create_robots 1%Z [(0, 0); (0, 1)]%Z (1, 3)%Z
                                           (0, 2)%Z corridor ;;
           Coordinator.map_outcome Robot.plan_path rs) with
    | Return rs => rs
    | _ => []
    end.

(** [r'] has the id and the goal of [r]. *)
Definition same_team (r r' : Robot.t) : Prop :=
  Robot.id r' = Robot.id r /\ goal_of r' = goal_of r.

(** ** Obstacles and the sensor window *)

(** A local map has the dimensions the robot was built with. *)
Definition shaped (m : Grid) (rows cols : Z) : Prop :=
  length m = Z.to_nat rows /\
  Forall (fun row => length row = Z.to_nat cols) m.

(** Inside the sensor window every true obstacle is an obstacle on the
    robot's own map. *)
Definition shows_obstacles (r : Robot.t) : Prop :=
  forall x y,
    Robot.inside r x y = true ->
    (Z.abs (x - Robot.pos_x r) <= Robot.sensor_radius r)%Z ->
    (Z.abs (y - Robot.pos_y r) <= Robot.sensor_radius r)%Z ->
    cell_get (Robot.full_map r) x y = Return OBSTACLE ->
    cell_get (Robot.local_map r) x y = Return OBSTACLE.

(** The state of a robot between two calls of the coordinator: it senses at
    least its neighbours, its two copies of the position agree, and its map
    has its dimensions and shows the obstacles around it. *)
Definition aware (r : Robot.t) : Prop :=
  (1 <= Robot.sensor_radius r)%Z /\
  Robot.position r = (Robot.pos_x r, Robot.pos_y r) /\
  shaped (Robot.local_map r) (Robot.grid_rows r) (Robot.grid_cols r) /\
  shows_obstacles r.

(** The next step of the planned path, if any, is a cell of the map that
    is not an obstacle of the ground truth. *)
Definition path_safe (r : Robot.t) : Prop :=
  forall next rest,
    Robot.path r = next :: rest ->
    Robot.inside r (fst next) (snd next) = true /\
    cell_get (Robot.full_map r) (fst next) (snd next) <> Return OBSTACLE.

(** The robot was built for the ground truth [truth] of [rows] by [cols]. *)
Definition on_map (truth : Grid) (rows cols : Z) (r : Robot.t) : Prop :=
  Robot.full_map r = truth /\
  Robot.grid_rows r = rows /\ Robot.grid_cols r = cols.

(** Every registered position is a cell of the map that is not an obstacle
    of the ground truth. *)
Definition registry_safe (truth : Grid) (rows cols : Z)
           (reg : Robot.Registry) : Prop :=
  Forall (fun e : Z * Pos =>
            (0 <= fst (snd e) < rows)%Z /\ (0 <= snd (snd e) < cols)%Z /\
            cell_get truth (fst (snd e)) (snd (snd e)) <> Return OBSTACLE)
         reg.

(** The line [PHASED THROUGH OBSTACLE] of [move]. *)
Definition phased (ev : Event) : bool :=
  match ev with
  | PhasedThroughObstacle _ _ _ => true
  | _ => false
  end.

(** Fields that only [move], [replan] and planning write. *)
Definition same_frame (r r' : Robot.t) : Prop :=
  Robot.full_map r' = Robot.full_map r /\
  Robot.grid_rows r' = Robot.grid_rows r /\
  Robot.grid_cols r' = Robot.grid_cols r /\
  Robot.sensor_radius r' = Robot.sensor_radius r /\
  Robot.position r' = Robot.position r /\
  Robot.pos_x r' = Robot.pos_x r /\ Robot.pos_y r' = Robot.pos_y r.

(** Obstacle cells of [m] are obstacle cells of [m']. *)
Definition keeps_obstacles (m m' : Grid) : Prop :=
  forall x y, (0 <= x)%Z -> (0 <= y)%Z ->
              cell_get m x y = Return OBSTACLE ->
              cell_get m' x y = Return OBSTACLE.

(** What the coordinator keeps true of every robot of a simulation on the
    ground truth [truth]. *)
Definition careful (truth : Grid) (rows cols : Z) (r : Robot.t) : Prop :=
  on_map truth rows cols r /\ aware r /\ path_safe r.

(** No line of [events] reports a step onto an obstacle. *)
Definition quiet (events : list Event) : Prop :=
  Forall (fun e => phased e = false) events.

(** What the phase-2 loop of a time step keeps true of its state. *)
Definition step_careful (truth : Grid) (rows cols : Z)
           (st : Coordinator.Step) : Prop :=
  Forall (careful truth rows cols) (Coordinator.robots st) /\
  registry_safe truth rows cols (Coordinator.registry st) /\
  quiet (Coordinator.events st).

(** A 3 x 3 map with a wall between the left and the right column. *)
Definition walled_field : Grid :=
  [["0"; "1"; "0"];
   ["0"; "1"; "0"];
   ["0"; "0"; "0"]]%char.

(** What [update_all_robot_positions] leaves in a cell that held [c]: the
    marker of a robot registered there, else [c] with a stale marker
    erased. *)
Definition redrawn (registry : Robot.Registry) (x y : Z) (c : ascii) : ascii :=
  if existsb (fun e : Z * Pos => pos_eqb (snd e) (x, y)) registry then ROBOT
  else if Ascii.eqb c ROBOT then FREE else c.

(** ** Weighted A* *)

(** A search on integer priorities that orders its nodes as weighted A*
    with the weight [a / b] does: the priority of a node is [b * g + a * h].
    It is not part of the program; the weighted search is compared with
    it. *)
Definition scaled_neighbor (a b : Z) (hp : Pos -> Z) (current : Node Z)
           (pos : Pos) : Node Z :=
  let neighbor := set_g (new_node (Some current) pos) (g current + 1)%Z in
  set_f neighbor (b * g neighbor + a * hp pos)%Z.

(** An open node of that search: a valid chain, [g] its number of steps
    and the priority above (the start node keeps [f = 0]). *)
Definition scaled (grid : Grid) (start : Pos) (a b : Z) (hp : Pos -> Z)
           (n : Node Z) : Prop :=
  good_chain grid start (ancestors n) /\
  Z.of_nat (length (ancestors n)) = (g n + 1)%Z /\
  (f n = (b * g n + a * hp (position n))%Z
   \/ (g n = 0%Z /\ position n = start)).

(** The invariant of the search with weight [a / b]: every passable
    neighbour of a closed cell is closed, or has an open node one step
    dearer than a cost [k] that is within the factor [a / b] of every walk
    to the closed cell. *)
Definition weighted_inv (grid : Grid) (start : Pos) (a b : Z)
           (hp : Pos -> Z) (open_list : list (Node Z))
           (closed_set : list Pos) : Prop :=
  Forall (scaled grid start a b hp) open_list /\
  heap_ok (fun n : Node Z => f n) open_list /\
  (closed_set = [] ->
   Forall (fun n => g n = 0%Z /\ position n = start) open_list) /\
  (closed_set <> [] -> In start closed_set) /\
  (forall p m, In p closed_set -> In m MOVES ->
               passable grid (pos_add p m) ->
               In (pos_add p m) closed_set \/
               exists k,
                 0 < countP (cheap_at (pos_add p m) (k + 1)) open_list /\
                 forall l, good_chain grid start (p :: l) ->
                           (b * k <= a * Z.of_nat (length l))%Z).

(* ================================================================== *)
(** * Properties *)

(** ** Lists written by index *)

Lemma list_set_length {A : Type} (l : list A) (i : nat) (x : A) :
  length (list_set l i x) = length l.
Proof.
  revert i; induction l as [|a l IH]; intros [|i]; simpl; auto.
Qed.

Lemma nth_error_list_set_eq {A : Type} (l : list A) (i : nat) (x : A) :
  i < length l -> nth_error (list_set l i x) i = Some x.
Proof.
  revert i; induction l as [|a l IH]; intros [|i] Hi; simpl in *;
    try lia; auto.
  apply IH; lia.
Qed.

Lemma nth_error_list_set_neq {A : Type} (l : list A) (i j : nat) (x : A) :
  i <> j -> nth_error (list_set l i x) j = nth_error l j.
Proof.
  revert i j; induction l as [|a l IH]; intros [|i] [|j] Hij; simpl;
    auto; try congruence.
Qed.

Lemma list_set_same {A : Type} (l : list A) (i : nat) (x : A) :
  nth_error l i = Some x -> list_set l i x = l.
Proof.
  revert i; induction l as [|a l IH]; intros [|i] Hi; simpl in *;
    try congruence.
  f_equal; auto.
Qed.

Lemma nth_list_set_eq {A : Type} (l : list A) (i : nat) (x d : A) :
  i < length l -> nth i (list_set l i x) d = x.
Proof.
  intros Hi. apply nth_error_nth. now apply nth_error_list_set_eq.
Qed.

Lemma nth_list_set_neq {A : Type} (l : list A) (i j : nat) (x d : A) :
  i <> j -> nth j (list_set l i x) d = nth j l d.
Proof.
  revert i j; induction l as [|a l IH]; intros [|i] [|j] Hij; simpl;
    auto; try congruence.
Qed.

Lemma Forall_list_set {A : Type} (P : A -> Prop) (l : list A) (i : nat) (x : A) :
  Forall P l -> P x -> Forall P (list_set l i x).
Proof.
  intros Hl Hx; revert i; induction Hl; intros [|i]; simpl; auto.
Qed.

Lemma countP_list_set {A : Type} (P : A -> bool) (l : list A) (i : nat)
      (x d : A) :
  i < length l ->
  countP P (list_set l i x) + (if P (nth i l d) then 1 else 0)
  = countP P l + (if P x then 1 else 0).
Proof.
  revert i; induction l as [|a l IH]; intros [|i] Hi; simpl in *; try lia.
  specialize (IH i ltac:(lia)). lia.
Qed.

Lemma countP_app {A : Type} (P : A -> bool) (l1 l2 : list A) :
  countP P (l1 ++ l2) = countP P l1 + countP P l2.
Proof. induction l1; simpl; lia. Qed.

Lemma countP_rev {A : Type} (P : A -> bool) (l : list A) :
  countP P (rev l) = countP P l.
Proof.
  induction l; simpl; auto. rewrite countP_app; simpl; lia.
Qed.

Lemma countP_pos_In {A : Type} (P : A -> bool) (l : list A) :
  0 < countP P l <-> exists x, In x l /\ P x = true.
Proof.
  induction l as [|a l IH]; simpl.
  - split; [lia | intros (x & [] & _)].
  - destruct (P a) eqn:Ha.
    + split; [intros _; exists a; auto | lia].
    + rewrite IH. split; intros (x & Hx & Px); exists x; auto.
      destruct Hx as [->|]; [congruence | auto].
Qed.

(** ** [heapq]: what the operations do to the contents of the list *)

Section HeapqContents.
Context {A : Type}.
Variable lt : A -> A -> bool.
Variable Q : A -> Prop.
Variable P : A -> bool.

Lemma Forall_nth_or_default (l : list A) (i : nat) (d : A) :
  Forall Q l -> Q d -> Q (nth i l d).
Proof.
  intros Hl Hd. destruct (Nat.lt_ge_cases i (length l)) as [Hi|Hi].
  - rewrite Forall_forall in Hl. apply Hl, nth_In, Hi.
  - now rewrite nth_overflow.
Qed.

Lemma siftdown_loop_length fuel : forall heap x sp pos,
  length (siftdown_loop lt fuel heap x sp pos) = length heap.
Proof.
  induction fuel as [|fuel IH]; intros; cbn [siftdown_loop].
  - apply list_set_length.
  - destruct (sp <? pos); [|apply list_set_length].
    destruct (lt x _); [|apply list_set_length].
    rewrite IH. apply list_set_length.
Qed.

Lemma siftdown_loop_Forall fuel : forall heap x sp pos,
  Forall Q heap -> Q x -> Forall Q (siftdown_loop lt fuel heap x sp pos).
Proof.
  induction fuel as [|fuel IH]; intros heap x sp pos Hh Hx; cbn [siftdown_loop].
  - now apply Forall_list_set.
  - destruct (sp <? pos); [|now apply Forall_list_set].
    destruct (lt x _); [|now apply Forall_list_set].
    apply IH; auto. apply Forall_list_set; auto.
    now apply Forall_nth_or_default.
Qed.

Lemma half_pred_lt pos : 0 < pos -> (pos - 1) / 2 < pos.
Proof.
  intros Hp. apply Nat.le_lt_trans with (pos - 1); [|lia].
  apply Nat.Div0.div_le_upper_bound. lia.
Qed.

Lemma siftdown_loop_count fuel : forall heap x sp pos,
  pos < length heap ->
  countP P (siftdown_loop lt fuel heap x sp pos)
  = countP P (list_set heap pos x).
Proof.
  induction fuel as [|fuel IH]; intros heap x sp pos Hpos; cbn [siftdown_loop]; auto.
  destruct (sp <? pos) eqn:Hsp; auto.
  destruct (lt x _); auto.
  apply Nat.ltb_lt in Hsp.
  assert (Hpp : (pos - 1) / 2 < pos) by (apply half_pred_lt; lia).
  rewrite IH by (rewrite list_set_length; lia).
  pose proof (countP_list_set P (list_set heap pos (nth ((pos - 1) / 2) heap x))
                x x (i := (pos - 1) / 2)
                ltac:(rewrite list_set_length; lia)) as E1.
  rewrite nth_list_set_neq in E1 by lia.
  pose proof (countP_list_set P heap (nth ((pos - 1) / 2) heap x) x Hpos) as E2.
  pose proof (countP_list_set P heap x x Hpos) as E3.
  lia.
Qed.

Lemma siftdown_length heap sp pos :
  length (siftdown lt heap sp pos) = length heap.
Proof.
  unfold siftdown. destruct (nth_error heap pos); auto.
  apply siftdown_loop_length.
Qed.

Lemma siftdown_Forall heap sp pos :
  Forall Q heap -> Forall Q (siftdown lt heap sp pos).
Proof.
  intros Hh. unfold siftdown. destruct (nth_error heap pos) eqn:E; auto.
  apply siftdown_loop_Forall; auto.
  rewrite Forall_forall in Hh. eapply Hh, nth_error_In, E.
Qed.

Lemma siftdown_count heap sp pos :
  countP P (siftdown lt heap sp pos) = countP P heap.
Proof.
  unfold siftdown. destruct (nth_error heap pos) eqn:E; auto.
  rewrite siftdown_loop_count.
  - now rewrite list_set_same.
  - apply nth_error_Some. congruence.
Qed.

Lemma siftup_loop_length fuel : forall heap x pos,
  length (fst (siftup_loop lt fuel heap x pos)) = length heap.
Proof.
  induction fuel as [|fuel IH]; intros; cbn [siftup_loop]; auto.
  destruct (2 * pos + 1 <? length heap); auto.
  rewrite IH. apply list_set_length.
Qed.

Lemma siftup_loop_pos fuel : forall heap x pos,
  pos < length heap ->
  snd (siftup_loop lt fuel heap x pos) < length heap.
Proof.
  induction fuel as [|fuel IH]; intros heap x pos Hpos;
    cbn [siftup_loop]; auto.
  destruct (2 * pos + 1 <? length heap) eqn:Hc; auto.
  apply Nat.ltb_lt in Hc.
  match goal with
  | |- snd (siftup_loop _ _ ?h _ ?c) < _ =>
      specialize (IH h x c); rewrite list_set_length in IH; apply IH
  end.
  destruct (2 * pos + 1 + 1 <? length heap) eqn:Hr; simpl; [|lia].
  apply Nat.ltb_lt in Hr. destruct (negb _); lia.
Qed.

Lemma siftup_loop_Forall fuel : forall heap x pos,
  Forall Q heap -> Q x -> Forall Q (fst (siftup_loop lt fuel heap x pos)).
Proof.
  induction fuel as [|fuel IH]; intros heap x pos Hh Hx;
    cbn [siftup_loop]; auto.
  destruct (2 * pos + 1 <? length heap); auto.
  apply IH; auto. apply Forall_list_set; auto.
  now apply Forall_nth_or_default.
Qed.

Lemma siftup_loop_count fuel : forall heap x pos,
  pos < length heap ->
  countP P (list_set (fst (siftup_loop lt fuel heap x pos))
                     (snd (siftup_loop lt fuel heap x pos)) x)
  = countP P (list_set heap pos x).
Proof.
  induction fuel as [|fuel IH]; intros heap x pos Hpos;
    cbn [siftup_loop]; auto.
  destruct (2 * pos + 1 <? length heap) eqn:Hc; auto.
  apply Nat.ltb_lt in Hc.
  match goal with
  | |- context [list_set heap pos (nth ?cc heap x)] => set (c := cc) in *
  end.
  assert (Hcl : c < length heap /\ c <> pos).
  { subst c. destruct (2 * pos + 1 + 1 <? length heap) eqn:Hr;
      cbn [andb].
    - apply Nat.ltb_lt in Hr. destruct (negb _); lia.
    - lia. }
  destruct Hcl as [Hcl Hcp].
  rewrite IH by (rewrite list_set_length; lia).
  pose proof (countP_list_set P (list_set heap pos (nth c heap x)) x x
                (i := c) ltac:(rewrite list_set_length; lia)) as E1.
  rewrite nth_list_set_neq in E1 by lia.
  pose proof (countP_list_set P heap (nth c heap x) x Hpos) as E2.
  pose proof (countP_list_set P heap x x Hpos) as E3.
  lia.
Qed.

Lemma siftup_length heap pos : length (siftup lt heap pos) = length heap.
Proof.
  unfold siftup. destruct (nth_error heap pos); auto.
  pose proof (siftup_loop_length (length heap) heap a pos) as E.
  destruct (siftup_loop _ _ _ _ _) as [h' p']; simpl in E.
  now rewrite siftdown_length, list_set_length.
Qed.

Lemma siftup_Forall heap pos :
  Forall Q heap -> Forall Q (siftup lt heap pos).
Proof.
  intros Hh. unfold siftup. destruct (nth_error heap pos) eqn:E; auto.
  assert (Ha : Q a).
  { rewrite Forall_forall in Hh. eapply Hh, nth_error_In, E. }
  pose proof (@siftup_loop_Forall (length heap) heap a pos Hh Ha) as F.
  destruct (siftup_loop _ _ _ _ _) as [h' p']; simpl in F.
  apply siftdown_Forall. now apply Forall_list_set.
Qed.

Lemma siftup_count heap pos : countP P (siftup lt heap pos) = countP P heap.
Proof.
  unfold siftup. destruct (nth_error heap pos) eqn:E; auto.
  assert (Hpos : pos < length heap) by (apply nth_error_Some; congruence).
  pose proof (@siftup_loop_count (length heap) heap a pos Hpos) as C.
  destruct (siftup_loop _ _ _ _ _) as [h' p']; simpl in C.
  rewrite siftdown_count, C. now rewrite list_set_same.
Qed.
End HeapqContents.

Section HeapqOps.
Context {A : Type}.
Variable lt : A -> A -> bool.

Lemma heappush_length heap x :
  length (heappush lt heap x) = S (length heap).
Proof.
  unfold heappush. rewrite siftdown_length, length_app. simpl. lia.
Qed.

Lemma heappush_Forall (Q : A -> Prop) heap x :
  Forall Q heap -> Q x -> Forall Q (heappush lt heap x).
Proof.
  intros Hh Hx. unfold heappush. apply siftdown_Forall.
  apply Forall_app; auto.
Qed.

Lemma heappush_count (P : A -> bool) heap x :
  countP P (heappush lt heap x)
  = countP P heap + (if P x then 1 else 0).
Proof.
  unfold heappush. rewrite siftdown_count, countP_app. simpl. lia.
Qed.

(** The shape of a successful pop. *)
Lemma heappop_cases heap x heap' :
  heappop lt heap = Some (x, heap') ->
  (heap = [x] /\ heap' = []) \/
  (exists t lastelt, heap = x :: t ++ [lastelt]
                     /\ heap' = siftup lt (lastelt :: t) 0).
Proof.
  unfold heappop. intros Hp.
  destruct (rev heap) as [|lastelt rr] eqn:Er; [discriminate|].
  assert (Eh : heap = rev rr ++ [lastelt]).
  { rewrite <- (rev_involutive heap), Er. reflexivity. }
  destruct (rev rr) as [|r t] eqn:Et.
  - inversion Hp; subst. left; auto.
  - inversion Hp; subst. right. exists t, lastelt. auto.
Qed.

Lemma heappop_None heap : heappop lt heap = None <-> heap = [].
Proof.
  unfold heappop. split.
  - destruct (rev heap) as [|l rr] eqn:Er.
    + intros _. rewrite <- (rev_involutive heap), Er. reflexivity.
    + destruct (rev rr); discriminate.
  - intros ->. reflexivity.
Qed.

Lemma heappop_length heap x heap' :
  heappop lt heap = Some (x, heap') -> length heap = S (length heap').
Proof.
  intros Hp. apply heappop_cases in Hp as [[-> ->]|(t & l & -> & ->)]; auto.
  rewrite siftup_length. simpl. rewrite length_app. simpl. lia.
Qed.

Lemma heappop_Forall (Q : A -> Prop) heap x heap' :
  heappop lt heap = Some (x, heap') ->
  Forall Q heap -> Q x /\ Forall Q heap'.
Proof.
  intros Hp Hh. apply heappop_cases in Hp as [[-> ->]|(t & l & -> & ->)].
  - inversion Hh; auto.
  - inversion Hh as [|? ? Hx Ht]; subst. split; auto.
    apply Forall_app in Ht as [Ht Hl]. inversion Hl; subst.
    apply siftup_Forall. constructor; auto.
Qed.

Lemma heappop_count (P : A -> bool) heap x heap' :
  heappop lt heap = Some (x, heap') ->
  countP P heap = (if P x then 1 else 0) + countP P heap'.
Proof.
  intros Hp. apply heappop_cases in Hp as [[-> ->]|(t & l & -> & ->)]; auto.
  rewrite siftup_count. simpl. rewrite countP_app. simpl. lia.
Qed.

Lemma heappop_In heap x heap' :
  heappop lt heap = Some (x, heap') -> In x heap.
Proof.
  intros Hp. apply heappop_cases in Hp as [[-> ->]|(t & l & -> & ->)];
    simpl; auto.
Qed.

Lemma heapify_length heap : length (heapify lt heap) = length heap.
Proof.
  unfold heapify. generalize (rev (seq 0 (length heap / 2))) as idx.
  intros idx; revert heap; induction idx as [|i idx IH]; intros heap;
    simpl; auto.
  now rewrite IH, siftup_length.
Qed.

Lemma heapify_Forall (Q : A -> Prop) heap :
  Forall Q heap -> Forall Q (heapify lt heap).
Proof.
  unfold heapify. generalize (rev (seq 0 (length heap / 2))) as idx.
  intros idx; revert heap; induction idx as [|i idx IH]; intros heap Hh;
    simpl; auto.
  apply IH. now apply siftup_Forall.
Qed.

End HeapqOps.

(** ** Basic facts on positions *)

Lemma pos_eqb_eq (p q : Pos) : pos_eqb p q = true <-> p = q.
Proof.
  destruct p as [a b], q as [c d]; unfold pos_eqb; simpl.
  rewrite andb_true_iff, !Z.eqb_eq. split; [intros []|intros [=]]; subst; auto.
Qed.

Lemma pos_eqb_refl (p : Pos) : pos_eqb p p = true.
Proof. now apply pos_eqb_eq. Qed.

Lemma pos_mem_In (p : Pos) (s : list Pos) : pos_mem p s = true <-> In p s.
Proof.
  unfold pos_mem. rewrite existsb_exists. split.
  - intros (x & Hx & E). apply pos_eqb_eq in E. now subst.
  - intros H. exists p. split; auto. apply pos_eqb_refl.
Qed.

Lemma adjacent4_move (p m : Pos) : In m MOVES -> adjacent4 (pos_add p m) p.
Proof.
  destruct p as [r c]. unfold adjacent4, manhattan, pos_add, MOVES.
  simpl. intros [<-|[<-|[<-|[<-|[]]]]]; simpl; lia.
Qed.

Lemma consecutive_app_one {A : Type} (R : A -> A -> Prop) (l : list A) (a b : A) :
  consecutive R (l ++ [a]) -> R a b -> consecutive R ((l ++ [a]) ++ [b]).
Proof.
  induction l as [|x l IH]; simpl; intros H Hab.
  - tauto.
  - destruct H as [H1 H2]. split; [|now apply IH].
    destruct l; simpl in *; auto.
Qed.

Lemma adjacent4_sym (p q : Pos) : adjacent4 p q -> adjacent4 q p.
Proof. unfold adjacent4, manhattan. lia. Qed.

Lemma good_chain_path grid start l :
  good_chain grid start l ->
  connects start (hd start l) (rev l) /\
  Forall (passable grid) (tl (rev l)) /\
  (Z.of_nat (length l) >= 1 + manhattan start (hd start l))%Z.
Proof.
  induction 1 as [|p q l Hc IH Hadj Hp].
  - unfold connects; cbn [rev app hd_error last consecutive tl hd length].
    repeat split; auto. unfold manhattan. lia.
  - destruct IH as ((Hh & Hl & Hcons) & Hall & Hlen).
    change (rev (p :: q :: l)) with (rev (q :: l) ++ [p]).
    assert (E : exists l', rev (q :: l) = l' ++ [q]) by (simpl; eauto).
    destruct E as (l' & E). rewrite E in *.
    repeat split.
    + destruct l'; simpl in *; auto.
    + now rewrite last_last.
    + apply consecutive_app_one; auto. now apply adjacent4_sym.
    + destruct l' as [|x l']; simpl in *.
      * constructor; auto.
      * apply Forall_app; split; auto.
    + simpl hd in *. simpl length in *. unfold adjacent4, manhattan in *. lia.
Qed.

(** ** Every node of an unbounded search carries a valid chain *)

Section BestFirstPaths.
Context {K : Type}.
Variable klt : K -> K -> bool.
Variable make_neighbor : Node K -> Pos -> Node K.
Variable grid : Grid.
Variable start : Pos.

Hypothesis make_neighbor_chain : forall cur pos,
  ancestors (make_neighbor cur pos) = pos :: ancestors cur.

Lemma ancestors_head (n : Node K) :
  exists l, ancestors n = position n :: l.
Proof. destruct n as [p pos ? ? ? ?]; simpl; eauto. Qed.

Lemma good_neighbor cur m :
  good_node grid start cur -> In m MOVES ->
  passable grid (pos_add (position cur) m) ->
  good_node grid start (make_neighbor cur (pos_add (position cur) m)).
Proof.
  unfold good_node. intros Hc Hm Hp. rewrite make_neighbor_chain.
  destruct (ancestors_head cur) as (l & E). rewrite E in *.
  constructor; auto. now apply adjacent4_move.
Qed.

Lemma expand_good cur closed : forall moves open open',
  (forall m, In m moves -> In m MOVES) ->
  good_node grid start cur -> Forall (good_node grid start) open ->
  expand klt make_neighbor grid cur closed moves open = Some open' ->
  Forall (good_node grid start) open'.
Proof.
  induction moves as [|m moves IH]; intros open open' Hin Hc Ho He;
    cbn [expand] in He.
  - now inversion He; subst.
  - assert (Hin' : forall m', In m' moves -> In m' MOVES)
      by (intros; apply Hin; now right).
    destruct (in_bounds grid _) eqn:Hb; cbn [negb] in He; [|eauto].
    destruct (grid_get grid _) as [c|] eqn:Hg; [|discriminate].
    destruct (Ascii.eqb c OBSTACLE) eqn:Hc1; cbn [orb] in He; [eauto|].
    destruct (pos_mem _ closed); [eauto|].
    eapply IH; [exact Hin'|exact Hc| |exact He].
    apply heappush_Forall; auto.
    apply good_neighbor; auto.
    + apply Hin; now left.
    + split; eauto.
Qed.

Lemma search_loop_good fuel : forall end_pos open closed path,
  Forall (good_node grid start) open ->
  search_loop klt make_neighbor grid fuel end_pos open closed
  = Return (Some path) ->
  exists n : Node K, good_node grid start n /\ position n = end_pos
            /\ path = reconstruct_path n.
Proof.
  induction fuel as [|fuel IH]; intros end_pos open closed path Ho Hs;
    cbn [search_loop] in Hs; [discriminate|].
  unfold search_iteration in Hs.
  destruct (heappop _ open) as [[cur open']|] eqn:Hp; [|discriminate].
  destruct (heappop_Forall _ Hp Ho) as [Hcur Ho'].
  destruct (pos_mem _ closed); [eauto|].
  destruct (pos_eqb _ end_pos) eqn:He.
  - inversion Hs; subst. apply pos_eqb_eq in He. eauto.
  - destruct (expand _ _ _ _ _ _ _) as [open''|] eqn:Hx; [|discriminate].
    eapply IH; [|exact Hs].
    eapply expand_good; [| exact Hcur | exact Ho' | exact Hx]. auto.
Qed.

Lemma best_first_path start_node end_pos path :
  ancestors start_node = [start] ->
  best_first klt make_neighbor grid start_node end_pos
  = Return (Some path) ->
  connects start end_pos path /\ Forall (passable grid) (tl path).
Proof.
  intros Hs Hb. unfold best_first in Hb.
  apply search_loop_good in Hb.
  - destruct Hb as (n & Hn & Hpos & ->).
    destruct (good_chain_path Hn) as (Hc & Hall & _).
    destruct (ancestors_head n) as (l & E).
    replace (hd start (ancestors n)) with end_pos in Hc
      by (rewrite E; simpl; auto).
    split; auto.
  - apply heappush_Forall; auto. unfold good_node. rewrite Hs. constructor.
Qed.
End BestFirstPaths.

(** ** The arena of the bounded-memory search *)

Section ArenaFacts.
Context {K : Type} `{Cost K}.

Lemma node_at_list_set (a : Arena) (p j : nat) (x : SNode K) :
  node_at (list_set a p x) j
  = if (j =? p) && (p <? length a) then x else node_at a j.
Proof.
  unfold node_at. destruct (j =? p) eqn:E; cbn [andb].
  - apply Nat.eqb_eq in E; subst j. destruct (p <? length a) eqn:L.
    + apply Nat.ltb_lt in L. now apply nth_list_set_eq.
    + apply Nat.ltb_ge in L. rewrite !nth_overflow; auto.
      now rewrite list_set_length.
  - apply Nat.eqb_neq in E. apply nth_list_set_neq. congruence.
Qed.

Lemma same_links_refl (a : Arena) : same_links a a.
Proof. split; auto. Qed.

Lemma same_links_trans (a b c : Arena) :
  same_links a b -> same_links b c -> same_links a c.
Proof.
  intros [L1 S1] [L2 S2]. split; [lia|]. intros j Hj.
  destruct (S1 j Hj) as [P1 Q1]. destruct (S2 j ltac:(lia)) as [P2 Q2].
  split; congruence.
Qed.

Lemma same_links_list_set (a : Arena) (p : nat) (x : SNode K) :
  s_position x = s_position (node_at a p) ->
  s_parent x = s_parent (node_at a p) ->
  same_links a (list_set a p x).
Proof.
  intros Hp Hq. split; [now rewrite list_set_length|]. intros j Hj.
  rewrite node_at_list_set.
  destruct (j =? p) eqn:E; cbn [andb]; auto.
  apply Nat.eqb_eq in E; subst j. destruct (p <? length a); auto.
Qed.


Lemma s_ancestors_same_links (a a' : Arena) :
  links_ok a -> same_links a a' ->
  forall fuel i, i < length a ->
                 s_ancestors a' fuel i = s_ancestors a fuel i.
Proof.
  intros Hl [_ Hs]. induction fuel as [|fuel IH]; intros i Hi; simpl; auto.
  destruct (Hs i Hi) as [-> ->]. f_equal.
  destruct (s_parent (node_at a i)) as [p|] eqn:E; auto.
  apply IH. specialize (Hl i p Hi E). lia.
Qed.

Lemma s_ancestors_fuel (a : Arena) :
  links_ok a ->
  forall fuel fuel' i, i < length a -> i < fuel -> i < fuel' ->
                       s_ancestors a fuel i = s_ancestors a fuel' i.
Proof.
  intros Hl. induction fuel as [|fuel IH]; intros [|fuel'] i Hi Hf Hf';
    try lia.
  cbn [s_ancestors]. f_equal.
  destruct (s_parent (node_at a i)) as [p|] eqn:E; auto.
  pose proof (Hl i p Hi E) as Hp. apply IH; lia.
Qed.
End ArenaFacts.

Section SmaPaths.
Context {K : Type} `{Cost K}.
Variable heuristic_func : Node K -> Node K -> K.
Variable grid : Grid.
Variable end_node : Node K.
Variable start : Pos.

Lemma arena_good_same (a a' : Arena) :
  arena_good grid start a -> same_links a a' -> length a' = length a ->
  arena_good grid start a'.
Proof.
  intros [Hl Hg] Hs Hlen. pose proof Hs as [_ Hs'].
  split.
  - intros i p Hi Hp. rewrite Hlen in Hi.
    destruct (Hs' i Hi) as [_ Hq]. rewrite Hq in Hp. eauto.
  - intros i Hi. rewrite Hlen in Hi.
    rewrite (s_ancestors_same_links Hl Hs); auto.
Qed.

Lemma backup_same_links (a : Arena) worst :
  same_links a (backup a worst) /\ length (backup a worst) = length a.
Proof.
  unfold backup. destruct (s_parent (node_at a worst)) as [p|];
    [|split; [apply same_links_refl|auto]].
  destruct (siblings_of a worst);
    [split; [apply same_links_refl|auto]|].
  split; [|apply list_set_length].
  apply same_links_list_set; reflexivity.
Qed.

Lemma backup_good (a : Arena) worst :
  arena_good grid start a -> arena_good grid start (backup a worst).
Proof.
  intros Hg. destruct (backup_same_links a worst) as [Hs Hl].
  eapply arena_good_same; eauto.
Qed.

Lemma make_neighbor_shape (a : Arena) current pos :
  current < length a ->
  let a' := fst (s_make_neighbor heuristic_func end_node a current pos) in
  snd (s_make_neighbor heuristic_func end_node a current pos) = length a
  /\ length a' = S (length a)
  /\ same_links a a'
  /\ s_position (node_at a' (length a)) = pos
  /\ s_parent (node_at a' (length a)) = Some current.
Proof.
  intros Hc. unfold s_make_neighbor. cbn [fst snd s_parent s_position].
  set (nb := mkSNode _ _ _ _ _ _ _).
  assert (Hcur : node_at (a ++ [nb]) current = node_at a current).
  { unfold node_at. now rewrite app_nth1. }
  split; [reflexivity|]. split; [|split; [split|split]].
  - rewrite list_set_length, length_app. simpl. lia.
  - rewrite list_set_length, length_app. simpl. lia.
  - intros j Hj. rewrite node_at_list_set.
    destruct (j =? current) eqn:E; cbn [andb].
    + apply Nat.eqb_eq in E; subst j.
      destruct (current <? _); [split; reflexivity|].
      rewrite Hcur. split; reflexivity.
    + unfold node_at. rewrite app_nth1 by lia. split; reflexivity.
  - rewrite node_at_list_set.
    replace (length a =? current) with false
      by (symmetry; apply Nat.eqb_neq; lia).
    cbn [andb]. unfold node_at. rewrite app_nth2, Nat.sub_diag by lia.
    reflexivity.
  - rewrite node_at_list_set.
    replace (length a =? current) with false
      by (symmetry; apply Nat.eqb_neq; lia).
    cbn [andb]. unfold node_at. rewrite app_nth2, Nat.sub_diag by lia.
    reflexivity.
Qed.

Lemma make_neighbor_good (a : Arena) current m :
  arena_good grid start a -> current < length a -> In m MOVES ->
  passable grid (pos_add (s_position (node_at a current)) m) ->
  arena_good grid start
    (fst (s_make_neighbor heuristic_func end_node a current
                          (pos_add (s_position (node_at a current)) m))).
Proof.
  intros [Hl Hg] Hc Hm Hp.
  set (pos := pos_add _ m) in *.
  destruct (make_neighbor_shape a pos Hc) as (_ & Hlen & Hs & Hpos & Hpar).
  set (a' := fst _) in *. pose proof Hs as [_ Hs'].
  assert (Hl' : links_ok a').
  { intros i p Hi Hq. rewrite Hlen in Hi.
    destruct (Nat.eq_dec i (length a)) as [->|Hne].
    - rewrite Hpar in Hq. inversion Hq; subst. exact Hc.
    - destruct (Hs' i ltac:(lia)) as [_ E]. rewrite E in Hq.
      apply (Hl i p); auto. lia. }
  split; auto. intros i Hi. rewrite Hlen in Hi.
  destruct (Nat.eq_dec i (length a)) as [->|Hne].
  - cbn [s_ancestors]. rewrite Hpos, Hpar.
    rewrite (s_ancestors_same_links Hl Hs) by auto.
    rewrite (s_ancestors_fuel Hl (fuel' := S current)) by lia.
    specialize (Hg current Hc). cbn [s_ancestors] in *.
    constructor; auto. subst pos. now apply adjacent4_move.
  - rewrite (s_ancestors_same_links Hl Hs) by lia. apply Hg. lia.
Qed.

Lemma remove_first_Forall (Q : nat -> Prop) (a : Arena) x l :
  Forall Q l -> Forall Q (remove_first a x l).
Proof.
  induction 1; simpl; auto. destruct (s_eqb a x0 x); auto.
Qed.

Lemma remove_first_length (a : Arena) x l :
  length (remove_first a x l) <= length l.
Proof.
  induction l as [|y l IH]; simpl; auto. destruct (s_eqb a y x); simpl; lia.
Qed.

Lemma prune_good (a : Arena) open :
  arena_good grid start a -> open_valid a open ->
  arena_good grid start (fst (prune a open))
  /\ open_valid (fst (prune a open)) (snd (prune a open))
  /\ length (snd (prune a open)) <= length open.
Proof.
  intros Hg Ho. unfold prune; cbn [fst snd]. split; [|split].
  - now apply backup_good.
  - unfold open_valid.
    destruct (backup_same_links a (worst_of a open)) as [_ ->].
    apply heapify_Forall. now apply remove_first_Forall.
  - rewrite heapify_length. apply remove_first_length.
Qed.

Lemma open_valid_grow (a a' : Arena) open :
  open_valid a open -> length a <= length a' -> open_valid a' open.
Proof.
  unfold open_valid. intros Ho Hl. eapply Forall_impl; [|exact Ho].
  simpl. intros; lia.
Qed.

Lemma s_expand_good current closed : forall moves a open a' open',
  (forall m, In m moves -> In m MOVES) ->
  arena_good grid start a -> open_valid a open -> current < length a ->
  s_expand heuristic_func grid end_node current closed moves a open
  = Some (a', open') ->
  arena_good grid start a' /\ open_valid a' open'
  /\ length open' <= length open + length moves.
Proof.
  induction moves as [|m moves IH]; intros a open a' open' Hin Hg Ho Hc He;
    cbn [s_expand] in He.
  - inversion He; subst. simpl. split; [auto|split; [auto|lia]].
  - assert (Hin' : forall m', In m' moves -> In m' MOVES)
      by (intros; apply Hin; now right).
    assert (Hskip : s_expand heuristic_func grid end_node current closed
                             moves a open = Some (a', open') ->
                    arena_good grid start a' /\ open_valid a' open'
                    /\ length open' <= length open + length (m :: moves)).
    { intros He'. destruct (IH _ _ _ _ Hin' Hg Ho Hc He') as (? & ? & ?).
      simpl. split; [auto|split; [auto|lia]]. }
    destruct (in_bounds grid _) eqn:Hb; cbn [negb] in He; [|auto].
    destruct (grid_get grid _) as [c|] eqn:Hgc; [|discriminate].
    destruct (Ascii.eqb c OBSTACLE) eqn:Hc1; cbn [orb] in He; [auto|].
    destruct (pos_mem _ closed); [auto|].
    set (pos := pos_add _ m) in *.
    pose proof (make_neighbor_shape a pos Hc) as (Hid & Hlen & Hs & _).
    pose proof (@make_neighbor_good a current m Hg Hc
                  (Hin m (or_introl eq_refl))
                  (conj Hb (ex_intro _ c (conj Hgc Hc1)))) as Hg'.
    fold pos in Hg'.
    destruct (s_make_neighbor heuristic_func end_node a current pos)
      as [a1 id] eqn:Emk.
    cbn [fst snd] in *. subst id.
    assert (F : open_valid a1 (heappush (s_lt a1) open (length a))).
    { apply heappush_Forall; [|lia].
      eapply open_valid_grow; [exact Ho|lia]. }
    destruct (IH a1 _ a' open' Hin' Hg' F ltac:(lia) He) as (G & O & L).
    rewrite heappush_length in L. simpl.
    split; [auto|split; [auto|lia]].
Qed.

Lemma sma_loop_good fuel max_nodes : forall a open closed path,
  arena_good grid start a -> open_valid a open ->
  sma_loop heuristic_func grid end_node fuel max_nodes a open closed
  = Return (Some path) ->
  connects start (position end_node) path
  /\ Forall (passable grid) (tl path).
Proof.
  induction fuel as [|fuel IH]; intros a open closed path Hg Ho Hs;
    cbn [sma_loop] in Hs; [discriminate|].
  unfold sma_iteration in Hs.
  destruct open as [|x xs]; [discriminate|].
  set (open := x :: xs) in *.
  assert (Hpr : let ao := if (max_nodes <? Z.of_nat (length open))%Z
                          then prune a open else (a, open) in
                arena_good grid start (fst ao) /\ open_valid (fst ao) (snd ao)).
  { destruct (max_nodes <? _)%Z; cbn zeta.
    - destruct (prune_good Hg Ho) as (? & ? & _). auto.
    - auto. }
  destruct (if (max_nodes <? _)%Z then _ else _) as [a1 open1].
  cbn [fst snd] in Hpr. destruct Hpr as [Hg1 Ho1].
  destruct (heappop _ open1) as [[cur open2]|] eqn:Hp; [|discriminate].
  destruct (heappop_Forall _ Hp Ho1) as [Hcur Ho2].
  destruct (pos_mem _ closed); [eauto|].
  destruct (pos_eqb _ (position end_node)) eqn:He.
  - inversion Hs; subst. apply pos_eqb_eq in He.
    unfold s_reconstruct_path. destruct Hg1 as [Hl1 Hc1].
    rewrite (s_ancestors_fuel Hl1 (fuel' := S cur)) by lia.
    destruct (good_chain_path (Hc1 cur Hcur)) as (Hc & Hall & _).
    assert (Hhd : hd start (s_ancestors a1 (S cur) cur)
                  = position end_node) by (cbn [s_ancestors hd]; exact He).
    rewrite Hhd in Hc. split; assumption.
  - destruct (s_expand _ _ _ _ _ _ _ _) as [[a2 open3]|] eqn:Hx;
      [|discriminate].
    destruct (s_expand_good _ _ (fun m Hm => Hm) Hg1 Ho2 Hcur Hx)
      as (G & O & _).
    eapply IH; eauto.
Qed.

Lemma start_arena_good (n : SNode K) :
  s_parent n = None -> s_position n = start ->
  arena_good grid start [n].
Proof.
  intros Hp Hs. split.
  - intros i p Hi Hq. simpl in Hi. assert (i = 0) by lia; subst i.
    unfold node_at in Hq; simpl in Hq. congruence.
  - intros i Hi. simpl in Hi. assert (i = 0) by lia; subst i.
    cbn [s_ancestors]. unfold node_at; simpl. rewrite Hp, Hs. constructor.
Qed.
End SmaPaths.

Lemma sma_star_search_path {K : Type} `{Cost K}
      (heuristic_func : Node K -> Node K -> K) grid start_pos end_pos
      max_nodes path :
  sma_star_search heuristic_func grid start_pos end_pos max_nodes
  = Return (Some path) ->
  connects start_pos end_pos path /\ Forall (passable grid) (tl path).
Proof.
  unfold sma_star_search. intros Hs.
  eapply sma_loop_good in Hs; [exact Hs| |].
  - apply start_arena_good; reflexivity.
  - apply heappush_Forall; [constructor|simpl; lia].
Qed.

(** ** Returned paths (C1) *)

Lemma passable_not_obstacle grid p : passable grid p -> ~ on_obstacle grid p.
Proof.
  intros (_ & c & Hc & Hne) (_ & Ho). rewrite Ho in Hc. inversion Hc; subst.
  unfold OBSTACLE in Hne. simpl in Hne. discriminate.
Qed.

Lemma returned_by_valid grid start goal path :
  returned_by grid start goal path ->
  connects start goal path /\ Forall (passable grid) (tl path).
Proof.
  intros [K C hf Hr|K C hf Hr|K C hf w Hr|Hr|K C hf mx Hr].
  - eapply best_first_path; [| |exact Hr]; reflexivity.
  - eapply best_first_path; [| |exact Hr]; reflexivity.
  - eapply best_first_path; [| |exact Hr]; reflexivity.
  - eapply best_first_path; [| |exact Hr]; reflexivity.
  - eapply sma_star_search_path; exact Hr.
Qed.

(** C1 (as amended): a path returned by any of the five search variants
    starts at [start], ends at [goal], moves by 4-adjacent steps, and every
    position after the first is inside the map on a non-obstacle cell; so
    the whole path avoids obstacles as soon as [start] itself is not on
    one (the searches never test the start cell). *)
Theorem returned_path_valid grid start goal path :
  returned_by grid start goal path ->
  connects start goal path
  /\ Forall (passable grid) (tl path)
  /\ (~ on_obstacle grid start -> obstacle_free_path grid start goal path).
Proof.
  intros Hr. destruct (returned_by_valid Hr) as [Hc Ht].
  split; [exact Hc|]. split; [exact Ht|].
  intros Hs. split; [exact Hc|].
  destruct Hc as (Hh & _ & _). destruct path as [|p path]; [constructor|].
  simpl in Hh. inversion Hh; subst. constructor; [exact Hs|].
  simpl in Ht. eapply Forall_impl; [|exact Ht].
  intros q. apply passable_not_obstacle.
Qed.

Lemma scenario_returned :
  returned_by scenario_grid (0, 0)%Z (2, 2)%Z
    [(0, 0); (0, 1); (0, 2); (1, 2); (2, 2)]%Z.
Proof.
  apply (@by_a_star scenario_grid (0, 0)%Z (2, 2)%Z _ Z Cost_Z
                    (@manhattan_distance Z)).
  vm_compute. reflexivity.
Defined.

Lemma returned_path_valid_witness :
  returned_by scenario_grid (0, 0)%Z (2, 2)%Z
    [(0, 0); (0, 1); (0, 2); (1, 2); (2, 2)]%Z
  /\ obstacle_free_path scenario_grid (0, 0)%Z (2, 2)%Z
       [(0, 0); (0, 1); (0, 2); (1, 2); (2, 2)]%Z.
Proof.
  split; [exact scenario_returned|].
  apply (returned_path_valid scenario_returned).
  intros [_ Hg]. vm_compute in Hg. discriminate.
Defined.

(** C1 as stated fails when the search starts on an obstacle cell: the
    start is returned as the first position of the path. *)
Lemma path_may_start_on_obstacle :
  a_star_search (K:=Z) manhattan_distance [["1"; "0"]]%char (0, 0)%Z (0, 1)%Z
  = Return (Some [(0, 0); (0, 1)]%Z)
  /\ ~ obstacle_free_path [["1"; "0"]]%char (0, 0)%Z (0, 1)%Z
        [(0, 0); (0, 1)]%Z.
Proof.
  split; [vm_compute; reflexivity|].
  intros [_ Hf]. inversion Hf as [|? ? Hn _]; subst.
  apply Hn. split; vm_compute; reflexivity.
Qed.

(* ================================================================== *)
(** ** Cells read and written by the robot code *)

Lemma py_index_nonneg {A : Type} (l : list A) (i : Z) :
  (0 <= i < Z.of_nat (length l))%Z -> py_index l i = Some (Z.to_nat i).
Proof.
  intros Hi. unfold py_index.
  replace ((0 <=? i) && (i <? Z.of_nat (length l)))%Z with true; auto.
  symmetry. apply andb_true_iff. split; [apply Z.leb_le|apply Z.ltb_lt]; lia.
Qed.

Lemma py_get_Return {A : Type} (l : list A) (i : Z) (a : A) :
  py_get l i = Return a ->
  exists k, py_index l i = Some k /\ nth_error l k = Some a.
Proof.
  unfold py_get. destruct (py_index l i) as [k|]; [|discriminate].
  destruct (nth_error l k) eqn:E; [|discriminate].
  intros [= ->]. eauto.
Qed.

Lemma py_index_lt {A : Type} (l : list A) (i : Z) (k : nat) :
  py_index l i = Some k -> k < length l.
Proof.
  unfold py_index.
  destruct ((0 <=? i) && (i <? Z.of_nat (length l)))%Z eqn:E1.
  - intros [= <-]. apply andb_true_iff in E1 as [H1 H2].
    apply Z.leb_le in H1. apply Z.ltb_lt in H2. lia.
  - destruct ((- Z.of_nat (length l) <=? i) && (i <? 0))%Z eqn:E2;
      [|discriminate].
    intros [= <-]. apply andb_true_iff in E2 as [H1 H2].
    apply Z.leb_le in H1. apply Z.ltb_lt in H2. lia.
Qed.

(** Writing a cell, then reading it back. *)
Lemma cell_set_get (m m' : Grid) (r c : Z) (x : ascii) :
  cell_set m r c x = Return m' -> cell_get m' r c = Return x.
Proof.
  unfold cell_set, cell_get, bind.
  destruct (py_get m r) as [row| |] eqn:Er; try discriminate.
  unfold py_set.
  destruct (py_index row c) as [kc|] eqn:Ec; [|discriminate].
  apply py_get_Return in Er as (kr & Ekr & Hrow).
  rewrite Ekr. intros [= <-].
  pose proof (py_index_lt _ _ Ekr) as Lr.
  pose proof (py_index_lt _ _ Ec) as Lc.
  unfold py_get, py_index. rewrite list_set_length.
  unfold py_index in Ekr. rewrite Ekr.
  rewrite nth_error_list_set_eq by auto.
  rewrite list_set_length. unfold py_index in Ec. rewrite Ec.
  now rewrite nth_error_list_set_eq.
Qed.

(** Writing the symbol a cell already holds changes nothing. *)
Lemma cell_set_same (m : Grid) (r c : Z) (x : ascii) :
  cell_get m r c = Return x -> cell_set m r c x = Return m.
Proof.
  unfold cell_set, cell_get, bind.
  destruct (py_get m r) as [row| |] eqn:Er; try discriminate.
  intros Hc. apply py_get_Return in Hc as (kc & Ekc & Hx).
  apply py_get_Return in Er as (kr & Ekr & Hrow).
  unfold py_set. rewrite Ekc, Ekr.
  rewrite (list_set_same _ _ Hx). now rewrite (list_set_same _ _ Hrow).
Qed.

Lemma py_index_nonneg_inv {A : Type} (l : list A) (i : Z) (k : nat) :
  (0 <= i)%Z -> py_index l i = Some k ->
  k = Z.to_nat i /\ (i < Z.of_nat (length l))%Z.
Proof.
  intros Hi. unfold py_index.
  destruct ((0 <=? i) && (i <? Z.of_nat (length l)))%Z eqn:E1.
  - intros [= <-]. apply andb_true_iff in E1 as [_ H2].
    apply Z.ltb_lt in H2. auto.
  - destruct ((- Z.of_nat (length l) <=? i) && (i <? 0))%Z eqn:E2;
      [|discriminate].
    apply andb_true_iff in E2 as [_ H2]. apply Z.ltb_lt in H2. lia.
Qed.

Lemma py_get_nonneg {A : Type} (l : list A) (i : Z) :
  (0 <= i)%Z ->
  py_get l i = match nth_error l (Z.to_nat i) with
               | Some a => Return a
               | None => Raise
               end.
Proof.
  intros Hi. unfold py_get.
  destruct (Z.lt_ge_cases i (Z.of_nat (length l))) as [Hl|Hl].
  - now rewrite py_index_nonneg by lia.
  - destruct (py_index l i) as [k|] eqn:E.
    + apply py_index_nonneg_inv in E as [_ ?]; auto. lia.
    + replace (nth_error l (Z.to_nat i)) with (@None A); auto.
      symmetry. apply nth_error_None. lia.
Qed.

Lemma cell_get_nonneg (m : Grid) (r c : Z) :
  (0 <= r)%Z -> (0 <= c)%Z ->
  cell_get m r c = match cell_nat m (Z.to_nat r) (Z.to_nat c) with
                   | Some a => Return a
                   | None => Raise
                   end.
Proof.
  intros Hr Hc. unfold cell_get, cell_nat, bind. rewrite py_get_nonneg by auto.
  destruct (nth_error m (Z.to_nat r)); auto. now apply py_get_nonneg.
Qed.

Lemma cell_set_shape (m m' : Grid) (r c : Z) (x : ascii) :
  cell_set m r c x = Return m' ->
  exists kr kc row,
    py_index m r = Some kr /\ nth_error m kr = Some row /\
    py_index row c = Some kc /\ m' = list_set m kr (list_set row kc x).
Proof.
  unfold cell_set, bind.
  destruct (py_get m r) as [row| |] eqn:Er; try discriminate.
  apply py_get_Return in Er as (kr & Ekr & Hrow).
  unfold py_set. destruct (py_index row c) as [kc|] eqn:Ec; [|discriminate].
  rewrite Ekr. intros [= <-]. exists kr, kc, row. auto.
Qed.

Lemma cell_get_shape (m : Grid) (r c : Z) (a : ascii) :
  cell_get m r c = Return a ->
  exists kr kc, py_index m r = Some kr /\
                (exists row, nth_error m kr = Some row
                             /\ py_index row c = Some kc) /\
                cell_nat m kr kc = Some a.
Proof.
  unfold cell_get, bind.
  destruct (py_get m r) as [row| |] eqn:Er; try discriminate.
  apply py_get_Return in Er as (kr & Ekr & Hrow).
  intros Hc. apply py_get_Return in Hc as (kc & Ekc & Ha).
  exists kr, kc. unfold cell_nat. rewrite Hrow. eauto.
Qed.

Lemma cell_nat_after_set (m : Grid) (kr kc : nat) (row : list ascii)
      (x : ascii) (i j : nat) :
  nth_error m kr = Some row -> kc < length row ->
  cell_nat (list_set m kr (list_set row kc x)) i j
  = if (i =? kr) && (j =? kc) then Some x else cell_nat m i j.
Proof.
  intros Hrow Hkc. unfold cell_nat.
  assert (Hkr : kr < length m) by (apply nth_error_Some; congruence).
  destruct (i =? kr) eqn:Ei; cbn [andb].
  - apply Nat.eqb_eq in Ei; subst i.
    rewrite nth_error_list_set_eq by auto. rewrite Hrow.
    destruct (j =? kc) eqn:Ej.
    + apply Nat.eqb_eq in Ej; subst j. now apply nth_error_list_set_eq.
    + apply Nat.eqb_neq in Ej. apply nth_error_list_set_neq. congruence.
  - apply Nat.eqb_neq in Ei. rewrite nth_error_list_set_neq by congruence.
    reflexivity.
Qed.

Lemma cell_get_after_set (m m' : Grid) (r c : Z) (x : ascii) (r' c' : Z) :
  cell_set m r c x = Return m' ->
  (0 <= r)%Z -> (0 <= c)%Z -> (0 <= r')%Z -> (0 <= c')%Z ->
  cell_get m' r' c'
  = if ((r' =? r) && (c' =? c))%Z then Return x else cell_get m r' c'.
Proof.
  intros Hs Hr Hc Hr' Hc'.
  apply cell_set_shape in Hs as (kr & kc & row & Ekr & Hrow & Ekc & ->).
  pose proof (py_index_lt _ _ Ekc) as Lc.
  apply py_index_nonneg_inv in Ekr as [-> _]; auto.
  apply py_index_nonneg_inv in Ekc as [-> _]; auto.
  rewrite !cell_get_nonneg by auto.
  rewrite cell_nat_after_set by auto.
  replace (Z.to_nat r' =? Z.to_nat r) with (r' =? r)%Z.
  2:{ destruct (Z.eqb_spec r' r); symmetry;
      [apply Nat.eqb_eq|apply Nat.eqb_neq]; lia. }
  replace (Z.to_nat c' =? Z.to_nat c) with (c' =? c)%Z.
  2:{ destruct (Z.eqb_spec c' c); symmetry;
      [apply Nat.eqb_eq|apply Nat.eqb_neq]; lia. }
  destruct ((r' =? r) && (c' =? c))%Z; reflexivity.
Qed.

(** ** [sense_environment] (C8) *)

Lemma fact_eqb_refl (a : Robot.Fact) : Robot.fact_eqb a a = true.
Proof.
  destruct a as [[s x] y]. unfold Robot.fact_eqb.
  now rewrite Ascii.eqb_refl, !Z.eqb_refl.
Qed.

Lemma existsb_app_r {A : Type} (p : A -> bool) (l : list A) (a : A) :
  p a = true -> existsb p (l ++ [a]) = true.
Proof.
  intros Ha. rewrite existsb_app. simpl. rewrite Ha. apply orb_true_iff.
  right. reflexivity.
Qed.

Lemma existsb_app_l {A : Type} (p : A -> bool) (l l' : list A) :
  existsb p l = true -> existsb p (l ++ l') = true.
Proof. intros Hl. rewrite existsb_app, Hl. reflexivity. Qed.

Lemma inside_nonneg (s : Robot.t) (x y : Z) :
  Robot.inside s x y = true -> (0 <= x)%Z /\ (0 <= y)%Z.
Proof.
  unfold Robot.inside. rewrite !andb_true_iff.
  intros [[[H1 _] H2] _]. apply Z.leb_le in H1, H2. auto.
Qed.

Lemma settled_fix (s : Robot.t) (cx cy : Z) (d : Z * Z) :
  settled s cx cy d -> Robot.sense_cell s cx cy d = Return s.
Proof.
  intros (sym & Hg & Hin). unfold Robot.sense_cell. rewrite Hg. cbn [bind].
  destruct (Robot.inside s _ _) eqn:Ei; auto.
  destruct (Hin eq_refl) as [Hc He].
  rewrite (cell_set_same _ _ _ Hc). cbn [bind].
  destruct s; cbn in *. now rewrite He.
Qed.

Lemma sense_cell_settles (s s' : Robot.t) (cx cy : Z) (d : Z * Z) :
  Robot.sense_cell s cx cy d = Return s' -> settled s' cx cy d.
Proof.
  unfold Robot.sense_cell, settled.
  destruct (Robot.get_symbol_at s _ _ _) as [sym| |] eqn:Hg;
    cbn [bind]; try discriminate.
  destruct (Robot.inside s _ _) eqn:Ei.
  - destruct (cell_set _ _ _ sym) as [m'| |] eqn:Hs; cbn [bind];
      try discriminate.
    apply cell_set_get in Hs.
    destruct (existsb _ _) eqn:He; intros [= <-]; exists sym;
      destruct s; cbn in *; (split; [exact Hg|]); intros _; split; auto.
    apply existsb_app_r, fact_eqb_refl.
  - intros [= <-]. exists sym. split; auto. congruence.
Qed.

Lemma sense_cell_keeps (s s' : Robot.t) (cx cy : Z) (d d' : Z * Z) :
  settled s cx cy d -> Robot.sense_cell s cx cy d' = Return s' ->
  settled s' cx cy d.
Proof.
  unfold Robot.sense_cell, settled.
  intros (sym & Hg & Hin).
  destruct (Robot.get_symbol_at s _ (cx + fst d') _) as [sym'| |] eqn:Hg';
    cbn [bind]; try discriminate.
  destruct (Robot.inside s (cx + fst d') _) eqn:Ei'.
  - destruct (cell_set _ _ _ sym') as [m'| |] eqn:Hs; cbn [bind];
      try discriminate.
    assert (Hcell : Robot.inside s (cx + fst d) (cy + snd d) = true ->
                    cell_get m' (cx + fst d) (cy + snd d) = Return sym).
    { intros Ei. destruct (Hin Ei) as [Hc _].
      destruct (inside_nonneg _ _ _ Ei) as [? ?].
      destruct (inside_nonneg _ _ _ Ei') as [? ?].
      rewrite (@cell_get_after_set _ _ _ _ _ (cx + fst d)%Z (cy + snd d)%Z Hs)
        by auto.
      destruct ((_ =? _) && (_ =? _))%Z eqn:E; auto.
      apply andb_true_iff in E as [E1 E2].
      apply Z.eqb_eq in E1, E2. rewrite E1, E2 in Hg. congruence. }
    destruct (existsb _ (Robot.record (Robot.with_local_map s m'))) eqn:He;
      intros [= <-]; exists sym;
      destruct s; cbn in *; (split; [exact Hg|]); intros Ei; split; auto;
      try (apply Hin; exact Ei).
    apply existsb_app_l. now apply Hin.
  - intros [= <-]. exists sym. auto.
Qed.

Lemma sense_pass_settles (cx cy : Z) : forall ds s s',
  Robot.for_each (fun r d => Robot.sense_cell r cx cy d) ds s = Return s' ->
  forall d, In d ds \/ settled s cx cy d -> settled s' cx cy d.
Proof.
  induction ds as [|d0 ds IH]; intros s s' Hf d Hd; cbn [Robot.for_each] in Hf.
  - inversion Hf; subst. destruct Hd as [[]|]; auto.
  - destruct (Robot.sense_cell s cx cy d0) as [s0| |] eqn:Hc;
      cbn [bind] in Hf; try discriminate.
    apply (IH _ _ Hf). destruct Hd as [[<-|Hd]|Hd]; auto.
    + right. eapply sense_cell_settles; eauto.
    + right. eapply sense_cell_keeps; eauto.
Qed.

Lemma sense_pass_fix (cx cy : Z) : forall ds s,
  (forall d, In d ds -> settled s cx cy d) ->
  Robot.for_each (fun r d => Robot.sense_cell r cx cy d) ds s = Return s.
Proof.
  induction ds as [|d0 ds IH]; intros s Hs; cbn [Robot.for_each]; auto.
  rewrite settled_fix by (apply Hs; now left). cbn [bind].
  apply IH. intros; apply Hs; now right.
Qed.

(** Sensing never touches the fields it reads its parameters from. *)
Lemma sense_cell_frame (s s' : Robot.t) (cx cy : Z) (d : Z * Z) :
  Robot.sense_cell s cx cy d = Return s' ->
  s' = Robot.with_record (Robot.with_local_map s (Robot.local_map s'))
                         (Robot.record s').
Proof.
  unfold Robot.sense_cell.
  destruct (Robot.get_symbol_at s _ _ _) as [sym| |]; cbn [bind];
    try discriminate.
  destruct (Robot.inside s _ _).
  - destruct (cell_set _ _ _ sym) as [m'| |]; cbn [bind]; try discriminate.
    destruct (existsb _ _); intros [= <-]; destruct s; reflexivity.
  - intros [= <-]. destruct s; reflexivity.
Qed.

Lemma sense_pass_frame (cx cy : Z) : forall ds s s',
  Robot.for_each (fun r d => Robot.sense_cell r cx cy d) ds s = Return s' ->
  s' = Robot.with_record (Robot.with_local_map s (Robot.local_map s'))
                         (Robot.record s').
Proof.
  induction ds as [|d0 ds IH]; intros s s' Hf; cbn [Robot.for_each] in Hf.
  - inversion Hf; subst. destruct s'; reflexivity.
  - destruct (Robot.sense_cell s cx cy d0) as [s0| |] eqn:Hc;
      cbn [bind] in Hf; try discriminate.
    apply IH in Hf. apply sense_cell_frame in Hc.
    rewrite Hf. rewrite Hc. destruct s; reflexivity.
Qed.

(** C8: once [sense_environment] has returned, calling it again from the
    state it produced (same position, same ground truth) returns exactly
    that state: local map and record are unchanged. *)
Theorem sense_environment_idempotent (r r1 : Robot.t) :
  Robot.sense_environment r = Return r1 ->
  Robot.sense_environment r1 = Return r1.
Proof.
  unfold Robot.sense_environment. intros Hs.
  pose proof (sense_pass_frame _ _ _ _ Hs) as Hf.
  assert (E : Robot.pos_x r1 = Robot.pos_x r /\ Robot.pos_y r1 = Robot.pos_y r
              /\ Robot.sensor_radius r1 = Robot.sensor_radius r).
  { rewrite Hf. destruct r; auto. }
  destruct E as (-> & -> & ->).
  apply sense_pass_fix. intros d Hd.
  eapply sense_pass_settles; [exact Hs|]. now left.
Qed.

(** ** Known cells stay known (C9) *)

Lemma Forall2_refl {A : Type} (R : A -> A -> Prop) (l : list A) :
  (forall a, R a a) -> Forall2 R l l.
Proof. intros HR; induction l; constructor; auto. Qed.

Lemma Forall2_trans {A : Type} (R : A -> A -> Prop) :
  (forall a b c, R a b -> R b c -> R a c) ->
  forall l1 l2 l3, Forall2 R l1 l2 -> Forall2 R l2 l3 -> Forall2 R l1 l3.
Proof.
  intros HR l1 l2 l3 H12; revert l3.
  induction H12; intros l3 H23; inversion H23; subst; constructor; eauto.
Qed.

Lemma Forall2_list_set {A : Type} (R : A -> A -> Prop) (l : list A)
      (k : nat) (a x : A) :
  (forall b, R b b) -> nth_error l k = Some a -> R a x ->
  Forall2 R l (list_set l k x).
Proof.
  intros HR. revert k; induction l as [|b l IH]; intros [|k] Hk Hax;
    simpl in *; try discriminate.
  - inversion Hk; subst. constructor; auto. now apply Forall2_refl.
  - constructor; auto.
Qed.

Lemma cell_le_refl c : cell_le c c.
Proof. unfold cell_le; auto. Qed.

Lemma map_le_refl m : map_le m m.
Proof. apply Forall2_refl. intros; apply Forall2_refl, cell_le_refl. Qed.

Lemma map_le_trans m1 m2 m3 : map_le m1 m2 -> map_le m2 m3 -> map_le m1 m3.
Proof.
  apply Forall2_trans. intros a b c. apply Forall2_trans.
  unfold cell_le; auto.
Qed.

Lemma cell_set_map_le (m m' : Grid) (r c : Z) (x : ascii) :
  cell_set m r c x = Return m' ->
  x <> UNKNOWN \/ cell_get m r c = Return UNKNOWN ->
  map_le m m'.
Proof.
  intros Hs Hx.
  pose proof Hs as (kr & kc & row & Ekr & Hrow & Ekc & ->)%cell_set_shape.
  pose proof (py_index_lt _ _ Ekc) as Lc.
  destruct (nth_error row kc) as [old|] eqn:Eold.
  2:{ apply nth_error_None in Eold. lia. }
  eapply Forall2_list_set; [intros; apply Forall2_refl, cell_le_refl
                           |exact Hrow|].
  eapply Forall2_list_set; [apply cell_le_refl|exact Eold|].
  destruct Hx as [Hx|Hx]; [intros _; exact Hx|].
  unfold cell_get, py_get, bind in Hx. rewrite Ekr, Hrow, Ekc, Eold in Hx.
  inversion Hx; subst. intros Hn; now elim Hn.
Qed.

Lemma Forall2_nth_error {A : Type} (R : A -> A -> Prop) (l l' : list A)
      (k : nat) (a : A) :
  Forall2 R l l' -> nth_error l k = Some a ->
  exists a', nth_error l' k = Some a' /\ R a a'.
Proof.
  intros HF; revert k; induction HF; intros [|k] Hk; simpl in *;
    try discriminate; eauto.
  inversion Hk; subst; eauto.
Qed.

Lemma map_le_known m m' i j : map_le m m' -> known m i j -> known m' i j.
Proof.
  intros Hle (c & Hc & Hn). unfold cell_nat in Hc.
  destruct (nth_error m i) as [row|] eqn:Er; [|discriminate].
  destruct (Forall2_nth_error _ Hle Er) as (row' & Er' & Hrr).
  destruct (Forall2_nth_error _ Hrr Hc) as (c' & Ec' & Hcc).
  exists c'. unfold cell_nat. rewrite Er'. auto.
Qed.

Lemma row_le_count row row' :
  Forall2 cell_le row row' ->
  countP (fun c => negb (Ascii.eqb c UNKNOWN)) row
  <= countP (fun c => negb (Ascii.eqb c UNKNOWN)) row'.
Proof.
  induction 1 as [|c c' row row' Hc _ IH]; simpl; auto.
  destruct (Ascii.eqb_spec c UNKNOWN); simpl; [lia|].
  destruct (Ascii.eqb_spec c' UNKNOWN); simpl; [|lia].
  exfalso. now apply Hc.
Qed.

Lemma map_le_count m m' : map_le m m' -> known_count m <= known_count m'.
Proof.
  unfold known_count. induction 1 as [|row row' m m' Hr _ IH]; simpl; auto.
  rewrite !countP_app. pose proof (row_le_count Hr). lia.
Qed.

Lemma for_each_rel {A S : Type} (body : S -> A -> outcome S)
      (I : S -> Prop) (R : S -> S -> Prop) :
  (forall s, R s s) -> (forall a b c, R a b -> R b c -> R a c) ->
  (forall s a s', I s -> body s a = Return s' -> I s' /\ R s s') ->
  forall l s s', I s -> Robot.for_each body l s = Return s' ->
                 I s' /\ R s s'.
Proof.
  intros Hrefl Htrans Hstep. induction l as [|a l IH]; intros s s' Hi Hf;
    cbn [Robot.for_each] in Hf.
  - inversion Hf; subst. auto.
  - destruct (body s a) as [s0| |] eqn:Hb; cbn [bind] in Hf;
      try discriminate.
    destruct (Hstep _ _ _ Hi Hb) as [Hi0 HR0].
    destruct (IH _ _ Hi0 Hf) as [Hi' HR']. eauto.
Qed.

Lemma cell_get_truth_known (fm : Grid) (r c : Z) (x : ascii) :
  truth_known fm -> cell_get fm r c = Return x -> x <> UNKNOWN.
Proof.
  intros Ht Hg. apply cell_get_shape in Hg as (kr & kc & _ & _ & Hc).
  eapply Ht; eauto.
Qed.

Lemma sense_cell_map_le (s s' : Robot.t) (cx cy : Z) (d : Z * Z) :
  truth_known (Robot.full_map s) ->
  Robot.sense_cell s cx cy d = Return s' ->
  Robot.full_map s' = Robot.full_map s
  /\ map_le (Robot.local_map s) (Robot.local_map s').
Proof.
  intros Ht. unfold Robot.sense_cell, Robot.get_symbol_at.
  destruct (Robot.inside s _ _) eqn:Ei; cbn [bind].
  - destruct (cell_get (Robot.full_map s) _ _) as [sym| |] eqn:Hg;
      cbn [bind]; try discriminate.
    destruct (cell_set _ _ _ sym) as [m'| |] eqn:Hs; cbn [bind];
      try discriminate.
    assert (Hle : map_le (Robot.local_map s) m').
    { eapply cell_set_map_le; [exact Hs|]. left.
      eapply cell_get_truth_known; eauto. }
    destruct (existsb _ _); intros [= <-]; destruct s; cbn in *; auto.
  - intros [= <-]. split; auto. apply map_le_refl.
Qed.

Lemma sense_environment_map_le (r r' : Robot.t) :
  truth_known (Robot.full_map r) ->
  Robot.sense_environment r = Return r' ->
  map_le (Robot.local_map r) (Robot.local_map r').
Proof.
  intros Ht Hs. unfold Robot.sense_environment in Hs.
  refine (proj2 (@for_each_rel _ _ _
            (fun s => Robot.full_map s = Robot.full_map r)
            (fun s s' => map_le (Robot.local_map s) (Robot.local_map s'))
            _ _ _ _ _ _ eq_refl Hs)).
  - intros; apply map_le_refl.
  - intros a b c; apply map_le_trans.
  - intros s a s' Hi Hb. rewrite <- Hi in Ht.
    destruct (sense_cell_map_le _ _ _ _ Ht Hb) as [Hf Hle]. split; congruence.
Qed.

Lemma explore_frame (r : Robot.t) (start : Pos) : forall targets r',
  Robot.explore r start targets = Return r' ->
  r' = Robot.with_path r (Robot.path r').
Proof.
  induction targets as [|t targets IH]; intros r' He; cbn [Robot.explore] in He.
  - inversion He; subst. destruct r; reflexivity.
  - destruct (a_star_search _ _ _ _) as [res| |]; cbn [bind] in He;
      try discriminate.
    destruct res as [[|p tail]|]; auto.
    inversion He; subst. destruct r; reflexivity.
Qed.

Lemma plan_path_frame (r r' : Robot.t) :
  Robot.plan_path r = Return r' -> r' = Robot.with_path r (Robot.path r').
Proof.
  unfold Robot.plan_path.
  destruct (a_star_search _ _ _ _) as [res| |]; cbn [bind];
    try discriminate.
  assert (Helse : (tiles <- Robot.unknown_tiles r ;;
                   match tiles with
                   | [] => Return (Robot.with_path r [])
                   | _ :: _ =>
                       Robot.explore r (Robot.position r)
                         (sort_by (fun pos =>
                                     (Z.abs (fst pos - Robot.pos_x r)
                                      + Z.abs (snd pos - Robot.pos_y r))%Z)
                                  tiles)
                   end) = Return r' ->
                  r' = Robot.with_path r (Robot.path r')).
  { destruct (Robot.unknown_tiles r) as [tiles| |]; cbn [bind];
      try discriminate.
    destruct tiles; [|apply explore_frame].
    intros [= <-]. destruct r; reflexivity. }
  destruct res as [[|p tail]|]; auto.
  intros [= <-]. destruct r; reflexivity.
Qed.

Lemma receive_item_map_le (st st' : Robot.t * bool) (item : Pos * ascii) :
  Robot.receive_item st item = Return st' ->
  map_le (Robot.local_map (fst st)) (Robot.local_map (fst st')).
Proof.
  destruct st as [r updated], item as [[x y] symbol].
  unfold Robot.receive_item.
  destruct (cell_get _ x y) as [c| |] eqn:Hg; cbn [bind]; try discriminate.
  destruct (Ascii.eqb_spec c UNKNOWN) as [->|Hne].
  - destruct (cell_set _ x y symbol) as [m'| |] eqn:Hs; cbn [bind];
      try discriminate.
    intros [= <-]. cbn [fst]. destruct r; cbn in *.
    eapply cell_set_map_le; eauto.
  - intros [= <-]. apply map_le_refl.
Qed.

Lemma receive_knowledge_map_le (r r' : Robot.t) shared :
  Robot.receive_knowledge r shared = Return r' ->
  map_le (Robot.local_map r) (Robot.local_map r').
Proof.
  unfold Robot.receive_knowledge.
  destruct (Robot.for_each _ _ _) as [[r1 updated]| |] eqn:Hf; cbn [bind];
    try discriminate.
  assert (Hle : map_le (Robot.local_map r) (Robot.local_map r1)).
  { refine (proj2 (@for_each_rel _ _ _ (fun _ => True)
              (fun s s' => map_le (Robot.local_map (fst s))
                                  (Robot.local_map (fst s')))
              _ _ _ _ _ _ I Hf)).
    - intros; apply map_le_refl.
    - intros a b c; apply map_le_trans.
    - intros s a s' _ Hb. split; auto. eapply receive_item_map_le; eauto. }
  destruct updated.
  - intros Hp. apply plan_path_frame in Hp. rewrite Hp.
    destruct r1; exact Hle.
  - intros [= <-]. exact Hle.
Qed.

Lemma move_map_le (r r' : Robot.t) reg reg' ev :
  truth_known (Robot.full_map r) ->
  Robot.move r reg = Return (r', reg', ev) ->
  map_le (Robot.local_map r) (Robot.local_map r').
Proof.
  intros Ht. unfold Robot.move. destruct (Robot.path r) as [|next rest].
  - intros [= <- _ _]. apply map_le_refl.
  - destruct (cell_set _ _ _ FREE) as [m| |] eqn:Hs; cbn [bind];
      try discriminate.
    destruct (Robot.get_symbol_at _ (Robot.full_map _) _ _); cbn [bind];
      try discriminate.
    destruct (Robot.get_symbol_at _ (Robot.local_map _) _ _); cbn [bind];
      try discriminate.
    destruct (Robot.sense_environment _) as [r2| |] eqn:Hse; cbn [bind];
      try discriminate.
    intros [= <- _ _].
    apply sense_environment_map_le in Hse; [|destruct r; exact Ht].
    eapply map_le_trans; [|exact Hse].
    destruct r; cbn in *. eapply cell_set_map_le; eauto.
    left. discriminate.
Qed.

Lemma refresh_markers_map_le reg (r r' : Robot.t) :
  Coordinator.refresh_markers reg r = Return r' ->
  map_le (Robot.local_map r) (Robot.local_map r').
Proof.
  unfold Coordinator.refresh_markers.
  destruct (Robot.for_each Coordinator.clear_marker _ _) as [m1| |] eqn:H1;
    cbn [bind]; try discriminate.
  destruct (Robot.for_each _ reg m1) as [m2| |] eqn:H2; cbn [bind];
    try discriminate.
  intros [= <-]. destruct r; cbn in *.
  eapply map_le_trans.
  - refine (proj2 (@for_each_rel _ _ _ (fun _ => True) map_le
              map_le_refl map_le_trans _ _ _ _ I H1)).
    intros s a s' _ Hb. split; auto. unfold Coordinator.clear_marker in Hb.
    destruct (cell_get s _ _) as [c| |]; cbn [bind] in Hb; try discriminate.
    destruct (Ascii.eqb c ROBOT).
    + eapply cell_set_map_le; eauto. left; discriminate.
    + inversion Hb; subst. apply map_le_refl.
  - refine (proj2 (@for_each_rel _ _ _ (fun _ => True) map_le
              map_le_refl map_le_trans _ _ _ _ I H2)).
    intros s a s' _ Hb. split; auto.
    eapply cell_set_map_le; eauto. left; discriminate.
Qed.

(** C9: each operation that writes a robot's local map ([sense], [receive],
    [move], the coordinator's position refresh) leaves every known cell
    known, so the number of known cells does not decrease; the ground truth
    read by [sense] and [move] holds no ['?'] symbol. *)
Theorem known_cells_stay_known (r r' : Robot.t) :
  map_written r r' ->
  (forall i j, known (Robot.local_map r) i j -> known (Robot.local_map r') i j)
  /\ known_count (Robot.local_map r) <= known_count (Robot.local_map r').
Proof.
  intros Hw.
  assert (Hle : map_le (Robot.local_map r) (Robot.local_map r')).
  { destruct Hw as [Ht Hs|shared Hr|reg reg' ev Ht Hm|reg Hr].
    - eapply sense_environment_map_le; eauto.
    - eapply receive_knowledge_map_le; eauto.
    - eapply move_map_le; eauto.
    - eapply refresh_markers_map_le; eauto. }
  split; [|now apply map_le_count].
  intros i j. now apply map_le_known.
Qed.

Lemma sense_environment_idempotent_witness :
  exists r1, Robot.sense_environment sample_robot = Return r1
             /\ Robot.sense_environment r1 = Return r1.
Proof.
  eexists. split.
  - vm_compute. reflexivity.
  - apply (@sense_environment_idempotent sample_robot). vm_compute.
    reflexivity.
Defined.

Lemma known_cells_stay_known_witness :
  exists r', Robot.receive_knowledge sample_robot [((0, 1)%Z, "1"%char)]
             = Return r'
             /\ known_count (Robot.local_map sample_robot)
                <= known_count (Robot.local_map r').
Proof.
  eexists. split.
  - vm_compute. reflexivity.
  - apply known_cells_stay_known.
    apply (@written_by_receive _ _ [((0, 1)%Z, "1"%char)]).
    vm_compute. reflexivity.
Defined.

(** ** [move] (C6, C10) *)

(** C10: [move()] on a robot whose path is empty returns at once: position,
    local map, record, path and the shared registry are what they were (the
    only effect is the printed line). *)
Theorem move_without_path_is_noop (r : Robot.t) (reg : Robot.Registry) :
  Robot.path r = [] ->
  Robot.move r reg = Return (r, reg, [NoPathToFollow (Robot.id r)]).
Proof. intros Hp. unfold Robot.move. now rewrite Hp. Qed.

Lemma move_without_path_is_noop_witness :
  Robot.path sample_robot = []
  /\ Robot.move sample_robot [(2%Z, (1, 0)%Z)]
     = Return (sample_robot, [(2%Z, (1, 0)%Z)], [NoPathToFollow 1]).
Proof.
  split; [reflexivity|].
  apply (@move_without_path_is_noop sample_robot). reflexivity.
Defined.

Lemma sense_environment_frame (r r' : Robot.t) :
  Robot.sense_environment r = Return r' ->
  r' = Robot.with_record (Robot.with_local_map r (Robot.local_map r'))
                         (Robot.record r').
Proof. unfold Robot.sense_environment. apply sense_pass_frame. Qed.

(** C6: with a non-empty path, [move()] pops the first entry, writes ['0']
    on the vacated cell, takes the popped position as the robot's position
    and registry entry whatever the ground truth there is, and then senses
    from it; when the ground truth at the new position is an obstacle the
    mismatch is reported as an event and the move still stands. *)
Theorem move_adopts_next_position (r r' : Robot.t) (reg reg' : Robot.Registry)
        (next : Pos) (rest : list Pos) (ev : list Event) :
  Robot.path r = next :: rest ->
  Robot.move r reg = Return (r', reg', ev) ->
  Robot.position r' = next
  /\ Robot.pos_x r' = fst next /\ Robot.pos_y r' = snd next
  /\ Robot.path r' = rest
  /\ reg' = reg_set reg (Robot.id r) (fst next, snd next)
  /\ (exists m,
        cell_set (Robot.local_map r) (Robot.pos_x r) (Robot.pos_y r) FREE
        = Return m
        /\ cell_get m (Robot.pos_x r) (Robot.pos_y r) = Return FREE
        /\ Robot.sense_environment
             (Robot.with_position
                (Robot.with_path (Robot.with_local_map r m) rest) next)
           = Return r')
  /\ (Robot.get_symbol_at r (Robot.full_map r) (fst next) (snd next)
      = Return OBSTACLE ->
      exists local_value,
        In (PhasedThroughObstacle (Robot.id r) next local_value) ev).
Proof.
  intros Hp. unfold Robot.move. rewrite Hp.
  destruct (cell_set _ _ _ FREE) as [m| |] eqn:Hs; cbn [bind];
    try discriminate.
  destruct (Robot.get_symbol_at _ (Robot.full_map _) _ _) as [tv| |] eqn:Ht;
    cbn [bind]; try discriminate.
  destruct (Robot.get_symbol_at _ (Robot.local_map _) _ _) as [lv| |] eqn:Hl;
    cbn [bind]; try discriminate.
  destruct (Robot.sense_environment _) as [r2| |] eqn:Hse; cbn [bind];
    try discriminate.
  intros [= <- <- <-].
  pose proof Hse as Hf. apply sense_environment_frame in Hf.
  assert (Htv : Robot.get_symbol_at r (Robot.full_map r) (fst next) (snd next)
                = Return tv) by (destruct r; exact Ht).
  split; [|split; [|split; [|split; [|split; [|split]]]]].
  - rewrite Hf. destruct r; reflexivity.
  - rewrite Hf. destruct r; reflexivity.
  - rewrite Hf. destruct r; reflexivity.
  - rewrite Hf. destruct r; reflexivity.
  - destruct r; reflexivity.
  - exists m. split; [reflexivity|]. split; [|exact Hse].
    eapply cell_set_get; eauto.
  - intros Ho. try rewrite Htv in Ho. inversion Ho; subst.
    exists lv. destruct r; cbn. left. reflexivity.
Qed.

Lemma move_adopts_next_position_witness :
  exists r' ev,
    Robot.move sample_robot_heading_east [] = Return (r', [(1, (0, 1))%Z], ev)
    /\ Robot.position r' = (0, 1)%Z
    /\ cell_get (Robot.full_map r') 0 1 = Return OBSTACLE
    /\ In (PhasedThroughObstacle 1 (0, 1)%Z UNKNOWN) ev.
Proof.
  eexists. eexists. split; [vm_compute; reflexivity|].
  split; [|split; [vm_compute; reflexivity|]].
  - eapply (@move_adopts_next_position sample_robot_heading_east _ []).
    + reflexivity.
    + vm_compute. reflexivity.
  - left. reflexivity.
Defined.

(** ** The corridor scenario (C7) *)

(** C7 (as amended): with robots 1 and 2 starting at (0,0) and (0,1) and
    the goal at (0,2), robot 2, whose next cell is free, moves onto the goal
    in the first step; robot 1 finds its next cell occupied, waits exactly
    that one step, moves in the second step and enters the goal in the
    third. *)
Theorem corridor_front_robot_goes_first :
  exists rs reg,
    Coordinator.run_simulation (1, 3)%Z [(0, 0); (0, 1)]%Z (0, 2)%Z corridor
    = Return ([[TileOccupied 1; MovedTo 2 (0, 2)%Z];
               [MovedTo 1 (0, 1)%Z];
               [EnteringOccupiedGoal 1; MovedTo 1 (0, 2)%Z]],
              rs, reg, Coordinator.AllReachedGoal)
    /\ map Robot.position rs = [(0, 2); (0, 2)]%Z
    /\ proceeds_then_follows 2 1
         [[TileOccupied 1; MovedTo 2 (0, 2)%Z];
          [MovedTo 1 (0, 1)%Z];
          [EnteringOccupiedGoal 1; MovedTo 1 (0, 2)%Z]].
Proof.
  eexists. eexists. split; [vm_compute; reflexivity|].
  split; [reflexivity|]. vm_compute. auto.
Qed.

(** C7 as stated fails: the lower-id robot is the one that waits. *)
Lemma corridor_lower_id_waits :
  exists trace rs reg status,
    Coordinator.run_simulation (1, 3)%Z [(0, 0); (0, 1)]%Z (0, 2)%Z corridor
    = Return (trace, rs, reg, status)
    /\ ~ proceeds_then_follows 1 2 trace.
Proof.
  do 4 eexists. split; [vm_compute; reflexivity|].
  vm_compute. intros (H1 & _). discriminate.
Qed.

(** ** Eviction in the bounded-memory search (C3) *)










(* ================================================================== *)
(** ** Sorting and ranges used by [plan_path] *)

Lemma zrange_In (lo hi k : Z) : In k (zrange lo hi) <-> (lo <= k < hi)%Z.
Proof.
unfold zrange. rewrite in_map_iff. split.
- intros (n & <- & Hn). apply in_seq in Hn. lia.
- intros Hk. exists (Z.to_nat (k - lo)). split; [lia|].
  apply in_seq. lia.
Qed.





Lemma a_star_path_nonempty (K : Type) (C : Cost K)
      (hf : Node K -> Node K -> K) grid start goal path :
  a_star_search hf grid start goal = Return (Some path) ->
  hd_error path = Some start.
Proof.
intros Hr.
assert (Hb : returned_by grid start goal path) by (eapply by_a_star; eauto).
apply returned_by_valid in Hb as [(Hh & _) _]. exact Hh.
Qed.

(** ** [plan_path] (C5) *)





(* ================================================================== *)
(** ** [heapq]: the heap invariant *)

Lemma parent_cases (i : nat) :
  0 < i -> 2 * ((i - 1) / 2) + 1 = i \/ 2 * ((i - 1) / 2) + 2 = i.
Proof.
intros Hi. pose proof (Nat.div_mod_eq (i - 1) 2) as E.
pose proof (Nat.mod_upper_bound (i - 1) 2 ltac:(lia)) as B. lia.
Qed.

Lemma parent_of_left (p : nat) : (2 * p + 1 - 1) / 2 = p.
Proof.
replace (2 * p + 1 - 1) with (p * 2) by lia. apply Nat.div_mul. lia.
Qed.

Lemma parent_of_right (p : nat) : (2 * p + 1 + 1 - 1) / 2 = p.
Proof.
replace (2 * p + 1 + 1 - 1) with (1 + p * 2) by lia.
rewrite Nat.div_add by lia. reflexivity.
Qed.

Section HeapOrder.
Context {A : Type}.
Variable lt : A -> A -> bool.
Variable rank : A -> Z.
Hypothesis lt_rank : forall a b, lt a b = (rank a <? rank b)%Z.

Lemma nth_list_set (l : list A) (i j : nat) (x d : A) :
  i < length l ->
  nth j (list_set l i x) d = if j =? i then x else nth j l d.
Proof.
intros Hi. destruct (Nat.eqb_spec j i) as [->|Hne].
- now apply nth_list_set_eq.
- apply nth_list_set_neq. congruence.
Qed.

(** Filling the hole with an item that fits gives a heap. *)
Lemma hole_fill (heap : list A) (pos : nat) (x : A) :
  pos < length heap -> hole_ok rank heap pos ->
  (forall c d, 0 < c < length heap -> (c - 1) / 2 = pos ->
               (rank x <= rank (nth c heap d))%Z) ->
  (0 < pos -> forall d, (rank (nth ((pos - 1) / 2) heap d) <= rank x)%Z) ->
  heap_ok rank (list_set heap pos x).
Proof.
intros Hpos [H1 H2] Hch Hpar i d Hi. rewrite list_set_length in Hi.
rewrite !nth_list_set by exact Hpos.
pose proof (parent_cases (i := i) ltac:(lia)) as Hpc.
destruct (Nat.eqb_spec i pos) as [->|Hne].
- destruct (Nat.eqb_spec ((pos - 1) / 2) pos) as [E|_]; [lia|].
  apply Hpar. lia.
- destruct (Nat.eqb_spec ((i - 1) / 2) pos) as [E|Hne2].
  + apply Hch; auto.
  + apply H1; auto.
Qed.

Lemma hole_ok_intro (heap : list A) (pos : nat) (x : A) :
  (forall i, 0 < i < length heap -> i <> pos -> (i - 1) / 2 <> pos ->
             (rank (nth ((i - 1) / 2) heap x) <= rank (nth i heap x))%Z) ->
  (forall c, 0 < c < length heap -> (c - 1) / 2 = pos -> 0 < pos ->
             (rank (nth ((pos - 1) / 2) heap x) <= rank (nth c heap x))%Z) ->
  hole_ok rank heap pos.
Proof.
intros H1 H2. split.
- intros i d Hi Hn1 Hn2.
  pose proof (parent_cases (i := i) ltac:(lia)).
  rewrite (nth_indep heap d x), (nth_indep heap d x) by lia. auto.
- intros c d Hc E Hp.
  pose proof (parent_cases (i := c) ltac:(lia)).
  pose proof (parent_cases (i := pos) ltac:(lia)).
  rewrite (nth_indep heap d x), (nth_indep heap d x) by lia. auto.
Qed.

Lemma siftdown_loop_heap : forall fuel heap pos x,
  pos <= fuel -> pos < length heap -> hole_ok rank heap pos ->
  (forall c, 0 < c < length heap -> (c - 1) / 2 = pos ->
             (rank x <= rank (nth c heap x))%Z) ->
  heap_ok rank (siftdown_loop lt fuel heap x 0 pos).
Proof.
assert (Fill : forall heap pos x,
           pos < length heap -> hole_ok rank heap pos ->
           (forall c, 0 < c < length heap -> (c - 1) / 2 = pos ->
                      (rank x <= rank (nth c heap x))%Z) ->
           (0 < pos -> (rank (nth ((pos - 1) / 2) heap x) <= rank x)%Z) ->
           heap_ok rank (list_set heap pos x)).
{ intros heap pos x Hpos Hh Hch Hpar. apply hole_fill; auto.
  - intros c d Hc E. rewrite (nth_indep heap d x) by lia. auto.
  - intros Hp d. pose proof (parent_cases (i := pos) Hp).
    rewrite (nth_indep heap d x) by lia. auto. }
induction fuel as [|fuel IH]; intros heap pos x Hf Hpos Hh Hch;
  cbn [siftdown_loop].
- apply Fill; auto. lia.
- destruct (Nat.ltb_spec 0 pos) as [Hp|Hp]; [|apply Fill; auto; lia].
  rewrite lt_rank.
  pose proof (parent_cases (i := pos) Hp) as Hpc.
  set (pp := (pos - 1) / 2) in *.
  destruct (Z.ltb_spec (rank x) (rank (nth pp heap x))) as [L|L];
    [|apply Fill; auto].
  destruct Hh as [H1 H2].
  assert (Hnth : forall k, nth k (list_set heap pos (nth pp heap x)) x
                           = if k =? pos then nth pp heap x else nth k heap x).
  { intros k. apply nth_list_set. exact Hpos. }
  apply IH.
  + lia.
  + rewrite list_set_length. lia.
  + apply hole_ok_intro with (x := x); rewrite list_set_length.
    * intros i Hi Hn1 Hn2. rewrite !Hnth.
      pose proof (parent_cases (i := i) ltac:(lia)) as Hic.
      destruct (Nat.eqb_spec i pos) as [->|Hne]; [now elim Hn2|].
      destruct (Nat.eqb_spec ((i - 1) / 2) pos) as [E|Hne2].
      -- apply (H2 i x); auto.
      -- apply (H1 i x); auto.
    * intros c Hc E Hpp. rewrite !Hnth.
      pose proof (parent_cases (i := pp) Hpp) as Hppc.
      destruct (Nat.eqb_spec ((pp - 1) / 2) pos) as [E2|_]; [lia|].
      assert (Hpar : (rank (nth ((pp - 1) / 2) heap x)
                      <= rank (nth pp heap x))%Z).
      { apply (H1 pp x); lia. }
      destruct (Nat.eqb_spec c pos) as [->|Hne]; [exact Hpar|].
      assert (Hcp : (rank (nth ((c - 1) / 2) heap x)
                     <= rank (nth c heap x))%Z).
      { apply (H1 c x); lia. }
      rewrite E in Hcp. lia.
  + rewrite list_set_length. intros c Hc E. rewrite !Hnth.
    destruct (Nat.eqb_spec c pos) as [->|Hne]; [lia|].
    assert (Hcp : (rank (nth ((c - 1) / 2) heap x)
                   <= rank (nth c heap x))%Z).
    { apply (H1 c x); lia. }
    rewrite E in Hcp. lia.
Qed.

Lemma hole_ok_set (heap : list A) (pos : nat) (y : A) :
  pos < length heap -> hole_ok rank heap pos ->
  hole_ok rank (list_set heap pos y) pos.
Proof.
intros Hpos [H1 H2]. split.
- intros i d Hi Hn1 Hn2. rewrite list_set_length in Hi.
  rewrite !nth_list_set_neq by congruence. auto.
- intros c d Hc E Hp. rewrite list_set_length in Hc.
  pose proof (parent_cases (i := c) ltac:(lia)).
  pose proof (parent_cases (i := pos) Hp).
  rewrite !nth_list_set_neq by lia. auto.
Qed.

Lemma heappush_heap (heap : list A) (x : A) :
  heap_ok rank heap -> heap_ok rank (heappush lt heap x).
Proof.
intros Hh. unfold heappush, siftdown.
rewrite nth_error_app2, Nat.sub_diag by lia. cbn [nth_error].
assert (Hlen : length (heap ++ [x]) = S (length heap))
  by (rewrite length_app; simpl; lia).
apply siftdown_loop_heap; try lia.
- apply hole_ok_intro with (x := x); rewrite Hlen.
  + intros i Hi Hn1 Hn2.
    pose proof (parent_cases (i := i) ltac:(lia)).
    rewrite !app_nth1 by lia. apply Hh. lia.
  + intros c Hc E Hp. pose proof (parent_cases (i := c) ltac:(lia)). lia.
- rewrite Hlen. intros c Hc E.
  pose proof (parent_cases (i := c) ltac:(lia)). lia.
Qed.

Lemma siftup_loop_hole : forall fuel heap pos x,
  length heap <= pos + fuel -> pos < length heap ->
  hole_ok rank heap pos ->
  let heap' := fst (siftup_loop lt fuel heap x pos) in
  let pos' := snd (siftup_loop lt fuel heap x pos) in
  hole_ok rank heap' pos' /\ pos' < length heap'
  /\ length heap' <= 2 * pos' + 1.
Proof.
induction fuel as [|fuel IH]; intros heap pos x Hf Hpos Hh;
  cbn [siftup_loop].
- cbn [fst snd]. split; [exact Hh|]. lia.
- destruct (Nat.ltb_spec (2 * pos + 1) (length heap)) as [Hc|Hc];
    [|cbn [fst snd]; split; [exact Hh|]; lia].
  rewrite lt_rank.
  set (l := 2 * pos + 1) in *.
  match goal with
  | |- context [list_set heap pos (nth ?cc heap x)] => set (c := cc) in *
  end.
  assert (Hcc : (c = l \/ (c = l + 1 /\ l + 1 < length heap
                            /\ (rank (nth (l + 1) heap x)
                                 <= rank (nth l heap x))%Z))
                /\ (c = l -> l + 1 < length heap ->
                    (rank (nth l heap x) < rank (nth (l + 1) heap x))%Z)).
  { subst c. destruct (Nat.ltb_spec (l + 1) (length heap)) as [Hr|Hr];
      cbn [andb].
    - destruct (Z.ltb_spec (rank (nth l heap x)) (rank (nth (l + 1) heap x)))
        as [L|L]; cbn [negb].
      + split; [now left|]. intros _ _. exact L.
      + split; [right; auto|]. intros E. lia.
    - split; [now left|]. intros _ Hr'. lia. }
  destruct Hcc as [Hc1 Hc2].
  assert (Hcl : c < length heap /\ pos < c /\ (c - 1) / 2 = pos).
  { destruct Hc1 as [->|(-> & ? & _)]; subst l.
    - repeat split; try lia. apply parent_of_left.
    - repeat split; try lia. apply parent_of_right. }
  destruct Hcl as (Hcl & Hpc & Hcp).
  destruct Hh as [H1 H2].
  assert (Hnth : forall k, nth k (list_set heap pos (nth c heap x)) x
                           = if k =? pos then nth c heap x else nth k heap x).
  { intros k. apply nth_list_set. exact Hpos. }
  specialize (IH (list_set heap pos (nth c heap x)) c x).
  rewrite list_set_length in IH. apply IH; [lia|lia|].
  apply hole_ok_intro with (x := x); rewrite list_set_length.
  + intros i Hi Hn1 Hn2. rewrite !Hnth.
    pose proof (parent_cases (i := i) ltac:(lia)) as Hic.
    destruct (Nat.eqb_spec i pos) as [->|Hne].
    * destruct (Nat.eqb_spec ((pos - 1) / 2) pos) as [E|_]; [lia|].
      apply (H2 c x); auto; lia.
    * destruct (Nat.eqb_spec ((i - 1) / 2) pos) as [E|Hne2].
      -- assert (i = l \/ i = l + 1) by (subst l; lia).
         destruct Hc1 as [->|(-> & Hr & Hle)].
         ++ assert (i = l + 1) by lia. subst i.
            specialize (Hc2 eq_refl ltac:(lia)). lia.
         ++ assert (i = l) by lia. subst i. exact Hle.
      -- apply (H1 i x); auto.
  + intros k Hk E Hp. rewrite !Hnth. rewrite Hcp, Nat.eqb_refl.
    pose proof (parent_cases (i := k) ltac:(lia)) as Hkc.
    destruct (Nat.eqb_spec k pos) as [->|Hne]; [lia|].
    assert (Hkp : (rank (nth ((k - 1) / 2) heap x)
                   <= rank (nth k heap x))%Z).
    { apply (H1 k x); lia. }
    rewrite E in Hkp. exact Hkp.
Qed.

Lemma siftup_root_heap (heap : list A) :
  hole_ok rank heap 0 -> heap_ok rank (siftup lt heap 0).
Proof.
intros Hh. unfold siftup.
destruct heap as [|x t]; [intros i d Hi; simpl in Hi; lia|].
cbn [nth_error].
pose proof (@siftup_loop_hole (length (x :: t)) (x :: t) 0 x
              ltac:(lia) ltac:(simpl; lia) Hh) as Hd.
destruct (siftup_loop lt (length (x :: t)) (x :: t) x 0) as [h' p'].
cbn [fst snd] in Hd. destruct Hd as (Hh' & Hp' & Hleaf).
unfold siftdown. rewrite nth_error_list_set_eq by exact Hp'.
apply siftdown_loop_heap; try lia.
- rewrite list_set_length. exact Hp'.
- now apply hole_ok_set.
- rewrite list_set_length. intros c Hc E.
  pose proof (parent_cases (i := c) ltac:(lia)). lia.
Qed.

Lemma heap_root_min (heap : list A) :
  heap_ok rank heap ->
  forall i d, i < length heap ->
              (rank (nth 0 heap d) <= rank (nth i heap d))%Z.
Proof.
intros Hh i. induction i as [i IH] using lt_wf_ind. intros d Hi.
destruct (Nat.eq_dec i 0) as [->|Hne]; [lia|].
pose proof (parent_cases (i := i) ltac:(lia)) as Hpc.
specialize (IH ((i - 1) / 2) ltac:(lia) d ltac:(lia)).
specialize (Hh i d ltac:(lia)). lia.
Qed.

Lemma heappop_heap (heap heap' : list A) (x : A) :
  heap_ok rank heap -> heappop lt heap = Some (x, heap') ->
  heap_ok rank heap' /\ forall y, In y heap -> (rank x <= rank y)%Z.
Proof.
intros Hh Hp. split.
- apply heappop_cases in Hp as [[-> ->]|(t & last & -> & ->)].
  + intros i d Hi. simpl in Hi. lia.
  + apply siftup_root_heap. apply hole_ok_intro with (x := x).
    * intros i Hi Hn1 Hn2. cbn [length] in Hi.
      pose proof (parent_cases (i := i) ltac:(lia)) as Hpc.
      specialize (Hh i x). cbn [length] in Hh.
      rewrite length_app in Hh. cbn [length] in Hh.
      specialize (Hh ltac:(lia)).
      destruct i as [|i]; [lia|].
      destruct ((S i - 1) / 2) as [|k] eqn:Ek; [congruence|].
      cbn [nth] in *. rewrite !app_nth1 in Hh by lia. exact Hh.
    * intros c Hc E Hp0. lia.
- intros y Hy. pose proof (heappop_In _ _ Hp) as Hx.
  destruct (In_nth _ _ x Hy) as (i & Hi & <-).
  assert (E0 : nth 0 heap x = x).
  { apply heappop_cases in Hp as [[-> ->]|(t & last & -> & ->)];
      reflexivity. }
  rewrite <- E0 at 1. now apply heap_root_min.
Qed.

Lemma heap_ok_nil : heap_ok rank [].
Proof. intros i d Hi. simpl in Hi. lia. Qed.
End HeapOrder.

(* ================================================================== *)
(** ** The searches terminate *)

Lemma zrange_length (lo hi : Z) : length (zrange lo hi) = Z.to_nat (hi - lo).
Proof. unfold zrange. now rewrite length_map, length_seq. Qed.

Lemma all_cells_In (grid : Grid) (p : Pos) :
  In p (all_cells grid) <-> in_bounds grid p = true.
Proof.
destruct p as [r c]. unfold all_cells, in_bounds. rewrite in_flat_map.
cbn [fst snd]. rewrite !andb_true_iff, !Z.leb_le, !Z.ltb_lt. split.
- intros (r' & Hr & Hc). apply in_map_iff in Hc as (c' & [= <- <-] & Hc).
  apply zrange_In in Hr, Hc. lia.
- intros Hb. exists r. split; [apply zrange_In; lia|].
  apply in_map_iff. exists c. split; auto. apply zrange_In; lia.
Qed.

Lemma flat_map_const_length {A B : Type} (fn : A -> list B) (n : nat)
      (l : list A) :
  (forall a, length (fn a) = n) -> length (flat_map fn l) = length l * n.
Proof.
intros Hn. induction l as [|a l IH]; simpl; auto.
rewrite length_app, Hn, IH. lia.
Qed.

Lemma all_cells_length (grid : Grid) :
  length (all_cells grid) = length grid * length (hd [] grid).
Proof.
unfold all_cells. rewrite flat_map_const_length with (n := length (hd [] grid)).
- rewrite zrange_length. unfold grid_rows. f_equal. lia.
- intros r. rewrite length_map, zrange_length. unfold grid_cols. lia.
Qed.

Lemma closed_bound (grid : Grid) (start : Pos) (closed : list Pos) :
  NoDup closed -> Forall (near_map grid start) closed ->
  length closed <= length grid * length (hd [] grid) + 1.
Proof.
intros Hnd Hall. rewrite <- all_cells_length.
replace (length (all_cells grid) + 1)
  with (length (start :: all_cells grid)) by (simpl; lia).
apply NoDup_incl_length; auto.
intros p Hp. rewrite Forall_forall in Hall.
destruct (Hall p Hp) as [->|Hb]; [now left|].
right. now apply all_cells_In.
Qed.

Section BestFirstTermination.
Context {K : Type}.
Variable klt : K -> K -> bool.
Variable make_neighbor : Node K -> Pos -> Node K.
Variable grid : Grid.
Variable start : Pos.

Hypothesis make_neighbor_chain : forall cur pos,
  ancestors (make_neighbor cur pos) = pos :: ancestors cur.

Lemma expand_length cur closed : forall moves open open',
  expand klt make_neighbor grid cur closed moves open = Some open' ->
  length open' <= length open + length moves.
Proof.
induction moves as [|m moves IH]; intros open open' He; cbn [expand] in He.
- inversion He; subst. simpl. lia.
- assert (Hskip : expand klt make_neighbor grid cur closed moves open
                  = Some open' ->
                  length open' <= length open + length (m :: moves)).
  { intros He'. apply IH in He'. simpl. lia. }
  destruct (negb (in_bounds grid _)); [auto|].
  destruct (grid_get grid _) as [c|]; [|discriminate].
  destruct (Ascii.eqb c OBSTACLE || pos_mem _ closed); [auto|].
  apply IH in He. rewrite heappush_length in He. simpl. lia.
Qed.

Lemma good_chain_near (l : list Pos) :
  good_chain grid start l -> near_map grid start (hd start l).
Proof.
intros Hg. destruct Hg as [|p q l _ _ [Hb _]]; simpl.
- now left.
- now right.
Qed.

Lemma good_node_near (n : Node K) :
  good_chain grid start (ancestors n) -> near_map grid start (position n).
Proof.
intros Hg. apply good_chain_near in Hg.
destruct (ancestors_head n) as (l & E). now rewrite E in Hg.
Qed.

Lemma iteration_progress end_pos open closed open' closed' :
  loop_inv grid start open closed ->
  search_iteration klt make_neighbor grid end_pos open closed
  = Next (open', closed') ->
  loop_inv grid start open' closed'
  /\ loop_measure grid open' closed' < loop_measure grid open closed.
Proof.
intros (Hnd & Hnear & Hgood) Hit. unfold search_iteration in Hit.
destruct (heappop _ open) as [[cur open1]|] eqn:Hp; [|discriminate].
pose proof (heappop_length _ _ Hp) as Hlen.
destruct (heappop_Forall _ Hp Hgood) as [Hcur Hgood1].
unfold loop_measure.
destruct (pos_mem (position cur) closed) eqn:Hm.
- inversion Hit; subst. split; [repeat split; auto|]. lia.
- destruct (pos_eqb _ end_pos); [discriminate|].
  destruct (expand _ _ _ _ _ _ _) as [open2|] eqn:Hx; [|discriminate].
  inversion Hit; subst. clear Hit.
  assert (Hnd' : NoDup (position cur :: closed)).
  { constructor; auto. intros Hin. apply pos_mem_In in Hin. congruence. }
  assert (Hnear' : Forall (near_map grid start) (position cur :: closed)).
  { constructor; auto. now apply good_node_near. }
  split.
  + repeat split; auto.
    eapply expand_good; eauto.
  + pose proof (expand_length _ _ _ _ Hx) as Hl. simpl in Hl.
    pose proof (closed_bound Hnd' Hnear') as Hb. simpl in Hb.
    simpl length. lia.
Qed.

Lemma search_loop_no_timeout : forall fuel end_pos open closed,
  loop_inv grid start open closed ->
  loop_measure grid open closed < fuel ->
  search_loop klt make_neighbor grid fuel end_pos open closed <> OutOfFuel.
Proof.
induction fuel as [|fuel IH]; intros end_pos open closed Hinv Hm; [lia|].
cbn [search_loop].
destruct (search_iteration _ _ _ _ _ _) as [res|[open' closed']] eqn:Hit.
- unfold search_iteration in Hit.
  destruct (heappop _ open) as [[cur open1]|]; [|inversion Hit; discriminate].
  destruct (pos_mem _ closed); [discriminate|].
  destruct (pos_eqb _ end_pos); [inversion Hit; discriminate|].
  destruct (expand _ _ _ _ _ _ _); [discriminate|inversion Hit; discriminate].
- destruct (iteration_progress _ Hinv Hit) as [Hinv' Hm']. apply IH; auto. lia.
Qed.

Lemma best_first_no_timeout start_node end_pos :
  ancestors start_node = [start] ->
  best_first klt make_neighbor grid start_node end_pos <> OutOfFuel.
Proof.
intros Hs. unfold best_first. apply search_loop_no_timeout.
- split; [constructor|]. split; [constructor|].
  apply heappush_Forall; [constructor|]. rewrite Hs. constructor.
- unfold loop_measure, search_fuel. rewrite heappush_length. simpl. lia.
Qed.
End BestFirstTermination.

(* ================================================================== *)
(** ** A* on a map without obstacles (C4) *)

Lemma manhattan_nonneg (p q : Pos) : (0 <= manhattan p q)%Z.
Proof. unfold manhattan. lia. Qed.

Lemma manhattan_zero (p q : Pos) : manhattan p q = 0%Z -> p = q.
Proof.
destruct p as [a b], q as [c d]. unfold manhattan. cbn [fst snd].
intros H. f_equal; lia.
Qed.

Lemma in_bounds_iff (grid : Grid) (p : Pos) :
  in_bounds grid p = true <->
  (0 <= fst p < grid_rows grid)%Z /\ (0 <= snd p < grid_cols grid)%Z.
Proof.
unfold in_bounds. rewrite !andb_true_iff, !Z.leb_le, !Z.ltb_lt. lia.
Qed.

(** From a cell other than the goal some move leads one step closer and
    stays inside the map. *)
Lemma toward_goal (grid : Grid) (p goal : Pos) :
  in_bounds grid p = true -> in_bounds grid goal = true -> p <> goal ->
  exists m, In m MOVES /\ in_bounds grid (pos_add p m) = true /\
            (manhattan (pos_add p m) goal + 1 = manhattan p goal)%Z.
Proof.
rewrite !in_bounds_iff. destruct p as [r c], goal as [gr gc].
cbn [fst snd]. intros Hp Hg Hne.
assert (Hcases : (c < gc \/ gc < c \/ r < gr \/ gr < r)%Z).
{ destruct (Z.eq_dec r gr), (Z.eq_dec c gc); subst; try lia.
  now elim Hne. }
unfold MOVES, pos_add, manhattan. cbn [fst snd].
destruct Hcases as [H|[H|[H|H]]].
- exists (0, 1)%Z. split; [simpl; auto|]. rewrite in_bounds_iff.
  cbn [fst snd]. lia.
- exists (0, -1)%Z. split; [simpl; auto|]. rewrite in_bounds_iff.
  cbn [fst snd]. lia.
- exists (1, 0)%Z. split; [simpl; auto|]. rewrite in_bounds_iff.
  cbn [fst snd]. lia.
- exists (-1, 0)%Z. split; [simpl; auto 6|]. rewrite in_bounds_iff.
  cbn [fst snd]. lia.
Qed.

Lemma open_field_cell (grid : Grid) (p : Pos) :
  rectangular grid -> obstacle_free grid -> in_bounds grid p = true ->
  exists c, grid_get grid p = Some c /\ Ascii.eqb c OBSTACLE = false.
Proof.
intros Hrect Hfree Hb. apply in_bounds_iff in Hb as [Hr Hc].
unfold grid_rows, grid_cols in *. unfold grid_get.
destruct (nth_error grid (Z.to_nat (fst p))) as [row|] eqn:Er.
2:{ apply nth_error_None in Er. lia. }
pose proof (nth_error_In _ _ Er) as Hin.
unfold rectangular, obstacle_free in *. rewrite Forall_forall in Hrect, Hfree.
specialize (Hrect row Hin). specialize (Hfree row Hin).
destruct (nth_error row (Z.to_nat (snd p))) as [c|] eqn:Ec.
2:{ apply nth_error_None in Ec. lia. }
exists c. split; auto. apply nth_error_In in Ec.
rewrite Forall_forall in Hfree. specialize (Hfree c Ec).
now apply Ascii.eqb_neq.
Qed.

Section OpenField.
Variable grid : Grid.
Variables start goal : Pos.
Hypothesis Hrect : rectangular grid.
Hypothesis Hfree : obstacle_free grid.
Hypothesis Hstart : in_bounds grid start = true.
Hypothesis Hgoal : in_bounds grid goal = true.

Let end_node : Node Z := new_node None goal.
Let mk : Node Z -> Pos -> Node Z := a_star_neighbor manhattan_distance end_node.
Let rank : Node Z -> Z := fun n => f n.

Lemma node_lt_rank (a b : Node Z) : node_lt kltb a b = (rank a <? rank b)%Z.
Proof. reflexivity. Qed.

Lemma mk_chain cur pos : ancestors (mk cur pos) = pos :: ancestors cur.
Proof. destruct cur; reflexivity. Qed.

Lemma mk_fields cur pos :
  position (mk cur pos) = pos /\ g (mk cur pos) = (g cur + 1)%Z
  /\ f (mk cur pos) = (g cur + 1 + manhattan pos goal)%Z.
Proof. destruct cur; repeat split; reflexivity. Qed.

Lemma mk_node_ok cur m :
  node_ok grid start goal cur -> In m MOVES ->
  in_bounds grid (pos_add (position cur) m) = true ->
  node_ok grid start goal (mk cur (pos_add (position cur) m)).
Proof.
intros (Hc & Hl & _) Hm Hb.
destruct (mk_fields cur (pos_add (position cur) m)) as (Ep & Eg & Ef).
unfold node_ok. rewrite mk_chain, Ep, Eg, Ef.
destruct (ancestors_head cur) as (l & E).
split; [|split; [|split; [apply Z.le_refl|left; reflexivity]]].
- rewrite E in *. constructor; auto.
  + now apply adjacent4_move.
  + split; auto. now apply open_field_cell.
- cbn [length]. lia.
Qed.

Lemma expand_open_field cur closed :
  node_ok grid start goal cur ->
  forall moves open,
    (forall m, In m moves -> In m MOVES) ->
    Forall (node_ok grid start goal) open -> heap_ok rank open ->
    exists open2,
      expand kltb mk grid cur closed moves open = Some open2 /\
      Forall (node_ok grid start goal) open2 /\ heap_ok rank open2 /\
      (forall P, countP P open <= countP P open2) /\
      (forall m, In m moves ->
                 in_bounds grid (pos_add (position cur) m) = true ->
                 (g cur + 1 + manhattan (pos_add (position cur) m) goal
                  <= manhattan start goal)%Z ->
                 In (pos_add (position cur) m) closed \/
                 0 < countP (on_track_at start goal
                                         (pos_add (position cur) m)) open2).
Proof.
intros Hcur. induction moves as [|m moves IH]; intros open Hin Hall Hheap;
  cbn [expand].
- exists open. split; [reflexivity|]. split; [exact Hall|].
  split; [exact Hheap|]. split; [intros; lia|intros m []].
- assert (Hin' : forall m', In m' moves -> In m' MOVES)
    by (intros; apply Hin; now right).
  set (q := pos_add (position cur) m).
  destruct (in_bounds grid q) eqn:Hb; cbn [negb].
  + destruct (open_field_cell q Hrect Hfree Hb) as (c & Hc & Hne).
    rewrite Hc, Hne. cbn [orb].
    destruct (pos_mem q closed) eqn:Hmem.
    * destruct (IH open Hin' Hall Hheap) as (o2 & E & F & Hp & Cn & W).
      exists o2. repeat (split; [assumption|]).
      intros m' [<-|Hm'] Hb' Ht; [|now apply W].
      left. now apply pos_mem_In.
    * destruct (IH (heappush (node_lt kltb) open (mk cur q)) Hin')
        as (o2 & E & F & Hp & Cn & W).
      -- apply heappush_Forall; auto.
         apply mk_node_ok; auto. apply Hin. now left.
      -- apply heappush_heap with (rank := rank); auto.
      -- exists o2. split; [exact E|]. split; [exact F|]. split; [exact Hp|].
         split.
         ++ intros P. specialize (Cn P). rewrite heappush_count in Cn. lia.
         ++ intros m' [<-|Hm'] Hb' Ht; [|now apply W].
            right.
            specialize (Cn (on_track_at start goal q)).
            rewrite heappush_count in Cn.
            assert (Ho : on_track_at start goal q (mk cur q) = true).
            { unfold on_track_at.
              destruct (mk_fields cur q) as (-> & -> & _).
              rewrite pos_eqb_refl. cbn [andb]. apply Z.leb_le. exact Ht. }
            rewrite Ho in Cn. unfold q in *. lia.
  + destruct (IH open Hin' Hall Hheap) as (o2 & E & F & Hp & Cn & W).
    exists o2. repeat (split; [assumption|]).
    intros m' [<-|Hm'] Hb' Ht; [|now apply W].
    fold q in Hb'. congruence.
Qed.

Lemma on_track_at_true q n :
  on_track_at start goal q n = true <->
  position n = q /\ (g n + manhattan q goal <= manhattan start goal)%Z.
Proof.
unfold on_track_at. rewrite andb_true_iff, pos_eqb_eq, Z.leb_le. tauto.
Qed.

Lemma field_witness open closed :
  closed_ok grid start goal open closed ->
  exists w, In w open /\ ~ In (position w) closed /\
            (g w + manhattan (position w) goal <= manhattan start goal)%Z.
Proof.
intros (Hg & Hb & Hc & Hd).
assert (Hopen : forall q, ~ In q closed ->
                  0 < countP (on_track_at start goal q) open ->
                  exists w, In w open /\ ~ In (position w) closed /\
                            (g w + manhattan (position w) goal
                             <= manhattan start goal)%Z).
{ intros q Hq Hcnt. apply countP_pos_In in Hcnt as (w & Hw & Ht).
  apply on_track_at_true in Ht as [<- Ht]. eauto. }
destruct closed as [|c0 closed0] eqn:Ec.
- destruct (Hc eq_refl) as [Hcnt _]. apply (Hopen start); auto.
- rewrite <- Ec in *. clear Hc.
  assert (Hs : In start closed) by (apply Hd; rewrite Ec; discriminate).
  assert (Chase : forall n p, In p closed ->
                    Z.to_nat (manhattan p goal) <= n ->
                    exists w, In w open /\ ~ In (position w) closed /\
                              (g w + manhattan (position w) goal
                               <= manhattan start goal)%Z).
  { induction n as [|n IH]; intros p Hp Hn.
    - destruct (Hb p Hp) as (q & _ & Hq & _).
      pose proof (manhattan_nonneg q goal). lia.
    - destruct (Hb p Hp) as (q & Hbq & Hq & Hor).
      pose proof (manhattan_nonneg q goal).
      destruct (pos_mem q closed) eqn:Hm.
      + apply pos_mem_In in Hm. apply (IH q Hm). lia.
      + assert (Hnq : ~ In q closed).
        { intros Hin. apply pos_mem_In in Hin. congruence. }
        destruct Hor as [Hin|Hcnt]; [now elim Hnq|]. now apply (Hopen q). }
  apply (Chase (Z.to_nat (manhattan start goal)) start Hs). lia.
Qed.

Lemma popped_on_track open closed m open1 :
  field_inv grid start goal open closed ->
  heappop (node_lt kltb) open = Some (m, open1) ->
  (g m + manhattan (position m) goal <= manhattan start goal)%Z.
Proof.
intros (Hall & Hheap & Hcl) Hp.
destruct (field_witness Hcl) as (w & Hw & _ & Hwt).
destruct (@heappop_heap (Node Z) (node_lt kltb) rank node_lt_rank
            open open1 m Hheap Hp) as [_ Hmin].
specialize (Hmin w Hw). unfold rank in Hmin.
rewrite Forall_forall in Hall.
destruct (Hall w Hw) as (_ & _ & Hfw & _).
destruct (Hall m (heappop_In _ _ Hp)) as (_ & _ & _ & [Hfm|[Hg0 Hs]]).
- lia.
- rewrite Hg0, Hs. lia.
Qed.

Lemma count_without_popped open m open1 q closed :
  heappop (node_lt kltb) open = Some (m, open1) ->
  position m <> q ->
  (In q closed \/ 0 < countP (on_track_at start goal q) open) ->
  In q closed \/ 0 < countP (on_track_at start goal q) open1.
Proof.
intros Hp Hne [Hin|Hcnt]; [now left|]. right.
rewrite (@heappop_count _ _ (on_track_at start goal q) _ _ _ Hp) in Hcnt.
replace (on_track_at start goal q m) with false in Hcnt; [lia|].
symmetry. unfold on_track_at.
destruct (pos_eqb (position m) q) eqn:E; auto.
apply pos_eqb_eq in E. congruence.
Qed.

Lemma field_iteration open closed :
  field_inv grid start goal open closed ->
  match search_iteration kltb mk grid goal open closed with
  | Done res =>
      exists path, res = Return (Some path) /\
                   Z.of_nat (length path) = (manhattan start goal + 1)%Z
  | Next (open', closed') => field_inv grid start goal open' closed'
  end.
Proof.
intros Hinv. pose proof Hinv as (Hall & Hheap & Hcl).
destruct (field_witness Hcl) as (w & Hw & _ & _).
unfold search_iteration.
destruct (heappop (node_lt kltb) open) as [[m open1]|] eqn:Hp.
2:{ apply heappop_None in Hp. subst open. destruct Hw. }
pose proof (popped_on_track Hinv Hp) as Htrack.
destruct (heappop_Forall _ Hp Hall) as [Hm Hall1].
destruct (@heappop_heap (Node Z) (node_lt kltb) rank node_lt_rank
            open open1 m Hheap Hp) as [Hheap1 _].
pose proof (heappop_In _ _ Hp) as Hmin.
destruct Hcl as (Hg & Hb & Hc & Hd).
destruct (pos_mem (position m) closed) eqn:Hmem.
- (* an entry of a closed position is dropped *)
  apply pos_mem_In in Hmem.
  split; [exact Hall1|]. split; [exact Hheap1|].
  split; [exact Hg|]. split; [|split].
  + intros p Hpc. destruct (Hb p Hpc) as (q & Hbq & Hq & Hor).
    exists q. split; [exact Hbq|]. split; [exact Hq|].
    destruct (pos_mem q closed) eqn:Hq2; [left; now apply pos_mem_In|].
    eapply count_without_popped; eauto.
    intros E. rewrite E in Hmem. apply pos_mem_In in Hmem. congruence.
  + intros ->. destruct Hmem.
  + exact Hd.
- assert (Hnm : ~ In (position m) closed).
  { intros Hin. apply pos_mem_In in Hin. congruence. }
  destruct (pos_eqb (position m) goal) eqn:Hgoal'.
  + (* the goal is popped *)
    apply pos_eqb_eq in Hgoal'. eexists. split; [reflexivity|].
    unfold reconstruct_path. rewrite length_rev.
    destruct Hm as (Hchain & Hlen & _).
    destruct (good_chain_path Hchain) as (_ & _ & Hge).
    destruct (ancestors_head m) as (l & E). rewrite E in Hge.
    cbn [hd] in Hge. rewrite <- E in Hge. rewrite Hgoal' in *.
    assert (manhattan goal goal = 0%Z) by (unfold manhattan; lia). lia.
  + (* a new position is closed and expanded *)
    assert (Hpg : position m <> goal).
    { intros E. rewrite E, pos_eqb_refl in Hgoal'. discriminate. }
    destruct (@expand_open_field m (position m :: closed) Hm MOVES open1
                (fun _ H => H) Hall1 Hheap1)
      as (open2 & Hx & Hall2 & Hheap2 & Hcnt & Hpush).
    fold mk. rewrite Hx.
    assert (Hmb : in_bounds grid (position m) = true).
    { destruct Hm as (Hchain & _).
      destruct (good_node_near m Hchain) as [E|Hb']; auto.
      now rewrite E. }
    split; [exact Hall2|]. split; [exact Hheap2|].
    split; [|split; [|split]].
    * intros [E|Hin]; [congruence|auto].
    * intros p [<-|Hpc].
      -- destruct (@toward_goal grid (position m) goal Hmb Hgoal Hpg)
           as (mv & Hmv & Hbq & Hq).
         exists (pos_add (position m) mv).
         split; [exact Hbq|]. split; [exact Hq|].
         apply Hpush; auto. lia.
      -- destruct (Hb p Hpc) as (q & Hbq & Hq & Hor).
         exists q. split; [exact Hbq|]. split; [exact Hq|].
         destruct (pos_mem q (position m :: closed)) eqn:Hq2;
           [left; now apply pos_mem_In|].
         assert (Hnq : ~ In q (position m :: closed)).
         { intros Hin. apply pos_mem_In in Hin. congruence. }
         assert (Hne : position m <> q) by (intros E; apply Hnq; now left).
         destruct (@count_without_popped open m open1 q closed Hp Hne Hor)
           as [Hin|Hc1].
         ++ left. now right.
         ++ right. specialize (Hcnt (on_track_at start goal q)). lia.
    * discriminate.
    * intros _. destruct closed as [|c0 closed0].
      -- destruct (Hc eq_refl) as [_ Hpos]. rewrite Forall_forall in Hpos.
         left. now apply Hpos.
      -- right. apply Hd. discriminate.
Qed.

Lemma field_loop : forall fuel open closed,
  field_inv grid start goal open closed ->
  search_loop kltb mk grid fuel goal open closed = OutOfFuel \/
  exists path,
    search_loop kltb mk grid fuel goal open closed = Return (Some path) /\
    Z.of_nat (length path) = (manhattan start goal + 1)%Z.
Proof.
induction fuel as [|fuel IH]; intros open closed Hinv; [now left|].
cbn [search_loop]. pose proof (field_iteration Hinv) as Hit.
destruct (search_iteration kltb mk grid goal open closed)
  as [res|[open' closed']].
- destruct Hit as (path & -> & Hlen). right. eauto.
- now apply IH.
Qed.

Lemma field_start :
  field_inv grid start goal
            (heappush (node_lt kltb) [] (new_node (K:=Z) None start)) [].
Proof.
assert (Hn : node_ok grid start goal (new_node (K:=Z) None start)).
{ split; [constructor|]. split; [reflexivity|].
  cbn. pose proof (manhattan_nonneg start goal). split; [lia|].
  right. split; reflexivity. }
split; [|split].
- apply heappush_Forall; [constructor|exact Hn].
- apply heappush_heap with (rank := rank); [exact node_lt_rank|].
  apply heap_ok_nil.
- split; [intros []|]. split; [intros p []|]. split; [|congruence].
  intros _. split.
  + rewrite heappush_count. cbn [countP].
    replace (on_track_at start goal start (new_node None start)) with true;
      [lia|].
    symmetry. apply on_track_at_true. split; [reflexivity|]. cbn. lia.
  + apply heappush_Forall; [constructor|reflexivity].
Qed.
End OpenField.

(** C4: on a map without obstacle cells, with start and goal inside it, A*
    with the Manhattan heuristic returns a path from start to goal whose
    number of steps is the Manhattan distance between them. *)
Theorem a_star_open_field_optimal (grid : Grid) (start goal : Pos) :
  rectangular grid -> obstacle_free grid ->
  in_bounds grid start = true -> in_bounds grid goal = true ->
  exists path,
    a_star_manhattan grid start goal = Return (Some path) /\
    path_cost path = manhattan start goal /\
    connects start goal path.
Proof.
intros Hrect Hfree Hs Hg.
pose proof (@field_loop grid start goal Hrect Hfree Hs Hg
              (search_fuel grid) _ _
              (field_start grid start goal)) as Hl.
assert (Hnt : a_star_manhattan grid start goal <> OutOfFuel).
{ apply best_first_no_timeout with (start := start); [|reflexivity].
  intros cur pos. destruct cur; reflexivity. }
destruct Hl as [Ht|(path & Hp & Hlen)]; [now elim Hnt|].
exists path. split; [exact Hp|]. split; [unfold path_cost; lia|].
eapply best_first_path; [| |exact Hp]; [|reflexivity].
intros cur pos. destruct cur; reflexivity.
Qed.

Lemma a_star_open_field_optimal_witness :
  exists path,
    a_star_manhattan open_field (0, 0)%Z (2, 2)%Z = Return (Some path) /\
    path_cost path = 4%Z.
Proof.
destruct (@a_star_open_field_optimal open_field (0, 0)%Z (2, 2)%Z)
  as (path & Hp & Hc & _).
- repeat constructor.
- repeat constructor; discriminate.
- reflexivity.
- reflexivity.
- exists path. split; [exact Hp|exact Hc].
Defined.

(* ================================================================== *)
(** ** [heapq] on two related lists

    When two lists hold related elements and the comparisons agree on
    related elements, the heap operations act alike on both. *)

Section HeapRel.
Context {A B : Type}.
Variable ltA : A -> A -> bool.
Variable ltB : B -> B -> bool.
Variable R : A -> B -> Prop.
Hypothesis lt_agree : forall a b a' b',
  R a a' -> R b b' -> ltA a b = ltB a' b'.

Lemma rel_list_set (l : list A) (l' : list B) (i : nat) (x : A) (x' : B) :
  Forall2 R l l' -> R x x' -> Forall2 R (list_set l i x) (list_set l' i x').
Proof.
intros Hl Hx. revert i. induction Hl; intros [|i]; simpl; auto.
Qed.

Lemma rel_nth (l : list A) (l' : list B) (i : nat) (d : A) (d' : B) :
  Forall2 R l l' -> R d d' -> R (nth i l d) (nth i l' d').
Proof.
intros Hl Hd. revert i. induction Hl; intros [|i]; simpl; auto.
Qed.

Lemma rel_nth_error (l : list A) (l' : list B) (i : nat) :
  Forall2 R l l' ->
  match nth_error l i, nth_error l' i with
  | Some a, Some b => R a b
  | None, None => True
  | _, _ => False
  end.
Proof.
intros Hl. revert i. induction Hl; intros [|i]; simpl; auto.
apply IHHl.
Qed.

Lemma rel_rev (l : list A) (l' : list B) :
  Forall2 R l l' -> Forall2 R (rev l) (rev l').
Proof.
induction 1; simpl; [constructor|]. apply Forall2_app; auto.
Qed.

Lemma siftdown_loop_rel fuel : forall h h' x x' sp pos,
  Forall2 R h h' -> R x x' ->
  Forall2 R (siftdown_loop ltA fuel h x sp pos)
            (siftdown_loop ltB fuel h' x' sp pos).
Proof.
induction fuel as [|fuel IH]; intros h h' x x' sp pos Hh Hx;
  cbn [siftdown_loop].
- now apply rel_list_set.
- destruct (sp <? pos); [|now apply rel_list_set].
  assert (Hp : R (nth ((pos - 1) / 2) h x) (nth ((pos - 1) / 2) h' x'))
    by now apply rel_nth.
  rewrite (lt_agree Hx Hp).
  destruct (ltB x' _); [|now apply rel_list_set].
  apply IH; auto. now apply rel_list_set.
Qed.

Lemma siftdown_rel h h' sp pos :
  Forall2 R h h' ->
  Forall2 R (siftdown ltA h sp pos) (siftdown ltB h' sp pos).
Proof.
intros Hh. unfold siftdown. pose proof (rel_nth_error pos Hh) as Hn.
destruct (nth_error h pos), (nth_error h' pos); try contradiction; auto.
now apply siftdown_loop_rel.
Qed.

Lemma siftup_loop_rel fuel : forall h h' x x' pos,
  Forall2 R h h' -> R x x' ->
  Forall2 R (fst (siftup_loop ltA fuel h x pos))
            (fst (siftup_loop ltB fuel h' x' pos))
  /\ snd (siftup_loop ltA fuel h x pos) = snd (siftup_loop ltB fuel h' x' pos).
Proof.
induction fuel as [|fuel IH]; intros h h' x x' pos Hh Hx;
  cbn [siftup_loop]; [auto|].
rewrite <- (Forall2_length Hh).
destruct (2 * pos + 1 <? length h); [|auto].
assert (Hl : R (nth (2 * pos + 1) h x) (nth (2 * pos + 1) h' x'))
  by now apply rel_nth.
assert (Hr : R (nth (2 * pos + 1 + 1) h x) (nth (2 * pos + 1 + 1) h' x'))
  by now apply rel_nth.
rewrite (lt_agree Hl Hr).
match goal with
| |- context [list_set h' pos (nth ?cc h' x')] => set (c := cc)
end.
apply IH; auto. apply rel_list_set; auto. now apply rel_nth.
Qed.

Lemma siftup_rel h h' pos :
  Forall2 R h h' -> Forall2 R (siftup ltA h pos) (siftup ltB h' pos).
Proof.
intros Hh. unfold siftup. pose proof (rel_nth_error pos Hh) as Hn.
destruct (nth_error h pos) as [x|], (nth_error h' pos) as [x'|];
  try contradiction; auto.
rewrite <- (Forall2_length Hh).
destruct (siftup_loop_rel (length h) pos Hh Hn) as [H1 H2].
destruct (siftup_loop ltA _ h x pos) as [h1 p1].
destruct (siftup_loop ltB _ h' x' pos) as [h2 p2].
cbn [fst snd] in *. subst p2.
apply siftdown_rel. now apply rel_list_set.
Qed.

Lemma heappush_rel h h' x x' :
  Forall2 R h h' -> R x x' ->
  Forall2 R (heappush ltA h x) (heappush ltB h' x').
Proof.
intros Hh Hx. unfold heappush. rewrite <- (Forall2_length Hh).
apply siftdown_rel. apply Forall2_app; auto.
Qed.

Lemma heappop_rel h h' :
  Forall2 R h h' ->
  match heappop ltA h, heappop ltB h' with
  | Some (x, t), Some (x', t') => R x x' /\ Forall2 R t t'
  | None, None => True
  | _, _ => False
  end.
Proof.
intros Hh. unfold heappop. apply rel_rev in Hh.
destruct Hh as [|a b ra rb Hab Hr]; [exact I|].
apply rel_rev in Hr.
destruct Hr as [|c d t t' Hcd Ht]; [split; [exact Hab|constructor]|].
split; [exact Hcd|]. apply siftup_rel. constructor; auto.
Qed.
End HeapRel.

(* ================================================================== *)
(** ** The bounded-memory search against A* (C2) *)

Section ArenaNodes.
Context {K : Type} `{Cost K}.
Variable heuristic_func : Node K -> Node K -> K.
Variable end_node : Node K.






End ArenaNodes.

Section SmaVsAStar.
Context {K : Type} `{Cost K}.
Variable heuristic_func : Node K -> Node K -> K.
Variable grid : Grid.
Variable end_pos : Pos.
Hypothesis heuristic_reads_positions : reads_positions heuristic_func.

Let end_node : Node K := new_node None end_pos.

Lemma same_fields_refl (a : Arena) : same_fields a a.
Proof. split; auto. Qed.

Lemma same_fields_trans (a b c : Arena) :
  same_fields a b -> same_fields b c -> same_fields a c.
Proof.
intros [L1 S1] [L2 S2]. split; [lia|]. intros j Hj.
destruct (S1 j Hj) as (? & ? & ? & ?).
destruct (S2 j ltac:(lia)) as (? & ? & ? & ?).
repeat split; congruence.
Qed.




End SmaVsAStar.

Section SmaLockstep.
Context {K : Type} `{Cost K}.
Variable heuristic_func : Node K -> Node K -> K.
Variable grid : Grid.
Variable end_pos : Pos.
Hypothesis heuristic_reads_positions : reads_positions heuristic_func.

Let end_node : Node K := new_node None end_pos.




End SmaLockstep.

Lemma position_of_ancestors {K : Type} (n n' : Node K) :
  ancestors n = ancestors n' -> position n = position n'.
Proof.
intros E. destruct (ancestors_head n) as (l & El).
destruct (ancestors_head n') as (l' & El'). congruence.
Qed.


Lemma table_reads_positions : reads_positions table_heuristic.
Proof.
intros n n' e E. unfold table_heuristic.
now rewrite (position_of_ancestors _ _ E).
Qed.




(* ================================================================== *)
(** ** Edge cases of the searches *)

Lemma heappush_nil {A : Type} (lt : A -> A -> bool) (x : A) :
  heappush lt [] x = [x].
Proof. reflexivity. Qed.

Lemma heappop_one {A : Type} (lt : A -> A -> bool) (x : A) :
  heappop lt [x] = Some (x, []).
Proof. reflexivity. Qed.

Lemma search_fuel_S (grid : Grid) :
  search_fuel grid = S (S (4 * (length grid * length (hd [] grid) + 1))).
Proof. unfold search_fuel. lia. Qed.

Section StartIsGoal.
Context {K : Type}.
Variable klt : K -> K -> bool.
Variable make_neighbor : Node K -> Pos -> Node K.
Variable grid : Grid.

Lemma best_first_at_goal (start_node : Node K) :
  best_first klt make_neighbor grid start_node (position start_node)
  = Return (Some (reconstruct_path start_node)).
Proof.
unfold best_first. rewrite search_fuel_S, heappush_nil.
cbn [search_loop]. unfold search_iteration. rewrite heappop_one.
cbn [pos_mem existsb]. now rewrite pos_eqb_refl.
Qed.
End StartIsGoal.

(** X1: when start and goal are the same position, each of the four
    searches without a memory bound returns the one-element path [[start]],
    whatever the map holds (empty map, start outside the map or on an
    obstacle included). *)
Theorem search_from_the_goal (grid : Grid) (p : Pos)
        (res : outcome (option (list Pos))) :
  unbounded_call grid p p res -> res = Return (Some [p]).
Proof.
intros Hc. inversion Hc; subst;
  unfold a_star_search, greedy_bfs_search, weighted_a_star_search,
         dynamic_weighted_a_star_search.
- apply (best_first_at_goal kltb _ grid (new_node None p)).
- apply (best_first_at_goal kltb _ grid
           (set_f (set_h (new_node None p) _) _)).
- apply (best_first_at_goal kltb _ grid (new_node None p)).
- apply (best_first_at_goal kltb _ grid (new_node (K:=Q) None p)).
Qed.

Lemma search_from_the_goal_witness :
  a_star_search (K:=Z) manhattan_distance [] (3, 4)%Z (3, 4)%Z
  = Return (Some [(3, 4)%Z]).
Proof.
apply (@search_from_the_goal [] (3, 4)%Z). apply call_a_star.
Defined.

(** X2: with start and goal the same and [max_nodes] at least 1, the
    bounded-memory search returns [[start]] as well. *)
Theorem sma_star_from_the_goal {K : Type} `{Cost K}
        (heuristic_func : Node K -> Node K -> K)
        (grid : Grid) (p : Pos) (max_nodes : Z) :
  (1 <= max_nodes)%Z ->
  sma_star_search heuristic_func grid p p max_nodes = Return (Some [p]).
Proof.
intros Hm. unfold sma_star_search. rewrite search_fuel_S, heappush_nil.
cbn [sma_loop]. unfold sma_iteration. cbn [length].
replace (max_nodes <? Z.of_nat 1)%Z with false
  by (symmetry; apply Z.ltb_ge; lia).
rewrite heappop_one. cbn [node_at nth s_position pos_mem existsb].
cbn [new_node position]. now rewrite pos_eqb_refl.
Qed.

Lemma sma_star_from_the_goal_witness :
  sma_star_search (K:=Z) manhattan_distance scenario_grid
                  (1, 1)%Z (1, 1)%Z 50
  = Return (Some [(1, 1)%Z]).
Proof.
apply (@sma_star_from_the_goal Z _ manhattan_distance scenario_grid).
lia.
Defined.

(** X3: with [max_nodes] below 1 the first pass of the loop prunes the
    start node, the only entry of the open list, and [heappop] then raises
    [IndexError] on the empty list: the call raises for every map, start,
    goal and heuristic. *)
Theorem sma_star_without_memory_raises {K : Type} `{Cost K}
        (heuristic_func : Node K -> Node K -> K)
        (grid : Grid) (start_pos end_pos : Pos) (max_nodes : Z) :
  (max_nodes < 1)%Z ->
  sma_star_search heuristic_func grid start_pos end_pos max_nodes = Raise.
Proof.
intros Hm. unfold sma_star_search. rewrite search_fuel_S, heappush_nil.
cbn [sma_loop]. unfold sma_iteration. cbn [length].
replace (max_nodes <? Z.of_nat 1)%Z with true
  by (symmetry; apply Z.ltb_lt; lia).
unfold prune. cbn [worst_of max_by_key fold_left remove_first].
unfold s_eqb. rewrite pos_eqb_refl. reflexivity.
Qed.

Lemma sma_star_without_memory_raises_witness :
  sma_star_search (K:=Z) manhattan_distance scenario_grid
                  (0, 0)%Z (2, 2)%Z 0
  = Raise.
Proof.
apply (@sma_star_without_memory_raises Z _ manhattan_distance
         scenario_grid).
lia.
Defined.

(* ================================================================== *)
(** ** The searches without a memory bound find a path when there is one *)

Lemma adjacent4_is_move (p q : Pos) :
  adjacent4 p q -> exists m, In m MOVES /\ q = pos_add p m.
Proof.
destruct p as [a b], q as [c d]. unfold adjacent4, manhattan, pos_add, MOVES.
cbn [fst snd]. intros Hd.
assert (Hcases : ((c = a /\ d = b + 1) \/ (c = a /\ d = b - 1) \/
                  (c = a + 1 /\ d = b) \/ (c = a - 1 /\ d = b))%Z) by lia.
destruct Hcases as [[-> ->]|[[-> ->]|[[-> ->]|[-> ->]]]].
- exists (0, 1)%Z. split; [simpl; auto|]. cbn [fst snd]. f_equal; lia.
- exists (0, -1)%Z. split; [simpl; auto|]. cbn [fst snd]. f_equal; lia.
- exists (1, 0)%Z. split; [simpl; auto|]. cbn [fst snd]. f_equal; lia.
- exists (-1, 0)%Z. split; [simpl; auto 6|]. cbn [fst snd]. f_equal; lia.
Qed.

Lemma rectangular_cell (grid : Grid) (p : Pos) :
  rectangular grid -> in_bounds grid p = true ->
  exists c, grid_get grid p = Some c.
Proof.
intros Hrect Hb. apply in_bounds_iff in Hb as [Hr Hc].
unfold grid_rows, grid_cols in *. unfold grid_get.
destruct (nth_error grid (Z.to_nat (fst p))) as [row|] eqn:Er.
2:{ apply nth_error_None in Er. lia. }
pose proof (nth_error_In _ _ Er) as Hin.
unfold rectangular in Hrect. rewrite Forall_forall in Hrect.
specialize (Hrect row Hin).
destruct (nth_error row (Z.to_nat (snd p))) as [c|] eqn:Ec; eauto.
apply nth_error_None in Ec. lia.
Qed.

(** A set of cells that holds [start] and every passable neighbour of its
    members holds every cell reachable from [start]. *)
Lemma closed_holds_reachable (grid : Grid) (closed : list Pos) :
  (forall p m, In p closed -> In m MOVES -> passable grid (pos_add p m) ->
               In (pos_add p m) closed) ->
  forall path s, In s closed -> hd_error path = Some s ->
                 consecutive adjacent4 path ->
                 Forall (passable grid) (tl path) ->
                 In (last path s) closed.
Proof.
intros Hcl. induction path as [|a path IH]; intros s Hs Hh Hc Hp;
  [discriminate|].
cbn [hd_error] in Hh. inversion Hh; subst a. clear Hh.
destruct path as [|b path]; [exact Hs|].
cbn [tl] in Hp. destruct Hc as [Hab Hc].
destruct (adjacent4_is_move Hab) as (m & Hm & ->).
inversion Hp as [|? ? Hpb Hrest]; subst.
change (last (s :: pos_add s m :: path) s)
  with (last (pos_add s m :: path) s).
assert (Hin : In (pos_add s m) closed) by (apply Hcl; auto).
replace (last (pos_add s m :: path) s)
  with (last (pos_add s m :: path) (pos_add s m)).
- apply IH; auto.
- clear. generalize (pos_add s m) at 1 3 as x. revert s.
  induction path as [|y path IH]; intros s x; [reflexivity|].
  cbn [last]. destruct path; [reflexivity|]. apply (IH s y).
Qed.

Section BestFirstComplete.
Context {K : Type}.
Variable klt : K -> K -> bool.
Variable make_neighbor : Node K -> Pos -> Node K.
Variable grid : Grid.
Variables start goal : Pos.

Hypothesis make_neighbor_chain : forall cur pos,
  ancestors (make_neighbor cur pos) = pos :: ancestors cur.

Lemma make_neighbor_position cur pos :
  position (make_neighbor cur pos) = pos.
Proof.
destruct (ancestors_head (make_neighbor cur pos)) as (l & E).
rewrite make_neighbor_chain in E. congruence.
Qed.

Lemma at_pos_true (q : Pos) (n : Node K) :
  at_pos q n = true <-> position n = q.
Proof. apply pos_eqb_eq. Qed.

(** One expansion keeps what was open and opens every passable neighbour
    that is not closed. *)
Lemma expand_covers cur closed : forall moves open open',
  expand klt make_neighbor grid cur closed moves open = Some open' ->
  (forall P, countP P open <= countP P open') /\
  (forall m, In m moves -> passable grid (pos_add (position cur) m) ->
             In (pos_add (position cur) m) closed \/
             0 < countP (at_pos (pos_add (position cur) m)) open').
Proof.
induction moves as [|m moves IH]; intros open open' He; cbn [expand] in He.
- inversion He; subst. split; [auto|]. intros m [].
- set (q := pos_add (position cur) m) in *.
  destruct (in_bounds grid q) eqn:Hb; cbn [negb] in He.
  2:{ destruct (IH _ _ He) as [Hmono Hcov]. split; auto.
      intros m' [<-|Hin] Hp; auto.
      destruct Hp as [Hb' _]. fold q in Hb'. congruence. }
  destruct (grid_get grid q) as [c|] eqn:Hg; [|discriminate].
  destruct (Ascii.eqb c OBSTACLE) eqn:Hobs; cbn [orb] in He.
  { destruct (IH _ _ He) as [Hmono Hcov]. split; auto.
    intros m' [<-|Hin] Hp; auto.
    destruct Hp as (_ & c' & Hg' & Hc'). fold q in Hg'. congruence. }
  destruct (pos_mem q closed) eqn:Hmem.
  { destruct (IH _ _ He) as [Hmono Hcov]. split; auto.
    intros m' [<-|Hin] Hp; auto. left. now apply pos_mem_In. }
  destruct (IH _ _ He) as [Hmono Hcov]. split.
  + intros P. specialize (Hmono P). rewrite heappush_count in Hmono. lia.
  + intros m' [<-|Hin] Hp; auto. right. fold q.
    specialize (Hmono (at_pos q)). rewrite heappush_count in Hmono.
    unfold at_pos at 2 in Hmono.
    rewrite make_neighbor_position, pos_eqb_refl in Hmono. lia.
Qed.

Lemma expand_rectangular cur closed : rectangular grid ->
  forall moves open,
    expand klt make_neighbor grid cur closed moves open <> None.
Proof.
intros Hrect. induction moves as [|m moves IH]; intros open;
  cbn [expand]; [discriminate|].
destruct (in_bounds grid _) eqn:Hb; cbn [negb]; auto.
destruct (rectangular_cell _ Hrect Hb) as (c & ->).
destruct (_ || _); auto.
Qed.

Lemma iteration_frontier open closed open' closed' :
  frontier_inv grid start goal open closed ->
  search_iteration klt make_neighbor grid goal open closed
  = Next (open', closed') ->
  frontier_inv grid start goal open' closed'.
Proof.
intros (Hgoal & Hstart & Hnb) Hit. unfold search_iteration in Hit.
destruct (heappop _ open) as [[cur open1]|] eqn:Hp; [|discriminate].
assert (Hkeep : forall q, 0 < countP (at_pos q) open ->
                          position cur = q \/ 0 < countP (at_pos q) open1).
{ intros q Hq. rewrite (@heappop_count _ _ (at_pos q) _ _ _ Hp) in Hq.
  destruct (at_pos q cur) eqn:Ha; [left; now apply at_pos_true|right; lia]. }
destruct (pos_mem (position cur) closed) eqn:Hm.
- inversion Hit; subst. apply pos_mem_In in Hm. split; auto. split.
  + destruct Hstart as [?|Hs]; auto.
    destruct (Hkeep _ Hs) as [<-|?]; auto.
  + intros p m Hin Hmv Hpass.
    destruct (Hnb p m Hin Hmv Hpass) as [?|Hq]; auto.
    destruct (Hkeep _ Hq) as [<-|?]; auto.
- destruct (pos_eqb (position cur) goal) eqn:Hend; [discriminate|].
  destruct (expand _ _ _ _ _ _ _) as [open2|] eqn:Hx; [|discriminate].
  inversion Hit; subst. clear Hit.
  destruct (expand_covers _ _ _ _ Hx) as [Hmono Hcov].
  assert (Hkeep' : forall q, 0 < countP (at_pos q) open ->
                     In q (position cur :: closed) \/
                     0 < countP (at_pos q) open').
  { intros q Hq. destruct (Hkeep _ Hq) as [<-|H1]; [left; simpl; auto|].
    right. specialize (Hmono (at_pos q)). lia. }
  split; [|split].
  + intros [E|Hin]; auto.
    rewrite E, pos_eqb_refl in Hend. discriminate.
  + destruct Hstart as [?|Hs]; [left; simpl; auto|]. auto.
  + intros p m [<-|Hin] Hmv Hpass.
    * apply Hcov; auto.
    * destruct (Hnb p m Hin Hmv Hpass) as [?|Hq]; [left; simpl; auto|].
      auto.
Qed.
End BestFirstComplete.

Section BestFirstDecides.
Context {K : Type}.
Variable klt : K -> K -> bool.
Variable make_neighbor : Node K -> Pos -> Node K.
Variable grid : Grid.
Variables start goal : Pos.

Hypothesis make_neighbor_chain : forall cur pos,
  ancestors (make_neighbor cur pos) = pos :: ancestors cur.

Lemma search_loop_finds : forall fuel open closed,
  frontier_inv grid start goal open closed ->
  reachable grid start goal ->
  search_loop klt make_neighbor grid fuel goal open closed <> Return None.
Proof.
induction fuel as [|fuel IH]; intros open closed Hinv Hreach;
  cbn [search_loop]; [discriminate|].
destruct (search_iteration _ _ _ _ _ _) as [res|[open' closed']] eqn:Hit.
- unfold search_iteration in Hit.
  destruct (heappop _ open) as [[cur open1]|] eqn:Hp.
  + destruct (pos_mem _ closed); [discriminate|].
    destruct (pos_eqb _ goal); [inversion Hit; discriminate|].
    destruct (expand _ _ _ _ _ _ _); [discriminate|inversion Hit; discriminate].
  + apply heappop_None in Hp. subst open.
    destruct Hinv as (Hgoal & Hstart & Hnb). cbn [countP] in *.
    destruct Hreach as (path & (Hhd & Hlast & Hcons) & Hpass).
    exfalso. apply Hgoal. rewrite <- Hlast.
    apply closed_holds_reachable with (grid := grid); auto.
    * intros p m Hin Hm Hpm. destruct (Hnb p m Hin Hm Hpm); auto. lia.
    * destruct Hstart; auto. lia.
- apply IH; auto. eapply iteration_frontier; eauto.
Qed.

Lemma search_loop_no_raise : rectangular grid ->
  forall fuel open closed,
    search_loop klt make_neighbor grid fuel goal open closed <> Raise.
Proof.
intros Hrect. induction fuel as [|fuel IH]; intros open closed;
  cbn [search_loop]; [discriminate|].
destruct (search_iteration _ _ _ _ _ _) as [res|[open' closed']] eqn:Hit;
  [|apply IH].
unfold search_iteration in Hit.
destruct (heappop _ open) as [[cur open1]|]; [|inversion Hit; discriminate].
destruct (pos_mem _ closed); [discriminate|].
destruct (pos_eqb _ goal); [inversion Hit; discriminate|].
destruct (expand _ _ _ _ _ _ _) eqn:Hx; [discriminate|].
now apply expand_rectangular in Hx.
Qed.

Lemma best_first_finds (start_node : Node K) :
  ancestors start_node = [start] ->
  reachable grid start goal ->
  best_first klt make_neighbor grid start_node goal <> Return None.
Proof.
intros Hs Hreach. unfold best_first. apply search_loop_finds; auto.
rewrite heappush_nil. split; [intros []|]. split; [|intros p m []].
right. cbn [countP]. unfold at_pos.
destruct (ancestors_head start_node) as (l & E). rewrite Hs in E.
inversion E. rewrite pos_eqb_refl. lia.
Qed.

Lemma best_first_decides (start_node : Node K) :
  rectangular grid ->
  ancestors start_node = [start] ->
  reachable grid start goal <->
  exists path,
    best_first klt make_neighbor grid start_node goal = Return (Some path).
Proof.
intros Hrect Hs. split.
- intros Hreach.
  pose proof (best_first_finds _ Hs Hreach) as Hfound.
  pose proof (@best_first_no_timeout _ klt make_neighbor grid start
                make_neighbor_chain start_node goal Hs) as Hfuel.
  assert (Hraise : best_first klt make_neighbor grid start_node goal
                   <> Raise)
    by (unfold best_first; now apply search_loop_no_raise).
  destruct (best_first klt make_neighbor grid start_node goal)
    as [[path|]| |]; try congruence. eauto.
- intros (path & Hr). exists path.
  eapply best_first_path; [| |exact Hr]; auto.
Qed.
End BestFirstDecides.

(** X4: the [while open_list:] loop of each search without a memory bound
    ends within [4 * (rows * cols + 1) + 2] passes, on every map and with
    every heuristic: a pass either shrinks the open list or closes one more
    cell and adds at most four nodes. *)
Theorem unbounded_search_terminates (grid : Grid) (start goal : Pos)
        (res : outcome (option (list Pos))) :
  unbounded_call grid start goal res -> res <> OutOfFuel.
Proof.
intros Hc. destruct Hc;
  apply best_first_no_timeout with (start := start); reflexivity.
Qed.

Lemma unbounded_search_terminates_witness :
  greedy_bfs_search (K:=Z) manhattan_distance scenario_grid
                    (0, 0)%Z (2, 2)%Z
  <> OutOfFuel.
Proof.
apply (@unbounded_search_terminates scenario_grid (0, 0)%Z (2, 2)%Z).
apply call_greedy.
Defined.

(** X5: on a map whose rows all have the length of row 0, none of the
    four searches without a memory bound raises: [grid[r][c]] is only
    evaluated after the bounds test against [len(grid)] and
    [len(grid[0])]. *)
Theorem unbounded_search_never_raises (grid : Grid) (start goal : Pos)
        (res : outcome (option (list Pos))) :
  rectangular grid ->
  unbounded_call grid start goal res -> res <> Raise.
Proof.
intros Hrect Hc. destruct Hc;
  unfold a_star_search, greedy_bfs_search, weighted_a_star_search,
         dynamic_weighted_a_star_search, best_first;
  now apply search_loop_no_raise.
Qed.

Lemma unbounded_search_never_raises_witness :
  weighted_a_star_search (K:=Q) (fun a b => inject_Z (manhattan_distance a b))
                         scenario_grid (0, 0)%Z (2, 2)%Z (3 # 2)%Q
  <> Raise.
Proof.
apply (@unbounded_search_never_raises scenario_grid (0, 0)%Z (2, 2)%Z).
- repeat constructor.
- apply call_weighted.
Defined.

(** X6: each search without a memory bound is complete.  When some
    sequence of 4-adjacent steps over non-obstacle cells inside the map
    leads from start to goal, the search does not answer "no path"; and on
    a map whose rows all have the length of row 0 it returns a path exactly
    when such a sequence exists. *)
Theorem unbounded_search_complete (grid : Grid) (start goal : Pos)
        (res : outcome (option (list Pos))) :
  unbounded_call grid start goal res ->
  (reachable grid start goal -> res <> Return None) /\
  (rectangular grid ->
   (reachable grid start goal <-> exists path, res = Return (Some path))).
Proof.
intros Hc. destruct Hc; (split;
  [ intros Hreach;
    apply best_first_finds with (start := start); auto; reflexivity
  | intros Hrect;
    apply best_first_decides with (start := start); auto; reflexivity ]).
Qed.

Lemma unbounded_search_complete_witness :
  reachable scenario_grid (0, 0)%Z (2, 2)%Z <->
  exists path,
    a_star_search (K:=Z) manhattan_distance scenario_grid (0, 0)%Z (2, 2)%Z
    = Return (Some path).
Proof.
apply (@unbounded_search_complete scenario_grid (0, 0)%Z (2, 2)%Z).
- apply call_a_star.
- repeat constructor.
Defined.

(* ================================================================== *)
(** ** A* with a consistent heuristic returns a shortest path *)

Lemma countP_weaken {A : Type} (P Q : A -> bool) (l : list A) :
  (forall x, P x = true -> Q x = true) -> countP P l <= countP Q l.
Proof.
intros Himp. induction l as [|a l IH]; cbn [countP]; [lia|].
destruct (P a) eqn:Ea.
- rewrite (Himp a Ea). lia.
- destruct (Q a); lia.
Qed.

Lemma cheap_at_true (q : Pos) (k : Z) (n : Node Z) :
  cheap_at q k n = true <-> position n = q /\ (g n <= k)%Z.
Proof.
unfold cheap_at. rewrite andb_true_iff, pos_eqb_eq, Z.leb_le. tauto.
Qed.

(** A path of the kind the searches return, read backwards, is a chain. *)
Lemma chain_extend (grid : Grid) (start : Pos) :
  forall rest h t,
    good_chain grid start (h :: t) ->
    consecutive adjacent4 (h :: rest) ->
    Forall (passable grid) rest ->
    good_chain grid start (rev rest ++ h :: t).
Proof.
induction rest as [|r rest IH]; intros h t Hc Hcons Hp; [exact Hc|].
cbn [rev]. rewrite <- app_assoc. cbn [app].
destruct Hcons as [Hhr Hcons]. inversion Hp; subst.
apply IH; auto. constructor; auto. now apply adjacent4_sym.
Qed.

Lemma chain_of_path (grid : Grid) (start goal : Pos) (path : list Pos) :
  connects start goal path -> Forall (passable grid) (tl path) ->
  exists l, good_chain grid start (goal :: l) /\
            length (goal :: l) = length path.
Proof.
intros (Hh & Hl & Hc) Hp. destruct path as [|s rest]; [discriminate|].
cbn [hd_error] in Hh. inversion Hh; subst s. cbn [tl] in Hp.
pose proof (@chain_extend grid start rest start [] (gc_root grid start)
              Hc Hp) as Hchain.
assert (E : rev rest ++ [start] = rev (start :: rest)) by reflexivity.
rewrite E in Hchain.
assert (Hlast : exists l, rev (start :: rest) = goal :: l).
{ rewrite <- Hl. clear.
  destruct (@exists_last _ (start :: rest) ltac:(discriminate))
    as (front & x & E).
  rewrite E, rev_unit, last_last. eauto. }
destruct Hlast as (l & El). exists l. rewrite <- El.
split; [exact Hchain|]. now rewrite length_rev.
Qed.

Section ShortestPath.
Variable grid : Grid.
Variables start goal : Pos.
Variable hf : Node Z -> Node Z -> Z.
Variable hp : Pos -> Z.
Hypothesis Hband : banded_heuristic hf goal hp.
Hypothesis Hcons : consistent grid hp.

Let end_node : Node Z := new_node None goal.
Let mk : Node Z -> Pos -> Node Z := a_star_neighbor hf end_node.
Let rank : Node Z -> Z := fun n => f n.

Lemma rank_lt (a b : Node Z) : node_lt kltb a b = (rank a <? rank b)%Z.
Proof. reflexivity. Qed.

Lemma sp_fields cur pos :
  ancestors (mk cur pos) = pos :: ancestors cur /\
  position (mk cur pos) = pos /\ g (mk cur pos) = (g cur + 1)%Z /\
  (g cur + 1 + hp pos <= f (mk cur pos) <= g cur + 1 + hp pos + 1)%Z.
Proof.
unfold mk, a_star_neighbor, end_node.
split; [destruct cur; reflexivity|].
split; [destruct cur; reflexivity|].
split; [destruct cur; reflexivity|].
set (nb := set_g (new_node (Some cur) pos) (g cur + 1)).
pose proof (Hband nb) as Hb.
change (position nb) with pos in Hb.
change (f (set_f (set_h nb (hf nb (new_node None goal)))
                 (kadd (of_int (g (set_h nb (hf nb (new_node None goal)))))
                       (h (set_h nb (hf nb (new_node None goal)))))))
  with (g cur + 1 + hf nb (new_node None goal))%Z.
lia.
Qed.

Lemma chain_frontier (open : list (Node Z)) (closed : list Pos) :
  In start closed ->
  (forall p l m, In p closed -> good_chain grid start (p :: l) ->
                 In m MOVES -> passable grid (pos_add p m) ->
                 In (pos_add p m) closed \/
                 0 < countP (cheap_at (pos_add p m)
                                      (Z.of_nat (length l) + 1)) open) ->
  forall c, good_chain grid start c ->
  forall p l, c = p :: l -> ~ In p closed ->
  exists w, In w open /\ ~ In (position w) closed /\
            (g w + hp (position w) <= Z.of_nat (length l) + hp p)%Z.
Proof.
intros Hs Hd c Hc.
induction Hc as [|p q l Hc IH Hadj Hpass]; intros p0 l0 E Hn;
  inversion E; subst p0 l0; [contradiction|].
destruct (adjacent4_is_move (adjacent4_sym Hadj)) as (m & Hm & Ep).
subst p.
destruct (pos_mem q closed) eqn:Hq.
- apply pos_mem_In in Hq.
  destruct (Hd q l m Hq Hc Hm Hpass) as [Hin|Hcnt]; [contradiction|].
  apply countP_pos_In in Hcnt as (w & Hw & Ht).
  apply cheap_at_true in Ht as [Ew Hg].
  exists w. split; [exact Hw|]. rewrite Ew. split; [exact Hn|].
  cbn [length]. lia.
- assert (Hnq : ~ In q closed).
  { intros Hin. apply pos_mem_In in Hin. congruence. }
  destruct (IH q l eq_refl Hnq) as (w & Hw & Hnw & Hle).
  exists w. split; [exact Hw|]. split; [exact Hnw|].
  assert (Hk := Hcons). unfold consistent in Hk.
  specialize (Hk q m Hm Hpass). cbn [length]. lia.
Qed.

(** Two walks from start to the same cell differ by an even number of
    steps. *)
Lemma chain_parity (c : list Pos) :
  good_chain grid start c ->
  exists k, (Z.of_nat (length c) = 1 + manhattan start (hd start c) + 2 * k)%Z.
Proof.
induction 1 as [|p q l Hc [k IH] Hadj Hp].
- exists 0%Z. cbn [length hd]. unfold manhattan. lia.
- cbn [hd length] in *. unfold adjacent4, manhattan in *.
  destruct (Z.eq_dec (Z.abs (fst start - fst p) + Z.abs (snd start - snd p))
                     (Z.abs (fst start - fst q) + Z.abs (snd start - snd q)
                      + 1)) as [E|E].
  + exists k. lia.
  + exists (k + 1)%Z. lia.
Qed.

(** The node popped for a cell that is not closed yet has the least cost
    any walk from start to that cell can have. *)
Lemma popped_shortest open closed n open1 :
  shortest_inv grid start hp open closed ->
  heappop (node_lt kltb) open = Some (n, open1) ->
  ~ In (position n) closed ->
  forall l, good_chain grid start (position n :: l) ->
            (g n <= Z.of_nat (length l))%Z.
Proof.
intros (Hall & Hheap & Hfirst & Hlater & Hd) Hp Hn l Hc.
pose proof (heappop_In _ _ Hp) as Hin.
rewrite Forall_forall in Hall.
destruct closed as [|c0 closed0] eqn:Ec.
- specialize (Hfirst eq_refl). rewrite Forall_forall in Hfirst.
  destruct (Hfirst n Hin) as [-> _]. lia.
- rewrite <- Ec in *.
  assert (Hs : In start closed) by (apply Hlater; rewrite Ec; discriminate).
  destruct (@chain_frontier open closed Hs Hd _ Hc _ _ eq_refl Hn)
    as (w & Hw & Hnw & Hle).
  destruct (@heappop_heap (Node Z) (node_lt kltb) rank rank_lt
              open open1 n Hheap Hp) as [_ Hmin].
  specialize (Hmin w Hw). unfold rank in Hmin.
  destruct (Hall w Hw) as (_ & _ & [Hfw|[_ Hsw]]);
    [|rewrite Hsw in Hnw; contradiction].
  destruct (Hall n Hin) as (Hcn & Hln & [Hfn|[_ Hsn]]);
    [|rewrite Hsn in Hn; contradiction].
  destruct (chain_parity Hc) as (k1 & Hk1).
  destruct (chain_parity Hcn) as (k2 & Hk2).
  destruct (ancestors_head n) as (ln & En). rewrite En in Hk2, Hln.
  cbn [hd length] in Hk1, Hk2, Hln. lia.
Qed.
Lemma mk_priced cur m :
  priced grid start hp cur -> In m MOVES ->
  passable grid (pos_add (position cur) m) ->
  priced grid start hp (mk cur (pos_add (position cur) m)).
Proof.
intros (Hc & Hl & _) Hm Hpass.
destruct (sp_fields cur (pos_add (position cur) m)) as (Ea & Ep & Eg & Ef).
unfold priced. rewrite Ea, Ep, Eg.
destruct (ancestors_head cur) as (l & E).
split; [|split; [cbn [length]; lia|left; lia]].
rewrite E in *. constructor; auto. now apply adjacent4_move.
Qed.

Lemma expand_priced cur closed :
  priced grid start hp cur ->
  forall moves open open2,
    (forall m, In m moves -> In m MOVES) ->
    Forall (priced grid start hp) open -> heap_ok rank open ->
    expand kltb mk grid cur closed moves open = Some open2 ->
    Forall (priced grid start hp) open2 /\ heap_ok rank open2 /\
    (forall P, countP P open <= countP P open2) /\
    (forall m, In m moves -> passable grid (pos_add (position cur) m) ->
               In (pos_add (position cur) m) closed \/
               0 < countP (cheap_at (pos_add (position cur) m) (g cur + 1))
                          open2).
Proof.
intros Hcur. induction moves as [|m moves IH];
  intros open open2 Hin Hall Hheap He; cbn [expand] in He.
- inversion He; subst. repeat split; auto. intros m [].
- assert (Hin' : forall m', In m' moves -> In m' MOVES)
    by (intros; apply Hin; now right).
  set (q := pos_add (position cur) m) in *.
  destruct (in_bounds grid q) eqn:Hb; cbn [negb] in He.
  2:{ destruct (IH _ _ Hin' Hall Hheap He) as (F & Hp & Cn & W).
      repeat split; auto. intros m' [<-|Hm'] Hpass; auto.
      destruct Hpass as [Hb' _]. fold q in Hb'. congruence. }
  destruct (grid_get grid q) as [c|] eqn:Hg; [|discriminate].
  destruct (Ascii.eqb c OBSTACLE) eqn:Hobs; cbn [orb] in He.
  { destruct (IH _ _ Hin' Hall Hheap He) as (F & Hp & Cn & W).
    repeat split; auto. intros m' [<-|Hm'] Hpass; auto.
    destruct Hpass as (_ & c' & Hg' & Hc'). fold q in Hg'. congruence. }
  destruct (pos_mem q closed) eqn:Hmem.
  { destruct (IH _ _ Hin' Hall Hheap He) as (F & Hp & Cn & W).
    repeat split; auto. intros m' [<-|Hm'] Hpass; auto.
    left. now apply pos_mem_In. }
  assert (Hq : passable grid q) by (split; eauto).
  assert (Hnew : priced grid start hp (mk cur q))
    by (apply mk_priced; auto; apply Hin; now left).
  destruct (IH (heappush (node_lt kltb) open (mk cur q)) open2 Hin')
    as (F & Hp & Cn & W); auto.
  { apply heappush_Forall; auto. }
  { apply heappush_heap with (rank := rank); auto. }
  split; [exact F|]. split; [exact Hp|]. split.
  + intros P. specialize (Cn P). rewrite heappush_count in Cn. lia.
  + intros m' [<-|Hm'] Hpass; auto. right. fold q.
    specialize (Cn (cheap_at q (g cur + 1))).
    rewrite heappush_count in Cn.
    assert (Ho : cheap_at q (g cur + 1) (mk cur q) = true).
    { apply cheap_at_true. destruct (sp_fields cur q) as (_ & -> & -> & _).
      split; [reflexivity|lia]. }
    rewrite Ho in Cn. lia.
Qed.
Lemma shortest_iteration open closed :
  shortest_inv grid start hp open closed ->
  match search_iteration kltb mk grid goal open closed with
  | Done res =>
      forall path, res = Return (Some path) ->
      forall l, good_chain grid start (goal :: l) ->
                (Z.of_nat (length path) <= Z.of_nat (length l) + 1)%Z
  | Next (open', closed') => shortest_inv grid start hp open' closed'
  end.
Proof.
intros Hinv. pose proof Hinv as (Hall & Hheap & Hfirst & Hlater & Hd).
unfold search_iteration.
destruct (heappop (node_lt kltb) open) as [[n open1]|] eqn:Hp;
  [|intros path E; discriminate].
destruct (heappop_Forall _ Hp Hall) as [Hn Hall1].
destruct (@heappop_heap (Node Z) (node_lt kltb) rank rank_lt
            open open1 n Hheap Hp) as [Hheap1 _].
pose proof (heappop_In _ _ Hp) as Hnin.
assert (Hkeep : forall q k, 0 < countP (cheap_at q k) open ->
                  position n = q \/ 0 < countP (cheap_at q k) open1).
{ intros q k Hq. rewrite (@heappop_count _ _ (cheap_at q k) _ _ _ Hp) in Hq.
  destruct (cheap_at q k n) eqn:Ha; [left|right; lia].
  now apply cheap_at_true in Ha as [Ha _]. }
destruct (pos_mem (position n) closed) eqn:Hmem.
- (* an entry of a closed cell is dropped *)
  apply pos_mem_In in Hmem.
  split; [exact Hall1|]. split; [exact Hheap1|].
  split; [intros ->; destruct Hmem|]. split; [exact Hlater|].
  intros p l m Hin Hc Hm Hpass.
  destruct (Hd p l m Hin Hc Hm Hpass) as [?|Hcnt]; auto.
  destruct (Hkeep _ _ Hcnt) as [<-|?]; auto.
- assert (Hnm : ~ In (position n) closed).
  { intros Hin. apply pos_mem_In in Hin. congruence. }
  pose proof (popped_shortest Hinv Hp Hnm) as Hopt.
  destruct (pos_eqb (position n) goal) eqn:Hgoal.
  + (* the goal is popped *)
    intros path E l Hc. inversion E; subst path.
    unfold reconstruct_path. rewrite length_rev.
    apply pos_eqb_eq in Hgoal. rewrite Hgoal in Hopt.
    specialize (Hopt l Hc). destruct Hn as (_ & Hlen & _). lia.
  + (* a new cell is closed and expanded *)
    fold mk.
    destruct (expand kltb mk grid n (position n :: closed) MOVES open1)
      as [open2|] eqn:Hx; [|intros path E; discriminate].
    destruct (@expand_priced n (position n :: closed) Hn MOVES open1 open2
                (fun _ H => H) Hall1 Hheap1 Hx) as (F & Hh2 & Cn & W).
    split; [exact F|]. split; [exact Hh2|].
    split; [discriminate|]. split.
    * intros _. destruct closed as [|c0 closed0].
      -- specialize (Hfirst eq_refl). rewrite Forall_forall in Hfirst.
         destruct (Hfirst n Hnin) as [_ ->]. now left.
      -- right. apply Hlater. discriminate.
    * intros p l m [<-|Hin] Hc Hm Hpass.
      -- destruct (W m Hm Hpass) as [?|Hcnt]; [now left|right].
         specialize (Hopt l Hc).
         pose proof (@countP_weaken _
                       (cheap_at (pos_add (position n) m) (g n + 1))
                       (cheap_at (pos_add (position n) m)
                                 (Z.of_nat (length l) + 1)) open2) as Hw.
         assert (0 < countP (cheap_at (pos_add (position n) m) (g n + 1))
                            open2
                 <= countP (cheap_at (pos_add (position n) m)
                                     (Z.of_nat (length l) + 1)) open2);
           [|lia].
         split; [exact Hcnt|]. apply Hw. intros x Hx'.
         apply cheap_at_true in Hx' as [Ex Hgx].
         apply cheap_at_true. split; [exact Ex|lia].
      -- destruct (Hd p l m Hin Hc Hm Hpass) as [?|Hcnt];
           [left; now right|].
         destruct (Hkeep _ _ Hcnt) as [<-|H1]; [left; now left|right].
         specialize (Cn (cheap_at (pos_add p m) (Z.of_nat (length l) + 1))).
         lia.
Qed.

Lemma shortest_loop : forall fuel open closed path,
  shortest_inv grid start hp open closed ->
  search_loop kltb mk grid fuel goal open closed = Return (Some path) ->
  forall l, good_chain grid start (goal :: l) ->
            (Z.of_nat (length path) <= Z.of_nat (length l) + 1)%Z.
Proof.
induction fuel as [|fuel IH]; intros open closed path Hinv Hr;
  cbn [search_loop] in Hr; [discriminate|].
pose proof (shortest_iteration Hinv) as Hit.
destruct (search_iteration kltb mk grid goal open closed)
  as [res|[open' closed']].
- subst res. now apply Hit.
- eapply IH; eauto.
Qed.

Lemma shortest_start :
  shortest_inv grid start hp
               (heappush (node_lt kltb) [] (new_node (K:=Z) None start)) [].
Proof.
rewrite heappush_nil. split; [|split; [|split; [|split]]].
- constructor; [|constructor]. split; [constructor|].
  split; [reflexivity|]. right. split; reflexivity.
- intros i d Hi. cbn [length] in Hi. lia.
- intros _. constructor; [|constructor]. split; reflexivity.
- congruence.
- intros p l m [].
Qed.
End ShortestPath.

Lemma manhattan_position_heuristic (goal : Pos) :
  position_heuristic manhattan_distance goal (fun p => manhattan p goal).
Proof. intros n. reflexivity. Qed.

Lemma manhattan_consistent (grid : Grid) (goal : Pos) :
  consistent grid (fun p => manhattan p goal).
Proof.
intros [a b] m Hm _. destruct goal as [c d].
unfold MOVES in Hm. cbn [In] in Hm.
destruct Hm as [<-|[<-|[<-|[<-|[]]]]];
  unfold manhattan, pos_add; cbn [fst snd]; lia.
Qed.

Lemma banded_a_star_shortest (grid : Grid) (start goal : Pos)
      (hf : Node Z -> Node Z -> Z) (hp : Pos -> Z)
      (path other : list Pos) :
  banded_heuristic hf goal hp -> consistent grid hp ->
  a_star_search hf grid start goal = Return (Some path) ->
  connects start goal other -> Forall (passable grid) (tl other) ->
  (path_cost path <= path_cost other)%Z.
Proof.
intros Hband Hcons Hr Hc Hp.
destruct (chain_of_path Hc Hp) as (l & Hchain & Hlen).
unfold a_star_search, best_first in Hr.
pose proof (@shortest_loop grid start goal hf hp Hband Hcons _ _ _ path
              (shortest_start grid start hp) Hr l Hchain) as Hle.
unfold path_cost. rewrite <- Hlen. cbn [length]. lia.
Qed.

(** X7: with a heuristic that is a function of the node's position and
    drops by at most one along a step (Manhattan distance is one), the path
    [a_star_search] returns is a shortest one: no sequence of 4-adjacent
    steps over passable cells from start to goal has fewer steps.  This
    holds on every map, whatever ties the heap breaks. *)
Theorem a_star_returns_shortest_path (grid : Grid) (start goal : Pos)
        (hf : Node Z -> Node Z -> Z) (hp : Pos -> Z)
        (path other : list Pos) :
  position_heuristic hf goal hp -> consistent grid hp ->
  a_star_search hf grid start goal = Return (Some path) ->
  connects start goal other -> Forall (passable grid) (tl other) ->
  (path_cost path <= path_cost other)%Z.
Proof.
intros Hpos Hcons Hr Hc Hp.
apply (@banded_a_star_shortest grid start goal hf hp); auto.
intros n. rewrite Hpos. lia.
Qed.

Lemma a_star_returns_shortest_path_witness :
  (path_cost [(0, 0); (0, 1); (0, 2); (1, 2); (2, 2)]
   <= path_cost [(0, 0); (1, 0); (2, 0); (2, 1); (2, 2)])%Z.
Proof.
apply (@a_star_returns_shortest_path scenario_grid (0, 0)%Z (2, 2)%Z
         manhattan_distance (fun p => manhattan p (2, 2)%Z)).
- apply manhattan_position_heuristic.
- apply manhattan_consistent.
- vm_compute. reflexivity.
- repeat split; reflexivity.
- repeat constructor; eexists; split; reflexivity.
Defined.

(* ================================================================== *)
(** ** The relaxed-problem heuristic *)

Lemma blank_rectangular (c : ascii) (rows cols : nat) :
  rectangular (repeat (repeat c cols) rows).
Proof.
unfold rectangular. apply Forall_forall. intros row Hin.
destruct rows; [destruct Hin|].
apply repeat_spec in Hin. subst row. cbn [repeat hd]. reflexivity.
Qed.

Lemma blank_obstacle_free (rows cols : nat) :
  obstacle_free (repeat (repeat FREE cols) rows).
Proof.
unfold obstacle_free. apply Forall_forall. intros row Hin.
apply repeat_spec in Hin. subst row. apply Forall_forall. intros c Hc.
apply repeat_spec in Hc. subst c. discriminate.
Qed.

Lemma blank_in_bounds (c : ascii) (rows cols : Z) (p : Pos) :
  (0 <= fst p < rows)%Z -> (0 <= snd p < cols)%Z ->
  in_bounds (repeat (repeat c (Z.to_nat cols)) (Z.to_nat rows)) p = true.
Proof.
intros Hr Hc. apply in_bounds_iff. unfold grid_rows, grid_cols.
rewrite repeat_length.
destruct (Z.to_nat rows) as [|n] eqn:En; [lia|].
cbn [repeat hd]. rewrite repeat_length. lia.
Qed.

Lemma open_field_steps (grid : Grid) (start goal : Pos) :
  rectangular grid -> obstacle_free grid ->
  in_bounds grid start = true -> in_bounds grid goal = true ->
  exists path,
    a_star_search (K:=Z) manhattan_distance grid start goal
    = Return (Some path) /\
    Z.of_nat (length path) = (manhattan start goal + 1)%Z.
Proof.
intros Hrect Hfree Hs Hg.
pose proof (@field_loop grid start goal Hrect Hfree Hs Hg
              (search_fuel grid) _ _
              (field_start grid start goal)) as Hl.
assert (Hnt : a_star_search (K:=Z) manhattan_distance grid start goal
              <> OutOfFuel).
{ apply best_first_no_timeout with (start := start); [|reflexivity].
  intros cur pos. destruct cur; reflexivity. }
destruct Hl as [Ht|Hl]; [now elim Hnt|exact Hl].
Qed.

(** X8: for two nodes at positions with non-negative coordinates,
    [relaxed_derived_heuristic] returns their Manhattan distance (the
    search on the generated map always finds a path, so [float('inf')] is
    never returned there). *)
Theorem relaxed_heuristic_is_manhattan {K : Type} (node_a node_b : Node K) :
  (0 <= fst (position node_a))%Z -> (0 <= snd (position node_a))%Z ->
  (0 <= fst (position node_b))%Z -> (0 <= snd (position node_b))%Z ->
  relaxed_derived_heuristic node_a node_b
  = Return (Steps (manhattan (position node_a) (position node_b))).
Proof.
intros Ha1 Ha2 Hb1 Hb2. unfold relaxed_derived_heuristic. cbv zeta.
set (rows := (Z.max (fst _) (fst _) + 1)%Z).
set (cols := (Z.max (snd _) (snd _) + 1)%Z).
destruct (@open_field_steps
            (repeat (repeat FREE (Z.to_nat cols)) (Z.to_nat rows))
            (position node_a) (position node_b))
  as (path & -> & Hlen).
- apply blank_rectangular.
- apply blank_obstacle_free.
- apply blank_in_bounds; unfold rows, cols; lia.
- apply blank_in_bounds; unfold rows, cols; lia.
- do 2 f_equal. lia.
Qed.

Lemma relaxed_heuristic_is_manhattan_witness :
  relaxed_derived_heuristic (new_node (K:=Z) None (0, 2)%Z)
                            (new_node (K:=Z) None (3, 0)%Z)
  = Return (Steps 5).
Proof.
apply (@relaxed_heuristic_is_manhattan Z (new_node None (0, 2)%Z)
         (new_node None (3, 0)%Z)); cbn; lia.
Defined.

Lemma directional_bias_banded (goal : Pos) :
  banded_heuristic directional_bias_heuristic goal
                   (fun p => manhattan p goal).
Proof.
intros n. unfold directional_bias_heuristic, manhattan_distance.
change (position (new_node None goal)) with goal.
destruct (parent n) as [par|]; [|lia].
destruct (parent par) as [grand|]; [|lia].
cbv zeta. destruct (negb _); lia.
Qed.

(** X9: A* with [directional_bias_heuristic], which adds 1 to the
    Manhattan distance after a turn, still returns a path with the fewest
    steps on every map: the heuristic never exceeds the Manhattan distance
    by more than one, and two walks between the same cells differ by an
    even number of steps. *)
Theorem directional_bias_keeps_paths_shortest (grid : Grid)
        (start goal : Pos) (path other : list Pos) :
  a_star_search (K:=Z) directional_bias_heuristic grid start goal
  = Return (Some path) ->
  connects start goal other -> Forall (passable grid) (tl other) ->
  (path_cost path <= path_cost other)%Z.
Proof.
intros Hr Hc Hp.
apply (@banded_a_star_shortest grid start goal directional_bias_heuristic
         (fun p => manhattan p goal)); auto.
- apply directional_bias_banded.
- apply manhattan_consistent.
Qed.

Lemma directional_bias_keeps_paths_shortest_witness :
  (path_cost [(0, 0); (0, 1); (0, 2); (1, 2); (2, 2)]
   <= path_cost [(0, 0); (1, 0); (2, 0); (2, 1); (2, 2)])%Z.
Proof.
apply (@directional_bias_keeps_paths_shortest scenario_grid
         (0, 0)%Z (2, 2)%Z).
- vm_compute. reflexivity.
- repeat split; reflexivity.
- repeat constructor; eexists; split; reflexivity.
Defined.

(* ================================================================== *)
(** ** Robots: planning *)

(** X10: when the search of [plan_path] reaches the goal on the local
    map, the robot adopts that route without its first cell, and no
    sequence of 4-adjacent steps over cells its local map does not show as
    obstacles leads from its position to the goal in fewer steps. *)
Theorem plan_path_adopts_shortest_route (r r' : Robot.t)
        (route other : list Pos) :
  Robot.plan_path r = Return r' ->
  robot_search r (Robot.goal_row r, Robot.goal_col r)
  = Return (Some route) ->
  connects (Robot.position r) (Robot.goal_row r, Robot.goal_col r) other ->
  Forall (passable (Robot.local_map r)) (tl other) ->
  Robot.path r' = tl route /\
  (Z.of_nat (length (Robot.path r')) <= path_cost other)%Z.
Proof.
intros Hplan Hs Hc Hp. unfold robot_search in Hs.
pose proof (@a_star_path_nonempty _ _ _ _ _ _ _ Hs) as Hhd.
assert (Hle : (path_cost route <= path_cost other)%Z).
{ apply (@banded_a_star_shortest (Robot.local_map r) (Robot.position r)
           (Robot.goal_row r, Robot.goal_col r) manhattan_distance
           (fun p => manhattan p (Robot.goal_row r, Robot.goal_col r)));
    auto.
  - intros n. unfold manhattan_distance.
    change (position (new_node None (Robot.goal_row r, Robot.goal_col r)))
      with (Robot.goal_row r, Robot.goal_col r). lia.
  - apply manhattan_consistent. }
unfold Robot.plan_path in Hplan. rewrite Hs in Hplan. cbn [bind] in Hplan.
destruct route as [|p0 tail]; [discriminate|].
inversion Hplan; subst r'. cbn [Robot.path Robot.with_path tl].
split; [reflexivity|]. unfold path_cost in *. cbn [length] in Hle. lia.
Qed.

Lemma plan_path_adopts_shortest_route_witness :
  exists r',
    Robot.plan_path sample_robot = Return r' /\
    Robot.path r' = [(0, 1); (1, 1)]%Z /\
    (Z.of_nat (length (Robot.path r'))
     <= path_cost [(0, 0); (1, 0); (1, 1)]%Z)%Z.
Proof.
eexists. split; [vm_compute; reflexivity|].
apply (@plan_path_adopts_shortest_route sample_robot _
         [(0, 0); (0, 1); (1, 1)]%Z [(0, 0); (1, 0); (1, 1)]%Z).
- vm_compute. reflexivity.
- vm_compute. reflexivity.
- repeat split; reflexivity.
- repeat constructor; eexists; split; reflexivity.
Defined.

(* ================================================================== *)
(** ** Robots: what sensing writes *)

Lemma fact_eqb_eq (a b : Robot.Fact) : Robot.fact_eqb a b = true -> a = b.
Proof.
destruct a as [[s1 x1] y1], b as [[s2 x2] y2]. unfold Robot.fact_eqb.
rewrite !andb_true_iff. intros [[Hs Hx] Hy].
apply Ascii.eqb_eq in Hs. apply Z.eqb_eq in Hx. apply Z.eqb_eq in Hy.
congruence.
Qed.

Lemma offsets_In (radius : Z) (d : Z * Z) :
  In d (Robot.offsets radius) <->
  (- radius <= fst d <= radius)%Z /\ (- radius <= snd d <= radius)%Z.
Proof.
unfold Robot.offsets. rewrite in_flat_map. split.
- intros (dx & Hdx & Hd). apply in_map_iff in Hd as (dy & <- & Hdy).
  apply zrange_In in Hdx. apply zrange_In in Hdy. cbn [fst snd]. lia.
- intros [Hx Hy]. exists (fst d). split; [apply zrange_In; lia|].
  apply in_map_iff. exists (snd d). split; [now destruct d|].
  apply zrange_In. lia.
Qed.

Lemma sense_cell_elsewhere (s s' : Robot.t) (cx cy : Z) (d : Z * Z)
      (x y : Z) :
  Robot.sense_cell s cx cy d = Return s' ->
  (0 <= x)%Z -> (0 <= y)%Z ->
  (x <> cx + fst d \/ y <> cy + snd d)%Z ->
  cell_get (Robot.local_map s') x y = cell_get (Robot.local_map s) x y.
Proof.
unfold Robot.sense_cell. intros Hc Hx Hy Hne.
destruct (Robot.get_symbol_at s _ _ _) as [sym| |]; cbn [bind] in Hc;
  try discriminate.
destruct (Robot.inside s _ _) eqn:Ei.
- destruct (cell_set _ _ _ sym) as [m'| |] eqn:Hs; cbn [bind] in Hc;
    try discriminate.
  apply inside_nonneg in Ei as [Hnx Hny].
  pose proof (@cell_get_after_set _ _ _ _ _ x y Hs Hnx Hny Hx Hy) as Hget.
  assert (Ef : ((x =? cx + fst d) && (y =? cy + snd d))%Z = false).
  { apply andb_false_iff. destruct Hne as [H1|H1];
      [left|right]; now apply Z.eqb_neq. }
  rewrite Ef in Hget.
  destruct (existsb _ _); inversion Hc; subst s'; destruct s; exact Hget.
- inversion Hc; subst. reflexivity.
Qed.

Lemma sense_pass_elsewhere (cx cy : Z) (x y : Z) : forall ds s s',
  Robot.for_each (fun r d => Robot.sense_cell r cx cy d) ds s = Return s' ->
  (0 <= x)%Z -> (0 <= y)%Z ->
  (forall d, In d ds -> (x <> cx + fst d \/ y <> cy + snd d)%Z) ->
  cell_get (Robot.local_map s') x y = cell_get (Robot.local_map s) x y.
Proof.
induction ds as [|d0 ds IH]; intros s s' Hf Hx Hy Hout;
  cbn [Robot.for_each] in Hf.
- inversion Hf; subst. reflexivity.
- destruct (Robot.sense_cell s cx cy d0) as [s0| |] eqn:Hc;
    cbn [bind] in Hf; try discriminate.
  rewrite (IH s0 s' Hf Hx Hy) by (intros d Hd; apply Hout; now right).
  eapply sense_cell_elsewhere; eauto. apply Hout. now left.
Qed.

(** X11: after [sense_environment], every cell of the map within
    [sensor_radius] rows and columns of the robot holds the ground-truth
    symbol and its fact is in the record; a cell further away (at
    non-negative coordinates) is as it was; identity, position, goal,
    path and ground truth are untouched. *)
Theorem sense_writes_the_window (r r' : Robot.t) :
  Robot.sense_environment r = Return r' ->
  (forall x y,
     Robot.inside r x y = true ->
     (Z.abs (x - Robot.pos_x r) <= Robot.sensor_radius r)%Z ->
     (Z.abs (y - Robot.pos_y r) <= Robot.sensor_radius r)%Z ->
     exists symbol,
       cell_get (Robot.full_map r) x y = Return symbol /\
       cell_get (Robot.local_map r') x y = Return symbol /\
       In (symbol, x, y) (Robot.record r')) /\
  (forall x y,
     (0 <= x)%Z -> (0 <= y)%Z ->
     (Robot.sensor_radius r < Z.abs (x - Robot.pos_x r)
      \/ Robot.sensor_radius r < Z.abs (y - Robot.pos_y r))%Z ->
     cell_get (Robot.local_map r') x y = cell_get (Robot.local_map r) x y) /\
  r' = Robot.with_record (Robot.with_local_map r (Robot.local_map r'))
                         (Robot.record r').
Proof.
intros Hs. pose proof (@sense_environment_frame _ _ Hs) as Hframe.
unfold Robot.sense_environment in Hs. split; [|split; [|exact Hframe]].
- intros x y Hin Hx Hy.
  assert (Hd : In (x - Robot.pos_x r, y - Robot.pos_y r)%Z
                  (Robot.offsets (Robot.sensor_radius r)))
    by (apply offsets_In; cbn [fst snd]; lia).
  destruct (@sense_pass_settles _ _ _ _ _ Hs _ (or_introl Hd))
    as (symbol & Hg & Hloc).
  cbn [fst snd] in Hg, Hloc.
  replace (Robot.pos_x r + (x - Robot.pos_x r))%Z with x in * by lia.
  replace (Robot.pos_y r + (y - Robot.pos_y r))%Z with y in * by lia.
  assert (Hin' : Robot.inside r' x y = true)
    by (rewrite Hframe; destruct r; exact Hin).
  assert (Hfm : Robot.full_map r' = Robot.full_map r)
    by (rewrite Hframe; destruct r; reflexivity).
  unfold Robot.get_symbol_at in Hg. rewrite Hin', Hfm in Hg.
  destruct (Hloc Hin') as [Hl He].
  exists symbol. split; [exact Hg|]. split; [exact Hl|].
  apply existsb_exists in He as (fact & Hfact & Heq).
  apply fact_eqb_eq in Heq. now subst fact.
- intros x y Hx Hy Hout.
  apply (@sense_pass_elsewhere _ _ x y _ _ _ Hs Hx Hy).
  intros d Hd. apply offsets_In in Hd. lia.
Qed.

Lemma sense_writes_the_window_witness :
  exists r',
    Robot.sense_environment sample_robot = Return r' /\
    cell_get (Robot.local_map r') 0 1 = Return OBSTACLE /\
    In (OBSTACLE, 0%Z, 1%Z) (Robot.record r').
Proof.
eexists. split; [vm_compute; reflexivity|].
destruct (@sense_writes_the_window sample_robot _ eq_refl) as (Hw & _ & _).
destruct (Hw 0%Z 1%Z) as (symbol & Ht & Hl & Hr);
  [reflexivity|vm_compute; discriminate|vm_compute; discriminate|].
vm_compute in Ht. inversion Ht; subst symbol. split; [exact Hl|exact Hr].
Defined.

(* ================================================================== *)
(** ** Robots: recorded facts are never dropped *)

Lemma grows_refl (r : Robot.t) : grows r r.
Proof. repeat split. exists []. now rewrite app_nil_r. Qed.

Lemma grows_trans (a b c : Robot.t) : grows a b -> grows b c -> grows a c.
Proof.
intros (A1 & A2 & A3 & A4 & A5 & e1 & A6) (B1 & B2 & B3 & B4 & B5 & e2 & B6).
repeat split; try congruence.
exists (e1 ++ e2). rewrite B6, A6. now rewrite app_assoc.
Qed.

Lemma grows_with_local_map (r : Robot.t) (m : Grid) :
  grows r (Robot.with_local_map r m).
Proof.
destruct r. repeat split. exists []. cbn. now rewrite app_nil_r.
Qed.

Lemma grows_with_path (r : Robot.t) (p : list Pos) :
  grows r (Robot.with_path r p).
Proof.
destruct r. repeat split. exists []. cbn. now rewrite app_nil_r.
Qed.

Lemma grows_with_position (r : Robot.t) (p : Pos) :
  grows r (Robot.with_position r p).
Proof.
destruct r. repeat split. exists []. cbn. now rewrite app_nil_r.
Qed.

Lemma grows_with_goal (r : Robot.t) (p : Pos) :
  grows r (Robot.with_goal r p).
Proof.
destruct r. repeat split. exists []. cbn. now rewrite app_nil_r.
Qed.

Lemma grows_with_record (r : Robot.t) (extra : list Robot.Fact) :
  grows r (Robot.with_record r (Robot.record r ++ extra)).
Proof. destruct r. repeat split. cbn. eauto. Qed.

Lemma sense_cell_grows (s s' : Robot.t) (cx cy : Z) (d : Z * Z) :
  Robot.sense_cell s cx cy d = Return s' -> grows s s'.
Proof.
unfold Robot.sense_cell.
destruct (Robot.get_symbol_at s _ _ _) as [sym| |]; cbn [bind];
  try discriminate.
destruct (Robot.inside s _ _).
- destruct (cell_set _ _ _ sym) as [m'| |]; cbn [bind]; try discriminate.
  destruct (existsb _ _); intros [= <-].
  + apply grows_with_local_map.
  + destruct s; repeat split; cbn; eauto.
- intros [= <-]. apply grows_refl.
Qed.

Lemma sense_environment_grows (r r' : Robot.t) :
  Robot.sense_environment r = Return r' -> grows r r'.
Proof.
unfold Robot.sense_environment. intros Hs.
refine (proj2 (@for_each_rel _ _ _ (fun _ => True) grows
                 grows_refl grows_trans _ _ _ _ I Hs)).
intros s a s' _ Hc. split; [exact I|]. eapply sense_cell_grows; eauto.
Qed.

Lemma plan_path_grows (r r' : Robot.t) :
  Robot.plan_path r = Return r' -> grows r r'.
Proof.
intros Hp. rewrite (plan_path_frame _ Hp). apply grows_with_path.
Qed.

Lemma receive_item_grows (st st' : Robot.t * bool) (item : Pos * ascii) :
  Robot.receive_item st item = Return st' -> grows (fst st) (fst st').
Proof.
destruct st as [r updated], item as [[x y] symbol].
unfold Robot.receive_item.
destruct (cell_get _ x y) as [c| |]; cbn [bind]; try discriminate.
destruct (Ascii.eqb c UNKNOWN).
- destruct (cell_set _ x y symbol) as [m| |]; cbn [bind]; try discriminate.
  intros [= <-]. cbn [fst]. destruct r; repeat split; cbn; eauto.
- intros [= <-]. apply grows_refl.
Qed.

Lemma receive_knowledge_grows (r r' : Robot.t) shared :
  Robot.receive_knowledge r shared = Return r' -> grows r r'.
Proof.
unfold Robot.receive_knowledge.
destruct (Robot.for_each Robot.receive_item shared (r, false))
  as [[r1 updated]| |] eqn:Hf; cbn [bind]; try discriminate.
assert (H1 : grows r r1).
{ refine (proj2 (@for_each_rel _ _ _ (fun _ => True)
                   (fun a b => grows (fst a) (fst b)) _ _ _ _ _ _ I Hf)).
  - intros s. apply grows_refl.
  - intros a b c. apply grows_trans.
  - intros s a s' _ Hc. split; [exact I|]. eapply receive_item_grows; eauto. }
destruct updated.
- intros Hp. eapply grows_trans; [exact H1|]. now apply plan_path_grows.
- intros [= <-]. exact H1.
Qed.

Lemma move_grows (r r' : Robot.t) reg reg' ev :
  Robot.move r reg = Return (r', reg', ev) -> grows r r'.
Proof.
unfold Robot.move. destruct (Robot.path r) as [|next_pos rest].
- intros [= <- _ _]. apply grows_refl.
- destruct (cell_set _ _ _ FREE) as [m| |]; cbn [bind]; try discriminate.
  destruct (Robot.get_symbol_at _ (Robot.full_map _) _ _) as [tv| |];
    cbn [bind]; try discriminate.
  destruct (Robot.get_symbol_at _ (Robot.local_map _) _ _) as [lv| |];
    cbn [bind]; try discriminate.
  destruct (Robot.sense_environment _) as [r3| |] eqn:Hs; cbn [bind];
    try discriminate.
  intros [= <- _ _]. apply sense_environment_grows in Hs.
  eapply grows_trans; [|exact Hs].
  destruct r; repeat split. exists []. cbn. now rewrite app_nil_r.
Qed.

Lemma refresh_markers_grows reg (r r' : Robot.t) :
  Coordinator.refresh_markers reg r = Return r' -> grows r r'.
Proof.
unfold Coordinator.refresh_markers.
destruct (Robot.for_each Coordinator.clear_marker _ _) as [m1| |];
  cbn [bind]; try discriminate.
destruct (Robot.for_each _ reg m1) as [m2| |]; cbn [bind];
  try discriminate.
intros [= <-]. apply grows_with_local_map.
Qed.

(** X12: no method of a robot, nor the coordinator's marker refresh,
    removes or rewrites a recorded fact: the new record is the old one with
    facts appended at most.  The robot's id, the map dimensions, the ground
    truth and the sensor radius do not change either. *)
Theorem recorded_facts_are_kept (r r' : Robot.t) :
  method_call r r' -> grows r r'.
Proof.
intros [Hs|Hp|goal Hp|reg reg' ev Hm|shared Hr|reg Hf].
- now apply sense_environment_grows.
- now apply plan_path_grows.
- unfold Robot.replan in Hp.
  eapply grows_trans; [apply grows_with_goal|]. eapply plan_path_grows; eauto.
- eapply move_grows; eauto.
- eapply receive_knowledge_grows; eauto.
- eapply refresh_markers_grows; eauto.
Qed.

Lemma recorded_facts_are_kept_witness :
  exists r', Robot.receive_knowledge sample_robot [((0, 1)%Z, "1"%char)]
             = Return r' /\ grows sample_robot r'.
Proof.
eexists. split; [vm_compute; reflexivity|].
apply recorded_facts_are_kept.
apply by_receive with (shared_data := [((0, 1)%Z, "1"%char)]).
vm_compute. reflexivity.
Defined.

(* ================================================================== *)
(** ** Robots: receiving the same knowledge twice *)

Lemma py_index_same_length {A B : Type} (l : list A) (l' : list B) (i : Z) :
  length l = length l' -> py_index l i = py_index l' i.
Proof. intros E. unfold py_index. now rewrite E. Qed.

Lemma map_le_known_at (m m' : Grid) (x y : Z) :
  map_le m m' -> known_at m x y -> known_at m' x y.
Proof.
intros Hle (c & Hg & Hc).
apply cell_get_shape in Hg as (kr & kc & Hkr & (row & Hrow & Hkc) & Hcell).
unfold cell_nat in Hcell. rewrite Hrow in Hcell.
destruct (Forall2_nth_error _ Hle Hrow) as (row' & Hrow' & Hrl).
destruct (Forall2_nth_error _ Hrl Hcell) as (c' & Hc' & Hcl).
exists c'. split; [|now apply Hcl].
unfold cell_get, py_get.
rewrite <- (py_index_same_length _ _ x (Forall2_length Hle)), Hkr, Hrow'.
cbn [bind].
rewrite <- (py_index_same_length _ _ y (Forall2_length Hrl)), Hkc, Hc'.
reflexivity.
Qed.

Lemma receive_item_known (st st' : Robot.t * bool) (item : Pos * ascii) :
  Robot.receive_item st item = Return st' ->
  snd item <> UNKNOWN ->
  known_at (Robot.local_map (fst st')) (fst (fst item)) (snd (fst item)).
Proof.
destruct st as [r updated], item as [[x y] symbol].
unfold Robot.receive_item. cbn [fst snd].
destruct (cell_get _ x y) as [c| |] eqn:Hg; cbn [bind]; try discriminate.
destruct (Ascii.eqb_spec c UNKNOWN) as [->|Hne].
- destruct (cell_set _ x y symbol) as [m'| |] eqn:Hs; cbn [bind];
    try discriminate.
  intros [= <-] Hsym. exists symbol. split; [|exact Hsym].
  destruct r; cbn. eapply cell_set_get; eauto.
- intros [= <-] _. exists c. split; auto.
Qed.

Lemma receive_pass_known : forall shared st st',
  Robot.for_each Robot.receive_item shared st = Return st' ->
  informative shared ->
  map_le (Robot.local_map (fst st)) (Robot.local_map (fst st')) /\
  forall item, In item shared ->
               known_at (Robot.local_map (fst st'))
                        (fst (fst item)) (snd (fst item)).
Proof.
induction shared as [|it shared IH]; intros st st' Hf Hinf;
  cbn [Robot.for_each] in Hf.
- inversion Hf; subst. split; [apply map_le_refl|intros item []].
- destruct (Robot.receive_item st it) as [st1| |] eqn:Hi; cbn [bind] in Hf;
    try discriminate.
  inversion Hinf as [|? ? Hit Hrest]; subst.
  destruct (IH _ _ Hf Hrest) as [Hle Hall].
  pose proof (receive_item_map_le _ _ Hi) as Hle1.
  split; [eapply map_le_trans; eauto|].
  intros item [<-|Hin]; [|now apply Hall].
  eapply map_le_known_at; [exact Hle|].
  eapply receive_item_known; eauto.
Qed.

Lemma receive_pass_noop : forall shared r updated,
  (forall item, In item shared ->
                known_at (Robot.local_map r)
                         (fst (fst item)) (snd (fst item))) ->
  Robot.for_each Robot.receive_item shared (r, updated)
  = Return (r, updated).
Proof.
induction shared as [|[[x y] symbol] shared IH]; intros r updated Hk;
  cbn [Robot.for_each]; [reflexivity|].
destruct (Hk ((x, y), symbol) (or_introl eq_refl)) as (c & Hg & Hc).
cbn [fst snd] in Hg. unfold Robot.receive_item at 1. rewrite Hg.
cbn [bind]. destruct (Ascii.eqb_spec c UNKNOWN) as [->|_]; [congruence|].
cbn [bind]. apply IH. intros item Hin. apply Hk. now right.
Qed.

(** X13: [receive_knowledge] is idempotent on data without ['?'] symbols:
    receiving the same data again changes nothing and does not replan,
    because every cell the data names is known after the first call. *)
Theorem receive_knowledge_idempotent (r r1 : Robot.t)
        (shared_data : list (Pos * ascii)) :
  informative shared_data ->
  Robot.receive_knowledge r shared_data = Return r1 ->
  Robot.receive_knowledge r1 shared_data = Return r1.
Proof.
intros Hinf Hr. unfold Robot.receive_knowledge in Hr.
destruct (Robot.for_each Robot.receive_item shared_data (r, false))
  as [[r0 updated]| |] eqn:Hf; cbn [bind] in Hr; try discriminate.
destruct (@receive_pass_known _ _ _ Hf Hinf) as [_ Hall]. cbn [fst] in Hall.
assert (Hmap : Robot.local_map r1 = Robot.local_map r0).
{ destruct updated; [|now inversion Hr].
  rewrite (plan_path_frame _ Hr). now destruct r0. }
unfold Robot.receive_knowledge.
rewrite receive_pass_noop; [reflexivity|]. now rewrite Hmap.
Qed.

Lemma receive_knowledge_idempotent_witness :
  exists r1,
    Robot.receive_knowledge sample_robot [((0, 1)%Z, "1"%char)] = Return r1 /\
    Robot.receive_knowledge r1 [((0, 1)%Z, "1"%char)] = Return r1.
Proof.
eexists. split; [vm_compute; reflexivity|].
apply (@receive_knowledge_idempotent sample_robot).
- repeat constructor. discriminate.
- vm_compute. reflexivity.
Defined.

(* ================================================================== *)
(** ** Robots: what is shared *)

Lemma dict_get_set {V : Type} (d : list (Pos * V)) (k k' : Pos) (v : V) :
  dict_get (dict_set d k v) k'
  = if pos_eqb k k' then Some v else dict_get d k'.
Proof.
induction d as [|[k0 v0] d IH]; cbn [dict_set dict_get].
- reflexivity.
- destruct (pos_eqb k0 k) eqn:E0; cbn [dict_get].
  + apply pos_eqb_eq in E0. subst k0.
    destruct (pos_eqb k k'); reflexivity.
  + destruct (pos_eqb k0 k') eqn:E1.
    * apply pos_eqb_eq in E1. subst k0.
      destruct (pos_eqb k k') eqn:E2; [|reflexivity].
      apply pos_eqb_eq in E2. subst k'. rewrite pos_eqb_refl in E0.
      discriminate.
    * exact IH.
Qed.

Lemma dict_set_keys {V : Type} (d : list (Pos * V)) (k : Pos) (v : V) :
  NoDup (map fst d) ->
  NoDup (map fst (dict_set d k v)) /\
  forall k', In k' (map fst (dict_set d k v)) -> k' = k \/ In k' (map fst d).
Proof.
induction d as [|[k0 v0] d IH]; intros Hnd; cbn [dict_set map fst].
- split; [repeat constructor; intros []|]. intros k' [<-|[]]. now left.
- destruct (pos_eqb k0 k) eqn:E0; cbn [map fst].
  + split; [exact Hnd|]. intros k' Hin. now right.
  + inversion Hnd as [|? ? Hnot Hrest]; subst.
    destruct (IH Hrest) as [Hnd' Hsub]. split.
    * constructor; [|exact Hnd']. intros Hin.
      destruct (Hsub _ Hin) as [->|Hin']; [|contradiction].
      rewrite pos_eqb_refl in E0. discriminate.
    * intros k' [<-|Hin]; [right; now left|].
      destruct (Hsub _ Hin); [now left|right; now right].
Qed.

Lemma find_snoc {A : Type} (p : A -> bool) (l : list A) (a : A) :
  find p (l ++ [a])
  = match find p l with
    | Some x => Some x
    | None => if p a then Some a else None
    end.
Proof.
induction l as [|b l IH]; cbn [app find]; [reflexivity|].
destruct (p b); auto.
Qed.

Lemma share_fold (record : list Robot.Fact) : forall d k,
  dict_get (fold_left (fun d (fact : Robot.Fact) =>
                         let '(symbol, x, y) := fact in
                         dict_set d (x, y) symbol) record d) k
  = match recorded_last record k with
    | Some symbol => Some symbol
    | None => dict_get d k
    end.
Proof.
induction record as [|[[s x] y] record IH]; intros d k; cbn [fold_left].
- reflexivity.
- rewrite IH. unfold recorded_last. cbn [rev]. rewrite find_snoc.
  destruct (find (fact_at k) (rev record)) as [[[s' x'] y']|];
    [reflexivity|].
  rewrite dict_get_set. unfold fact_at. destruct (pos_eqb (x, y) k);
    reflexivity.
Qed.

Lemma share_keys (record : list Robot.Fact) : forall d,
  NoDup (map fst d) ->
  NoDup (map fst (fold_left (fun d (fact : Robot.Fact) =>
                               let '(symbol, x, y) := fact in
                               dict_set d (x, y) symbol) record d)).
Proof.
induction record as [|[[s x] y] record IH]; intros d Hnd; cbn [fold_left].
- exact Hnd.
- apply IH. now apply dict_set_keys.
Qed.

(** X14: [share_knowledge] returns one entry per recorded position, and
    the symbol it gives for a position is that of the fact recorded last
    there (an earlier fact for the same cell is overridden). *)
Theorem share_knowledge_gives_latest_facts (r : Robot.t) :
  NoDup (map fst (Robot.share_knowledge r)) /\
  forall k, dict_get (Robot.share_knowledge r) k
            = recorded_last (Robot.record r) k.
Proof.
unfold Robot.share_knowledge. split.
- apply share_keys. constructor.
- intros k. rewrite share_fold.
  destruct (recorded_last (Robot.record r) k); reflexivity.
Qed.

(* ================================================================== *)
(** ** The coordinator keeps robots apart *)

Lemma same_place_refl (r : Robot.t) : same_place r r.
Proof. repeat split. Qed.

Lemma same_place_trans (a b c : Robot.t) :
  same_place a b -> same_place b c -> same_place a c.
Proof.
intros (A1 & A2 & A3 & A4) (B1 & B2 & B3 & B4). repeat split; congruence.
Qed.

Lemma plan_path_same_place (r r' : Robot.t) :
  Robot.plan_path r = Return r' -> same_place r r'.
Proof.
intros Hp. rewrite (plan_path_frame _ Hp). destruct r. repeat split.
Qed.

Lemma sense_same_place (r r' : Robot.t) :
  Robot.sense_environment r = Return r' -> same_place r r'.
Proof.
intros Hs. rewrite (@sense_environment_frame _ _ Hs). destruct r.
repeat split.
Qed.

Lemma record_wait_same_place (r r' : Robot.t) :
  Coordinator.record_wait r = Return r' -> same_place r r'.
Proof.
unfold Coordinator.record_wait.
destruct (2 <=? _)%Z.
- unfold Robot.replan.
  destruct (Robot.plan_path _) as [r1| |] eqn:Hp; cbn [bind];
    try discriminate.
  intros [= <-]. apply plan_path_same_place in Hp.
  destruct Hp as (P1 & P2 & P3 & P4). destruct r, r1. cbn in *.
  unfold same_place. cbn. repeat split; congruence.
- intros [= <-]. destruct r. repeat split.
Qed.

Lemma receive_item_same_place (st st' : Robot.t * bool)
      (item : Pos * ascii) :
  Robot.receive_item st item = Return st' -> same_place (fst st) (fst st').
Proof.
destruct st as [r updated], item as [[x y] symbol].
unfold Robot.receive_item.
destruct (cell_get _ x y) as [c| |]; cbn [bind]; try discriminate.
destruct (Ascii.eqb c UNKNOWN).
- destruct (cell_set _ x y symbol) as [m| |]; cbn [bind]; try discriminate.
  intros [= <-]. cbn [fst]. destruct r. repeat split.
- intros [= <-]. apply same_place_refl.
Qed.

Lemma receive_knowledge_same_place (r r' : Robot.t) shared :
  Robot.receive_knowledge r shared = Return r' -> same_place r r'.
Proof.
unfold Robot.receive_knowledge.
destruct (Robot.for_each Robot.receive_item shared (r, false))
  as [[r1 updated]| |] eqn:Hf; cbn [bind]; try discriminate.
assert (H1 : same_place r r1).
{ refine (proj2 (@for_each_rel _ _ _ (fun _ => True)
                   (fun a b => same_place (fst a) (fst b)) _ _ _ _ _ _ I Hf)).
  - intros s. apply same_place_refl.
  - intros a b c. apply same_place_trans.
  - intros s a s' _ Hc. split; [exact I|].
    eapply receive_item_same_place; eauto. }
destruct updated.
- intros Hp. eapply same_place_trans; [exact H1|].
  now apply plan_path_same_place.
- intros [= <-]. exact H1.
Qed.

Lemma refresh_markers_same_place reg (r r' : Robot.t) :
  Coordinator.refresh_markers reg r = Return r' -> same_place r r'.
Proof.
unfold Coordinator.refresh_markers.
destruct (Robot.for_each Coordinator.clear_marker _ _) as [m1| |];
  cbn [bind]; try discriminate.
destruct (Robot.for_each _ reg m1) as [m2| |]; cbn [bind];
  try discriminate.
intros [= <-]. destruct r. repeat split.
Qed.

(** Where [move] leaves the robot: on the head of its path. *)
Lemma move_place (r r' : Robot.t) reg reg' ev next rest :
  Robot.path r = next :: rest ->
  Robot.move r reg = Return (r', reg', ev) ->
  Robot.id r' = Robot.id r /\ Robot.position r' = next /\
  Robot.goal_row r' = Robot.goal_row r /\
  Robot.goal_col r' = Robot.goal_col r.
Proof.
unfold Robot.move. intros ->.
destruct (cell_set _ _ _ FREE) as [m| |]; cbn [bind]; try discriminate.
destruct (Robot.get_symbol_at _ (Robot.full_map _) _ _) as [tv| |];
  cbn [bind]; try discriminate.
destruct (Robot.get_symbol_at _ (Robot.local_map _) _ _) as [lv| |];
  cbn [bind]; try discriminate.
destruct (Robot.sense_environment _) as [r3| |] eqn:Hs; cbn [bind];
  try discriminate.
intros [= <- _ _]. apply sense_same_place in Hs.
destruct Hs as (S1 & S2 & S3 & S4). rewrite S1, S2, S3, S4.
destruct r. repeat split.
Qed.

Lemma distinct_ids (rs : list Robot.t) (i j : nat) (ri rj : Robot.t) :
  NoDup (map Robot.id rs) -> i <> j ->
  nth_error rs i = Some ri -> nth_error rs j = Some rj ->
  Robot.id ri <> Robot.id rj.
Proof.
intros Hnd Hij Hi Hj E.
rewrite NoDup_nth_error in Hnd. apply Hij, Hnd.
- rewrite length_map. apply nth_error_Some. congruence.
- rewrite !nth_error_map, Hi, Hj. cbn. now rewrite E.
Qed.

Lemma list_set_ids (rs : list Robot.t) (i : nat) (r r' : Robot.t) :
  nth_error rs i = Some r -> Robot.id r' = Robot.id r ->
  map Robot.id (list_set rs i r') = map Robot.id rs.
Proof.
revert i. induction rs as [|a rs IH]; intros [|i] Hi E; cbn in *;
  try discriminate.
- inversion Hi; subst. now rewrite E.
- f_equal. now apply IH.
Qed.

Lemma separated_put (rs : list Robot.t) (i : nat) (r' : Robot.t) :
  separated rs -> i < length rs ->
  (forall j rj, j <> i -> nth_error rs j = Some rj ->
                Robot.position r' = Robot.position rj ->
                on_goal r' \/ on_goal rj) ->
  separated (list_set rs i r').
Proof.
intros Hsep Hi Hnew a b ra rb Hab Ha Hb Hpos.
destruct (Nat.eq_dec a i) as [->|Hai].
- rewrite nth_error_list_set_eq in Ha by exact Hi. inversion Ha; subst ra.
  rewrite nth_error_list_set_neq in Hb by auto.
  apply (Hnew b rb); auto.
- rewrite nth_error_list_set_neq in Ha by auto.
  destruct (Nat.eq_dec b i) as [->|Hbi].
  + rewrite nth_error_list_set_eq in Hb by exact Hi. inversion Hb; subst rb.
    destruct (Hnew a ra Hai Ha (eq_sym Hpos)); auto.
  + rewrite nth_error_list_set_neq in Hb by auto.
    apply (Hsep a b); auto.
Qed.

Lemma separated_stay (rs : list Robot.t) (i : nat) (r r' : Robot.t) :
  separated rs -> nth_error rs i = Some r -> same_place r r' ->
  separated (list_set rs i r').
Proof.
intros Hsep Hi (S1 & S2 & S3 & S4).
apply separated_put; auto.
- apply nth_error_Some. congruence.
- intros j rj Hj Hrj Hpos. rewrite S2 in Hpos.
  destruct (Hsep i j r rj (not_eq_sym Hj) Hi Hrj Hpos) as [Hg|Hg]; auto.
  left. unfold on_goal in *. congruence.
Qed.

Lemma separated_move (rs : list Robot.t) (i : nat) (r r' : Robot.t) :
  separated rs -> NoDup (map Robot.id rs) ->
  nth_error rs i = Some r ->
  (on_goal r' \/
   forall other, In other rs -> Robot.id other <> Robot.id r ->
                 Robot.position other <> Robot.position r') ->
  separated (list_set rs i r').
Proof.
intros Hsep Hnd Hi Hfree.
apply separated_put; auto.
- apply nth_error_Some. congruence.
- intros j rj Hj Hrj Hpos. destruct Hfree as [Hg|Hfree]; [now left|].
  exfalso. apply (Hfree rj); auto.
  + eapply nth_error_In; eauto.
  + eapply distinct_ids; eauto.
Qed.

Lemma put_stay (st : Coordinator.Step) (i : nat) (robot r' : Robot.t) :
  NoDup (map Robot.id (Coordinator.robots st)) ->
  separated (Coordinator.robots st) ->
  nth_error (Coordinator.robots st) i = Some robot ->
  same_place robot r' ->
  separated (list_set (Coordinator.robots st) i r') /\
  map Robot.id (list_set (Coordinator.robots st) i r')
  = map Robot.id (Coordinator.robots st) /\
  (forall j, j <> i ->
             nth_error (list_set (Coordinator.robots st) i r') j
             = nth_error (Coordinator.robots st) j).
Proof.
intros Hnd Hsep Hi Hsp. split; [eapply separated_stay; eauto|].
split; [eapply list_set_ids; eauto; apply Hsp|].
intros j Hj. apply nth_error_list_set_neq. auto.
Qed.

(** One robot's turn in phase 2 of a time step. *)
Lemma resolve_one_safe next_moves (st st' : Coordinator.Step) (i : nat) :
  Coordinator.resolve_one next_moves st i = Return st' ->
  NoDup (map Robot.id (Coordinator.robots st)) ->
  separated (Coordinator.robots st) ->
  (forall r, nth_error (Coordinator.robots st) i = Some r ->
             move_is_fresh r) ->
  separated (Coordinator.robots st') /\
  map Robot.id (Coordinator.robots st')
  = map Robot.id (Coordinator.robots st) /\
  (forall j, j <> i ->
             nth_error (Coordinator.robots st') j
             = nth_error (Coordinator.robots st) j).
Proof.
intros Hr Hnd Hsep Hfresh. unfold Coordinator.resolve_one in Hr.
destruct (nth_error (Coordinator.robots st) i) as [robot|] eqn:Hi;
  [|discriminate].
specialize (Hfresh robot eq_refl).
destruct (Coordinator.at_goal robot); [inversion Hr; subst; auto|].
destruct (Robot.next_move robot) as [move_|] eqn:Hnm;
  [|inversion Hr; subst; auto].
destruct ((1 <? length _) && negb _).
{ destruct (Coordinator.record_wait robot) as [r'| |] eqn:Hw;
    cbn [bind] in Hr; try discriminate.
  inversion Hr; subst st'. cbn [Coordinator.robots].
  eapply put_stay; eauto. now apply record_wait_same_place. }
destruct (existsb _ (Coordinator.robots st)) eqn:Hocc.
- destruct (pos_eqb move_ (Robot.goal_row robot, Robot.goal_col robot))
    eqn:Hent; cbn [negb andb] in Hr.
  + (* entering the occupied goal *)
    destruct (Robot.move robot (Coordinator.registry st))
      as [[[r1 reg1] evs]| |] eqn:Hm; cbn [bind] in Hr; try discriminate.
    destruct (Robot.plan_path _) as [r2| |] eqn:Hp; cbn [bind] in Hr;
      try discriminate.
    inversion Hr; subst st'. cbn [Coordinator.robots].
    unfold move_is_fresh, Coordinator.head_move in Hfresh.
    rewrite Hnm in Hfresh.
    destruct (Robot.path robot) as [|next rest] eqn:Hpath;
      [discriminate|]. inversion Hfresh; subst next.
    destruct (move_place _ _ Hpath Hm) as (M1 & M2 & M3 & M4).
    apply plan_path_same_place in Hp. destruct Hp as (P1 & P2 & P3 & P4).
    assert (Eid : Robot.id r2 = Robot.id robot)
      by (rewrite P1; destruct r1; exact M1).
    split; [|split].
    * eapply separated_move; eauto. left. unfold on_goal.
      rewrite P2, P3, P4. apply pos_eqb_eq in Hent.
      destruct r1; cbn in *. congruence.
    * eapply list_set_ids; eauto.
    * intros j Hj. apply nth_error_list_set_neq. auto.
  + (* the tile is occupied: wait *)
    destruct (Coordinator.record_wait robot) as [r'| |] eqn:Hw;
      cbn [bind] in Hr; try discriminate.
    inversion Hr; subst st'. cbn [Coordinator.robots].
    eapply put_stay; eauto. now apply record_wait_same_place.
- cbn [andb] in Hr.
  destruct (Robot.move robot (Coordinator.registry st))
    as [[[r1 reg1] evs]| |] eqn:Hm; cbn [bind] in Hr; try discriminate.
  destruct (Robot.plan_path _) as [r2| |] eqn:Hp; cbn [bind] in Hr;
    try discriminate.
  inversion Hr; subst st'. cbn [Coordinator.robots].
  unfold move_is_fresh, Coordinator.head_move in Hfresh.
  rewrite Hnm in Hfresh.
  destruct (Robot.path robot) as [|next rest] eqn:Hpath;
    [discriminate|]. inversion Hfresh; subst next.
  destruct (move_place _ _ Hpath Hm) as (M1 & M2 & M3 & M4).
  apply plan_path_same_place in Hp. destruct Hp as (P1 & P2 & P3 & P4).
  assert (Eid : Robot.id r2 = Robot.id robot)
    by (rewrite P1; destruct r1; exact M1).
  assert (Epos : Robot.position r2 = move_)
    by (rewrite P2; destruct r1; exact M2).
  split; [|split].
  * eapply separated_move; eauto. right. intros other Hin Hid Hpos.
    rewrite Epos in Hpos.
    assert (Hex : existsb (fun other0 =>
                     negb (Robot.id other0 =? Robot.id robot)%Z
                     && pos_eqb (Robot.position other0) move_)
                   (Coordinator.robots st) = true).
    { apply existsb_exists. exists other. split; [exact Hin|].
      apply andb_true_iff. split.
      - apply negb_true_iff. now apply Z.eqb_neq.
      - now apply pos_eqb_eq. }
    congruence.
  * eapply list_set_ids; eauto.
  * intros j Hj. apply nth_error_list_set_neq. auto.
Qed.

Lemma resolve_all_safe next_moves : forall idxs (st st' : Coordinator.Step),
  Robot.for_each (Coordinator.resolve_one next_moves) idxs st = Return st' ->
  NoDup idxs ->
  NoDup (map Robot.id (Coordinator.robots st)) ->
  separated (Coordinator.robots st) ->
  (forall i r, In i idxs -> nth_error (Coordinator.robots st) i = Some r ->
               move_is_fresh r) ->
  separated (Coordinator.robots st') /\
  map Robot.id (Coordinator.robots st')
  = map Robot.id (Coordinator.robots st).
Proof.
induction idxs as [|i idxs IH]; intros st st' Hf Hidx Hnd Hsep Hfresh;
  cbn [Robot.for_each] in Hf.
- inversion Hf; subst. auto.
- destruct (Coordinator.resolve_one next_moves st i) as [st1| |] eqn:H1;
    cbn [bind] in Hf; try discriminate.
  inversion Hidx as [|? ? Hni Hrest]; subst.
  destruct (resolve_one_safe _ _ _ H1 Hnd Hsep) as (S1 & I1 & O1).
  { intros r Hr. apply (Hfresh i r); auto. now left. }
  destruct (IH st1 st' Hf Hrest) as (S2 & I2); auto.
  + now rewrite I1.
  + intros j r Hj Hr. apply (Hfresh j r); [now right|].
    rewrite <- O1; auto. intros ->. contradiction.
  + split; [exact S2|congruence].
Qed.

Lemma map_outcome_rel {A B : Type} (fn : A -> outcome B)
      (R : A -> B -> Prop) :
  (forall a b, fn a = Return b -> R a b) ->
  forall l l', Coordinator.map_outcome fn l = Return l' -> Forall2 R l l'.
Proof.
intros Hfn. induction l as [|a l IH]; intros l' Hm;
  cbn [Coordinator.map_outcome] in Hm.
- inversion Hm. constructor.
- destruct (fn a) as [b| |] eqn:Ha; cbn [bind] in Hm; try discriminate.
  destruct (Coordinator.map_outcome fn l) as [bs| |]; cbn [bind] in Hm;
    try discriminate.
  inversion Hm; subst. constructor; auto.
Qed.

Lemma same_place_all (rs rs' : list Robot.t) :
  Forall2 same_place rs rs' ->
  map Robot.id rs' = map Robot.id rs /\ (separated rs -> separated rs').
Proof.
intros Hall. split.
- induction Hall as [|r r' rs rs' (E & _) _ IH]; cbn; [reflexivity|].
  now rewrite E, IH.
- intros Hsep i j ri' rj' Hij Hi Hj Hpos.
  assert (Hback : forall k r', nth_error rs' k = Some r' ->
                    exists r, nth_error rs k = Some r /\ same_place r r').
  { clear -Hall. induction Hall as [|a a' l l' Ha _ IH]; intros [|k] r' Hk;
      cbn in *; try discriminate.
    - inversion Hk; subst. eauto.
    - now apply IH. }
  destruct (Hback i ri' Hi) as (ri & Hri & (_ & Pi & Gi1 & Gi2)).
  destruct (Hback j rj' Hj) as (rj & Hrj & (_ & Pj & Gj1 & Gj2)).
  destruct (Hsep i j ri rj Hij Hri Hrj) as [Hg|Hg]; [congruence| |];
    [left|right]; unfold on_goal in *; congruence.
Qed.

Lemma determine_next_moves_robots (rs : list Robot.t) :
  fst (Coordinator.determine_next_moves rs)
  = map (fun r => Robot.with_next_move r (Coordinator.head_move r)) rs.
Proof.
unfold Coordinator.determine_next_moves.
assert (Hgen : forall l acc nm,
  fst (fold_left (fun acc r =>
                    let '(rs0, next_moves) := acc in
                    let r0 := Robot.with_next_move r
                                (Coordinator.head_move r) in
                    (rs0 ++ [r0],
                     reg_set next_moves (Robot.id r0) (Robot.next_move r0)))
                 l (acc, nm))
  = acc ++ map (fun r => Robot.with_next_move r (Coordinator.head_move r))
               l).
{ induction l as [|a l IH]; intros acc nm; cbn [fold_left map fst].
  - now rewrite app_nil_r.
  - rewrite IH, <- app_assoc. reflexivity. }
apply (Hgen rs [] []).
Qed.

Lemma next_moves_same_place (rs : list Robot.t) :
  Forall2 same_place rs
          (map (fun r => Robot.with_next_move r (Coordinator.head_move r))
               rs).
Proof.
induction rs as [|r rs IH]; cbn [map]; constructor; auto.
destruct r. repeat split.
Qed.

Lemma time_step_safe (rs : list Robot.t)
      (reg : Robot.Registry) (st : Coordinator.Step)
      (status : Coordinator.Status) :
  Coordinator.time_step rs reg = Return (st, status) ->
  NoDup (map Robot.id rs) -> separated rs ->
  separated (Coordinator.robots st) /\
  map Robot.id (Coordinator.robots st) = map Robot.id rs.
Proof.
intros Ht Hnd Hsep. unfold Coordinator.time_step in Ht.
pose proof (determine_next_moves_robots rs) as Hd.
destruct (Coordinator.determine_next_moves rs) as [rs1 nm].
cbn [fst] in Hd.
destruct (same_place_all (next_moves_same_place rs)) as [I1 S1].
rewrite <- Hd in I1, S1. specialize (S1 Hsep).
destruct (Robot.for_each _ _ _) as [st1| |] eqn:H2; cbn [bind] in Ht;
  try discriminate.
destruct (@resolve_all_safe nm _ _ _ H2) as [S2 I2].
{ apply seq_NoDup. }
{ cbn [Coordinator.robots]. now rewrite I1. }
{ exact S1. }
{ cbn [Coordinator.robots]. intros i r _ Hr. rewrite Hd in Hr.
  rewrite nth_error_map in Hr.
  destruct (nth_error rs i) as [r0|]; [|discriminate].
  inversion Hr. destruct r0. reflexivity. }
cbn [Coordinator.robots] in I2.
destruct (Coordinator.broadcast_knowledge _) as [rs2| |] eqn:H3;
  cbn [bind] in Ht; try discriminate.
destruct (Coordinator.update_all_robot_positions _ rs2) as [rs3| |] eqn:H4;
  cbn [bind] in Ht; try discriminate.
unfold Coordinator.broadcast_knowledge in H3.
apply (map_outcome_rel _ same_place) in H3;
  [|intros a b; apply receive_knowledge_same_place].
unfold Coordinator.update_all_robot_positions in H4.
apply (map_outcome_rel _ same_place) in H4;
  [|intros a b; apply refresh_markers_same_place].
destruct (same_place_all H3) as [I3 S3].
destruct (same_place_all H4) as [I4 S4].
assert (Hfinal : separated rs3 /\ map Robot.id rs3 = map Robot.id rs)
  by (split; [auto|congruence]).
destruct rs3 as [|r3 rs3]; [discriminate|].
destruct (forallb Coordinator.at_goal _);
  [inversion Ht; subst; exact Hfinal|].
destruct (negb _ && _); inversion Ht; subst; exact Hfinal.
Qed.

(** X15: a time step of the coordinator keeps robots apart.  If the
    robots have pairwise distinct ids and no two of them share a cell other
    than the goal of one of them, the same holds after the step (moves,
    waits, replanning, broadcast and marker refresh included), and the
    robots keep their ids and order. *)
Theorem time_step_keeps_robots_apart (rs : list Robot.t)
        (reg : Robot.Registry) (st : Coordinator.Step)
        (status : Coordinator.Status) :
  Coordinator.time_step rs reg = Return (st, status) ->
  NoDup (map Robot.id rs) -> separated rs ->
  separated (Coordinator.robots st) /\
  map Robot.id (Coordinator.robots st) = map Robot.id rs.
Proof.
intros Ht Hnd Hsep. exact (@time_step_safe _ _ _ _ Ht Hnd Hsep).
Qed.

Lemma separated_of_distinct (rs : list Robot.t) :
  NoDup (map Robot.position rs) -> separated rs.
Proof.
intros Hnd i j ri rj Hij Hi Hj Hpos. exfalso.
rewrite NoDup_nth_error in Hnd. apply Hij, Hnd.
- rewrite length_map. apply nth_error_Some. congruence.
- rewrite !nth_error_map, Hi, Hj. cbn. now rewrite Hpos.
Qed.

Lemma time_step_keeps_robots_apart_witness :
  exists st status,
    Coordinator.time_step corridor_team [] = Return (st, status) /\
    separated (Coordinator.robots st).
Proof.
eexists. eexists. split; [vm_compute; reflexivity|].
refine (proj1 (@time_step_keeps_robots_apart corridor_team [] _
                 Coordinator.Running _ _ _)).
- vm_compute. reflexivity.
- cbn. repeat constructor; cbn; intuition discriminate.
- apply separated_of_distinct. cbn.
  repeat constructor; cbn; intuition discriminate.
Defined.

(* ================================================================== *)
(** ** The whole simulation keeps robots apart *)

Lemma same_team_refl (r : Robot.t) : same_team r r.
Proof. split; reflexivity. Qed.

Lemma same_team_trans (a b c : Robot.t) :
  same_team a b -> same_team b c -> same_team a c.
Proof. intros [A1 A2] [B1 B2]. split; congruence. Qed.

Lemma same_place_team (r r' : Robot.t) : same_place r r' -> same_team r r'.
Proof.
intros (S1 & _ & S3 & S4). split; [exact S1|]. unfold goal_of. congruence.
Qed.

Lemma move_team (r r' : Robot.t) reg reg' ev :
  Robot.move r reg = Return (r', reg', ev) -> same_team r r'.
Proof.
intros Hm. destruct (Robot.path r) as [|next rest] eqn:Hp.
- unfold Robot.move in Hm. rewrite Hp in Hm. inversion Hm; subst.
  apply same_team_refl.
- destruct (move_place _ _ Hp Hm) as (M1 & _ & M3 & M4).
  split; [exact M1|]. unfold goal_of. congruence.
Qed.

Lemma resolve_one_team next_moves (st st' : Coordinator.Step) (i : nat) :
  Coordinator.resolve_one next_moves st i = Return st' ->
  Forall2 same_team (Coordinator.robots st) (Coordinator.robots st').
Proof.
intros Hr. unfold Coordinator.resolve_one in Hr.
destruct (nth_error (Coordinator.robots st) i) as [robot|] eqn:Hi;
  [|discriminate].
assert (Hrefl : Forall2 same_team (Coordinator.robots st)
                        (Coordinator.robots st))
  by (apply Forall2_refl; apply same_team_refl).
assert (Hput : forall r', same_team robot r' ->
          Forall2 same_team (Coordinator.robots st)
                  (list_set (Coordinator.robots st) i r')).
{ intros r' Ht. eapply Forall2_list_set; eauto. apply same_team_refl. }
assert (Hwait : forall ev st0,
          (r' <- Coordinator.record_wait robot ;;
           Return (Coordinator.mkStep
                     (list_set (Coordinator.robots st) i r')
                     (Coordinator.registry st)
                     (Coordinator.any_robot_moved st) ev)) = Return st0 ->
          Forall2 same_team (Coordinator.robots st)
                  (Coordinator.robots st0)).
{ intros ev st0 Hw.
  destruct (Coordinator.record_wait robot) as [r'| |] eqn:Hrw;
    cbn [bind] in Hw; try discriminate.
  inversion Hw; subst st0. cbn [Coordinator.robots]. apply Hput.
  now apply same_place_team, record_wait_same_place. }
destruct (Coordinator.at_goal robot); [inversion Hr; subst; exact Hrefl|].
destruct (Robot.next_move robot) as [move_|];
  [|inversion Hr; subst; exact Hrefl].
destruct ((1 <? length _) && negb _); [eapply Hwait; eauto|].
destruct (existsb _ (Coordinator.robots st) && negb _);
  [eapply Hwait; eauto|].
destruct (Robot.move robot (Coordinator.registry st))
  as [[[r1 reg1] evs]| |] eqn:Hm; cbn [bind] in Hr; try discriminate.
destruct (Robot.plan_path _) as [r2| |] eqn:Hp; cbn [bind] in Hr;
  try discriminate.
inversion Hr; subst st'. cbn [Coordinator.robots]. apply Hput.
apply move_team in Hm. apply plan_path_same_place, same_place_team in Hp.
eapply same_team_trans; [exact Hm|].
eapply same_team_trans; [|exact Hp]. destruct r1. split; reflexivity.
Qed.

Lemma team_trans (l1 l2 l3 : list Robot.t) :
  Forall2 same_team l1 l2 -> Forall2 same_team l2 l3 ->
  Forall2 same_team l1 l3.
Proof. apply Forall2_trans. exact same_team_trans. Qed.

Lemma place_to_team (l1 l2 : list Robot.t) :
  Forall2 same_place l1 l2 -> Forall2 same_team l1 l2.
Proof. apply Forall2_impl. exact same_place_team. Qed.

Lemma time_step_team (rs : list Robot.t) (reg : Robot.Registry)
      (st : Coordinator.Step) (status : Coordinator.Status) :
  Coordinator.time_step rs reg = Return (st, status) ->
  Forall2 same_team rs (Coordinator.robots st).
Proof.
intros Ht. unfold Coordinator.time_step in Ht.
pose proof (determine_next_moves_robots rs) as Hd.
destruct (Coordinator.determine_next_moves rs) as [rs1 nm].
cbn [fst] in Hd.
pose proof (place_to_team (next_moves_same_place rs)) as T1.
rewrite <- Hd in T1.
destruct (Robot.for_each _ _ _) as [st1| |] eqn:H2; cbn [bind] in Ht;
  try discriminate.
assert (T2 : Forall2 same_team rs1 (Coordinator.robots st1)).
{ refine (proj2 (@for_each_rel _ _ _ (fun _ => True)
                   (fun a b => Forall2 same_team (Coordinator.robots a)
                                       (Coordinator.robots b))
                   _ _ _ _ _ _ I H2)).
  - intros s. apply Forall2_refl. apply same_team_refl.
  - intros a b c. apply team_trans.
  - intros s a s' _ Hc. split; [exact I|].
    eapply resolve_one_team; eauto. }
destruct (Coordinator.broadcast_knowledge _) as [rs2| |] eqn:H3;
  cbn [bind] in Ht; try discriminate.
destruct (Coordinator.update_all_robot_positions _ rs2) as [rs3| |] eqn:H4;
  cbn [bind] in Ht; try discriminate.
unfold Coordinator.broadcast_knowledge in H3.
apply (map_outcome_rel _ same_place) in H3;
  [|intros a b; apply receive_knowledge_same_place].
unfold Coordinator.update_all_robot_positions in H4.
apply (map_outcome_rel _ same_place) in H4;
  [|intros a b; apply refresh_markers_same_place].
assert (Hfinal : Forall2 same_team rs rs3).
{ eapply team_trans; [exact T1|]. eapply team_trans; [exact T2|].
  eapply team_trans; apply place_to_team; eauto. }
destruct rs3 as [|r3 rs3]; [discriminate|].
destruct (forallb Coordinator.at_goal _);
  [inversion Ht; subst; exact Hfinal|].
destruct (negb _ && _); inversion Ht; subst; exact Hfinal.
Qed.

Lemma team_ids (l1 l2 : list Robot.t) :
  Forall2 same_team l1 l2 -> map Robot.id l2 = map Robot.id l1.
Proof.
induction 1 as [|a b l1 l2 [E _] _ IH]; cbn; [reflexivity|].
now rewrite E, IH.
Qed.

Lemma run_steps_safe : forall n rs reg trace rs' reg' status,
  Coordinator.run_steps n rs reg = Return (trace, rs', reg', status) ->
  NoDup (map Robot.id rs) -> separated rs ->
  separated rs' /\ Forall2 same_team rs rs'.
Proof.
induction n as [|n IH]; intros rs reg trace rs' reg' status Hr Hnd Hsep;
  cbn [Coordinator.run_steps] in Hr.
- inversion Hr; subst. split; [exact Hsep|].
  apply Forall2_refl. apply same_team_refl.
- destruct (Coordinator.time_step rs reg) as [[st status1]| |] eqn:Ht;
    cbn [bind] in Hr; try discriminate.
  destruct (@time_step_safe _ _ _ _ Ht Hnd Hsep) as [S1 I1].
  pose proof (@time_step_team _ _ _ _ Ht) as T1.
  destruct status1; try (inversion Hr; subst; split; assumption).
  destruct (Coordinator.run_steps n _ _) as [[[[trace2 rs2] reg2] status2]| |]
    eqn:Hrest; cbn [bind] in Hr; try discriminate.
  inversion Hr; subst.
  destruct (IH _ _ _ _ _ _ Hrest) as [S2 T2]; auto.
  + now rewrite I1.
  + split; [exact S2|]. eapply team_trans; eauto.
Qed.

Lemma init_place robot_id start_pos grid_dimensions goal_pos full_map
      sensor_radius (r : Robot.t) :
  Robot.init robot_id start_pos grid_dimensions goal_pos full_map
             sensor_radius = Return r ->
  Robot.id r = robot_id /\ Robot.position r = start_pos /\
  goal_of r = goal_pos.
Proof.
unfold Robot.init.
destruct (cell_set _ _ _ GOAL) as [m| |]; cbn [bind]; try discriminate.
intros Hs. apply sense_same_place in Hs. destruct Hs as (S1 & S2 & S3 & S4).
cbn in S1, S2, S3, S4. unfold goal_of. rewrite S1, S2, S3, S4.
now destruct goal_pos.
Qed.

Lemma create_robots_facts grid_size goal_pos full_map :
  forall starts idx rs,
    Coordinator.create_robots idx starts grid_size goal_pos full_map
    = Return rs ->
    map Robot.position rs = starts /\
    Forall (fun r => goal_of r = goal_pos) rs /\
    Forall (fun r => (idx <= Robot.id r)%Z) rs /\
    NoDup (map Robot.id rs).
Proof.
induction starts as [|s starts IH]; intros idx rs Hc;
  cbn [Coordinator.create_robots] in Hc.
- inversion Hc; subst. repeat split; constructor.
- destruct (Robot.init idx s grid_size goal_pos full_map 1) as [r| |]
    eqn:Hi; cbn [bind] in Hc; try discriminate.
  destruct (Coordinator.create_robots (idx + 1) starts grid_size goal_pos
                                      full_map) as [rs0| |] eqn:Hrest;
    cbn [bind] in Hc; try discriminate.
  inversion Hc; subst rs.
  destruct (init_place _ _ _ _ _ _ Hi) as (E1 & E2 & E3).
  destruct (IH _ _ Hrest) as (P & G & L & N).
  cbn [map]. split; [now rewrite E2, P|]. split; [constructor; auto|].
  split.
  + constructor; [lia|]. eapply Forall_impl; [|exact L].
    cbn. intros a Ha. lia.
  + constructor; [|exact N]. intros Hin. apply in_map_iff in Hin
      as (r0 & Er0 & Hr0). rewrite Forall_forall in L.
    specialize (L r0 Hr0). cbn in L. lia.
Qed.

Lemma place_positions (l1 l2 : list Robot.t) :
  Forall2 same_place l1 l2 ->
  map Robot.position l2 = map Robot.position l1.
Proof.
induction 1 as [|a b l1 l2 (_ & E & _) _ IH]; cbn; [reflexivity|].
now rewrite E, IH.
Qed.

Lemma team_goals (goal_pos : Pos) (l1 l2 : list Robot.t) :
  Forall2 same_team l1 l2 ->
  Forall (fun r => goal_of r = goal_pos) l1 ->
  Forall (fun r => goal_of r = goal_pos) l2.
Proof.
induction 1 as [|a b l1 l2 [_ E] _ IH]; intros Hall; [constructor|].
inversion Hall; subst. constructor; [congruence|auto].
Qed.

(** X16: in a run of [run_simulation] from pairwise distinct start
    positions, no two robots end on the same cell unless that cell is the
    goal.  (The property holds after every executed time step; the run
    returns the robots of the last one.) *)
Theorem simulation_keeps_robots_apart (grid_size : Z * Z)
        (robot_starts : list Pos) (goal_pos : Pos) (full_map : Grid)
        (trace : list (list Event)) (rs : list Robot.t)
        (reg : Robot.Registry) (status : Coordinator.Status) :
  Coordinator.run_simulation grid_size robot_starts goal_pos full_map
  = Return (trace, rs, reg, status) ->
  NoDup (firstn 4 robot_starts) ->
  forall i j ri rj,
    i <> j -> nth_error rs i = Some ri -> nth_error rs j = Some rj ->
    Robot.position ri = Robot.position rj ->
    Robot.position ri = goal_pos.
Proof.
intros Hrun Hnd. unfold Coordinator.run_simulation in Hrun.
destruct (Coordinator.create_robots _ _ _ _ _) as [rs0| |] eqn:Hc;
  cbn [bind] in Hrun; try discriminate.
destruct (Coordinator.map_outcome Robot.plan_path rs0) as [rs1| |] eqn:Hp;
  cbn [bind] in Hrun; try discriminate.
destruct (create_robots_facts _ _ _ _ _ Hc) as (P0 & G0 & _ & N0).
apply (map_outcome_rel _ same_place) in Hp;
  [|intros a b; apply plan_path_same_place].
destruct (same_place_all Hp) as [I1 _].
pose proof (place_positions Hp) as P1.
destruct (@run_steps_safe _ _ _ _ _ _ _ Hrun) as [Hsep Hteam].
{ now rewrite I1. }
{ apply separated_of_distinct. now rewrite P1, P0. }
assert (Hgoals : Forall (fun r => goal_of r = goal_pos) rs).
{ eapply team_goals; [exact Hteam|].
  eapply team_goals; [apply place_to_team; exact Hp|exact G0]. }
intros i j ri rj Hij Hi Hj Hpos. rewrite Forall_forall in Hgoals.
destruct (Hsep i j ri rj Hij Hi Hj Hpos) as [Hg|Hg]; unfold on_goal in Hg.
- rewrite Hg. apply (Hgoals ri). eapply nth_error_In; eauto.
- rewrite Hpos, Hg. apply (Hgoals rj). eapply nth_error_In; eauto.
Qed.

Lemma simulation_keeps_robots_apart_witness :
  exists trace rs reg status,
    Coordinator.run_simulation (1, 3)%Z [(0, 0); (0, 1)]%Z (0, 2)%Z corridor
    = Return (trace, rs, reg, status) /\
    forall i j ri rj,
      i <> j -> nth_error rs i = Some ri -> nth_error rs j = Some rj ->
      Robot.position ri = Robot.position rj ->
      Robot.position ri = (0, 2)%Z.
Proof.
do 4 eexists. split; [vm_compute; reflexivity|].
eapply (@simulation_keeps_robots_apart (1, 3)%Z [(0, 0); (0, 1)]%Z
          (0, 2)%Z corridor).
- vm_compute. reflexivity.
- cbn. repeat constructor; cbn; intuition discriminate.
Defined.

(* ================================================================== *)
(** ** The bounded-memory search ends, and raises only without memory *)

Section SmaTermination.
Context {K : Type} `{Cost K}.
Variable heuristic_func : Node K -> Node K -> K.
Variable grid : Grid.
Variable end_node : Node K.
Variable start : Pos.

Lemma remove_first_keeps (a : Arena) x l :
  length l <= S (length (remove_first a x l)).
Proof.
induction l as [|y l IH]; cbn [remove_first length]; [lia|].
destruct (s_eqb a y x); cbn [length]; lia.
Qed.

Lemma prune_keeps (a : Arena) open :
  length open <= S (length (snd (prune a open))).
Proof.
unfold prune. cbn [snd]. rewrite heapify_length. apply remove_first_keeps.
Qed.

Lemma s_expand_rectangular current closed : rectangular grid ->
  forall moves a open,
    s_expand heuristic_func grid end_node current closed moves a open
    <> None.
Proof.
intros Hrect. induction moves as [|m moves IH]; intros a open;
  cbn [s_expand]; [discriminate|].
destruct (in_bounds grid _) eqn:Hb; cbn [negb]; auto.
destruct (rectangular_cell _ Hrect Hb) as (c & ->).
destruct (_ || _); auto.
destruct (s_make_neighbor _ _ _ _ _) as [a' id]. auto.
Qed.

Lemma sma_iteration_progress max_nodes (a : Arena) open closed a' open'
      closed' :
  arena_good grid start a -> open_valid a open ->
  NoDup closed -> Forall (near_map grid start) closed ->
  sma_iteration heuristic_func grid end_node max_nodes a open closed
  = Next (a', open', closed') ->
  (arena_good grid start a' /\ open_valid a' open' /\
   NoDup closed' /\ Forall (near_map grid start) closed') /\
  4 * (length grid * length (hd [] grid) + 1 - length closed')
  + length open'
  < 4 * (length grid * length (hd [] grid) + 1 - length closed)
    + length open.
Proof.
intros Hg Ho Hnd Hnear Hit. unfold sma_iteration in Hit.
destruct open as [|x xs]; [discriminate|].
set (open := x :: xs) in *.
assert (Hpr : let ao := if (max_nodes <? Z.of_nat (length open))%Z
                        then prune a open else (a, open) in
              arena_good grid start (fst ao) /\
              open_valid (fst ao) (snd ao) /\
              length (snd ao) <= length open).
{ destruct (max_nodes <? _)%Z; cbn zeta.
  - apply prune_good; auto.
  - cbn [fst snd]. auto. }
destruct (if (max_nodes <? _)%Z then _ else _) as [a1 open1].
cbn [fst snd] in Hpr. destruct Hpr as (Hg1 & Ho1 & Hlen1).
destruct (heappop _ open1) as [[cur open2]|] eqn:Hp; [|discriminate].
pose proof (heappop_length _ _ Hp) as Hlen2.
destruct (heappop_Forall _ Hp Ho1) as [Hcur Ho2].
destruct (pos_mem _ closed) eqn:Hmem.
- inversion Hit; subst. split; [auto|]. lia.
- destruct (pos_eqb _ (position end_node)); [discriminate|].
  destruct (s_expand _ _ _ _ _ _ _ _) as [[a2 open3]|] eqn:Hx;
    [|discriminate].
  inversion Hit; subst. clear Hit.
  destruct (@s_expand_good _ _ heuristic_func grid end_node start cur _
              MOVES _ _ _ _ (fun m Hm => Hm) Hg1 Ho2 Hcur Hx)
    as (G & O & Hlen3).
  assert (Hnd' : NoDup (s_position (node_at a1 cur) :: closed)).
  { constructor; auto. intros Hin. apply pos_mem_In in Hin. congruence. }
  assert (Hnear' : Forall (near_map grid start)
                          (s_position (node_at a1 cur) :: closed)).
  { constructor; auto. destruct Hg1 as [_ Hc1].
    pose proof (good_chain_near (Hc1 cur Hcur)) as Hn.
    cbn [s_ancestors hd] in Hn. exact Hn. }
  split; [auto|].
  pose proof (closed_bound Hnd' Hnear') as Hb.
  cbn [length] in *. change (length MOVES) with 4 in Hlen3. lia.
Qed.

Lemma sma_loop_no_timeout max_nodes : forall fuel (a : Arena) open closed,
  arena_good grid start a -> open_valid a open ->
  NoDup closed -> Forall (near_map grid start) closed ->
  4 * (length grid * length (hd [] grid) + 1 - length closed)
  + length open < fuel ->
  sma_loop heuristic_func grid end_node fuel max_nodes a open closed
  <> OutOfFuel.
Proof.
induction fuel as [|fuel IH]; intros a open closed Hg Ho Hnd Hnear Hm;
  [lia|].
cbn [sma_loop].
destruct (sma_iteration _ _ _ _ _ _ _) as [res|[[a' open'] closed']] eqn:Hit.
- unfold sma_iteration in Hit.
  destruct open as [|x xs]; [inversion Hit; discriminate|].
  destruct (if (max_nodes <? _)%Z then _ else _) as [a1 open1].
  destruct (heappop _ open1) as [[cur open2]|];
    [|inversion Hit; discriminate].
  destruct (pos_mem _ closed); [discriminate|].
  destruct (pos_eqb _ (position end_node)); [inversion Hit; discriminate|].
  destruct (s_expand _ _ _ _ _ _ _ _) as [[a2 open3]|];
    [discriminate|inversion Hit; discriminate].
- destruct (sma_iteration_progress _ Hg Ho Hnd Hnear Hit)
    as ((G & O & N & F) & Hlt).
  apply IH; auto. lia.
Qed.

Lemma sma_loop_no_raise max_nodes : rectangular grid ->
  (1 <= max_nodes)%Z ->
  forall fuel (a : Arena) open closed,
    sma_loop heuristic_func grid end_node fuel max_nodes a open closed
    <> Raise.
Proof.
intros Hrect Hmax. induction fuel as [|fuel IH]; intros a open closed;
  cbn [sma_loop]; [discriminate|].
destruct (sma_iteration _ _ _ _ _ _ _) as [res|[[a' open'] closed']] eqn:Hit;
  [|apply IH].
unfold sma_iteration in Hit.
destruct open as [|x xs]; [inversion Hit; discriminate|].
set (open := x :: xs) in *.
assert (Hne : let ao := if (max_nodes <? Z.of_nat (length open))%Z
                        then prune a open else (a, open) in
              snd ao <> []).
{ destruct (max_nodes <? _)%Z eqn:Hlt; cbn zeta.
  - apply Z.ltb_lt in Hlt. pose proof (prune_keeps a open) as Hk.
    intros E. rewrite E in Hk. cbn [length] in Hk. lia.
  - cbn [snd]. discriminate. }
destruct (if (max_nodes <? _)%Z then _ else _) as [a1 open1].
cbn [snd] in Hne.
destruct (heappop _ open1) as [[cur open2]|] eqn:Hp.
2:{ apply heappop_None in Hp. contradiction. }
destruct (pos_mem _ closed); [discriminate|].
destruct (pos_eqb _ (position end_node)); [inversion Hit; discriminate|].
destruct (s_expand _ _ _ _ _ _ _ _) as [[a2 open3]|] eqn:Hx;
  [discriminate|].
now apply s_expand_rectangular in Hx.
Qed.
End SmaTermination.

(** X17: the loop of [sma_star_search] ends within
    [4 * (rows * cols + 1) + 2] passes on every input, pruning included;
    and on a map whose rows all have the length of row 0, with [max_nodes]
    at least 1, the call raises nothing: it returns a path or [None]. *)
Theorem sma_star_answers {K : Type} `{Cost K}
        (heuristic_func : Node K -> Node K -> K)
        (grid : Grid) (start_pos end_pos : Pos) (max_nodes : Z) :
  sma_star_search heuristic_func grid start_pos end_pos max_nodes
  <> OutOfFuel /\
  (rectangular grid -> (1 <= max_nodes)%Z ->
   exists answer,
     sma_star_search heuristic_func grid start_pos end_pos max_nodes
     = Return answer).
Proof.
assert (Hfuel : sma_star_search heuristic_func grid start_pos end_pos
                                max_nodes <> OutOfFuel).
{ unfold sma_star_search. rewrite heappush_nil.
  apply sma_loop_no_timeout with (start := start_pos).
  - apply start_arena_good; reflexivity.
  - constructor; [cbn; lia|constructor].
  - constructor.
  - constructor.
  - unfold search_fuel. cbn [length]. lia. }
split; [exact Hfuel|]. intros Hrect Hmax.
assert (Hraise : sma_star_search heuristic_func grid start_pos end_pos
                                 max_nodes <> Raise)
  by (unfold sma_star_search; now apply sma_loop_no_raise).
destruct (sma_star_search heuristic_func grid start_pos end_pos max_nodes)
  as [answer| |]; [eauto|congruence|congruence].
Qed.

Lemma sma_star_answers_witness :
  exists answer,
    sma_star_search (K:=Z) manhattan_distance scenario_grid
                    (0, 0)%Z (2, 2)%Z 2
    = Return answer.
Proof.
apply (@sma_star_answers Z _ manhattan_distance scenario_grid
         (0, 0)%Z (2, 2)%Z 2).
- repeat constructor.
- lia.
Defined.

(* ================================================================== *)
(** ** What the simulation reports *)

Lemma time_step_status (rs : list Robot.t) (reg : Robot.Registry)
      (st : Coordinator.Step) (status : Coordinator.Status) :
  Coordinator.time_step rs reg = Return (st, status) ->
  match status with
  | Coordinator.AllReachedGoal =>
      forallb Coordinator.at_goal (Coordinator.robots st) = true
  | Coordinator.NoFurtherProgress =>
      forallb Coordinator.at_goal (Coordinator.robots st) = false /\
      Forall (fun r => Robot.path r = []) (Coordinator.robots st) /\
      Coordinator.any_robot_moved st = false
  | Coordinator.Running => True
  end.
Proof.
intros Ht. unfold Coordinator.time_step in Ht.
destruct (Coordinator.determine_next_moves rs) as [rs1 nm].
destruct (Robot.for_each _ _ _) as [st1| |]; cbn [bind] in Ht;
  try discriminate.
destruct (Coordinator.broadcast_knowledge _) as [rs2| |];
  cbn [bind] in Ht; try discriminate.
destruct (Coordinator.update_all_robot_positions _ rs2) as [rs3| |];
  cbn [bind] in Ht; try discriminate.
destruct rs3 as [|r3 rs3]; [discriminate|].
destruct (forallb Coordinator.at_goal (r3 :: rs3)) eqn:Hall.
- inversion Ht; subst. exact Hall.
- destruct (negb _ && forallb _ _) eqn:Hstuck; inversion Ht; subst;
    [|exact I].
  apply andb_true_iff in Hstuck as [Hmoved Hpaths].
  cbn [Coordinator.robots Coordinator.any_robot_moved] in *.
  split; [exact Hall|]. split; [|now apply negb_true_iff].
  apply Forall_forall. intros r Hr.
  rewrite forallb_forall in Hpaths. specialize (Hpaths r Hr).
  destruct (Robot.path r); [reflexivity|discriminate].
Qed.

Lemma run_steps_report : forall n rs reg trace rs' reg' status,
  Coordinator.run_steps n rs reg = Return (trace, rs', reg', status) ->
  length trace <= n /\
  match status with
  | Coordinator.AllReachedGoal => rs' <> [] /\ Forall on_goal rs'
  | Coordinator.NoFurtherProgress =>
      Forall (fun r => Robot.path r = []) rs' /\ ~ Forall on_goal rs'
  | Coordinator.Running => length trace = n
  end.
Proof.
induction n as [|n IH]; intros rs reg trace rs' reg' status Hr;
  cbn [Coordinator.run_steps] in Hr.
- inversion Hr; subst. cbn. auto.
- destruct (Coordinator.time_step rs reg) as [[st status1]| |] eqn:Ht;
    cbn [bind] in Hr; try discriminate.
  pose proof (time_step_status _ _ Ht) as Hst.
  assert (Hgoal : forall l, forallb Coordinator.at_goal l = true <->
                            Forall on_goal l).
  { intros l. rewrite forallb_forall, Forall_forall.
    split; intros Hl r Hin; specialize (Hl r Hin);
      unfold Coordinator.at_goal, on_goal in *; now apply pos_eqb_eq. }
  destruct status1.
  + inversion Hr; subst. cbn [length]. split; [lia|]. split.
    * intros E. rewrite E in Hst. unfold Coordinator.time_step in Ht.
      destruct (Coordinator.determine_next_moves rs) as [rs1 nm].
      destruct (Robot.for_each _ _ _) as [st1| |]; cbn [bind] in Ht;
        try discriminate.
      destruct (Coordinator.broadcast_knowledge _) as [rs2| |];
        cbn [bind] in Ht; try discriminate.
      destruct (Coordinator.update_all_robot_positions _ rs2) as [rs3| |];
        cbn [bind] in Ht; try discriminate.
      destruct rs3 as [|r3 rs3]; [discriminate|].
      destruct (forallb _ _); [|destruct (_ && _)]; inversion Ht; subst;
        discriminate.
    * now apply Hgoal.
  + inversion Hr; subst. cbn [length]. split; [lia|].
    destruct Hst as (Hng & Hpaths & _). split; [exact Hpaths|].
    intros Hall. apply Hgoal in Hall. congruence.
  + destruct (Coordinator.run_steps n _ _)
      as [[[[trace2 rs2] reg2] status2]| |] eqn:Hrest; cbn [bind] in Hr;
      try discriminate.
    inversion Hr; subst. destruct (IH _ _ _ _ _ _ Hrest) as [Hlen Hrep].
    cbn [length]. split; [lia|].
    destruct status; auto.
Qed.

(** X18: what the outcome of [run_simulation] means.  At most 100 time
    steps are executed.  "All robots reached the goal" is reported only when
    every robot stands on its goal; "no further progress" only when no
    robot has a path left and some robot is not on its goal; and the loop
    ends without either report only after the 100th step. *)
Theorem simulation_report (grid_size : Z * Z) (robot_starts : list Pos)
        (goal_pos : Pos) (full_map : Grid)
        (trace : list (list Event)) (rs : list Robot.t)
        (reg : Robot.Registry) (status : Coordinator.Status) :
  Coordinator.run_simulation grid_size robot_starts goal_pos full_map
  = Return (trace, rs, reg, status) ->
  length trace <= 100 /\
  match status with
  | Coordinator.AllReachedGoal => rs <> [] /\ Forall on_goal rs
  | Coordinator.NoFurtherProgress =>
      Forall (fun r => Robot.path r = []) rs /\ ~ Forall on_goal rs
  | Coordinator.Running => length trace = 100
  end.
Proof.
intros Hrun. unfold Coordinator.run_simulation in Hrun.
destruct (Coordinator.create_robots _ _ _ _ _) as [rs0| |];
  cbn [bind] in Hrun; try discriminate.
destruct (Coordinator.map_outcome Robot.plan_path rs0) as [rs1| |];
  cbn [bind] in Hrun; try discriminate.
exact (@run_steps_report _ _ _ _ _ _ _ Hrun).
Qed.

Lemma simulation_report_witness :
  exists trace rs reg,
    Coordinator.run_simulation (1, 3)%Z [(0, 0); (0, 1)]%Z (0, 2)%Z corridor
    = Return (trace, rs, reg, Coordinator.AllReachedGoal) /\
    length trace <= 100 /\ Forall on_goal rs.
Proof.
edestruct (@simulation_report (1, 3)%Z [(0, 0); (0, 1)]%Z (0, 2)%Z corridor)
  as (Hlen & Hst); [vm_compute; reflexivity|].
destruct Hst as [_ Hall].
do 3 eexists. split; [vm_compute; reflexivity|].
split; [exact Hlen|exact Hall].
Defined.

(* ================================================================== *)
(** ** No robot steps on an obstacle it could have sensed *)

Lemma cell_set_shaped (m m' : Grid) (r c : Z) (x : ascii) (rows cols : Z) :
  cell_set m r c x = Return m' -> shaped m rows cols -> shaped m' rows cols.
Proof.
intros Hs [Hl Hrows].
apply cell_set_shape in Hs as (kr & kc & row & _ & Hrow & _ & ->).
split; [now rewrite list_set_length|].
apply Forall_list_set; auto. rewrite list_set_length.
rewrite Forall_forall in Hrows. apply Hrows. eapply nth_error_In; eauto.
Qed.

Lemma keeps_obstacles_refl m : keeps_obstacles m m.
Proof. intros x y _ _ H. exact H. Qed.

Lemma keeps_obstacles_trans m1 m2 m3 :
  keeps_obstacles m1 m2 -> keeps_obstacles m2 m3 -> keeps_obstacles m1 m3.
Proof. intros H1 H2 x y Hx Hy H. apply H2; auto. Qed.

(** Overwriting a cell that does not hold an obstacle loses no obstacle,
    whichever index (negative ones included) addressed it. *)
Lemma cell_set_keeps_obstacles (m m' : Grid) (r c : Z) (c0 x : ascii) :
  cell_get m r c = Return c0 -> c0 <> OBSTACLE ->
  cell_set m r c x = Return m' -> keeps_obstacles m m'.
Proof.
intros Hg Hne Hs u v Hu Hv Ho.
apply cell_get_shape in Hg as (kr & kc & Ekr & (row & Hrow & Ekc) & Hc).
apply cell_set_shape in Hs as (kr' & kc' & row' & Ekr' & Hrow' & Ekc' & ->).
assert (kr' = kr) by congruence. subst kr'.
assert (row' = row) by congruence. subst row'.
assert (kc' = kc) by congruence. subst kc'.
rewrite cell_get_nonneg in Ho |- * by auto.
rewrite cell_nat_after_set by (auto; eapply py_index_lt; eauto).
destruct ((Z.to_nat u =? kr) && (Z.to_nat v =? kc)) eqn:E; auto.
apply andb_true_iff in E as [E1 E2].
apply Nat.eqb_eq in E1, E2. subst kr kc. rewrite Hc in Ho.
inversion Ho. congruence.
Qed.

Lemma same_frame_refl r : same_frame r r.
Proof. repeat split. Qed.

Lemma same_frame_trans r1 r2 r3 :
  same_frame r1 r2 -> same_frame r2 r3 -> same_frame r1 r3.
Proof. unfold same_frame. intuition congruence. Qed.

Lemma sense_environment_same_frame (r r' : Robot.t) :
  Robot.sense_environment r = Return r' -> same_frame r r'.
Proof.
intros Hs. apply sense_environment_frame in Hs. rewrite Hs.
destruct r. repeat split.
Qed.

Lemma plan_path_same_frame (r r' : Robot.t) :
  Robot.plan_path r = Return r' ->
  same_frame r r' /\ Robot.local_map r' = Robot.local_map r.
Proof.
intros Hp. apply plan_path_frame in Hp. rewrite Hp.
destruct r. repeat split.
Qed.

Lemma sense_cell_shaped (s s' : Robot.t) (cx cy : Z) (d : Z * Z) rows cols :
  Robot.sense_cell s cx cy d = Return s' ->
  shaped (Robot.local_map s) rows cols ->
  shaped (Robot.local_map s') rows cols.
Proof.
unfold Robot.sense_cell.
destruct (Robot.get_symbol_at s _ _ _) as [sym| |]; cbn [bind];
  try discriminate.
destruct (Robot.inside s _ _).
- destruct (cell_set _ _ _ sym) as [m'| |] eqn:Hs; cbn [bind];
    try discriminate.
  intros Hr Hsh. apply (cell_set_shaped _ _ _ Hs) in Hsh.
  destruct (existsb _ _); inversion Hr; subst; destruct s; exact Hsh.
- intros [= <-]. auto.
Qed.

Lemma sense_environment_shaped (r r' : Robot.t) rows cols :
  Robot.sense_environment r = Return r' ->
  shaped (Robot.local_map r) rows cols ->
  shaped (Robot.local_map r') rows cols.
Proof.
unfold Robot.sense_environment. intros Hs Hsh.
refine (proj1 (@for_each_rel _ _ _
          (fun s => shaped (Robot.local_map s) rows cols)
          (fun _ _ => True) _ _ _ _ _ _ Hsh Hs)); auto.
intros s a s' Hi Hb. split; auto. eapply sense_cell_shaped; eauto.
Qed.

(** After sensing, the window shows every obstacle of the ground truth. *)
Lemma sense_environment_shows (r r' : Robot.t) :
  Robot.sense_environment r = Return r' -> shows_obstacles r'.
Proof.
intros Hs. pose proof (sense_environment_same_frame _ Hs) as
  (Ef & Er & Ec & Erad & _ & Ex & Ey).
unfold Robot.sense_environment in Hs.
intros x y Hin Hx Hy Ht.
assert (Hd : In (x - Robot.pos_x r, y - Robot.pos_y r)%Z
                (Robot.offsets (Robot.sensor_radius r))).
{ apply offsets_In. cbn [fst snd]. rewrite Ex, Ey, Erad in *. lia. }
destruct (@sense_pass_settles _ _ _ _ _ Hs _ (or_introl Hd))
  as (sym & Hg & Hloc).
cbn [fst snd] in Hg, Hloc.
replace (Robot.pos_x r + (x - Robot.pos_x r))%Z with x in * by lia.
replace (Robot.pos_y r + (y - Robot.pos_y r))%Z with y in * by lia.
unfold Robot.get_symbol_at in Hg. rewrite Hin in Hg.
destruct (Hloc Hin) as [Hc _]. congruence.
Qed.

Lemma aware_keeps (r r' : Robot.t) :
  aware r -> same_frame r r' ->
  shaped (Robot.local_map r') (Robot.grid_rows r) (Robot.grid_cols r) ->
  keeps_obstacles (Robot.local_map r) (Robot.local_map r') ->
  aware r'.
Proof.
intros (Hrad & Hpos & _ & Hshow) (Ef & Er & Ec & Erad & Ep & Ex & Ey) Hsh Hk.
unfold aware. rewrite Erad, Ep, Ex, Ey, Er, Ec.
split; [exact Hrad|]. split; [exact Hpos|]. split; [exact Hsh|].
intros x y Hin Hx Hy Ht.
assert (Hin' : Robot.inside r x y = true).
{ unfold Robot.inside in *. now rewrite Er, Ec in Hin. }
destruct (inside_nonneg _ _ _ Hin') as [? ?].
rewrite Ex, Ey, Erad, Ef in *. apply Hk; auto.
Qed.

Lemma path_safe_keeps (r r' : Robot.t) :
  path_safe r -> same_frame r r' -> Robot.path r' = Robot.path r ->
  path_safe r'.
Proof.
intros Hp (Ef & Er & Ec & _) Epath next rest Hn.
rewrite Epath in Hn. destruct (Hp _ _ Hn) as [Hin Ht].
unfold Robot.inside in *. rewrite Ef, Er, Ec. auto.
Qed.

Lemma on_map_keeps truth rows cols (r r' : Robot.t) :
  on_map truth rows cols r -> same_frame r r' -> on_map truth rows cols r'.
Proof.
intros (H1 & H2 & H3) (Ef & Er & Ec & _). unfold on_map.
rewrite Ef, Er, Ec. auto.
Qed.

Lemma explore_origin (r : Robot.t) (start : Pos) : forall targets r',
  Robot.explore r start targets = Return r' ->
  Robot.path r' = [] \/
  exists target p,
    a_star_search (K:=Z) manhattan_distance (Robot.local_map r) start target
    = Return (Some p) /\ Robot.path r' = tl p.
Proof.
induction targets as [|t targets IH]; intros r' He; cbn [Robot.explore] in He.
- inversion He; subst. left. destruct r; reflexivity.
- destruct (a_star_search _ _ _ t) as [res| |] eqn:Ha; cbn [bind] in He;
    try discriminate.
  destruct res as [[|p0 tail]|]; auto.
  inversion He; subst. right. exists t, (p0 :: tail).
  split; [exact Ha|destruct r; reflexivity].
Qed.

(** A planned path is empty or the tail of a path A* found on the local
    map from the robot's position. *)
Lemma plan_path_origin (r r' : Robot.t) :
  Robot.plan_path r = Return r' ->
  Robot.path r' = [] \/
  exists target p,
    a_star_search (K:=Z) manhattan_distance (Robot.local_map r)
                  (Robot.position r) target
    = Return (Some p) /\ Robot.path r' = tl p.
Proof.
unfold Robot.plan_path.
destruct (a_star_search _ _ _ _) as [res| |] eqn:Ha; cbn [bind];
  try discriminate.
assert (Helse : (tiles <- Robot.unknown_tiles r ;;
                 match tiles with
                 | [] => Return (Robot.with_path r [])
                 | _ :: _ =>
                     Robot.explore r (Robot.position r)
                       (sort_by (fun pos =>
                                   (Z.abs (fst pos - Robot.pos_x r)
                                    + Z.abs (snd pos - Robot.pos_y r))%Z)
                                tiles)
                 end) = Return r' ->
                Robot.path r' = [] \/
                exists target p,
                  a_star_search (K:=Z) manhattan_distance (Robot.local_map r)
                                (Robot.position r) target
                  = Return (Some p) /\ Robot.path r' = tl p).
{ destruct (Robot.unknown_tiles r) as [tiles| |]; cbn [bind];
    try discriminate.
  destruct tiles; [|apply explore_origin].
  intros [= <-]. left. destruct r; reflexivity. }
destruct res as [[|p tail]|]; auto.
intros [= <-]. right. exists (Robot.goal_row r, Robot.goal_col r), (p :: tail).
split; [exact Ha|destruct r; reflexivity].
Qed.

(** The first step of a path found on the local map of an aware robot is a
    cell of the map, inside the sensor window, hence not a true obstacle. *)
Lemma first_step_safe (r : Robot.t) (target : Pos) (p : list Pos)
      (next : Pos) (rest : list Pos) :
  aware r ->
  a_star_search (K:=Z) manhattan_distance (Robot.local_map r)
                (Robot.position r) target = Return (Some p) ->
  tl p = next :: rest ->
  Robot.inside r (fst next) (snd next) = true /\
  cell_get (Robot.full_map r) (fst next) (snd next) <> Return OBSTACLE.
Proof.
intros (Hrad & Hpos & (Hlen & Hrows) & Hshow) Ha Htl.
assert (Hb : returned_by (Robot.local_map r) (Robot.position r) target p)
  by exact (@by_a_star _ _ _ _ Z _ _ Ha).
apply returned_by_valid in Hb as [(Hh & _ & Hc) Hpass].
destruct p as [|s p]; [discriminate|]. cbn [tl] in Htl, Hpass. subst p.
cbn in Hh. inversion Hh; subst s. clear Hh.
destruct Hc as [Hadj _]. inversion Hpass as [|? ? Hnext _]; subst.
destruct Hnext as (Hin & c & Hc & Hne).
apply in_bounds_iff in Hin as [Hr Hcol].
unfold grid_rows, grid_cols in Hr, Hcol.
assert (Hinside : Robot.inside r (fst next) (snd next) = true).
{ unfold Robot.inside. rewrite !andb_true_iff, !Z.leb_le, !Z.ltb_lt.
  destruct (Robot.local_map r) as [|row0 m] eqn:Em; cbn [length hd] in *;
    [lia|].
  inversion Hrows; subst. lia. }
split; [exact Hinside|]. intros Ht.
destruct (inside_nonneg _ _ _ Hinside) as [? ?].
unfold adjacent4, manhattan in Hadj. rewrite Hpos in Hadj.
cbn [fst snd] in Hadj.
apply Hshow in Ht; auto; try lia.
rewrite cell_get_nonneg in Ht by auto.
unfold grid_get in Hc. unfold cell_nat in Ht.
destruct (nth_error (Robot.local_map r) (Z.to_nat (fst next)));
  [|discriminate].
rewrite Hc in Ht. inversion Ht; subst c. discriminate.
Qed.

Lemma plan_path_careful truth rows cols (r r' : Robot.t) :
  Robot.plan_path r = Return r' ->
  on_map truth rows cols r -> aware r -> careful truth rows cols r'.
Proof.
intros Hp Hon Haw.
destruct (plan_path_same_frame _ Hp) as [Hf Hm].
assert (Haw' : aware r').
{ apply (aware_keeps Haw Hf); rewrite Hm;
    [apply Haw|apply keeps_obstacles_refl]. }
split; [eapply on_map_keeps; eauto|]. split; [exact Haw'|].
intros next rest Hn.
destruct (plan_path_origin _ Hp) as [E|(target & p & Ha & E)];
  [congruence|].
rewrite E in Hn.
destruct (@first_step_safe _ _ _ _ _ Haw Ha Hn) as [Hin Ht].
destruct Hf as (Ef & Er & Ec & _).
unfold Robot.inside in *. rewrite Ef, Er, Ec. auto.
Qed.

Lemma receive_item_aware (st st' : Robot.t * bool) (item : Pos * ascii) :
  Robot.receive_item st item = Return st' -> aware (fst st) ->
  aware (fst st') /\
  (same_frame (fst st) (fst st') /\
   Robot.path (fst st') = Robot.path (fst st)).
Proof.
destruct st as [r u], item as [[x y] sym]. unfold Robot.receive_item.
destruct (cell_get _ x y) as [c| |] eqn:Hg; cbn [bind]; try discriminate.
destruct (Ascii.eqb c UNKNOWN) eqn:Ec.
- destruct (cell_set _ x y sym) as [m| |] eqn:Hs; cbn [bind];
    try discriminate.
  intros [= <-] Haw. cbn [fst].
  assert (Hf : same_frame r
                 (Robot.with_record (Robot.with_local_map r m)
                    (Robot.record (Robot.with_local_map r m) ++ [(sym, x, y)])))
    by (destruct r; repeat split).
  split; [|split; [exact Hf|destruct r; reflexivity]].
  apply (aware_keeps Haw Hf).
  + destruct r; cbn in *. eapply cell_set_shaped; eauto. apply Haw.
  + destruct r; cbn in *. eapply cell_set_keeps_obstacles; eauto.
    apply Ascii.eqb_eq in Ec. subst c. discriminate.
- intros [= <-] Haw. cbn [fst]. split; auto. split; auto.
  apply same_frame_refl.
Qed.

Lemma receive_knowledge_careful truth rows cols (r r' : Robot.t) shared :
  Robot.receive_knowledge r shared = Return r' ->
  careful truth rows cols r -> careful truth rows cols r'.
Proof.
unfold Robot.receive_knowledge. intros Hr (Hon & Haw & Hp).
destruct (Robot.for_each _ _ _) as [[r1 u]| |] eqn:Hf; cbn [bind] in Hr;
  try discriminate.
destruct (@for_each_rel _ _ Robot.receive_item
            (fun st => aware (fst st))
            (fun st st' => same_frame (fst st) (fst st') /\
                           Robot.path (fst st') = Robot.path (fst st))
            (fun s => conj (same_frame_refl (fst s)) eq_refl)
            (fun a b c H1 H2 =>
               conj (same_frame_trans (proj1 H1) (proj1 H2))
                    (eq_trans (proj2 H2) (proj2 H1)))
            (fun s a s' Hi Hb => receive_item_aware _ _ Hb Hi)
            shared (r, false) (r1, u) Haw Hf) as (Haw1 & Hf1 & Hp1).
cbn [fst] in *.
assert (Hon1 : on_map truth rows cols r1) by (eapply on_map_keeps; eauto).
destruct u.
- eapply plan_path_careful; eauto.
- inversion Hr; subst. split; auto. split; auto.
  eapply path_safe_keeps; eauto.
Qed.

(** Marking the registered positions leaves every other cell as it was. *)
Lemma marks_elsewhere (x y : Z) : forall (reg : Robot.Registry) (m m' : Grid),
  Robot.for_each (fun m (e : Z * Pos) =>
                    cell_set m (fst (snd e)) (snd (snd e)) ROBOT) reg m
  = Return m' ->
  Forall (fun e : Z * Pos => (0 <= fst (snd e))%Z /\ (0 <= snd (snd e))%Z /\
                             snd e <> (x, y)) reg ->
  (0 <= x)%Z -> (0 <= y)%Z ->
  cell_get m' x y = cell_get m x y.
Proof.
induction reg as [|e reg IH]; intros m m' Hf Hall Hx Hy;
  cbn [Robot.for_each] in Hf.
- inversion Hf; subst. reflexivity.
- destruct (cell_set m _ _ ROBOT) as [m1| |] eqn:Hs; cbn [bind] in Hf;
    try discriminate.
  inversion Hall as [|? ? (He1 & He2 & Hne) Hall']; subst.
  rewrite (IH _ _ Hf Hall' Hx Hy).
  rewrite (@cell_get_after_set _ _ _ _ _ x y Hs) by auto.
  destruct ((x =? fst (snd e)) && (y =? snd (snd e)))%Z eqn:E; auto.
  apply andb_true_iff in E as [E1 E2]. apply Z.eqb_eq in E1, E2.
  exfalso. apply Hne. destruct (snd e). cbn in *. congruence.
Qed.

Lemma clear_marker_keeps (m m' : Grid) (ij : Z * Z) rows cols :
  Coordinator.clear_marker m ij = Return m' -> shaped m rows cols ->
  shaped m' rows cols /\ keeps_obstacles m m'.
Proof.
unfold Coordinator.clear_marker.
destruct (cell_get m _ _) as [c| |] eqn:Hg; cbn [bind]; try discriminate.
destruct (Ascii.eqb c ROBOT) eqn:Ec.
- intros Hs Hsh. split; [eapply cell_set_shaped; eauto|].
  eapply cell_set_keeps_obstacles; eauto.
  apply Ascii.eqb_eq in Ec. subst c. discriminate.
- intros [= <-] Hsh. split; auto. apply keeps_obstacles_refl.
Qed.

Lemma marks_shaped rows cols : forall (reg : Robot.Registry) (m m' : Grid),
  Robot.for_each (fun m (e : Z * Pos) =>
                    cell_set m (fst (snd e)) (snd (snd e)) ROBOT) reg m
  = Return m' ->
  shaped m rows cols -> shaped m' rows cols.
Proof.
induction reg as [|e reg IH]; intros m m' Hf Hsh; cbn [Robot.for_each] in Hf.
- inversion Hf; subst. exact Hsh.
- destruct (cell_set m _ _ ROBOT) as [m1| |] eqn:Hs; cbn [bind] in Hf;
    try discriminate.
  apply (IH _ _ Hf). eapply cell_set_shaped; eauto.
Qed.

Lemma refresh_markers_careful truth rows cols reg (r r' : Robot.t) :
  Coordinator.refresh_markers reg r = Return r' ->
  registry_safe truth rows cols reg ->
  careful truth rows cols r -> careful truth rows cols r'.
Proof.
unfold Coordinator.refresh_markers.
destruct (Robot.for_each Coordinator.clear_marker _ _) as [m1| |] eqn:H1;
  cbn [bind]; try discriminate.
destruct (Robot.for_each _ reg m1) as [m2| |] eqn:H2; cbn [bind];
  try discriminate.
intros [= <-] Hreg (Hon & Haw & Hp).
assert (Hf : same_frame r (Robot.with_local_map r m2))
  by (destruct r; repeat split).
assert (Epath : Robot.path (Robot.with_local_map r m2) = Robot.path r)
  by (destruct r; reflexivity).
split; [eapply on_map_keeps; eauto|].
split; [|eapply path_safe_keeps; eauto].
destruct Haw as (Hrad & Hpos & Hsh & Hshow).
destruct (@for_each_rel _ _ Coordinator.clear_marker
            (fun m => shaped m (Robot.grid_rows r) (Robot.grid_cols r))
            keeps_obstacles keeps_obstacles_refl keeps_obstacles_trans
            (fun s a s' Hi Hb => @clear_marker_keeps _ _ _ _ _ Hb Hi)
            _ _ _ Hsh H1) as [Hsh1 Hk1].
pose proof (@marks_shaped _ _ _ _ _ H2 Hsh1) as Hsh2.
destruct Hon as (Et & Er & Ec).
destruct r; cbn in *. unfold aware; cbn.
split; [exact Hrad|]. split; [exact Hpos|]. split; [exact Hsh2|].
intros x y Hin Hx Hy Ht. cbn in Hin, Hx, Hy, Ht |- *. pose proof Hin as Hnn.
unfold Robot.inside in Hnn; cbn in Hnn.
rewrite !andb_true_iff, !Z.leb_le, !Z.ltb_lt in Hnn.
rewrite (@marks_elsewhere x y _ _ _ H2); try lia.
- apply Hk1; try lia. apply Hshow; auto.
- eapply Forall_impl; [|exact Hreg].
  intros e (He1 & He2 & He3). split; [lia|]. split; [lia|].
  intros E. apply He3. rewrite E. cbn [fst snd]. congruence.
Qed.

Lemma reg_set_safe truth rows cols : forall (reg : Robot.Registry) k p,
  registry_safe truth rows cols reg ->
  (0 <= fst p < rows)%Z /\ (0 <= snd p < cols)%Z /\
  cell_get truth (fst p) (snd p) <> Return OBSTACLE ->
  registry_safe truth rows cols (reg_set reg k p).
Proof.
unfold registry_safe.
induction reg as [|[k' p'] reg IH]; intros k p Hreg Hp; cbn [reg_set].
- constructor; auto.
- inversion Hreg; subst.
  destruct (k' =? k)%Z; constructor; auto.
Qed.

(** [move] of a robot whose next step is safe reports no obstacle, and
    leaves the robot aware at its new position. *)
Lemma move_careful truth rows cols (r r' : Robot.t) reg reg' ev :
  Robot.move r reg = Return (r', reg', ev) ->
  registry_safe truth rows cols reg ->
  careful truth rows cols r ->
  on_map truth rows cols r' /\ aware r' /\
  registry_safe truth rows cols reg' /\
  Forall (fun e => phased e = false) ev.
Proof.
unfold Robot.move. intros Hm Hreg (Hon & Haw & Hp).
destruct (Robot.path r) as [|next rest] eqn:Epath.
- inversion Hm; subst. split; [exact Hon|]. split; [exact Haw|].
  split; [exact Hreg|]. repeat constructor.
- destruct (Hp _ _ Epath) as [Hin Ht].
  destruct (cell_set _ _ _ FREE) as [m| |] eqn:Hs; cbn [bind] in Hm;
    try discriminate.
  set (r1 := Robot.with_path (Robot.with_local_map r m) rest) in *.
  assert (Hin1 : Robot.inside r1 (fst next) (snd next) = true)
    by (destruct r; exact Hin).
  unfold Robot.get_symbol_at in Hm. rewrite Hin1 in Hm.
  assert (Ef1 : Robot.full_map r1 = Robot.full_map r)
    by (destruct r; reflexivity).
  rewrite Ef1 in Hm.
  destruct (cell_get (Robot.full_map r) _ _) as [tv| |] eqn:Htv;
    cbn [bind] in Hm; try discriminate.
  destruct (cell_get (Robot.local_map r1) _ _) as [lv| |];
    cbn [bind] in Hm; try discriminate.
  assert (Hno : Ascii.eqb tv OBSTACLE = false).
  { apply Ascii.eqb_neq. intros ->. now apply Ht. }
  rewrite Hno in Hm. cbn [app] in Hm.
  destruct (Robot.sense_environment _) as [r3| |] eqn:Hsense;
    cbn [bind] in Hm; try discriminate.
  inversion Hm; subst r' reg' ev. clear Hm.
  set (r2 := Robot.with_position r1 next) in *.
  pose proof (@sense_environment_same_frame _ _ Hsense) as Hf.
  pose proof (@sense_environment_shows _ _ Hsense) as Hshow.
  destruct Haw as (Hrad & Hpos & Hsh & _).
  assert (Hsh3 : shaped (Robot.local_map r3) (Robot.grid_rows r)
                        (Robot.grid_cols r)).
  { apply (@sense_environment_shaped _ _ _ _ Hsense).
    apply (@cell_set_shaped _ _ _ _ _ _ _ Hs) in Hsh. destruct r; exact Hsh. }
  destruct Hf as (Ef & Er & Ec & Erad & Ep & Ex & Ey).
  destruct Hon as (Ht0 & Hr0 & Hc0).
  assert (E2 : Robot.full_map r2 = Robot.full_map r /\
               Robot.grid_rows r2 = Robot.grid_rows r /\
               Robot.grid_cols r2 = Robot.grid_cols r /\
               Robot.sensor_radius r2 = Robot.sensor_radius r /\
               Robot.position r2 = next /\
               Robot.pos_x r2 = fst next /\ Robot.pos_y r2 = snd next /\
               Robot.id r2 = Robot.id r)
    by (destruct r; repeat split).
  destruct E2 as (F2 & R2 & C2 & Rad2 & P2 & X2 & Y2 & I2).
  split; [unfold on_map; intuition congruence|].
  split.
  { unfold aware. rewrite Erad, Rad2, Ep, P2, Ex, X2, Ey, Y2, Er, R2, Ec, C2.
    split; [exact Hrad|]. split; [now destruct next|].
    split; [exact Hsh3|exact Hshow]. }
  split.
  { apply reg_set_safe; auto. cbn [fst snd].
    unfold Robot.inside in Hin.
    rewrite !andb_true_iff, !Z.leb_le, !Z.ltb_lt in Hin.
    rewrite <- Ht0, <- Hr0, <- Hc0. split; [lia|]. split; [lia|].
    rewrite Htv. exact Ht. }
  repeat constructor.
Qed.

Lemma with_wait_count_careful truth rows cols (r : Robot.t) (w : Z) :
  careful truth rows cols r ->
  careful truth rows cols (Robot.with_wait_count r w).
Proof. destruct r. exact (fun H => H). Qed.

Lemma record_wait_careful truth rows cols (r r' : Robot.t) :
  Coordinator.record_wait r = Return r' ->
  careful truth rows cols r -> careful truth rows cols r'.
Proof.
unfold Coordinator.record_wait, Robot.replan. intros Hw Hc.
destruct (2 <=? _)%Z.
- destruct (Robot.plan_path _) as [r1| |] eqn:Hp; cbn [bind] in Hw;
    try discriminate.
  inversion Hw; subst. apply with_wait_count_careful.
  eapply plan_path_careful; [exact Hp| |];
    destruct Hc as (Hon & Haw & _); destruct r; assumption.
- inversion Hw; subst. now apply with_wait_count_careful.
Qed.

Lemma resolve_one_careful truth rows cols next_moves
      (st st' : Coordinator.Step) (i : nat) :
  Coordinator.resolve_one next_moves st i = Return st' ->
  step_careful truth rows cols st -> step_careful truth rows cols st'.
Proof.
unfold Coordinator.resolve_one. intros Hr (Hrs & Hreg & Hev).
destruct (nth_error (Coordinator.robots st) i) as [robot|] eqn:Hi;
  [|discriminate].
assert (Hc : careful truth rows cols robot).
{ rewrite Forall_forall in Hrs. apply Hrs. eapply nth_error_In; eauto. }
assert (Hwait : forall r' e,
          Coordinator.record_wait robot = Return r' -> phased e = false ->
          step_careful truth rows cols
            (Coordinator.mkStep (list_set (Coordinator.robots st) i r')
               (Coordinator.registry st) (Coordinator.any_robot_moved st)
               (Coordinator.events st ++ [e]))).
{ intros r' e Hw He. split; [|split]; cbn.
  - apply Forall_list_set; auto. eapply record_wait_careful; eauto.
  - exact Hreg.
  - apply Forall_app. split; [exact Hev|]. repeat constructor. exact He. }
destruct (Coordinator.at_goal robot); [inversion Hr; subst; now split|].
destruct (Robot.next_move robot) as [move_|]; [|inversion Hr; subst; now split].
destruct (_ && negb (Robot.id robot =? _)%Z).
{ destruct (Coordinator.record_wait robot) as [r'| |] eqn:Hw;
    cbn [bind] in Hr; try discriminate.
  inversion Hr; subst. now apply Hwait. }
destruct (existsb _ _ && negb _).
{ destruct (Coordinator.record_wait robot) as [r'| |] eqn:Hw;
    cbn [bind] in Hr; try discriminate.
  inversion Hr; subst. now apply Hwait. }
destruct (Robot.move robot _) as [[[r1 reg1] evs]| |] eqn:Hm;
  cbn [bind] in Hr; try discriminate.
destruct (Robot.plan_path _) as [r2| |] eqn:Hp; cbn [bind] in Hr;
  try discriminate.
inversion Hr; subst. clear Hr.
destruct (@move_careful truth rows cols _ _ _ _ _ Hm Hreg Hc)
  as (Hon1 & Haw1 & Hreg1 & Hq).
split; [|split]; cbn.
- apply Forall_list_set; auto.
  eapply plan_path_careful; [exact Hp| |]; destruct r1; assumption.
- exact Hreg1.
- apply Forall_app. split; [exact Hev|]. apply Forall_app. split; [|exact Hq].
  destruct (existsb _ _); repeat constructor.
Qed.

Lemma Forall2_transfer {A B : Type} (P : A -> Prop) (Q : B -> Prop)
      (l : list A) (l' : list B) :
  Forall2 (fun a b => P a -> Q b) l l' -> Forall P l -> Forall Q l'.
Proof.
induction 1 as [|a b l l' Hab _ IH]; intros Hl; [constructor|].
inversion Hl; subst. constructor; auto.
Qed.

(** A time step keeps the robots careful and the registry safe, and
    prints no obstacle warning. *)
Lemma time_step_careful truth rows cols (rs : list Robot.t)
      (reg : Robot.Registry) (st : Coordinator.Step)
      (status : Coordinator.Status) :
  Coordinator.time_step rs reg = Return (st, status) ->
  Forall (careful truth rows cols) rs -> registry_safe truth rows cols reg ->
  step_careful truth rows cols st.
Proof.
intros Ht Hrs Hreg. unfold Coordinator.time_step in Ht.
pose proof (determine_next_moves_robots rs) as Hd.
destruct (Coordinator.determine_next_moves rs) as [rs1 nm].
cbn [fst] in Hd.
assert (Hrs1 : Forall (careful truth rows cols) rs1).
{ rewrite Hd. apply Forall_map. eapply Forall_impl; [|exact Hrs].
  intros r Hr. destruct r. exact Hr. }
destruct (Robot.for_each _ _ _) as [st1| |] eqn:H2; cbn [bind] in Ht;
  try discriminate.
assert (Hstart : step_careful truth rows cols
                   (Coordinator.mkStep rs1 reg false []))
  by (split; [|split]; [exact Hrs1|exact Hreg|constructor]).
destruct (@for_each_rel _ _ (Coordinator.resolve_one nm)
            (step_careful truth rows cols) (fun _ _ => True)
            (fun _ => I) (fun _ _ _ _ _ => I)
            (fun s a s' Hi Hb =>
               conj (@resolve_one_careful _ _ _ _ _ _ _ Hb Hi) I)
            _ _ _ Hstart H2)
  as [(Hrs2 & Hreg2 & Hev2) _].
destruct (Coordinator.broadcast_knowledge _) as [rs2| |] eqn:H3;
  cbn [bind] in Ht; try discriminate.
destruct (Coordinator.update_all_robot_positions _ rs2) as [rs3| |] eqn:H4;
  cbn [bind] in Ht; try discriminate.
unfold Coordinator.broadcast_knowledge in H3.
apply (map_outcome_rel _ (fun a b => careful truth rows cols a ->
                                     careful truth rows cols b)) in H3;
  [|intros a b; apply receive_knowledge_careful].
apply Forall2_transfer in H3; [|exact Hrs2].
unfold Coordinator.update_all_robot_positions in H4.
apply (map_outcome_rel _ (fun a b => careful truth rows cols a ->
                                     careful truth rows cols b)) in H4;
  [|intros a b Hb; eapply refresh_markers_careful; eauto].
apply Forall2_transfer in H4; [|exact H3].
assert (Hfinal : step_careful truth rows cols
                   (Coordinator.mkStep rs3 (Coordinator.registry st1)
                      (Coordinator.any_robot_moved st1)
                      (Coordinator.events st1)))
  by (split; [|split]; assumption).
destruct rs3 as [|r3 rs3]; [discriminate|].
destruct (forallb Coordinator.at_goal _);
  [inversion Ht; subst; exact Hfinal|].
destruct (negb _ && _); inversion Ht; subst; exact Hfinal.
Qed.

Lemma run_steps_careful truth rows cols :
  forall n rs reg trace rs' reg' status,
    Coordinator.run_steps n rs reg = Return (trace, rs', reg', status) ->
    Forall (careful truth rows cols) rs -> registry_safe truth rows cols reg ->
    Forall quiet trace /\ Forall (careful truth rows cols) rs' /\
    registry_safe truth rows cols reg'.
Proof.
induction n as [|n IH]; intros rs reg trace rs' reg' status Hr Hrs Hreg;
  cbn [Coordinator.run_steps] in Hr.
- inversion Hr; subst. repeat split; auto.
- destruct (Coordinator.time_step rs reg) as [[st s]| |] eqn:Ht;
    cbn [bind] in Hr; try discriminate.
  destruct (@time_step_careful _ _ _ _ _ _ _ Ht Hrs Hreg)
    as (Hrs1 & Hreg1 & Hq1).
  destruct s.
  + inversion Hr; subst. repeat split; auto.
  + inversion Hr; subst. repeat split; auto.
  + destruct (Coordinator.run_steps n _ _) as [[[[tr rs2] reg2] s2]| |]
      eqn:Hn; cbn [bind] in Hr; try discriminate.
    inversion Hr; subst.
    destruct (IH _ _ _ _ _ _ Hn Hrs1 Hreg1) as (Hq & Hrs2 & Hreg2).
    repeat split; auto.
Qed.

(** A robot comes out of [__init__] aware of its surroundings. *)
Lemma init_aware robot_id start_pos grid_dimensions goal_pos truth radius r :
  Robot.init robot_id start_pos grid_dimensions goal_pos truth radius
  = Return r ->
  (1 <= radius)%Z ->
  on_map truth (fst grid_dimensions) (snd grid_dimensions) r /\ aware r.
Proof.
unfold Robot.init. intros Hi Hrad.
destruct (cell_set _ _ _ GOAL) as [m| |] eqn:Hs; cbn [bind] in Hi;
  try discriminate.
pose proof (@sense_environment_same_frame _ _ Hi)
  as (Ef & Er & Ec & Erad & Ep & Ex & Ey).
pose proof (@sense_environment_shows _ _ Hi) as Hshow.
assert (Hsh : shaped (Robot.local_map r) (fst grid_dimensions)
                     (snd grid_dimensions)).
{ apply (@sense_environment_shaped _ _ _ _ Hi). cbn.
  apply (@cell_set_shaped _ _ _ _ _ _ _ Hs).
  split; [apply repeat_length|].
  apply Forall_forall. intros row Hrow. apply repeat_spec in Hrow.
  subst row. apply repeat_length. }
cbn in Ef, Er, Ec, Erad, Ep, Ex, Ey.
split; [unfold on_map; auto|].
unfold aware. rewrite Erad, Ep, Ex, Ey, Er, Ec.
split; [exact Hrad|]. split; [now destruct start_pos|].
split; [exact Hsh|exact Hshow].
Qed.

Lemma create_robots_aware grid_size goal_pos truth :
  forall starts idx rs,
    Coordinator.create_robots idx starts grid_size goal_pos truth = Return rs ->
    Forall (fun r => on_map truth (fst grid_size) (snd grid_size) r /\ aware r)
           rs.
Proof.
induction starts as [|s starts IH]; intros idx rs Hc;
  cbn [Coordinator.create_robots] in Hc.
- inversion Hc. constructor.
- destruct (Robot.init _ _ _ _ _ _) as [r| |] eqn:Hi; cbn [bind] in Hc;
    try discriminate.
  destruct (Coordinator.create_robots _ _ _ _ _) as [rs0| |] eqn:Hrest;
    cbn [bind] in Hc; try discriminate.
  inversion Hc; subst. constructor; [|eapply IH; eauto].
  apply (@init_aware _ _ _ _ _ _ _ Hi). lia.
Qed.

Lemma run_simulation_careful grid_size robot_starts goal_pos truth
      trace rs reg status :
  Coordinator.run_simulation grid_size robot_starts goal_pos truth
  = Return (trace, rs, reg, status) ->
  Forall quiet trace /\
  Forall (careful truth (fst grid_size) (snd grid_size)) rs /\
  registry_safe truth (fst grid_size) (snd grid_size) reg.
Proof.
unfold Coordinator.run_simulation. intros Hr.
destruct (Coordinator.create_robots _ _ _ _ _) as [rs0| |] eqn:Hc;
  cbn [bind] in Hr; try discriminate.
destruct (Coordinator.map_outcome _ _) as [rs1| |] eqn:Hp;
  cbn [bind] in Hr; try discriminate.
apply create_robots_aware in Hc.
apply (map_outcome_rel _
         (fun a b => (on_map truth (fst grid_size) (snd grid_size) a
                      /\ aware a) ->
                     careful truth (fst grid_size) (snd grid_size) b)) in Hp.
2:{ intros a b Hb [Hon Haw]. eapply plan_path_careful; eauto. }
apply Forall2_transfer in Hp; [|exact Hc].
eapply run_steps_careful; eauto. constructor.
Qed.

(** X19: a simulation never sends a robot onto an obstacle.  Whatever the
    ground truth, the declared size, the starts and the goal, if
    [run_simulation] returns then no step of its trace holds the line
    [PHASED THROUGH OBSTACLE], and every position left in
    [Robot.robot_positions] is a cell of the map whose ground truth is not an
    obstacle: with sensor radius 1 the next step of a planned path has
    always been sensed before it is taken. *)
Theorem simulation_never_steps_on_obstacle grid_size robot_starts goal_pos
        truth trace rs reg status :
  Coordinator.run_simulation grid_size robot_starts goal_pos truth
  = Return (trace, rs, reg, status) ->
  (forall events robot_id next_pos local_value,
      In events trace ->
      ~ In (PhasedThroughObstacle robot_id next_pos local_value) events) /\
  registry_safe truth (fst grid_size) (snd grid_size) reg.
Proof.
intros Hr. apply run_simulation_careful in Hr as (Hq & _ & Hreg).
split; [|exact Hreg].
intros events robot_id next_pos local_value Hev Hin.
rewrite Forall_forall in Hq. specialize (Hq _ Hev).
unfold quiet in Hq. rewrite Forall_forall in Hq.
specialize (Hq _ Hin). discriminate.
Qed.

Lemma simulation_never_steps_on_obstacle_witness :
  exists trace rs reg status,
    Coordinator.run_simulation (3, 3)%Z [(0, 0)]%Z (0, 2)%Z walled_field
    = Return (trace, rs, reg, status) /\
    (forall events robot_id next_pos local_value,
        In events trace ->
        ~ In (PhasedThroughObstacle robot_id next_pos local_value) events) /\
    registry_safe walled_field 3 3 reg.
Proof.
edestruct (@simulation_never_steps_on_obstacle
             (3, 3)%Z [(0, 0)]%Z (0, 2)%Z walled_field) as [Hq Hreg];
  [vm_compute; reflexivity|].
do 4 eexists. split; [vm_compute; reflexivity|].
split; [exact Hq|exact Hreg].
Defined.

(* ================================================================== *)
(** ** The markers drawn by [update_all_robot_positions] *)

Lemma clear_marker_at (m m' : Grid) (ij : Z * Z) (x y : Z) :
  Coordinator.clear_marker m ij = Return m' ->
  (0 <= fst ij)%Z -> (0 <= snd ij)%Z -> (0 <= x)%Z -> (0 <= y)%Z ->
  (exists c, cell_get m (fst ij) (snd ij) = Return c) /\
  forall c, cell_get m x y = Return c ->
            cell_get m' x y
            = Return (if ((x =? fst ij) && (y =? snd ij))%Z
                      then (if Ascii.eqb c ROBOT then FREE else c) else c).
Proof.
unfold Coordinator.clear_marker. intros Hc Hi Hj Hx Hy.
destruct (cell_get m (fst ij) (snd ij)) as [c0| |] eqn:Hg; cbn [bind] in Hc;
  try discriminate.
split; [eauto|]. intros c Hxy.
destruct (Ascii.eqb c0 ROBOT) eqn:E0.
- rewrite (@cell_get_after_set _ _ _ _ _ x y Hc) by auto.
  destruct ((x =? fst ij) && (y =? snd ij))%Z eqn:E; [|exact Hxy].
  apply andb_true_iff in E as [E1 E2]. apply Z.eqb_eq in E1, E2. subst x y.
  assert (c = c0) by congruence. subst c. now rewrite E0.
- inversion Hc; subst m'. rewrite Hxy.
  destruct ((x =? fst ij) && (y =? snd ij))%Z eqn:E; [|reflexivity].
  apply andb_true_iff in E as [E1 E2]. apply Z.eqb_eq in E1, E2. subst x y.
  assert (c = c0) by congruence. subst c. now rewrite E0.
Qed.

(** The clearing pass reads every cell it visits. *)
Lemma clear_pass_reads (x y : Z) : forall (cells : list (Z * Z)) (m m' : Grid),
  Robot.for_each Coordinator.clear_marker cells m = Return m' ->
  Forall (fun ij => (0 <= fst ij)%Z /\ (0 <= snd ij)%Z) cells ->
  In (x, y) cells ->
  exists c, cell_get m x y = Return c.
Proof.
induction cells as [|ij cells IH]; intros m m' Hf Hall Hin; [destruct Hin|].
cbn [Robot.for_each] in Hf.
destruct (Coordinator.clear_marker m ij) as [m1| |] eqn:Hc; cbn [bind] in Hf;
  try discriminate.
inversion Hall as [|? ? [Hi Hj] Hall']; subst.
assert (Hxy : (0 <= x)%Z /\ (0 <= y)%Z).
{ rewrite Forall_forall in Hall. apply (Hall _ Hin). }
destruct Hxy as [Hx Hy].
destruct (@clear_marker_at _ _ _ x y Hc Hi Hj Hx Hy) as [Hread Hat].
destruct Hin as [->|Hin]; [exact Hread|].
destruct (IH _ _ Hf Hall' Hin) as [c1 Hc1].
destruct (cell_get m x y) as [c| |] eqn:Hg; eauto.
- unfold Coordinator.clear_marker in Hc.
  destruct Hread as [c0 Hc0]. rewrite Hc0 in Hc. cbn [bind] in Hc.
  destruct (Ascii.eqb c0 ROBOT).
  + rewrite (@cell_get_after_set _ _ _ _ _ x y Hc) in Hc1 by auto.
    destruct ((x =? fst ij) && (y =? snd ij))%Z eqn:E; [|congruence].
    apply andb_true_iff in E as [E1 E2]. apply Z.eqb_eq in E1, E2.
    subst x y. congruence.
  + inversion Hc; subst. congruence.
- unfold Coordinator.clear_marker in Hc.
  destruct Hread as [c0 Hc0]. rewrite Hc0 in Hc. cbn [bind] in Hc.
  destruct (Ascii.eqb c0 ROBOT).
  + rewrite (@cell_get_after_set _ _ _ _ _ x y Hc) in Hc1 by auto.
    destruct ((x =? fst ij) && (y =? snd ij))%Z eqn:E; [|congruence].
    apply andb_true_iff in E as [E1 E2]. apply Z.eqb_eq in E1, E2.
    subst x y. congruence.
  + inversion Hc; subst. congruence.
Qed.

(** After the clearing pass a visited cell holds no stale marker and every
    other symbol is as before. *)
Lemma clear_pass_at (x y : Z) : forall (cells : list (Z * Z)) (m m' : Grid) c,
  Robot.for_each Coordinator.clear_marker cells m = Return m' ->
  Forall (fun ij => (0 <= fst ij)%Z /\ (0 <= snd ij)%Z) cells ->
  (0 <= x)%Z -> (0 <= y)%Z ->
  cell_get m x y = Return c ->
  cell_get m' x y
  = Return (if existsb (fun ij => pos_eqb ij (x, y)) cells
            then (if Ascii.eqb c ROBOT then FREE else c) else c).
Proof.
induction cells as [|ij cells IH]; intros m m' c Hf Hall Hx Hy Hg;
  cbn [Robot.for_each] in Hf.
- inversion Hf; subst. exact Hg.
- destruct (Coordinator.clear_marker m ij) as [m1| |] eqn:Hc;
    cbn [bind] in Hf; try discriminate.
  inversion Hall as [|? ? [Hi Hj] Hall']; subst.
  destruct (@clear_marker_at _ _ _ x y Hc Hi Hj Hx Hy) as [_ Hat].
  specialize (Hat _ Hg).
  rewrite (IH _ _ _ Hf Hall' Hx Hy Hat). cbn [existsb].
  assert (Heq : pos_eqb ij (x, y) = ((x =? fst ij) && (y =? snd ij))%Z).
  { destruct ij as [i j]. unfold pos_eqb. cbn [fst snd].
    rewrite (Z.eqb_sym i x), (Z.eqb_sym j y). reflexivity. }
  rewrite Heq.
  destruct ((x =? fst ij) && (y =? snd ij))%Z; cbn [orb]; [|reflexivity].
  destruct (Ascii.eqb c ROBOT) eqn:Ec; [|rewrite Ec];
    destruct (existsb (fun ij0 => pos_eqb ij0 (x, y)) cells); reflexivity.
Qed.

(** After the marking pass a cell holds ['R'] if a registered position
    names it and is as before otherwise. *)
Lemma marks_at (x y : Z) : forall (reg : Robot.Registry) (m m' : Grid),
  Robot.for_each (fun m (e : Z * Pos) =>
                    cell_set m (fst (snd e)) (snd (snd e)) ROBOT) reg m
  = Return m' ->
  Forall (fun e : Z * Pos => (0 <= fst (snd e))%Z /\ (0 <= snd (snd e))%Z)
         reg ->
  (0 <= x)%Z -> (0 <= y)%Z ->
  cell_get m' x y
  = if existsb (fun e : Z * Pos => pos_eqb (snd e) (x, y)) reg
    then Return ROBOT else cell_get m x y.
Proof.
induction reg as [|e reg IH]; intros m m' Hf Hall Hx Hy;
  cbn [Robot.for_each] in Hf.
- inversion Hf; subst. reflexivity.
- destruct (cell_set m _ _ ROBOT) as [m1| |] eqn:Hs; cbn [bind] in Hf;
    try discriminate.
  inversion Hall as [|? ? [He1 He2] Hall']; subst.
  rewrite (IH _ _ Hf Hall' Hx Hy). cbn [existsb].
  rewrite (@cell_get_after_set _ _ _ _ _ x y Hs) by auto.
  assert (Heq : pos_eqb (snd e) (x, y)
                = ((x =? fst (snd e)) && (y =? snd (snd e)))%Z).
  { destruct (snd e) as [i j]. unfold pos_eqb. cbn [fst snd].
    rewrite (Z.eqb_sym i x), (Z.eqb_sym j y). reflexivity. }
  rewrite Heq.
  destruct ((x =? fst (snd e)) && (y =? snd (snd e)))%Z; cbn [orb];
    [|reflexivity].
  destruct (existsb (fun e0 : Z * Pos => pos_eqb (snd e0) (x, y)) reg);
    reflexivity.
Qed.

Lemma refresh_markers_cells reg (r r' : Robot.t) (x y : Z) :
  Coordinator.refresh_markers reg r = Return r' ->
  Forall (fun e : Z * Pos => (0 <= fst (snd e))%Z /\ (0 <= snd (snd e))%Z)
         reg ->
  Robot.inside r x y = true ->
  exists c, cell_get (Robot.local_map r) x y = Return c /\
            cell_get (Robot.local_map r') x y = Return (redrawn reg x y c).
Proof.
unfold Coordinator.refresh_markers. intros Hr Hreg Hin.
destruct (Robot.for_each Coordinator.clear_marker _ _) as [m1| |] eqn:H1;
  cbn [bind] in Hr; try discriminate.
destruct (Robot.for_each _ reg m1) as [m2| |] eqn:H2; cbn [bind] in Hr;
  try discriminate.
inversion Hr; subst r'. clear Hr.
pose proof Hin as Hb. unfold Robot.inside in Hb.
rewrite !andb_true_iff, !Z.leb_le, !Z.ltb_lt in Hb.
assert (Hcells : In (x, y)
                    (flat_map (fun i => map (fun j => (i, j))
                                            (zrange 0 (Robot.grid_cols r)))
                              (zrange 0 (Robot.grid_rows r)))).
{ apply in_flat_map. exists x. split; [apply zrange_In; lia|].
  apply in_map. apply zrange_In. lia. }
assert (Hnn : Forall (fun ij : Z * Z => (0 <= fst ij)%Z /\ (0 <= snd ij)%Z)
                (flat_map (fun i => map (fun j => (i, j))
                                        (zrange 0 (Robot.grid_cols r)))
                          (zrange 0 (Robot.grid_rows r)))).
{ apply Forall_forall. intros [i j] Hij. apply in_flat_map in Hij
    as (i' & Hi' & Hj'). apply in_map_iff in Hj' as (j' & E & Hj').
  inversion E; subst. apply zrange_In in Hi', Hj'. cbn [fst snd]. lia. }
destruct (@clear_pass_reads x y _ _ _ H1 Hnn Hcells) as [c Hc].
exists c. split; [exact Hc|].
assert (Hm : Robot.local_map (Robot.with_local_map r m2) = m2)
  by (destruct r; reflexivity).
rewrite Hm. rewrite (@marks_at x y _ _ _ H2 Hreg) by lia.
unfold redrawn. destruct (existsb _ reg); [reflexivity|].
rewrite (@clear_pass_at x y _ _ _ c H1 Hnn) by (auto; lia).
replace (existsb (fun ij => pos_eqb ij (x, y)) _) with true; [reflexivity|].
symmetry. apply existsb_exists. exists (x, y). split; [exact Hcells|].
unfold pos_eqb. cbn [fst snd]. now rewrite !Z.eqb_refl.
Qed.

(** X20: [update_all_robot_positions] redraws the robot markers on every
    robot's map.  When the registered positions have non-negative
    coordinates and the call returns, each robot is changed in its local map
    only, and every cell of the declared map holds ['R'] if some registered
    position names it, ['0'] if it held a marker that no registered position
    names any more, and what it held before otherwise. *)
Theorem update_redraws_markers (reg : Robot.Registry)
        (robots robots' : list Robot.t) :
  Coordinator.update_all_robot_positions reg robots = Return robots' ->
  Forall (fun e : Z * Pos => (0 <= fst (snd e))%Z /\ (0 <= snd (snd e))%Z)
         reg ->
  Forall2 (fun r r' =>
             r' = Robot.with_local_map r (Robot.local_map r') /\
             forall x y,
               Robot.inside r x y = true ->
               exists c,
                 cell_get (Robot.local_map r) x y = Return c /\
                 cell_get (Robot.local_map r') x y
                 = Return (redrawn reg x y c))
          robots robots'.
Proof.
intros Hu Hreg. unfold Coordinator.update_all_robot_positions in Hu.
apply (map_outcome_rel _
         (fun r r' =>
            r' = Robot.with_local_map r (Robot.local_map r') /\
            forall x y,
              Robot.inside r x y = true ->
              exists c,
                cell_get (Robot.local_map r) x y = Return c /\
                cell_get (Robot.local_map r') x y
                = Return (redrawn reg x y c))) in Hu; [exact Hu|].
intros r r' Hr. split.
- unfold Coordinator.refresh_markers in Hr.
  destruct (Robot.for_each Coordinator.clear_marker _ _) as [m1| |];
    cbn [bind] in Hr; try discriminate.
  destruct (Robot.for_each _ reg m1) as [m2| |]; cbn [bind] in Hr;
    try discriminate.
  inversion Hr; subst. destruct r; reflexivity.
- intros x y Hin. eapply refresh_markers_cells; eauto.
Qed.

Lemma update_redraws_markers_witness :
  exists robots',
    Coordinator.update_all_robot_positions [(1, (0, 1))]%Z corridor_team
    = Return robots' /\
    Forall2 (fun r r' =>
               r' = Robot.with_local_map r (Robot.local_map r') /\
               forall x y,
                 Robot.inside r x y = true ->
                 exists c,
                   cell_get (Robot.local_map r) x y = Return c /\
                   cell_get (Robot.local_map r') x y
                   = Return (redrawn [(1, (0, 1))]%Z x y c))
            corridor_team robots'.
Proof.
eexists. split; [vm_compute; reflexivity|].
apply update_redraws_markers; [vm_compute; reflexivity|].
repeat constructor; cbn; lia.
Defined.

(* ================================================================== *)
(** ** The path validators *)

Lemma pos_eqb_true (p q : Pos) : pos_eqb p q = true <-> p = q.
Proof.
unfold pos_eqb. rewrite andb_true_iff, !Z.eqb_eq.
destruct p, q; cbn [fst snd]. split; [intros [-> ->]; reflexivity|].
intros [= -> ->]. auto.
Qed.

Lemma adjacent_step_spec (prev curr : Pos) :
  adjacent_step prev curr = true <-> adjacent4 prev curr.
Proof.
unfold adjacent_step, adjacent4, manhattan.
rewrite orb_true_iff, !andb_true_iff, !Z.eqb_eq. lia.
Qed.

Lemma steps_adjacent_spec : forall path,
  steps_adjacent path = true <-> consecutive adjacent4 path.
Proof.
induction path as [|p path IH]; [cbn; tauto|].
destruct path as [|q path]; [cbn; tauto|].
change (steps_adjacent (p :: q :: path))
  with (if negb (adjacent_step p q) then false
        else steps_adjacent (q :: path)).
change (consecutive adjacent4 (p :: q :: path))
  with (adjacent4 p q /\ consecutive adjacent4 (q :: path)).
rewrite <- IH, <- adjacent_step_spec.
destruct (adjacent_step p q); cbn [negb]; intuition congruence.
Qed.

Lemma cell_passable (grid : Grid) (p : Pos) :
  passable grid p <->
  in_bounds grid p = true /\
  match grid_get grid p with
  | Some c => Ascii.eqb c OBSTACLE = false
  | None => False
  end.
Proof.
unfold passable. split.
- intros (Hb & c & Hc & Hne). rewrite Hc. auto.
- intros (Hb & Hc). split; auto.
  destruct (grid_get grid p) as [c|]; [eauto|contradiction].
Qed.

Lemma client_cells_free_spec (grid : Grid) : forall path,
  GeminiAPIClient.cells_free grid path = true <-> Forall (passable grid) path.
Proof.
induction path as [|p path IH]; cbn [GeminiAPIClient.cells_free].
- split; auto.
- rewrite Forall_cons_iff, <- IH, cell_passable.
  destruct (in_bounds grid p); cbn [negb]; [|intuition congruence].
  destruct (grid_get grid p) as [c|]; [|intuition congruence].
  destruct (Ascii.eqb c OBSTACLE); intuition congruence.
Qed.

Lemma comparing_cells_free_spec (grid : Grid) : forall path,
  Comparing.cells_free grid path = Return true <->
  Forall (passable grid) path.
Proof.
induction path as [|p path IH]; cbn [Comparing.cells_free].
- split; auto.
- rewrite Forall_cons_iff, <- IH, cell_passable.
  destruct (in_bounds grid p); cbn [negb]; [|intuition congruence].
  destruct (grid_get grid p) as [c|]; [|intuition congruence].
  destruct (Ascii.eqb c OBSTACLE); intuition congruence.
Qed.

Lemma connects_cons (start goal first : Pos) (path : list Pos) :
  connects start goal (first :: path) <->
  first = start /\ last (first :: path) first = goal /\
  consecutive adjacent4 (first :: path).
Proof.
unfold connects. cbn [hd_error]. split.
- intros (Hh & Hl & Hc). inversion Hh; subst. auto.
- intros (-> & Hl & Hc). auto.
Qed.

Lemma client_validate_spec (path : list Pos) (grid : Grid)
      (start goal : Pos) :
  GeminiAPIClient.validate_path path grid start goal = true <->
  connects start goal path /\ Forall (passable grid) path.
Proof.
unfold GeminiAPIClient.validate_path. destruct path as [|first path].
- split; [discriminate|]. intros [(Hh & _) _]. discriminate.
- rewrite connects_cons, <- steps_adjacent_spec, <- client_cells_free_spec.
  rewrite <- !pos_eqb_true.
  destruct (pos_eqb first start); cbn [negb]; [|intuition congruence].
  destruct (pos_eqb (last (first :: path) first) goal); cbn [negb];
    [|intuition congruence].
  destruct (GeminiAPIClient.cells_free grid (first :: path)); cbn [negb];
    intuition congruence.
Qed.

Lemma comparing_validate_spec (path : list Pos) (grid : Grid)
      (start goal : Pos) :
  Comparing.validate_path path grid start goal = Return true <->
  2 <= length path /\ connects start goal path /\
  Forall (passable grid) path.
Proof.
unfold Comparing.validate_path. destruct path as [|first path].
- split; [discriminate|]. intros [Hl _]. cbn in Hl. lia.
- rewrite connects_cons, <- steps_adjacent_spec,
    <- comparing_cells_free_spec.
  rewrite <- !pos_eqb_true.
  destruct (length (first :: path) <? 2) eqn:El.
  { apply Nat.ltb_lt in El. split; [discriminate|]. intros [Hl _]. lia. }
  apply Nat.ltb_ge in El.
  destruct (pos_eqb first start); cbn [negb orb]; [|intuition congruence].
  destruct (pos_eqb (last (first :: path) first) goal); cbn [negb];
    [|intuition congruence].
  destruct (Comparing.cells_free grid (first :: path)) as [[|]| |];
    cbn [bind negb]; intuition congruence.
Qed.

(** X21: [GeminiAPIClient.validate_path] accepts exactly the paths that
    start at [start], end at [goal], move by 4-adjacent steps and stay on
    cells inside the grid that are not obstacles (the start cell
    included). *)
Theorem client_validate_path_exact (path : list Pos) (grid : Grid)
        (start goal : Pos) :
  GeminiAPIClient.validate_path path grid start goal = true <->
  connects start goal path /\ Forall (passable grid) path.
Proof. apply client_validate_spec. Qed.

(** X22: [Comparing.validate_path] returns [True] exactly on the paths of
    at least two cells that start at [start], end at [goal], move by
    4-adjacent steps and stay on cells inside the grid that are not
    obstacles; in particular a raised [IndexError] never hides a path it
    would accept. *)
Theorem comparing_validate_path_exact (path : list Pos) (grid : Grid)
        (start goal : Pos) :
  Comparing.validate_path path grid start goal = Return true <->
  2 <= length path /\ connects start goal path /\
  Forall (passable grid) path.
Proof. apply comparing_validate_spec. Qed.

(** X23: the validators accept what the searches return.  A path
    returned by any of the five search variants from a start cell that is
    inside the grid and not an obstacle passes
    [GeminiAPIClient.validate_path]; [Comparing.validate_path] returns
    [True] on it when it has at least two cells, which is the case whenever
    [start] and [goal] differ, and [False] on a one-cell path. *)
Theorem returned_paths_validate (grid : Grid) (start goal : Pos)
        (path : list Pos) :
  returned_by grid start goal path -> passable grid start ->
  GeminiAPIClient.validate_path path grid start goal = true /\
  Comparing.validate_path path grid start goal
  = Return (2 <=? length path) /\
  (start <> goal -> 2 <= length path).
Proof.
intros Hr Hs. apply returned_by_valid in Hr as [Hc Ht].
assert (Hall : Forall (passable grid) path).
{ destruct Hc as (Hh & _). destruct path as [|p path]; [constructor|].
  cbn in Hh. inversion Hh; subst. constructor; auto. }
split; [apply client_validate_spec; auto|].
assert (Hlen : start <> goal -> 2 <= length path).
{ intros Hne. destruct Hc as (Hh & Hl & _).
  destruct path as [|p [|q path]]; cbn in *; try discriminate; [|lia].
  inversion Hh; subst. contradiction. }
split; [|exact Hlen].
destruct (2 <=? length path) eqn:El.
- apply Nat.leb_le in El. apply comparing_validate_spec. auto.
- apply Nat.leb_gt in El. unfold Comparing.validate_path.
  destruct path as [|p path]; [reflexivity|].
  replace (length (p :: path) <? 2) with true; [reflexivity|].
  symmetry. now apply Nat.ltb_lt.
Qed.

Lemma returned_paths_validate_witness :
  GeminiAPIClient.validate_path [(0, 0); (0, 1); (0, 2)]%Z corridor
                                (0, 0)%Z (0, 2)%Z = true /\
  Comparing.validate_path [(0, 0); (0, 1); (0, 2)]%Z corridor
                          (0, 0)%Z (0, 2)%Z = Return true.
Proof.
destruct (@returned_paths_validate corridor (0, 0)%Z (0, 2)%Z
            [(0, 0); (0, 1); (0, 2)]%Z) as (H1 & H2 & _).
- apply (@by_a_star _ _ _ _ Z _ manhattan_distance). vm_compute. reflexivity.
- split; [reflexivity|]. exists "0"%char. split; reflexivity.
- split; [exact H1|exact H2].
Defined.

(* ================================================================== *)
(** ** The learned heuristic *)

Lemma flat_map_length_const {A B : Type} (fn : A -> list B) (n : nat) :
  (forall a, length (fn a) = n) ->
  forall l, length (flat_map fn l) = length l * n.
Proof.
intros Hn. induction l as [|a l IH]; [reflexivity|].
cbn [flat_map length]. rewrite length_app, Hn, IH. lia.
Qed.

Lemma offsets_length (radius : Z) :
  (0 <= radius)%Z ->
  Z.of_nat (length (Robot.offsets radius)) = ((2 * radius + 1) ^ 2)%Z.
Proof.
intros Hr. unfold Robot.offsets.
rewrite (flat_map_length_const _ (n := Z.to_nat (2 * radius + 1))).
- rewrite zrange_length. replace (radius + 1 - - radius)%Z
    with (2 * radius + 1)%Z by lia. nia.
- intros dx. rewrite length_map, zrange_length. f_equal. lia.
Qed.

Lemma count_pass (grid : Grid) (x y : Z) :
  rectangular grid ->
  forall ds c0,
  exists c,
    Robot.for_each (count_obstacle grid x y) ds c0 = Return c /\
    (c0 <= c <= c0 + Z.of_nat (length ds))%Z /\
    (obstacle_free grid -> c = c0).
Proof.
intros Hrect. induction ds as [|d ds IH]; intros c0; cbn [Robot.for_each].
- exists c0. split; [reflexivity|]. split; [cbn; lia|auto].
- assert (Hstep : exists c1,
            count_obstacle grid x y c0 d = Return c1 /\
            (c0 <= c1 <= c0 + 1)%Z /\ (obstacle_free grid -> c1 = c0)).
  { unfold count_obstacle.
    destruct (in_bounds grid _) eqn:Hb.
    - destruct (rectangular_cell _ Hrect Hb) as [c Hc]. rewrite Hc.
      eexists. split; [reflexivity|]. split.
      + destruct (Ascii.eqb c OBSTACLE); lia.
      + intros Hfree.
        destruct (@open_field_cell _ _ Hrect Hfree Hb) as (c' & Hc' & Hne).
        assert (c' = c) by congruence. subst c'. now rewrite Hne.
    - exists c0. split; [reflexivity|]. split; [lia|auto]. }
  destruct Hstep as (c1 & Hc1 & Hb1 & Hf1). rewrite Hc1. cbn [bind].
  destruct (IH c1) as (c & Hc & Hb & Hf). exists c. split; [exact Hc|].
  split; [cbn [length]; lia|].
  intros Hfree. rewrite (Hf Hfree). auto.
Qed.

(** X24: [learned_heuristic] raises [IndexError] on the empty grid.  On a
    non-empty rectangular grid, with a non-negative radius and obstacle
    weight, it returns a value between [w2] times the Manhattan distance
    and that plus [w1 * (2 * radius + 1) ^ 2], and exactly [w2] times the
    Manhattan distance when the grid holds no obstacle. *)
Theorem learned_heuristic_range {K : Type} (node_a node_b : Node K)
        (grid : Grid) (radius w1 w2 : Z) :
  (grid = [] -> learned_heuristic node_a node_b grid radius w1 w2 = Raise) /\
  (grid <> [] -> rectangular grid -> (0 <= radius)%Z -> (0 <= w1)%Z ->
   exists v,
     learned_heuristic node_a node_b grid radius w1 w2 = Return v /\
     (w2 * manhattan_distance node_a node_b <= v
      <= w2 * manhattan_distance node_a node_b
         + w1 * (2 * radius + 1) ^ 2)%Z /\
     (obstacle_free grid -> v = (w2 * manhattan_distance node_a node_b)%Z)).
Proof.
split; [intros ->; reflexivity|].
intros Hne Hrect Hrad Hw. unfold learned_heuristic.
destruct grid as [|row grid]; [contradiction|].
destruct (position node_a) as [x y].
destruct (@count_pass (row :: grid) x y Hrect (Robot.offsets radius) 0%Z)
  as (c & Hc & Hb & Hf).
rewrite Hc. cbn [bind]. eexists. split; [reflexivity|].
rewrite offsets_length in Hb by auto. split; [nia|].
intros Hfree. rewrite (Hf Hfree). lia.
Qed.

Lemma learned_heuristic_range_witness :
  exists v,
    learned_heuristic (new_node (K:=Z) None (0, 0)%Z)
                      (new_node (K:=Z) None (2, 2)%Z) walled_field 3 3 1
    = Return v /\ (4 <= v <= 151)%Z.
Proof.
destruct (@learned_heuristic_range Z (new_node None (0, 0)%Z)
            (new_node None (2, 2)%Z) walled_field 3 3 1) as [_ H].
destruct H as (v & Hv & Hb & _).
- discriminate.
- repeat constructor.
- lia.
- lia.
- exists v. split; [exact Hv|]. exact Hb.
Defined.

(* ================================================================== *)
(** ** Weighted A* stays within its weight of the shortest path *)

Section WeightedPath.
Variable grid : Grid.
Variables start goal : Pos.
Variables a b : Z.
Variable hp : Pos -> Z.
Hypothesis Hb : (0 < b)%Z.
Hypothesis Hab : (b <= a)%Z.
Hypothesis Hcons : consistent grid hp.

Let mk : Node Z -> Pos -> Node Z := scaled_neighbor a b hp.
Let rank : Node Z -> Z := fun n => f n.

Lemma wrank_lt (x y : Node Z) : node_lt kltb x y = (rank x <? rank y)%Z.
Proof. reflexivity. Qed.

Lemma wp_fields cur pos :
  ancestors (mk cur pos) = pos :: ancestors cur /\
  position (mk cur pos) = pos /\ g (mk cur pos) = (g cur + 1)%Z /\
  f (mk cur pos) = (b * (g cur + 1) + a * hp pos)%Z.
Proof.
unfold mk, scaled_neighbor. repeat split; destruct cur; reflexivity.
Qed.

Lemma w_chain_frontier (open : list (Node Z)) (closed : list Pos) :
  (forall p m, In p closed -> In m MOVES ->
               passable grid (pos_add p m) ->
               In (pos_add p m) closed \/
               exists k,
                 0 < countP (cheap_at (pos_add p m) (k + 1)) open /\
                 forall l, good_chain grid start (p :: l) ->
                           (b * k <= a * Z.of_nat (length l))%Z) ->
  forall c, good_chain grid start c ->
  forall p l, c = p :: l -> ~ In p closed -> In start closed ->
  exists w, In w open /\ ~ In (position w) closed /\
            (b * g w + a * hp (position w)
             <= a * Z.of_nat (length l) + a * hp p)%Z.
Proof.
intros Hd c Hc.
induction Hc as [|p q l Hc IH Hadj Hpass]; intros p0 l0 E Hn Hs;
  inversion E; subst p0 l0; [contradiction|].
destruct (adjacent4_is_move (adjacent4_sym Hadj)) as (m & Hm & Ep).
subst p.
destruct (pos_mem q closed) eqn:Hq.
- apply pos_mem_In in Hq.
  destruct (Hd q m Hq Hm Hpass) as [Hin|(k & Hcnt & Hk)]; [contradiction|].
  apply countP_pos_In in Hcnt as (w & Hw & Ht).
  apply cheap_at_true in Ht as [Ew Hg].
  exists w. split; [exact Hw|]. rewrite Ew. split; [exact Hn|].
  specialize (Hk l Hc). cbn [length].
  rewrite Nat2Z.inj_succ.
  assert (b * g w <= b * (k + 1))%Z
    by (apply Z.mul_le_mono_nonneg_l; lia).
  lia.
- assert (Hnq : ~ In q closed).
  { intros Hin. apply pos_mem_In in Hin. congruence. }
  destruct (IH q l eq_refl Hnq Hs) as (w & Hw & Hnw & Hle).
  exists w. split; [exact Hw|]. split; [exact Hnw|].
  assert (Hk := Hcons). unfold consistent in Hk.
  specialize (Hk q m Hm Hpass). cbn [length]. rewrite Nat2Z.inj_succ.
  assert (a * hp q <= a * (1 + hp (pos_add q m)))%Z
    by (apply Z.mul_le_mono_nonneg_l; lia).
  lia.
Qed.

(** The node popped for a cell that is not closed yet costs at most
    [a / b] times any walk from start to that cell. *)
Lemma w_popped_bounded open closed n open1 :
  weighted_inv grid start a b hp open closed ->
  heappop (node_lt kltb) open = Some (n, open1) ->
  ~ In (position n) closed ->
  forall l, good_chain grid start (position n :: l) ->
            (b * g n <= a * Z.of_nat (length l))%Z.
Proof.
intros (Hall & Hheap & Hfirst & Hlater & Hd) Hp Hn l Hc.
pose proof (heappop_In _ _ Hp) as Hin.
rewrite Forall_forall in Hall.
destruct closed as [|c0 closed0] eqn:Ec.
- specialize (Hfirst eq_refl). rewrite Forall_forall in Hfirst.
  destruct (Hfirst n Hin) as [-> _]. nia.
- rewrite <- Ec in *.
  assert (Hs : In start closed) by (apply Hlater; rewrite Ec; discriminate).
  destruct (@w_chain_frontier open closed Hd _ Hc _ _ eq_refl Hn Hs)
    as (w & Hw & Hnw & Hle).
  destruct (@heappop_heap (Node Z) (node_lt kltb) rank wrank_lt
              open open1 n Hheap Hp) as [_ Hmin].
  specialize (Hmin w Hw). unfold rank in Hmin.
  destruct (Hall w Hw) as (_ & _ & [Hfw|[_ Hsw]]);
    [|rewrite Hsw in Hnw; contradiction].
  destruct (Hall n Hin) as (_ & _ & [Hfn|[_ Hsn]]);
    [|rewrite Hsn in Hn; contradiction].
  lia.
Qed.

Lemma w_mk_scaled cur m :
  scaled grid start a b hp cur -> In m MOVES ->
  passable grid (pos_add (position cur) m) ->
  scaled grid start a b hp (mk cur (pos_add (position cur) m)).
Proof.
intros (Hc & Hl & _) Hm Hpass.
destruct (wp_fields cur (pos_add (position cur) m)) as (Ea & Ep & Eg & Ef).
unfold scaled. rewrite Ea, Ep, Eg, Ef.
destruct (ancestors_head cur) as (l & E).
split; [|split; [cbn [length]; lia|left; reflexivity]].
rewrite E in *. constructor; auto. now apply adjacent4_move.
Qed.

Lemma w_expand cur closed :
  scaled grid start a b hp cur ->
  forall moves open open2,
    (forall m, In m moves -> In m MOVES) ->
    Forall (scaled grid start a b hp) open -> heap_ok rank open ->
    expand kltb mk grid cur closed moves open = Some open2 ->
    Forall (scaled grid start a b hp) open2 /\ heap_ok rank open2 /\
    (forall P, countP P open <= countP P open2) /\
    (forall m, In m moves -> passable grid (pos_add (position cur) m) ->
               In (pos_add (position cur) m) closed \/
               0 < countP (cheap_at (pos_add (position cur) m) (g cur + 1))
                          open2).
Proof.
intros Hcur. induction moves as [|m moves IH];
  intros open open2 Hin Hall Hheap He; cbn [expand] in He.
- inversion He; subst. repeat split; auto. intros m [].
- assert (Hin' : forall m', In m' moves -> In m' MOVES)
    by (intros; apply Hin; now right).
  set (q := pos_add (position cur) m) in *.
  destruct (in_bounds grid q) eqn:Hbd; cbn [negb] in He.
  2:{ destruct (IH _ _ Hin' Hall Hheap He) as (F & Hp & Cn & W).
      repeat split; auto. intros m' [<-|Hm'] Hpass; auto.
      destruct Hpass as [Hb' _]. fold q in Hb'. congruence. }
  destruct (grid_get grid q) as [c|] eqn:Hg; [|discriminate].
  destruct (Ascii.eqb c OBSTACLE) eqn:Hobs; cbn [orb] in He.
  { destruct (IH _ _ Hin' Hall Hheap He) as (F & Hp & Cn & W).
    repeat split; auto. intros m' [<-|Hm'] Hpass; auto.
    destruct Hpass as (_ & c' & Hg' & Hc'). fold q in Hg'. congruence. }
  destruct (pos_mem q closed) eqn:Hmem.
  { destruct (IH _ _ Hin' Hall Hheap He) as (F & Hp & Cn & W).
    repeat split; auto. intros m' [<-|Hm'] Hpass; auto.
    left. now apply pos_mem_In. }
  assert (Hq : passable grid q) by (split; eauto).
  assert (Hnew : scaled grid start a b hp (mk cur q))
    by (apply w_mk_scaled; auto; apply Hin; now left).
  destruct (IH (heappush (node_lt kltb) open (mk cur q)) open2 Hin')
    as (F & Hp & Cn & W); auto.
  { apply heappush_Forall; auto. }
  { apply heappush_heap with (rank := rank); auto. }
  split; [exact F|]. split; [exact Hp|]. split.
  + intros P. specialize (Cn P). rewrite heappush_count in Cn. lia.
  + intros m' [<-|Hm'] Hpass; auto. right. fold q.
    specialize (Cn (cheap_at q (g cur + 1))).
    rewrite heappush_count in Cn.
    assert (Ho : cheap_at q (g cur + 1) (mk cur q) = true).
    { apply cheap_at_true. destruct (wp_fields cur q) as (_ & -> & -> & _).
      split; [reflexivity|lia]. }
    rewrite Ho in Cn. lia.
Qed.

Lemma w_iteration open closed :
  weighted_inv grid start a b hp open closed ->
  match search_iteration kltb mk grid goal open closed with
  | Done res =>
      forall path, res = Return (Some path) ->
      forall l, good_chain grid start (goal :: l) ->
                (b * (Z.of_nat (length path) - 1)
                 <= a * Z.of_nat (length l))%Z
  | Next (open', closed') => weighted_inv grid start a b hp open' closed'
  end.
Proof.
intros Hinv. pose proof Hinv as (Hall & Hheap & Hfirst & Hlater & Hd).
unfold search_iteration.
destruct (heappop (node_lt kltb) open) as [[n open1]|] eqn:Hp;
  [|intros path E; discriminate].
destruct (heappop_Forall _ Hp Hall) as [Hn Hall1].
destruct (@heappop_heap (Node Z) (node_lt kltb) rank wrank_lt
            open open1 n Hheap Hp) as [Hheap1 _].
pose proof (heappop_In _ _ Hp) as Hnin.
assert (Hkeep : forall q k, 0 < countP (cheap_at q k) open ->
                  position n = q \/ 0 < countP (cheap_at q k) open1).
{ intros q k Hq. rewrite (@heappop_count _ _ (cheap_at q k) _ _ _ Hp) in Hq.
  destruct (cheap_at q k n) eqn:Ha; [left|right; lia].
  now apply cheap_at_true in Ha as [Ha _]. }
destruct (pos_mem (position n) closed) eqn:Hmem.
- (* an entry of a closed cell is dropped *)
  apply pos_mem_In in Hmem.
  split; [exact Hall1|]. split; [exact Hheap1|].
  split; [intros ->; destruct Hmem|]. split; [exact Hlater|].
  intros p m Hin Hm Hpass.
  destruct (Hd p m Hin Hm Hpass) as [?|(k & Hcnt & Hk)]; auto.
  destruct (Hkeep _ _ Hcnt) as [<-|?]; auto.
  right. exists k. auto.
- assert (Hnm : ~ In (position n) closed).
  { intros Hin. apply pos_mem_In in Hin. congruence. }
  pose proof (w_popped_bounded Hinv Hp Hnm) as Hopt.
  destruct (pos_eqb (position n) goal) eqn:Hgoal.
  + (* the goal is popped *)
    intros path E l Hc. inversion E; subst path.
    unfold reconstruct_path. rewrite length_rev.
    apply pos_eqb_eq in Hgoal. rewrite Hgoal in Hopt.
    specialize (Hopt l Hc). destruct Hn as (_ & Hlen & _).
    rewrite Hlen. replace (g n + 1 - 1)%Z with (g n) by lia. exact Hopt.
  + (* a new cell is closed and expanded *)
    fold mk.
    destruct (expand kltb mk grid n (position n :: closed) MOVES open1)
      as [open2|] eqn:Hx; [|intros path E; discriminate].
    destruct (@w_expand n (position n :: closed) Hn MOVES open1 open2
                (fun _ H => H) Hall1 Hheap1 Hx) as (F & Hh2 & Cn & W).
    split; [exact F|]. split; [exact Hh2|].
    split; [discriminate|]. split.
    * intros _. destruct closed as [|c0 closed0].
      -- specialize (Hfirst eq_refl). rewrite Forall_forall in Hfirst.
         destruct (Hfirst n Hnin) as [_ ->]. now left.
      -- right. apply Hlater. discriminate.
    * intros p m [<-|Hin] Hm Hpass.
      -- destruct (W m Hm Hpass) as [?|Hcnt]; [now left|right].
         exists (g n). split; [exact Hcnt|exact Hopt].
      -- destruct (Hd p m Hin Hm Hpass) as [?|(k & Hcnt & Hk)];
           [left; now right|].
         destruct (Hkeep _ _ Hcnt) as [<-|H1]; [left; now left|right].
         exists k. split; [|exact Hk].
         specialize (Cn (cheap_at (pos_add p m) (k + 1))). lia.
Qed.

Lemma w_loop : forall fuel open closed path,
  weighted_inv grid start a b hp open closed ->
  search_loop kltb mk grid fuel goal open closed = Return (Some path) ->
  forall l, good_chain grid start (goal :: l) ->
            (b * (Z.of_nat (length path) - 1) <= a * Z.of_nat (length l))%Z.
Proof.
induction fuel as [|fuel IH]; intros open closed path Hinv Hr;
  cbn [search_loop] in Hr; [discriminate|].
pose proof (w_iteration Hinv) as Hit.
destruct (search_iteration kltb mk grid goal open closed)
  as [res|[open' closed']].
- subst res. now apply Hit.
- eapply IH; eauto.
Qed.

Lemma w_start :
  weighted_inv grid start a b hp
               (heappush (node_lt kltb) [] (new_node (K:=Z) None start)) [].
Proof.
rewrite heappush_nil. split; [|split; [|split; [|split]]].
- constructor; [|constructor]. split; [constructor|].
  split; [reflexivity|]. right. split; reflexivity.
- intros i d Hi. cbn [length] in Hi. lia.
- intros _. constructor; [|constructor]. split; reflexivity.
- congruence.
- intros p m [].
Qed.
End WeightedPath.

(** Two best-first searches whose nodes carry the same chains and compare
    alike run in lockstep and give the same result. *)
Section BestFirstRel.
Context {K1 K2 : Type}.
Variable klt1 : K1 -> K1 -> bool.
Variable klt2 : K2 -> K2 -> bool.
Variable mk1 : Node K1 -> Pos -> Node K1.
Variable mk2 : Node K2 -> Pos -> Node K2.
Variable grid : Grid.
Variable R : Node K1 -> Node K2 -> Prop.
Hypothesis R_chain : forall x y, R x y -> ancestors x = ancestors y.
Hypothesis R_lt : forall x y x' y',
  R x x' -> R y y' -> node_lt klt1 x y = node_lt klt2 x' y'.
Hypothesis R_mk : forall c c' pos, R c c' -> R (mk1 c pos) (mk2 c' pos).

Lemma R_position x y : R x y -> position x = position y.
Proof.
intros Hr. apply R_chain in Hr.
destruct (ancestors_head x) as (l & E), (ancestors_head y) as (l' & E').
congruence.
Qed.

Lemma expand_rel closed : forall moves o1 o2 c1 c2,
  R c1 c2 -> Forall2 R o1 o2 ->
  match expand klt1 mk1 grid c1 closed moves o1,
        expand klt2 mk2 grid c2 closed moves o2 with
  | Some o1', Some o2' => Forall2 R o1' o2'
  | None, None => True
  | _, _ => False
  end.
Proof.
induction moves as [|m moves IH]; intros o1 o2 c1 c2 Hc Ho;
  cbn [expand]; [exact Ho|].
rewrite <- (R_position Hc).
destruct (in_bounds grid _); cbn [negb]; [|now apply IH].
destruct (grid_get grid _) as [c|]; [|exact I].
destruct (Ascii.eqb c OBSTACLE || pos_mem _ closed); [now apply IH|].
apply IH; auto.
apply (@heappush_rel _ _ (node_lt klt1) (node_lt klt2) R R_lt); auto.
Qed.

Lemma search_loop_rel (goal : Pos) : forall fuel o1 o2 closed,
  Forall2 R o1 o2 ->
  search_loop klt1 mk1 grid fuel goal o1 closed
  = search_loop klt2 mk2 grid fuel goal o2 closed.
Proof.
induction fuel as [|fuel IH]; intros o1 o2 closed Ho; cbn [search_loop];
  [reflexivity|].
unfold search_iteration.
pose proof (@heappop_rel _ _ (node_lt klt1) (node_lt klt2) R R_lt _ _ Ho) as Hp.
destruct (heappop (node_lt klt1) o1) as [[n1 t1]|],
         (heappop (node_lt klt2) o2) as [[n2 t2]|];
  try contradiction; [|reflexivity].
destruct Hp as [Hn Ht]. rewrite <- (R_position Hn).
destruct (pos_mem (position n1) closed); [now apply IH|].
destruct (pos_eqb (position n1) goal).
- unfold reconstruct_path. now rewrite (R_chain Hn).
- pose proof (@expand_rel (position n1 :: closed) MOVES t1 t2 n1 n2 Hn Ht)
    as He.
  destruct (expand klt1 mk1 grid n1 _ MOVES t1) as [o1'|],
           (expand klt2 mk2 grid n2 _ MOVES t2) as [o2'|];
    try contradiction; [|reflexivity].
  now apply IH.
Qed.
End BestFirstRel.

(** A node of the weighted search at rational costs and a node of the
    search on integer priorities that stand for each other. *)
Lemma scaled_order (b : positive) (x y : Q) (x' y' : Z) :
  (inject_Z (Zpos b) * x == inject_Z x')%Q ->
  (inject_Z (Zpos b) * y == inject_Z y')%Q ->
  negb (Qle_bool y x) = (x' <? y')%Z.
Proof.
intros Hx Hy.
assert (Hpos : (0 < inject_Z (Zpos b))%Q) by (unfold Qlt; cbn; lia).
assert (Hiff : (y <= x)%Q <-> (y' <= x')%Z).
{ rewrite <- (Qmult_le_l y x _ Hpos), Hx, Hy, <- Zle_Qle. reflexivity. }
destruct (Qle_bool y x) eqn:E; cbn [negb]; symmetry.
- apply Z.ltb_ge. apply Hiff. now apply Qle_bool_iff.
- apply Z.ltb_lt. apply Z.nle_gt. intros Hle. apply Hiff in Hle.
  apply Qle_bool_iff in Hle. congruence.
Qed.

(** X25: weighted A* stays within its weight of the optimum.  With costs
    as exact rationals, a weight [w >= 1] and a heuristic whose value is an
    integer function of the node's position that drops by at most one along
    a step (Manhattan distance is one), the path [weighted_a_star_search]
    returns has at most [w] times the steps of any sequence of 4-adjacent
    steps over passable cells from start to goal, although closed cells are
    never reopened. *)
Theorem weighted_a_star_within_weight (grid : Grid) (start goal : Pos)
        (hf : Node Q -> Node Q -> Q) (hp : Pos -> Z) (w : Q)
        (path other : list Pos) :
  (forall n, hf n (new_node None goal) = inject_Z (hp (position n))) ->
  consistent grid hp -> (1 <= w)%Q ->
  weighted_a_star_search hf grid start goal w = Return (Some path) ->
  connects start goal other -> Forall (passable grid) (tl other) ->
  (inject_Z (path_cost path) <= w * inject_Z (path_cost other))%Q.
Proof.
intros Hhf Hcons Hw Hr Hc Hp.
destruct (chain_of_path Hc Hp) as (l & Hchain & Hlen).
destruct w as [a b].
assert (Hab : (Zpos b <= a)%Z) by (unfold Qle in Hw; cbn in Hw; lia).
unfold weighted_a_star_search, best_first in Hr.
set (R := fun (x : Node Q) (y : Node Z) =>
            ancestors x = ancestors y /\ g x = g y /\
            (inject_Z (Zpos b) * f x == inject_Z (f y))%Q).
rewrite (@search_loop_rel Q Z kltb kltb
           (weighted_neighbor hf (Qmake a b) (new_node None goal))
           (scaled_neighbor a (Zpos b) hp) grid R) with
    (o2 := heappush (node_lt kltb) [] (new_node (K:=Z) None start)) in Hr.
- assert (Hb : (0 < Zpos b)%Z) by lia.
  pose proof (@w_loop grid start goal a (Zpos b) hp Hb Hab Hcons
                _ _ _ path (w_start grid start a (Zpos b) hp) Hr l Hchain)
    as Hle.
  unfold path_cost. rewrite <- Hlen. cbn [length].
  rewrite Nat2Z.inj_succ.
  replace (Z.succ (Z.of_nat (length l)) - 1)%Z with (Z.of_nat (length l))
    by lia.
  unfold Qle, Qmult, inject_Z. cbn [Qnum Qden].
  rewrite Pos.mul_1_r. lia.
- intros x y (E & _). exact E.
- intros x y x' y' (_ & _ & Ex) (_ & _ & Ey).
  unfold node_lt. cbn [kltb Cost_Q Cost_Z].
  eapply scaled_order; eauto.
- intros c c' pos (Ea & Eg & Ef). unfold R.
  split; [destruct c, c'; cbn in *; congruence|].
  split; [destruct c, c'; cbn in *; congruence|].
  assert (Hh : hf (set_g (new_node (Some c) pos) (g c + 1))
                  (new_node None goal) = inject_Z (hp pos)).
  { rewrite Hhf. destruct c; reflexivity. }
  assert (Ef1 : f (weighted_neighbor hf (Qmake a b) (new_node None goal)
                                     c pos)
                = Qplus (inject_Z (g c + 1))
                        (Qmult (hf (set_g (new_node (Some c) pos) (g c + 1))
                                   (new_node None goal)) (Qmake a b)))
    by (destruct c; reflexivity).
  assert (Ef2 : f (scaled_neighbor a (Zpos b) hp c' pos)
                = (Zpos b * (g c' + 1) + a * hp pos)%Z)
    by (destruct c'; reflexivity).
  rewrite Ef1, Ef2, Hh, Eg.
  unfold Qeq, Qmult, Qplus, inject_Z. cbn [Qnum Qden].
  rewrite !Pos.mul_1_l. ring.
- rewrite !heappush_nil. constructor; [|constructor].
  split; [reflexivity|]. split; [reflexivity|]. cbn. reflexivity.
Qed.

Lemma weighted_a_star_within_weight_witness :
  exists path,
    weighted_a_star_search
      (fun x y : Node Q => inject_Z (manhattan_distance x y))
      scenario_grid (0, 0)%Z (2, 2)%Z (3 # 2)%Q = Return (Some path) /\
    (inject_Z (path_cost path)
     <= (3 # 2) * inject_Z (path_cost [(0, 0); (1, 0); (2, 0); (2, 1);
                                       (2, 2)]%Z))%Q.
Proof.
eexists. split; [vm_compute; reflexivity|].
apply (@weighted_a_star_within_weight scenario_grid (0, 0)%Z (2, 2)%Z
         (fun x y : Node Q => inject_Z (manhattan_distance x y))
         (fun p => manhattan p (2, 2)%Z)).
- intros n. reflexivity.
- apply manhattan_consistent.
- unfold Qle. cbn. lia.
- vm_compute. reflexivity.
- repeat split; reflexivity.
- repeat constructor; eexists; split; reflexivity.
Defined.
